(** * Causal inflation: the monomial registry, symmetrisation and valuation

    A shallow embedding of the parts of [InflationSDP.py] (SDP engine) and
    [InflationLP.py] (LP engine) that intern monomials, quotient the moment
    matrix by the inflation symmetries, and bind numerical values and bounds.

    Conventions of the embedding.
    - Python floats are modelled by exact rationals [Q]; [np.isclose] is its
      defining inequality evaluated exactly (rounding and NaN are outside the
      model).
    - Python dictionaries keyed by monomials are [gmap]s; a dictionary that is
      iterated in insertion order is a list of (key, value) pairs.
    - A call that can raise returns [exn + A]; [inl e] is the raised exception.
    - Functions of the repository that live in modules outside the two engine
      files ([fast_npa], [general_tools], [monomial_classes], the
      [InflationProblem] object) are section variables, or are modelled from
      the specification where a concrete run needs them. *)

From Stdlib Require Import ZArith QArith Qabs List Bool Arith Lia Sorted.
From stdpp Require Import gmap strings list fin_maps.
Import ListNotations.

Set Warnings "-clear-no-such-hyp".

(** ** Numbers and exceptions *)

Module Num.

(** [np.isclose(a, b)] with the default tolerances:
    [absolute(a - b) <= atol + rtol * absolute(b)]. *)
Definition rtol : Q := (1 # 100000)%Q.
Definition atol : Q := (1 # 100000000)%Q.

Definition isclose (a b : Q) : bool :=
  Qle_bool (Qabs (a - b)) (atol + rtol * Qabs b)%Q.

End Num.

(** The exceptions the modelled code raises. *)
Inductive exn : Type :=
| ConstantMonomialError   (* raise Exception("Constant monomial ... can only be ...") *)
| UnsupportedTypeError    (* raise Exception("sanitise_monomial: ... is not supported.") *)
| NotAtomicError          (* raise Exception("set_values: The monomial ... is not an atomic monomial ...") *)
| AssertionError          (* a failed [assert] *)
| KeyError                (* a missing dictionary key *)
| IndexError              (* an index outside an array *)
| TypeError               (* e.g. unpacking a non-iterable *)
| ValueError              (* e.g. [np.min] of an empty array *)
| OtherError.             (* an exception of a function outside the two files *)

Definition result (A : Type) : Type := (exn + A)%type.

Definition bind {A B : Type} (r : result A) (k : A -> result B) : result B :=
  match r with
  | inl e => inl e
  | inr a => k a
  end.

Notation "'try' x <- r 'in' k" := (bind r (fun x => k))
  (at level 10, x name, r at level 100, k at level 200).

Definition raises {A : Type} (r : result A) : Prop := exists e, r = inl e.
Definition returns {A : Type} (r : result A) (a : A) : Prop := r = inr a.

(** [d[k]] on a dictionary: [KeyError] when the key is missing. *)
Definition getitem `{Countable K} {V : Type} (d : gmap K V) (k : K) : result V :=
  match d !! k with
  | Some v => inr v
  | None => inl KeyError
  end.

(** [del d[k]]. *)
Definition delitem `{Countable K} {V : Type} (d : gmap K V) (k : K) : result (gmap K V) :=
  match d !! k with
  | Some _ => inr (delete k d)
  | None => inl KeyError
  end.

(** A [for] loop whose body can raise: the first exception ends the loop. *)
Fixpoint for_each {A S : Type} (body : A -> S -> result S) (l : list A) (s : S)
  : result S :=
  match l with
  | [] => inr s
  | x :: l' => try s' <- body x s in for_each body l' s'
  end.

(** The run-time type of the object handed to [_sanitise_monomial], in the
    order of the [isinstance] tests. *)
Inductive py_input (mon atom sym arr : Type) : Type :=
| InCompound (m : mon)       (* CompoundMonomial / CompoundMoment *)
| InAtomic (a : atom)        (* InternalAtomicMonomial *)
| InSymbol (s : sym)         (* sympy Symbol, Pow or Mul *)
| InArray (a : arr)          (* tuple, list or ndarray *)
| InStr (name : string)      (* str *)
| InReal (x : Q)             (* numbers.Real *)
| InOther.                   (* anything else *)
Arguments InCompound {mon atom sym arr} m.
Arguments InAtomic {mon atom sym arr} a.
Arguments InSymbol {mon atom sym arr} s.
Arguments InArray {mon atom sym arr} a.
Arguments InStr {mon atom sym arr} name.
Arguments InReal {mon atom sym arr} x.
Arguments InOther {mon atom sym arr}.

(** The three answers of [evaluate_given_atomic_monomials_dict] / [evaluate]. *)
Inductive known_status : Type := StatusYes | StatusSemi | StatusNo.

(** ** Lists as NumPy arrays *)

Module Np.

(** [a[i]] on an array: [IndexError] outside the array. *)
Definition item {A : Type} (a : list A) (i : nat) : result A :=
  match a !! i with
  | Some x => inr x
  | None => inl IndexError
  end.

(** [[f(x) for x in l]] where [f] can raise. *)
Fixpoint map_result {A B : Type} (f : A -> result B) (l : list A)
  : result (list B) :=
  match l with
  | [] => inr []
  | x :: l' =>
      try y <- f x in
      try ys <- map_result f l' in
      inr (y :: ys)
  end.

(** Fancy indexing [a[idx]] with an array of indices. *)
Definition take {A : Type} (a : list A) (idx : list nat) : result (list A) :=
  map_result (item a) idx.

(** Lexicographic comparison of rows, first column most significant. *)
Fixpoint lex_compare {A : Type} (cmp : A -> A -> comparison) (r1 r2 : list A)
  : comparison :=
  match r1, r2 with
  | [], [] => Eq
  | [], _ :: _ => Lt
  | _ :: _, [] => Gt
  | x :: r1', y :: r2' =>
      match cmp x y with
      | Eq => lex_compare cmp r1' r2'
      | c => c
      end
  end.

Definition lex_leb {A : Type} (cmp : A -> A -> comparison) (r1 r2 : list A)
  : bool :=
  match lex_compare cmp r1 r2 with
  | Gt => false
  | _ => true
  end.

(** [False < True]. *)
Definition bool_compare (a b : bool) : comparison :=
  match a, b with
  | false, true => Lt
  | true, false => Gt
  | _, _ => Eq
  end.

(** A stable sort: insertion from the right, an element going in front of
    the elements it is not greater than. *)
Fixpoint insert_sorted {A : Type} (leb : A -> A -> bool) (x : A) (l : list A)
  : list A :=
  match l with
  | [] => [x]
  | y :: l' => if leb x y then x :: y :: l' else y :: insert_sorted leb x l'
  end.

Definition sort {A : Type} (leb : A -> A -> bool) (l : list A) : list A :=
  foldr (insert_sorted leb) [] l.

(** The first element of every run of equal elements of a sorted list. *)
Fixpoint dedup_from {A : Type} (eqb : A -> A -> bool) (prev : A) (l : list A)
  : list A :=
  match l with
  | [] => []
  | y :: l' => if eqb prev y then dedup_from eqb prev l'
               else y :: dedup_from eqb y l'
  end.

Definition dedup_adjacent {A : Type} (eqb : A -> A -> bool) (l : list A)
  : list A :=
  match l with
  | [] => []
  | x :: l' => x :: dedup_from eqb x l'
  end.

Definition rows_eqb (r1 r2 : list nat) : bool :=
  match lex_compare Nat.compare r1 r2 with
  | Eq => true
  | _ => false
  end.

(** [np.unique(rows, axis=0)]: the distinct rows, sorted. *)
Definition unique_rows (rows : list (list nat)) : list (list nat) :=
  dedup_adjacent rows_eqb (sort (lex_leb Nat.compare) rows).

(** [np.lexsort(rows.T[::-1])]: the indices that sort the rows
    lexicographically with the first column as the primary key; the sort is
    stable. *)
Definition lexsort_rows {A : Type} (cmp : A -> A -> comparison)
  (rows : list (list A)) : list nat :=
  (sort (fun p q => lex_leb cmp (fst p) (fst q))
        (zip rows (seq 0 (length rows)))).*2.

(** [np.unique(a, return_index=True)] on a flat array: the distinct values
    in increasing order, each with the index of its first occurrence. *)
Definition unique_with_index (a : list nat) : list (nat * nat) :=
  dedup_adjacent (fun p q => Nat.eqb (fst p) (fst q))
    (sort (fun p q => Nat.leb (fst p) (fst q)) (zip a (seq 0 (length a)))).

(** The position of a value in a list. *)
Fixpoint index_of (x : nat) (l : list nat) : option nat :=
  match l with
  | [] => None
  | y :: l' => if Nat.eqb x y then Some 0
               else S <$> index_of x l'
  end.

(** The third result of [np.unique(a, return_inverse=True)]: for every
    element the position of its value among the distinct values. *)
Definition unique_inverse (a : list nat) : list nat :=
  let u := (unique_with_index a).*1 in
  map (fun x => default 0 (index_of x u)) a.

(** [itertools.permutations(l)]: all orderings of [l], each built by picking
    the elements from left to right. *)
Fixpoint picks {A : Type} (l : list A) : list (A * list A) :=
  match l with
  | [] => []
  | x :: l' => (x, l') :: map (fun p => (fst p, x :: snd p)) (picks l')
  end.

Fixpoint permutations_fuel {A : Type} (fuel : nat) (l : list A)
  : list (list A) :=
  match fuel with
  | O => [[]]
  | S fuel' =>
      match l with
      | [] => [[]]
      | _ => flat_map (fun p => map (cons (fst p))
                                  (permutations_fuel fuel' (snd p)))
               (picks l)
      end
  end.

Definition permutations {A : Type} (l : list A) : list (list A) :=
  permutations_fuel (length l) l.

End Np.

(** ** Objects of the monomial classes

    [InternalAtomicMonomial] and [CompoundMonomial] / [CompoundMoment] are
    classes of [monomial_classes].  An instance is modelled by its address
    (what Python's [is] compares) and the data it was built from. *)

Record atom_obj (payload : Type) : Type := mkAtom {
  atom_addr : nat;
  atom_data : payload
}.
Arguments mkAtom {payload} _ _.
Arguments atom_addr {payload} _.
Arguments atom_data {payload} _.

(** A compound monomial is mutable: [attach_idx] writes its [idx]; [None] is
    an index never written. *)
Record compound_obj (payload : Type) : Type := mkCompound {
  factors : list (atom_obj payload);
  idx : option Z
}.
Arguments mkCompound {payload} _ _.
Arguments factors {payload} _.
Arguments idx {payload} _.

(** [mon.attach_idx(idx)] / [mon.attach_idx_to_mon(idx)]: as in the sketch the
    SDP file keeps in a comment next to its constructors,
    [if idx >= 0: mon.idx = idx]. *)
Definition attach_idx {payload : Type} (i : Z) (c : compound_obj payload)
  : compound_obj payload :=
  if (0 <=? i)%Z then mkCompound (factors c) (Some i) else c.

(** * Part I.  The embedded code *)

(** ** The SDP engine: values, bounds and objective ([InflationSDP.py]) *)

Module InflationSDP.

Section Valuation.
Context {mon : Type} `{Countable mon}.
Context {atom : Type} `{Countable atom}.
Context {key : Type}.

(** [self.Zero], [self.One]. *)
Variables Zero One : mon.

(** What the valuation code reads from the classes of [monomial_classes] and
    from the registry. *)
Variable _sanitise_monomial : key -> result mon.
Variable is_atomic : mon -> bool.
Variable knowable_q : mon -> bool.
Variable len : mon -> nat.
Variable knowable_factors_0 : mon -> result atom.
Variable evaluate_given_atomic_monomials_dict :
  mon -> gmap atom Q -> bool -> Q * list atom * known_status.
Variable monomial_from_list_of_atomic : list atom -> mon.
(** How a [CompoundMonomial] unpacks into two names, if it does. *)
Variable unpack_monomial : mon -> result (Q * mon).

(** The attributes of the engine the valuation code reads and writes.  The
    [..._name_dict] attributes mirror these dictionaries under the monomial
    names ("for compatibility purposes only") and are left out. *)
Record state : Type := mkState {
  supports_problem : bool;
  momentmatrix_has_a_zero : bool;
  momentmatrix_has_a_one : bool;
  list_of_monomials : list mon;
  use_lpi_constraints : bool;
  known_moments : gmap mon Q;
  semiknown_moments : gmap mon (Q * mon);
  moment_lowerbounds : gmap mon Q;
  _processed_moment_lowerbounds : gmap mon Q;
  objective : gmap mon Q;
  _processed_objective : gmap mon Q
}.

Definition with_use_lpi (b : bool) (s : state) : state :=
  mkState (supports_problem s) (momentmatrix_has_a_zero s)
    (momentmatrix_has_a_one s) (list_of_monomials s) b
    (known_moments s) (semiknown_moments s) (moment_lowerbounds s)
    (_processed_moment_lowerbounds s) (objective s) (_processed_objective s).

Definition with_known (k : gmap mon Q) (s : state) : state :=
  mkState (supports_problem s) (momentmatrix_has_a_zero s)
    (momentmatrix_has_a_one s) (list_of_monomials s) (use_lpi_constraints s)
    k (semiknown_moments s) (moment_lowerbounds s)
    (_processed_moment_lowerbounds s) (objective s) (_processed_objective s).

Definition with_semiknown (k : gmap mon (Q * mon)) (s : state) : state :=
  mkState (supports_problem s) (momentmatrix_has_a_zero s)
    (momentmatrix_has_a_one s) (list_of_monomials s) (use_lpi_constraints s)
    (known_moments s) k (moment_lowerbounds s)
    (_processed_moment_lowerbounds s) (objective s) (_processed_objective s).

Definition with_lowerbounds (k : gmap mon Q) (s : state) : state :=
  mkState (supports_problem s) (momentmatrix_has_a_zero s)
    (momentmatrix_has_a_one s) (list_of_monomials s) (use_lpi_constraints s)
    (known_moments s) (semiknown_moments s) k
    (_processed_moment_lowerbounds s) (objective s) (_processed_objective s).

Definition with_processed_lowerbounds (k : gmap mon Q) (s : state) : state :=
  mkState (supports_problem s) (momentmatrix_has_a_zero s)
    (momentmatrix_has_a_one s) (list_of_monomials s) (use_lpi_constraints s)
    (known_moments s) (semiknown_moments s) (moment_lowerbounds s)
    k (objective s) (_processed_objective s).

Definition with_processed_objective (k : gmap mon Q) (s : state) : state :=
  mkState (supports_problem s) (momentmatrix_has_a_zero s)
    (momentmatrix_has_a_one s) (list_of_monomials s) (use_lpi_constraints s)
    (known_moments s) (semiknown_moments s) (moment_lowerbounds s)
    (_processed_moment_lowerbounds s) (objective s) k.

(** [reset_values]. *)
Definition reset_values (s : state) : state :=
  let s := with_processed_lowerbounds ∅ (with_semiknown ∅ (with_known ∅ s)) in
  if momentmatrix_has_a_zero s
  then with_known (<[Zero := 0%Q]> (known_moments s)) s
  else s.

(** [update_physical_lowerbounds]:
    [for mon in set(lowerbounds.keys()).difference(known.keys())]. *)
Definition update_physical_lowerbounds (s : state) : state :=
  let todo := elements (dom (moment_lowerbounds s) ∖ dom (known_moments s)) in
  with_processed_lowerbounds
    (foldl (fun acc m =>
              match moment_lowerbounds s !! m with
              | Some v => <[m := v]> acc
              | None => acc
              end)
           (_processed_moment_lowerbounds s) todo) s.

(** An element met when iterating over the tuple stored in
    [semiknown_moments]: the number, then the monomial. *)
Inductive tuple_item : Type :=
| ItemFloat (x : Q)
| ItemMonomial (m : mon).

(** [(k, v2) = item]: a float does not unpack. *)
Definition unpack_item (it : tuple_item) : result (Q * mon) :=
  match it with
  | ItemFloat _ => inl TypeError
  | ItemMonomial m => unpack_monomial m
  end.

(** The first loop of [_update_objective], over the known monomials of the
    objective other than the unit. *)
Definition substitute_known (known : gmap mon Q) (m : mon) (po : gmap mon Q)
  : result (gmap mon Q) :=
  try value <- getitem known m in
  try unit_coeff <- getitem po One in
  try c <- getitem po m in
  delitem (<[One := (unit_coeff + c * value)%Q]> po) m.

(** The body of the second loop, for one semiknown monomial [v1]:
    [for (k, v2) in self.semiknown_moments[v1]]. *)
Definition substitute_semiknown (semiknown : gmap mon (Q * mon)) (v1 : mon)
  (po : gmap mon Q) : result (gmap mon Q) :=
  try c1 <- getitem po v1 in
  try pair <- getitem semiknown v1 in
  for_each (fun it po =>
              try kv <- unpack_item it in
              let '(k, v2) := kv in
              delitem (<[v2 := (default 0%Q (po !! v2) + c1 * k)%Q]> po) v1)
           [ItemFloat (fst pair); ItemMonomial (snd pair)] po.

(** [_update_objective]. *)
Definition _update_objective (s : state) : result state :=
  let po := objective s in
  let known_keys_to_process :=
    elements ((dom (known_moments s) ∩ dom po) ∖ {[One]}) in
  try po <- for_each (substitute_known (known_moments s))
              known_keys_to_process po in
  let semiknown_keys_to_process :=
    elements (dom (semiknown_moments s) ∩ dom po) in
  try po <- for_each (substitute_semiknown (semiknown_moments s))
              semiknown_keys_to_process po in
  inr (with_processed_objective po s).

(** The supports block of [cleanup_after_set_values]:
    [for mon in nonzero_known_monomials]. *)
Definition nonzero_known_monomials (known : gmap mon Q) : list mon :=
  (filter (fun kv => negb (Num.isclose (snd kv) 0)) (map_to_list known)).*1.

Definition supports_step (m : mon) (s : state) : result state :=
  let s := with_lowerbounds (<[m := 1%Q]> (moment_lowerbounds s)) s in
  try k <- delitem (known_moments s) m in
  inr (with_known k s).

(** [cleanup_after_set_values]. *)
Definition cleanup_after_set_values (s : state) : result state :=
  try s <- (if supports_problem s
            then try s' <- for_each supports_step
                             (nonzero_known_monomials (known_moments s)) s in
                 inr (with_semiknown ∅ s')
            else inr s) in
  _update_objective (update_physical_lowerbounds s).

(** The loop of [set_values] that stores the values given by the user;
    [None] is a NaN value. *)
Definition store_value (kv : key * option Q) (s : state) : result state :=
  match snd kv with
  | None => inr s
  | Some v =>
      try m <- _sanitise_monomial (fst kv) in
      inr (with_known (<[m := v]> (known_moments s)) s)
  end.

(** The two consistency checks of [set_values]. *)
Definition check_all (p : mon -> bool) (s : state) : result state :=
  if forallb p (elements (dom (known_moments s))) then inr s
  else inl NotAtomicError.

(** [atomic_known_moments]. *)
Definition atomic_known_moments (s : state) : result (gmap atom Q) :=
  for_each (fun kv acc =>
              if Nat.eqb (len (fst kv)) 1
              then try a <- knowable_factors_0 (fst kv) in
                   inr (<[a := snd kv]> acc)
              else inr acc)
           (map_to_list (known_moments s)) ∅.

(** The loop of [set_values] over the remaining monomials. *)
Definition infer_value (atomic_known : gmap atom Q) (m : mon) (s : state) : state :=
  match known_moments s !! m with
  | Some _ => s
  | None =>
      let '(value, unknown_atomic_factors, status) :=
        evaluate_given_atomic_monomials_dict m atomic_known
          (use_lpi_constraints s) in
      match status with
      | StatusYes => with_known (<[m := value]> (known_moments s)) s
      | StatusSemi =>
          if use_lpi_constraints s
          then with_semiknown
                 (<[m := (value,
                          monomial_from_list_of_atomic unknown_atomic_factors)]>
                    (semiknown_moments s)) s
          else s
      | StatusNo => s
      end
  end.

(** [set_values]; [values = None] is Python's [None]. *)
Definition set_values (values : option (list (key * option Q)))
  (use_lpi normalised only_knowable_moments only_specified_values : bool)
  (s : state) : result state :=
  let s := reset_values s in
  let s := if normalised && momentmatrix_has_a_one s
           then with_known (<[One := 1%Q]> (known_moments s)) s else s in
  match values with
  | None | Some [] => cleanup_after_set_values s
  | Some values =>
      let s := with_use_lpi use_lpi s in
      try s <- for_each store_value values s in
      try s <- (if only_specified_values then inr s
                else check_all is_atomic s) in
      try s <- (if only_knowable_moments then check_all knowable_q s
                else inr s) in
      if only_specified_values then cleanup_after_set_values s
      else
        try atomic_known <- atomic_known_moments s in
        let remaining :=
          if only_knowable_moments
          then filter (fun m => negb (is_atomic m) && knowable_q m)
                 (list_of_monomials s)
          else filter (fun m => negb (is_atomic m)) (list_of_monomials s) in
        cleanup_after_set_values
          (foldl (fun s m => infer_value atomic_known m s) s remaining)
  end.

(** [set_distribution]: the values of the knowable atomic monomials are
    computed from the distribution by [compute_marginal] (a method of the
    monomial class) and handed to [set_values]. *)
Definition set_distribution {distribution : Type}
  (knowable_values : distribution -> list (key * option Q))
  (prob_array : option distribution)
  (use_lpi_constraints assume_shared_randomness : bool) (s : state)
  : result state :=
  set_values
    (Some match prob_array with
          | Some p => knowable_values p
          | None => []
          end)
    use_lpi_constraints true (negb use_lpi_constraints)
    assume_shared_randomness s.

End Valuation.

(** *** [_sanitise_monomial] *)

Section Sanitise.
Context {mon atom sym arr : Type}.
Variables Zero One : mon.
(** [self.compound_monomial_from_name_dict]. *)
Variable compound_monomial_from_name_dict : gmap string mon.
(** Parsers and registry functions the branches call. *)
Variable symbol_to_array : sym -> arr.
Variable name_to_array : string -> arr.
Variable shape_ok : arr -> bool.
Variable to_canonical : arr -> arr.
Variable mon_is_zero : arr -> bool.
Variable Monomial : arr -> mon.

(** The branch for tuples, lists and arrays. *)
Definition sanitise_array (a : arr) : result mon :=
  if negb (shape_ok a) then inl AssertionError
  else
    let canon := to_canonical a in
    if mon_is_zero canon then inr Zero else inr (Monomial canon).

(** [InflationSDP._sanitise_monomial].  The SDP engine has no branch for
    [InternalAtomicMonomial]: such an object reaches the final [else]. *)
Definition _sanitise_monomial (x : py_input mon atom sym arr) : result mon :=
  match x with
  | InCompound m => inr m
  | InSymbol s => sanitise_array (symbol_to_array s)
  | InArray a => sanitise_array a
  | InStr name =>
      match compound_monomial_from_name_dict !! name with
      | Some m => inr m
      | None => sanitise_array (name_to_array name)
      end
  | InReal v =>
      if Num.isclose v 1 then inr One
      else if Num.isclose v 0 then inr Zero
      else inl ConstantMonomialError
  | InAtomic _ | InOther => inl UnsupportedTypeError
  end.

End Sanitise.

(** *** [_calculate_inflation_symmetries] *)

Section CalculateSymmetries.
Context {arr bytes : Type}.
Variable from_2dndarray : arr -> bytes.
(** From [general_tools]. *)
Variable apply_source_permutation_coord_input :
  list arr -> nat -> list nat -> list arr.
Variable find_permutation : list bytes -> list bytes -> result (list nat).

(** The text of the warning. *)
Definition not_closed_warning : string :=
  "The generating set is not closed under source swaps.Some symmetries will not be implemented.".

Definition pair_leb (p q : nat * list nat) : bool :=
  match Nat.compare (fst p) (fst q) with
  | Lt => true
  | Gt => false
  | Eq => Np.lex_leb Nat.compare (snd p) (snd q)
  end.

(** [sorted([(source, permutation) for source in range(n_sources)
             for permutation in itertools.permutations(range(inflevel[source]))])] *)
Definition source_permutations (inflation_levels : list nat)
  : list (nat * list nat) :=
  Np.sort pair_leb
    (flat_map (fun source =>
                 map (fun permutation => (source, permutation))
                   (Np.permutations
                      (seq 0 (nth source inflation_levels 0))))
       (seq 0 (length inflation_levels))).

(** One turn of the loop; the state is the list of symmetries found so far
    and the warnings emitted so far. *)
Definition symmetry_step (verbose : nat) (generating_monomials : list arr)
  (list_original : list bytes) (sp : nat * list nat)
  (st : list (list nat) * list string) : list (list nat) * list string :=
  let '(inflation_symmetries, warnings) := st in
  let permuted_cols_ind :=
    apply_source_permutation_coord_input generating_monomials
      (fst sp) (snd sp) in
  let list_permuted := map from_2dndarray permuted_cols_ind in
  match find_permutation list_permuted list_original with
  | inr total_perm => (inflation_symmetries ++ [total_perm], warnings)
  | inl _ =>
      if Nat.ltb 0 verbose
      then (inflation_symmetries, warnings ++ [not_closed_warning])
      else (inflation_symmetries, warnings)
  end.

(** The loop, before the final [np.unique]. *)
Definition collect_symmetries (verbose : nat) (inflation_levels : list nat)
  (generating_monomials : list arr) : list (list nat) * list string :=
  let list_original := map from_2dndarray generating_monomials in
  foldl (fun st sp =>
           symmetry_step verbose generating_monomials list_original sp st)
    ([], []) (source_permutations inflation_levels).

(** [_calculate_inflation_symmetries]: the symmetries returned and the
    warnings emitted. *)
Definition _calculate_inflation_symmetries (verbose : nat)
  (inflation_levels : list nat) (generating_monomials : list arr)
  : list (list nat) * list string :=
  let '(inflation_symmetries, warnings) :=
    collect_symmetries verbose inflation_levels generating_monomials in
  (Np.unique_rows inflation_symmetries, warnings).

End CalculateSymmetries.

(** *** The registry: [AtomicMonomial], [monomial_from_list_of_atomic],
        [Monomial] *)

Section Registry.
(** A monomial is a 2d array of [uint8], one row per operator. *)
Local Abbreviation arr := (list (list nat)).
Context {K : Type} `{Countable K}.
(** The key under which [tuple(sorted(list_of_atoms))] is found. *)
Variable atoms_key : list (atom_obj arr) -> K.
Variable name_of : list (atom_obj arr) -> string.
(** From [fast_npa] and [general_tools], with the engine's [_notcomm],
    [_lexorder], [inflation_levels] and [commuting] already supplied. *)
Variable to_canonical : arr -> arr.
Variable to_representative : arr -> arr.
Variable factorize_monomial : arr -> list arr.
Variable verbose : nat.
Variable _nr_properties : nat.

Record registry : Type := mkRegistry {
  next_addr : nat;
  canonsym_ndarray_from_hash_cache : gmap (list nat) arr;
  atomic_monomial_from_hash_cache : gmap (list nat) (atom_obj arr);
  compound_monomial_from_tuple_of_atoms_cache : gmap K nat;
  compound_monomial_from_name_dict : gmap string nat;
  heap : gmap nat (compound_obj arr);
  warnings : list string
}.

Definition empty_registry : registry := mkRegistry 0 ∅ ∅ ∅ ∅ ∅ [].

Definition set_canonsym (c : gmap (list nat) arr) (r : registry) : registry :=
  mkRegistry (next_addr r) c (atomic_monomial_from_hash_cache r)
    (compound_monomial_from_tuple_of_atoms_cache r)
    (compound_monomial_from_name_dict r) (heap r) (warnings r).

Definition set_atomic (c : gmap (list nat) (atom_obj arr)) (r : registry)
  : registry :=
  mkRegistry (next_addr r) (canonsym_ndarray_from_hash_cache r) c
    (compound_monomial_from_tuple_of_atoms_cache r)
    (compound_monomial_from_name_dict r) (heap r) (warnings r).

Definition set_heap (h : gmap nat (compound_obj arr)) (r : registry)
  : registry :=
  mkRegistry (next_addr r) (canonsym_ndarray_from_hash_cache r)
    (atomic_monomial_from_hash_cache r)
    (compound_monomial_from_tuple_of_atoms_cache r)
    (compound_monomial_from_name_dict r) h (warnings r).

Definition warn (w : string) (r : registry) : registry :=
  mkRegistry (next_addr r) (canonsym_ndarray_from_hash_cache r)
    (atomic_monomial_from_hash_cache r)
    (compound_monomial_from_tuple_of_atoms_cache r)
    (compound_monomial_from_name_dict r) (heap r) (warnings r ++ [w]).

(** [InternalAtomicMonomial(inflation_sdp_instance=self, array2d=...)]: a new
    object at a new address. *)
Definition new_atom (array2d : arr) (r : registry) : atom_obj arr * registry :=
  (mkAtom (next_addr r) array2d,
   mkRegistry (S (next_addr r)) (canonsym_ndarray_from_hash_cache r)
     (atomic_monomial_from_hash_cache r)
     (compound_monomial_from_tuple_of_atoms_cache r)
     (compound_monomial_from_name_dict r) (heap r) (warnings r)).

(** [from_2dndarray]: [np.asarray(array2d, dtype=np.uint8).tobytes()]. *)
Definition from_2dndarray (array2d : arr) : list nat :=
  map (fun x => x mod 256) (concat array2d).

(** [np.array_equiv(array2d, 0)]. *)
Definition array_equiv_0 (array2d : arr) : bool :=
  forallb (forallb (Nat.eqb 0)) array2d.

(** [inflation_aware_to_ndarray_representative]. *)
Definition inflation_aware_to_ndarray_representative (mon : arr) (r : registry)
  : arr * registry :=
  let unsym_monarray := to_canonical mon in
  let quick_key := from_2dndarray unsym_monarray in
  let '(sym_monarray, r) :=
    match canonsym_ndarray_from_hash_cache r !! quick_key with
    | Some sym_monarray =>
        (sym_monarray,
         if Nat.ltb 0 verbose
         then warn "This 'to_representative' function should only be called as a last resort." r
         else r)
    | None =>
        let sym_monarray := to_representative unsym_monarray in
        let new_quick_key := from_2dndarray sym_monarray in
        let r :=
          match canonsym_ndarray_from_hash_cache r !! new_quick_key with
          | None =>
              if Nat.ltb 0 verbose
              then warn "Encountered a monomial that does not appear in the original moment matrix" r
              else r
          | Some _ => r
          end in
        (sym_monarray,
         set_canonsym
           (<[new_quick_key := sym_monarray]>
              (canonsym_ndarray_from_hash_cache r)) r)
    end in
  (sym_monarray,
   set_canonsym
     (<[quick_key := sym_monarray]> (canonsym_ndarray_from_hash_cache r)) r).

(** [AtomicMonomial]. *)
Definition AtomicMonomial (array2d : arr) (r : registry)
  : atom_obj arr * registry :=
  let quick_key := from_2dndarray array2d in
  match atomic_monomial_from_hash_cache r !! quick_key with
  | Some mon => (mon, r)
  | None =>                 (* Key not in atomic_monomial cache *)
      match canonsym_ndarray_from_hash_cache r !! quick_key with
      | Some new_array2d =>
          let new_quick_key := from_2dndarray new_array2d in
          match atomic_monomial_from_hash_cache r !! new_quick_key with
          | Some new_mon =>   (* Key is in universal cache *)
              (new_mon,
               set_atomic
                 (<[quick_key := new_mon]>
                    (atomic_monomial_from_hash_cache r)) r)
          | None =>           (* ... but not yet in the atomic cache *)
              let '(new_mon, r) := new_atom new_array2d r in
              (new_mon,
               set_atomic
                 (<[new_quick_key := new_mon]>
                    (<[quick_key := new_mon]>
                       (atomic_monomial_from_hash_cache r))) r)
          end
      | None =>             (* Key in neither cache *)
          let '(new_array2d, r) :=
            if Nat.eqb (length array2d) 0 || array_equiv_0 array2d
            then (array2d, r)
            else inflation_aware_to_ndarray_representative array2d r in
          let new_quick_key := from_2dndarray new_array2d in
          let '(new_mon, r) := new_atom new_array2d r in
          let r :=
            set_canonsym
              (<[new_quick_key := new_array2d]>
                 (<[quick_key := new_array2d]>
                    (canonsym_ndarray_from_hash_cache r))) r in
          (new_mon,
           set_atomic
             (<[new_quick_key := new_mon]>
                (<[quick_key := new_mon]>
                   (atomic_monomial_from_hash_cache r))) r)
      end
  end.

(** [factor.is_zero] and [factor.is_one] of an atomic monomial: the zero
    operator is a single row of zeros, the unit has no rows. *)
Definition is_zero (a : atom_obj arr) : bool :=
  negb (Nat.eqb (length (atom_data a)) 0) && array_equiv_0 (atom_data a).
Definition is_one (a : atom_obj arr) : bool :=
  Nat.eqb (length (atom_data a)) 0.

(** The loop of [monomial_from_list_of_atomic] with its [break]. *)
Fixpoint collect_atoms (l acc : list (atom_obj arr)) : list (atom_obj arr) :=
  match l with
  | [] => acc
  | factor :: l' =>
      if is_zero factor then [factor]
      else if negb (is_one factor) then collect_atoms l' (acc ++ [factor])
      else collect_atoms l' acc
  end.

(** [monomial_from_list_of_atomic]: returns the address of the compound. *)
Definition monomial_from_list_of_atomic (l : list (atom_obj arr)) (r : registry)
  : nat * registry :=
  let list_of_atoms := collect_atoms l [] in
  let key := atoms_key list_of_atoms in
  match compound_monomial_from_tuple_of_atoms_cache r !! key with
  | Some mon => (mon, r)
  | None =>
      let mon := next_addr r in
      (mon,
       mkRegistry (S (next_addr r)) (canonsym_ndarray_from_hash_cache r)
         (atomic_monomial_from_hash_cache r)
         (<[key := mon]> (compound_monomial_from_tuple_of_atoms_cache r))
         (<[name_of list_of_atoms := mon]> (compound_monomial_from_name_dict r))
         (<[mon := mkCompound list_of_atoms None]> (heap r))
         (warnings r))
  end.

(** [[self.AtomicMonomial(factor) for factor in _factors if len(factor)]]. *)
Fixpoint atoms_of_factors (fs : list arr) (r : registry)
  : list (atom_obj arr) * registry :=
  match fs with
  | [] => ([], r)
  | factor :: fs' =>
      if Nat.eqb (length factor) 0 then atoms_of_factors fs' r
      else
        let '(a, r) := AtomicMonomial factor r in
        let '(rest, r) := atoms_of_factors fs' r in
        (a :: rest, r)
  end.

(** [Monomial(array2d, idx)]. *)
Definition Monomial (array2d : arr) (i : Z) (r : registry) : nat * registry :=
  let _factors := factorize_monomial array2d in
  let '(list_of_atoms, r) := atoms_of_factors _factors r in
  let '(mon, r) := monomial_from_list_of_atomic list_of_atoms r in
  (mon, set_heap (alter (attach_idx i) mon (heap r)) r).

(** The last two lines of [__init__]:
    [self.Zero = self.Monomial(self.zero_operator, idx=0)] and
    [self.One = self.Monomial(self.identity_operator, idx=1)]. *)
Definition zero_operator : arr := [replicate _nr_properties 0].
Definition identity_operator : arr := [].

Definition init : nat * nat * registry :=
  let '(Zero, r) := Monomial zero_operator 0%Z empty_registry in
  let '(One, r) := Monomial identity_operator 1%Z r in
  (Zero, One, r).

(** The monomials of the moment matrix in [generate_relaxation]:
    [[self.Monomial(v, idx=k) for (k, v) in
      self.symidx_to_sym_monarray_dict.items()]]. *)
Fixpoint monomials_of_table (table : list (nat * arr)) (r : registry)
  : list nat * registry :=
  match table with
  | [] => ([], r)
  | (k, v) :: table' =>
      let '(mon, r) := Monomial v (Z.of_nat k) r in
      let '(rest, r) := monomials_of_table table' r in
      (mon :: rest, r)
  end.

(** [d[k] = v] on a dictionary kept as the list of its items: the value of
    a key that is there is replaced in place, a new key goes to the end. *)
Fixpoint dict_set {V : Type} (k : list nat) (v : V) (d : list (list nat * V))
  : list (list nat * V) :=
  match d with
  | [] => [(k, v)]
  | (k', v') :: d' =>
      if bool_decide (k' = k) then (k', v) :: d'
      else (k', v') :: dict_set k v d'
  end.

(** In [generate_relaxation]:
    [{self.from_2dndarray(v): k for (k, v) in
      self.unsymidx_to_unsym_monarray_dict.items()}]. *)
Definition _unsymidx_from_hash_dict
  (unsymidx_to_unsym_monarray_dict : list (nat * arr)) : list (list nat * nat) :=
  foldl (fun d kv => dict_set (from_2dndarray (snd kv)) (fst kv) d) []
    unsymidx_to_unsym_monarray_dict.

(** The loop of [generate_relaxation] that fills the cache of the
    representatives once the symmetries are applied:
    [self.canonsym_ndarray_from_hash_cache[k] =
       self.symidx_to_sym_monarray_dict[self.orbits[v]]]. *)
Definition fill_canonsym (unsymidx_to_unsym_monarray_dict : list (nat * arr))
  (orbits : list nat) (symidx_to_sym_monarray_dict : list (nat * arr))
  (r : registry) : result registry :=
  for_each (fun kv r =>
              try o <- Np.item orbits (snd kv) in
              try sym_monarray <-
                getitem (list_to_map symidx_to_sym_monarray_dict
                           : gmap nat arr) o in
              inr (set_canonsym
                     (<[fst kv := sym_monarray]>
                        (canonsym_ndarray_from_hash_cache r)) r))
    (_unsymidx_from_hash_dict unsymidx_to_unsym_monarray_dict) r.

End Registry.
(** *** [_apply_inflation_symmetries] *)

Section ApplySymmetries.
(** The monomial stored for an index of the moment matrix. *)
Context {A : Type}.

(** [symmetric_arr[permutation].T[permutation].T]: the entry at [(i, j)] is
    the entry of [symmetric_arr] at [(permutation[i], permutation[j])]. *)
Definition permuted (symmetric_arr : list (list nat)) (permutation : list nat)
  : result (list (list nat)) :=
  try rows <- Np.take symmetric_arr permutation in
  Np.map_result (fun row => Np.take row permutation) rows.

Definition same_shape (a b : list (list nat)) : bool :=
  Nat.eqb (length a) (length b) &&
  forallb (fun p => Nat.eqb (length (fst p)) (length (snd p))) (zip a b).

(** [np.minimum(a, b, out=a)] for two arrays of one shape. *)
Definition minimum (a b : list (list nat)) : result (list (list nat)) :=
  if same_shape a b
  then inr (zip_with (zip_with Nat.min) a b)
  else inl ValueError.

(** The body of the loop over the symmetries, [conserve_memory=False]. *)
Definition symmetrize_step (permutation : list nat)
  (symmetric_arr : list (list nat)) : result (list (list nat)) :=
  try p <- permuted symmetric_arr permutation in
  minimum symmetric_arr p.

(** The body of the loop, [conserve_memory=True]: the entries are updated in
    place, one at a time. *)
Definition conserve_inner (i ip : nat) (permutation : list nat)
  (symmetric_arr : list (list nat)) : result (list (list nat)) :=
  for_each (fun jjp arr =>
              let '(j, jp) := jjp in
              try row_i <- Np.item arr i in
              try x <- Np.item row_i j in
              try row_ip <- Np.item arr ip in
              try y <- Np.item row_ip jp in
              if Nat.ltb x y
              then inr (<[ip := <[jp := x]> row_ip]> arr)
              else inr arr)
    (zip (seq 0 (length permutation)) permutation) symmetric_arr.

Definition symmetrize_step_conserve (permutation : list nat)
  (symmetric_arr : list (list nat)) : result (list (list nat)) :=
  for_each (fun iip arr => conserve_inner (fst iip) (snd iip) permutation arr)
    (zip (seq 0 (length permutation)) permutation) symmetric_arr.

(** The [while changed] loop for one key; [None] when the fuel is used up
    before the loop ends. *)
Fixpoint follow (fuel : nat) (orbits : list nat) (val previous : nat)
  : option (result nat) :=
  match fuel with
  | O => None
  | S fuel' =>
      match Np.item orbits val with
      | inl e => Some (inl e)
      | inr v => if Nat.eqb v previous then Some (inr v)
                 else follow fuel' orbits v v
      end
  end.

(** [for key, val in enumerate(orbits): ...; orbits[key] = val]. *)
Fixpoint follow_all (fuel : nat) (keys : list nat) (orbits : list nat)
  : option (result (list nat)) :=
  match keys with
  | [] => Some (inr orbits)
  | key :: keys' =>
      match Np.item orbits key with
      | inl e => Some (inl e)
      | inr val =>
          match follow fuel orbits val 0 with
          | None => None
          | Some (inl e) => Some (inl e)
          | Some (inr val) => follow_all fuel keys' (<[key := val]> orbits)
          end
      end
  end.

(** [np.min]. *)
Definition np_min (a : list nat) : result nat :=
  match a with
  | [] => inl ValueError
  | x :: a' => inr (foldl Nat.min x a')
  end.

(** The dictionary comprehension that ends the function; the result keeps
    the order of insertion. *)
Definition sym_dict (unsymidx_to_canonical_mon_dict : gmap nat A)
  (old_representative_indices : list nat) : result (list (nat * A)) :=
  Np.map_result
    (fun p => try m <- getitem unsymidx_to_canonical_mon_dict (snd p) in
              inr (fst p, m))
    (filter (fun p => Nat.leb 2 (snd p))
       (zip (seq 0 (length old_representative_indices))
          old_representative_indices)).

(** [_apply_inflation_symmetries]; [None] when the fuel given to the orbit
    loop does not suffice. *)
Definition _apply_inflation_symmetries (fuel : nat)
  (momentmatrix : list (list nat))
  (unsymidx_to_canonical_mon_dict : gmap nat A)
  (inflation_symmetries : list (list nat)) (conserve_memory : bool)
  : option (result (list (list nat) * list nat * list (nat * A))) :=
  let flat := concat momentmatrix in
  let unique := Np.unique_with_index flat in
  let unique_values := unique.*1 in
  let where_it_matters_flat := unique.*2 in
  match np_min unique_values with
  | inl e => Some (inl e)
  | inr lowest =>
      let absent_indices := seq 0 lowest in
      match for_each (if conserve_memory then symmetrize_step_conserve
                      else symmetrize_step)
              inflation_symmetries momentmatrix with
      | inl e => Some (inl e)
      | inr symmetric_arr =>
          match Np.take (concat symmetric_arr) where_it_matters_flat with
          | inl e => Some (inl e)
          | inr picked =>
              let orbits := absent_indices ++ picked in
              match follow_all fuel (seq 0 (length orbits)) orbits with
              | None => None
              | Some (inl e) => Some (inl e)
              | Some (inr orbits) =>
                  let u := Np.unique_with_index orbits in
                  let old_representative_indices := u.*1 in
                  let new_indices := u.*2 in
                  let unsym_idx_to_sym_idx := Np.unique_inverse orbits in
                  if negb (bool_decide
                             (old_representative_indices = new_indices))
                  then Some (inl AssertionError)
                  else
                    Some
                      (try symmetric_arr <-
                         Np.map_result (Np.take unsym_idx_to_sym_idx)
                           momentmatrix in
                       try symidx_to_canonical_mon_dict <-
                         sym_dict unsymidx_to_canonical_mon_dict
                           old_representative_indices in
                       inr (symmetric_arr, unsym_idx_to_sym_idx,
                            symidx_to_canonical_mon_dict))
              end
          end
      end
  end.

End ApplySymmetries.

(** *** [_generate_parties], [_build_cols_from_specs], [build_columns] *)

Section Columns.
(** An operator is a row [party; copy_1; ...; copy_{N_S}; setting; outcome],
    the party counted from 1; a monomial is a list of rows. *)
Local Abbreviation op := (list nat).
Local Abbreviation arr := (list (list nat)).

(** The scenario: [hypergraph[source][party]], [inflation_levels],
    [setting_cardinalities], [outcome_cardinalities], [commuting]. *)
Variable hypergraph : list (list bool).
Variable inflation_levels : list nat.
Variable setting_cardinalities : list nat.
Variable outcome_cardinalities : list nat.
Variable commuting : bool.
(** From [fast_npa], with [_notcomm] and [_lexorder] supplied. *)
Variable to_canonical : arr -> arr.
Variable mon_lexsorted : arr -> arr.
Variable remove_projector_squares : arr -> arr.
Variable mon_is_zero : arr -> bool.

Definition nr_parties : nat := length setting_cardinalities.
Definition nr_sources : nat := length hypergraph.

(** [itertools.product] of the lists. *)
Fixpoint product {A : Type} (lists : list (list A)) : list (list A) :=
  match lists with
  | [] => [[]]
  | l :: lists' => flat_map (fun x => map (cons x) (product lists')) l
  end.

Definition feeds (source pos : nat) : bool :=
  nth pos (nth source hypergraph []) false.

(** The copy indices of a party: one choice of copy for every source that
    feeds it, [0] in the positions of the other sources. *)
Fixpoint fill_indices (sources : list nat) (pos : nat)
  (inflation_indices : list nat) : list nat :=
  match sources with
  | [] => []
  | source :: sources' =>
      if feeds source pos then
        match inflation_indices with
        | i :: rest => (i + 1) :: fill_indices sources' pos rest
        | [] => []
        end
      else 0 :: fill_indices sources' pos inflation_indices
  end.

Definition all_indices (pos : nat) : list (list nat) :=
  map (fill_indices (seq 0 nr_sources) pos)
    (product (map (fun source => seq 0 (nth source inflation_levels 0))
                (filter (fun source => feeds source pos)
                   (seq 0 nr_sources)))).

(** [flatten(self.measurements[party])], each operator already as the row
    [to_numbers] gives it: copies first, then inputs, then outputs; the last
    output is left out (Collins-Gisin). *)
Definition measurements (pos : nat) : list op :=
  flat_map (fun indices =>
    flat_map (fun i =>
      map (fun o => (pos + 1) :: indices ++ [i; o])
        (seq 0 (nth pos outcome_cardinalities 0 - 1)))
      (seq 0 (nth pos setting_cardinalities 0)))
    (all_indices pos).

(** What becomes of one product of operators in [_build_cols_from_specs]:
    the canonical form, or [None] when [canon] is the integer [0]. *)
Definition canon_of (mon : arr) : option arr :=
  if commuting then
    let canon := remove_projector_squares (mon_lexsorted mon) in
    if mon_is_zero canon then None else Some canon
  else Some (to_canonical mon).

(** The names seen so far are kept as the arrays they name: [to_name] writes
    the rows of a canonical array one after the other, and two arrays with
    the same name are equal; the name ['1'] is the array without rows. *)
Definition add_monomial (monomial_factors : arr)
  (st : list arr * list arr) : list arr * list arr :=
  let '(res, allvars) := st in
  match canon_of monomial_factors with
  | None => st
  | Some canon =>
      if Nat.eqb (length canon) (length monomial_factors) then
        if bool_decide (canon ∈ allvars) then st
        else (res ++ [canon], allvars ++ [canon])
      else st
  end.

Definition add_block (block : list nat) (st : list arr * list arr)
  : list arr * list arr :=
  match block with
  | [] => (fst st ++ [[]], snd st ++ [[]])
  | _ =>
      foldl (fun st monomial_factors => add_monomial monomial_factors st) st
        (product (map measurements block))
  end.

(** [_build_cols_from_specs]. *)
Definition _build_cols_from_specs (col_specs : list (list nat)) : list arr :=
  fst (foldl (fun st block => add_block block st) ([], []) col_specs).

(** [np.all(a[:-1] <= a[1:])]. *)
Fixpoint nondecreasing (a : list nat) : bool :=
  match a with
  | [] => true
  | x :: a' =>
      match a' with
      | [] => true
      | y :: _ => Nat.leb x y && nondecreasing a'
      end
  end.

(** The column specification of the branch ['npaN'] of [build_columns]. *)
Definition npa_col_specs (npa_level max_monomial_length : nat)
  : list (list nat) :=
  let max_length :=
    if Nat.ltb 0 max_monomial_length && Nat.ltb max_monomial_length npa_level
    then max_monomial_length else npa_level in
  [[]] ++
  flat_map (fun length =>
              filter (fun a => nondecreasing a)
                (product (replicate length (seq 0 nr_parties))))
    (seq 1 max_length).

(** The two forms of [column_specification] modelled here: the string
    ['npaN'] and the list of party blocks. *)
Inductive column_specification : Type :=
| SpecNpa (npa_level : nat)
| SpecBlocks (col_specs : list (list nat)).

(** [build_columns], for the default lexicographic order (the columns are
    then not sorted again). *)
Definition build_columns (spec : column_specification)
  (max_monomial_length : nat) : list arr :=
  match spec with
  | SpecNpa npa_level =>
      _build_cols_from_specs (npa_col_specs npa_level max_monomial_length)
  | SpecBlocks col_specs => _build_cols_from_specs col_specs
  end.

End Columns.


(** *** [to_2dndarray] *)

Section Bytes.
Variable _nr_properties : nat.

(** The rows of [reshape((-1, _nr_properties))]. *)
Fixpoint rows_of (nr_rows : nat) (flat : list nat) : list (list nat) :=
  match nr_rows with
  | O => []
  | S nr_rows' =>
      take _nr_properties flat :: rows_of nr_rows' (drop _nr_properties flat)
  end.

(** [np.frombuffer(bytestream, dtype=np.uint8).reshape((-1,
    self._nr_properties))]: the number of rows is inferred; [ValueError] when
    it cannot be, the rows having no entry or the buffer not being a whole
    number of rows. *)
Definition to_2dndarray (bytestream : list nat) : result (list (list nat)) :=
  if Nat.eqb _nr_properties 0 then inl ValueError
  else if negb (Nat.eqb (length bytestream mod _nr_properties) 0)
  then inl ValueError
  else inr (rows_of (length bytestream / _nr_properties) bytestream).

End Bytes.

(** *** [reset_objective] and [set_objective] *)

Section Objective.
Context {mon : Type} `{Countable mon}.
Context {key : Type}.
Variable One : mon.
Variable _sanitise_monomial : key -> result mon.
Variable unpack_monomial : mon -> result (Q * mon).

Definition with_objective (o : gmap mon Q) (s : state) : state :=
  mkState (supports_problem s) (momentmatrix_has_a_zero s)
    (momentmatrix_has_a_one s) (list_of_monomials s) (use_lpi_constraints s)
    (known_moments s) (semiknown_moments s) (moment_lowerbounds s)
    (_processed_moment_lowerbounds s) o (_processed_objective s).

(** The objective handed to [set_objective] when it is not [None]: a number
    (an expression without free symbols), or an expression, given by the
    items of [sp.expand(objective).as_coefficients_dict()]. *)
Inductive objective_input : Type :=
| ObjNumber (c : Q)
| ObjExpr (as_coefficients_dict : list (key * Q)).

(** The dictionary [symmetrized_objective] that [set_objective] builds and
    stores in [self.objective]. *)
Definition symmetrized_objective (sign : Q) (objective : objective_input)
  : result (gmap mon Q) :=
  match objective with
  | ObjExpr items =>
      for_each (fun kv acc =>
                  try m <- _sanitise_monomial (fst kv) in
                  inr (<[m := (default 0%Q (acc !! m) + sign * snd kv)%Q]> acc))
               items {[One := 0%Q]}
  | ObjNumber c => inr {[One := (sign * c)%Q]}
  end.

(** [set_objective], entered with an objective that is not [None] (with
    [None] the method returns after [reset_objective]).  [self.maximize] is
    read by the solver only and is left out. *)
Definition set_objective (objective : objective_input) (direction : string)
  (s : state) : result state :=
  if negb (bool_decide (direction ∈ ["max"; "min"])) then inl AssertionError
  else
    let sign := if bool_decide (direction = "max") then 1%Q else (-1)%Q in
    try o <- symmetrized_objective sign objective in
    _update_objective One unpack_monomial (with_objective o s).

End Objective.
End InflationSDP.

(** ** The LP engine: values and bounds ([InflationLP.py]) *)

Module InflationLP.

Section Valuation.
Context {mon : Type} `{Countable mon}.
Context {atom : Type} `{Countable atom}.
Context {key : Type}.

Variable One : mon.

Variable _sanitise_monomial : key -> result mon.
Variable is_atomic : mon -> bool.
Variable is_knowable : mon -> bool.
Variable atom_is_knowable : atom -> bool.
Variable knowability_status : mon -> known_status.
Variable len : mon -> nat.
Variable factors_0 : mon -> result atom.
Variable evaluate : mon -> gmap atom Q -> bool -> Q * list atom * known_status.
Variable _monomial_from_atoms : list atom -> mon.

Record state : Type := mkState {
  supports_problem : bool;
  verbose : nat;
  monomials : list mon;
  use_lpi_constraints : bool;
  known_moments : gmap mon Q;
  semiknown_moments : gmap mon (Q * mon);
  moment_lowerbounds : gmap mon Q;
  moment_upperbounds : gmap mon Q
}.

Definition with_use_lpi (b : bool) (s : state) : state :=
  mkState (supports_problem s) (verbose s) (monomials s) b (known_moments s)
    (semiknown_moments s) (moment_lowerbounds s) (moment_upperbounds s).

Definition with_known (k : gmap mon Q) (s : state) : state :=
  mkState (supports_problem s) (verbose s) (monomials s)
    (use_lpi_constraints s) k
    (semiknown_moments s) (moment_lowerbounds s) (moment_upperbounds s).

Definition with_semiknown (k : gmap mon (Q * mon)) (s : state) : state :=
  mkState (supports_problem s) (verbose s) (monomials s)
    (use_lpi_constraints s) (known_moments s)
    k (moment_lowerbounds s) (moment_upperbounds s).

Definition with_lowerbounds (k : gmap mon Q) (s : state) : state :=
  mkState (supports_problem s) (verbose s) (monomials s)
    (use_lpi_constraints s) (known_moments s)
    (semiknown_moments s) k (moment_upperbounds s).

Definition with_upperbounds (k : gmap mon Q) (s : state) : state :=
  mkState (supports_problem s) (verbose s) (monomials s)
    (use_lpi_constraints s) (known_moments s)
    (semiknown_moments s) (moment_lowerbounds s) k.

(** [_reset_values]. *)
Definition _reset_values (s : state) : state :=
  with_known {[One := 1%Q]} (with_semiknown ∅ s).

Definition nonzero_known_monomials (known : gmap mon Q) : list mon :=
  (filter (fun kv => negb (Num.isclose (snd kv) 0)) (map_to_list known)).*1.

Definition supports_step (m : mon) (s : state) : result state :=
  let s := with_lowerbounds (<[m := 1%Q]> (moment_lowerbounds s)) s in
  try k <- delitem (known_moments s) m in
  inr (with_known k s).

(** [_cleanup_after_set_values]. *)
Definition _cleanup_after_set_values (s : state) : result state :=
  try s <- (if supports_problem s
            then try s' <- for_each supports_step
                             (nonzero_known_monomials (known_moments s)) s in
                 inr (with_semiknown ∅ s')
            else inr s) in
  if Nat.eqb (size (semiknown_moments s)) 0 then inr s
  else inr (with_semiknown
              (foldl (fun sk k => delete k sk) (semiknown_moments s)
                 (elements (dom (known_moments s)))) s).

Definition in_monomials (m : mon) (s : state) : bool :=
  bool_decide (m ∈ monomials s).

(** The loop of [update_values] over the remaining monomials. *)
Definition infer_value (atomic_knowns : gmap atom Q) (m : mon) (s : state)
  : result state :=
  let '(value, unknown_factors, status) :=
    evaluate m atomic_knowns (use_lpi_constraints s) in
  match status with
  | StatusYes => inr (with_known (<[m := value]> (known_moments s)) s)
  | StatusSemi =>
      if use_lpi_constraints s then
        let unknown_mon := _monomial_from_atoms unknown_factors in
        let s := with_semiknown
                   (<[m := (value, unknown_mon)]> (semiknown_moments s)) s in
        if Nat.ltb 0 (verbose s) && negb (in_monomials unknown_mon s)
        then inl OtherError
        else inr s
      else inr s
  | StatusNo => inr s
  end.

Definition atomic_knowns (s : state) : result (gmap atom Q) :=
  for_each (fun kv acc =>
              if Nat.eqb (len (fst kv)) 1
              then try a <- factors_0 (fst kv) in inr (<[a := snd kv]> acc)
              else inr acc)
           (map_to_list (known_moments s)) ∅.

(** [update_values], entered with a non-empty dictionary. *)
Definition update_values (values : option (list (key * Q)))
  (use_lpi only_specified_values : bool) (s : state) : result state :=
  match values with
  | None | Some [] => inr s
  | Some values =>
      let s := with_use_lpi use_lpi s in
      try s <- for_each (fun kv s =>
                           try m <- _sanitise_monomial (fst kv) in
                           inr (with_known (<[m := snd kv]> (known_moments s)) s))
                 values s in
      try s <- (if only_specified_values then inr s
                else
                  try ak <- atomic_knowns s in
                  let monomials_not_present :=
                    filter (fun m => negb (in_monomials m s))
                      (elements (dom (known_moments s))) in
                  let s := with_known
                             (foldl (fun k m => delete m k) (known_moments s)
                                monomials_not_present) s in
                  let remaining_mons :=
                    if forallb atom_is_knowable (elements (dom ak)) then
                      if negb (use_lpi_constraints s)
                      then filter (fun m => negb (is_atomic m) && is_knowable m)
                             (monomials s)
                      else filter (fun m => negb (is_atomic m) &&
                                     match knowability_status m with
                                     | StatusYes | StatusSemi => true
                                     | StatusNo => false
                                     end) (monomials s)
                    else filter (fun m => negb (is_atomic m)) (monomials s) in
                  for_each (infer_value ak) remaining_mons s) in
      _cleanup_after_set_values s
  end.

(** [set_values]. *)
Definition set_values (values : option (list (key * Q)))
  (use_lpi only_specified_values : bool) (s : state) : result state :=
  let s := _reset_values s in
  match values with
  | None | Some [] => _cleanup_after_set_values s
  | Some _ => update_values values use_lpi only_specified_values s
  end.

(** [set_distribution] (the check of the shape of the distribution is left
    to [knowable_values]). *)
Definition set_distribution {distribution : Type}
  (knowable_values : distribution -> list (key * Q))
  (prob_array : option distribution)
  (use_lpi_constraints shared_randomness : bool) (s : state) : result state :=
  set_values
    (Some match prob_array with
          | Some p => knowable_values p
          | None => []
          end)
    use_lpi_constraints shared_randomness s.

(** The loop shared by [_set_upperbounds] and [_set_lowerbounds]: the first
    bound given for a monomial is stored; a later one for the same monomial
    is only compared with the stored one. *)
Definition sanitize_bound (kv : key * Q) (sanitized : gmap mon Q)
  : result (gmap mon Q) :=
  try m <- _sanitise_monomial (fst kv) in
  match sanitized !! m with
  | None => inr (<[m := snd kv]> sanitized)
  | Some old_bound =>
      if Num.isclose old_bound (snd kv) then inr sanitized
      else inl AssertionError
  end.

(** [_set_upperbounds]: the reset comes first, so that a raised exception
    leaves the attribute empty. *)
Definition _set_upperbounds (upperbounds : option (list (key * Q))) (s : state)
  : state * result unit :=
  let s := with_upperbounds ∅ s in
  match upperbounds with
  | None => (s, inr tt)
  | Some upperbounds =>
      match for_each sanitize_bound upperbounds ∅ with
      | inl e => (s, inl e)
      | inr sanitized_upperbounds =>
          (with_upperbounds sanitized_upperbounds s, inr tt)
      end
  end.

(** [_set_lowerbounds]. *)
Definition _set_lowerbounds (lowerbounds : option (list (key * Q))) (s : state)
  : state * result unit :=
  let s := with_lowerbounds ∅ s in
  match lowerbounds with
  | None => (s, inr tt)
  | Some lowerbounds =>
      match for_each sanitize_bound lowerbounds ∅ with
      | inl e => (s, inl e)
      | inr sanitized_lowerbounds =>
          (with_lowerbounds sanitized_lowerbounds s, inr tt)
      end
  end.

(** [set_bounds]. *)
Definition set_bounds (bounds : option (list (key * Q))) (bound_type : string)
  (s : state) : state * result unit :=
  if negb (String.eqb bound_type "up" || String.eqb bound_type "lo")
  then (s, inl AssertionError)
  else if String.eqb bound_type "up" then _set_upperbounds bounds s
  else _set_lowerbounds bounds s.

End Valuation.

(** *** [_sanitise_monomial] *)

Section Sanitise.
Context {mon atom sym arr : Type}.
Variable One : mon.
(** [self.monomial_from_name]. *)
Variable monomial_from_name : gmap string mon.
Variable _monomial_from_atoms : list atom -> mon.
(** [flatten_symbolic_powers(mon)] as the names of the symbols. *)
Variable symbol_names : sym -> list string.
Variable symbol_to_array : sym -> arr.
Variable _interpret_name : string -> arr.
Variable ndim : arr -> nat.
Variable mon_to_lexrepr : arr -> arr.
Variable Monomial : arr -> mon.

(** The branch for tuples, lists and arrays; [mon_to_lexrepr] returns a
    one-dimensional array, which the recursive call hands to [Monomial]. *)
Definition sanitise_array (a : arr) : result mon :=
  match ndim a with
  | 1 => inr (Monomial a)
  | 2 => inr (Monomial (mon_to_lexrepr a))
  | _ => inl AssertionError
  end.

(** [InflationLP._sanitise_monomial]. *)
Definition _sanitise_monomial (x : py_input mon atom sym arr) : result mon :=
  match x with
  | InCompound m => inr m
  | InAtomic a => inr (_monomial_from_atoms [a])
  | InSymbol s =>
      match symbol_names s with
      | [name] =>
          match monomial_from_name !! name with
          | Some m => inr m
          | None => sanitise_array (symbol_to_array s)
          end
      | _ => sanitise_array (symbol_to_array s)
      end
  | InArray a => sanitise_array a
  | InStr name =>
      match monomial_from_name !! name with
      | Some m => inr m
      | None => sanitise_array (_interpret_name name)
      end
  | InReal v =>
      if Num.isclose v 1 then inr One
      else inl ConstantMonomialError
  | InOther => inl UnsupportedTypeError
  end.

End Sanitise.

(** *** The registry: [_AtomicMonomial], [_monomial_from_atoms], [Monomial] *)

Section Registry.
(** The key under which [tuple(sorted(atoms))] is found in a dictionary. *)
Context {K : Type} `{Countable K}.
Variable atoms_key : list (atom_obj (list nat)) -> K.
(** [mon.name] of the compound built from these atoms. *)
Variable name_of : list (atom_obj (list nat)) -> string.
(** [self._nr_operators], [self.lexorder_symmetries] and
    [self.factorize_monomial_1d], all taken from the [InflationProblem]. *)
Variable _nr_operators : nat.
Variable lexorder_symmetries : list (list nat).
Variable factorize_monomial_1d : list nat -> list (list nat).

Record registry : Type := mkRegistry {
  next_addr : nat;
  atomic_monomial_from_hash : gmap (list bool) (atom_obj (list nat));
  monomial_from_atoms : gmap K nat;
  monomial_from_name : gmap string nat;
  first_free_idx : option Z;          (* [None]: the attribute is not set yet *)
  heap : gmap nat (compound_obj (list nat))
}.

Definition empty_registry : registry := mkRegistry 0 ∅ ∅ ∅ None ∅.

(** [key = self.blank_bool_vec.copy(); key[array1d] = True]. *)
Definition blank_bool_vec : list bool := replicate _nr_operators false.

Definition to_boolvec (array1d : list nat) : result (list bool) :=
  for_each (fun i key =>
              if Nat.ltb i (length key) then inr (<[i := true]> key)
              else inl IndexError)
           array1d blank_bool_vec.

(** [np.flatnonzero]. *)
Definition flatnonzero (boolvec : list bool) : list nat :=
  filter (fun i => nth i boolvec false) (seq 0 (length boolvec)).

(** [mon_as_symboolvec = key[self.lexorder_symmetries]], then sorted with
    [np.lexsort]. *)
Definition orbit_rows (key : list bool) : result (list (list bool)) :=
  Np.map_result (Np.take key) lexorder_symmetries.

Definition sorted_orbit (key : list bool) : result (list (list bool)) :=
  try rows <- orbit_rows key in
  Np.take rows (Np.lexsort_rows Np.bool_compare rows).

(** [a[-1]]. *)
Definition last_row {A : Type} (rows : list A) : result A :=
  match last rows with
  | Some r => inr r
  | None => inl IndexError
  end.

(** [_AtomicMonomial]. *)
Definition _AtomicMonomial (array1d : list nat) (r : registry)
  : result (atom_obj (list nat) * registry) :=
  try key <- to_boolvec array1d in
  match atomic_monomial_from_hash r !! key with
  | Some mon => inr (mon, r)
  | None =>
      if Nat.eqb (length lexorder_symmetries) 1 then
        let mon := mkAtom (next_addr r) array1d in
        inr (mon,
             mkRegistry (S (next_addr r))
               (<[key := mon]> (atomic_monomial_from_hash r))
               (monomial_from_atoms r) (monomial_from_name r)
               (first_free_idx r) (heap r))
      else
        try mon_as_symboolvec <- sorted_orbit key in
        try mon_as_boolvec <- last_row mon_as_symboolvec in
        let mon := mkAtom (next_addr r) (flatnonzero mon_as_boolvec) in
        inr (mon,
             mkRegistry (S (next_addr r))
               (foldl (fun cache alt_key => <[alt_key := mon]> cache)
                  (atomic_monomial_from_hash r) mon_as_symboolvec)
               (monomial_from_atoms r) (monomial_from_name r)
               (first_free_idx r) (heap r))
  end.

(** [_monomial_from_atoms]: returns the address of the compound. *)
Definition _monomial_from_atoms (atoms : list (atom_obj (list nat)))
  (r : registry) : nat * registry :=
  let key := atoms_key atoms in
  match monomial_from_atoms r !! key with
  | Some mon => (mon, r)
  | None =>
      let mon := next_addr r in
      let obj := mkCompound atoms
                   match first_free_idx r with
                   | Some i => Some i
                   | None => None
                   end in
      (mon,
       mkRegistry (S (next_addr r)) (atomic_monomial_from_hash r)
         (<[key := mon]> (monomial_from_atoms r))
         (<[name_of atoms := mon]> (monomial_from_name r))
         (match first_free_idx r with
          | Some i => Some (i + 1)%Z
          | None => None
          end)
         (<[mon := obj]> (heap r)))
  end.

(** [[self._AtomicMonomial(factor) for factor in _factors if len(factor)]]. *)
Fixpoint atoms_of_factors (fs : list (list nat)) (r : registry)
  : result (list (atom_obj (list nat)) * registry) :=
  match fs with
  | [] => inr ([], r)
  | factor :: fs' =>
      if Nat.eqb (length factor) 0 then atoms_of_factors fs' r
      else
        try ar <- _AtomicMonomial factor r in
        try rest <- atoms_of_factors fs' (snd ar) in
        inr (fst ar :: fst rest, snd rest)
  end.

Definition set_heap (h : gmap nat (compound_obj (list nat))) (r : registry)
  : registry :=
  mkRegistry (next_addr r) (atomic_monomial_from_hash r)
    (monomial_from_atoms r) (monomial_from_name r) (first_free_idx r) h.

(** [Monomial(array1d, idx)]. *)
Definition Monomial (array1d : list nat) (i : Z) (r : registry)
  : result (nat * registry) :=
  let _factors := factorize_monomial_1d array1d in
  try ar <- atoms_of_factors _factors r in
  let '(mon, r) := _monomial_from_atoms (fst ar) (snd ar) in
  inr (mon, set_heap (alter (attach_idx i) mon (heap r)) r).

(** The loop of [_generate_lp] that associates monomials to the columns:
    [for idx, mon_as_lexboolvec in enumerate(self._monomials_as_lexboolvecs)]. *)
Fixpoint initialize_monomials (i : Z) (cols : list (list bool)) (r : registry)
  : result (list nat * registry) :=
  match cols with
  | [] => inr ([], r)
  | mon_as_lexboolvec :: cols' =>
      try mr <- Monomial (flatnonzero mon_as_lexboolvec) i r in
      try rest <- initialize_monomials (i + 1)%Z cols' (snd mr) in
      inr (fst mr :: fst rest, snd rest)
  end.

(** The key of the compound at an address. *)
Definition key_at (r : registry) (a : nat) : option K :=
  (fun c => atoms_key (factors c)) <$> heap r !! a.

(** The engine after [__init__]: the unit built with [idx=1], then
    [_generate_lp] on the columns [_monomials_as_lexboolvecs], which resets
    the caches, numbers the columns, sets [first_free_idx] and checks the two
    assertions.  The result is the unit of [__init__], [self.monomials] and
    the registry. *)
Definition init (_monomials_as_lexboolvecs : list (list bool))
  : result (nat * list nat * registry) :=
  try one <- Monomial [] 1%Z empty_registry in
  let '(One, r) := one in
  let r := mkRegistry (next_addr r) ∅ ∅ ∅ (first_free_idx r) (heap r) in
  try ms <- initialize_monomials 0%Z _monomials_as_lexboolvecs r in
  let '(monomials, r) := ms in
  let n_columns := length _monomials_as_lexboolvecs in
  let r := mkRegistry (next_addr r) (atomic_monomial_from_hash r)
             (monomial_from_atoms r) (monomial_from_name r)
             (Some (Z.of_nat n_columns + 1)%Z) (heap r) in
  match monomials with
  | [] => inl IndexError
  | first :: _ =>
      if negb (bool_decide (key_at r first = key_at r One))
      then inl AssertionError
      else if negb (bool_decide (NoDup (map (key_at r) monomials)))
      then inl AssertionError
      else inr (One, monomials, r)
  end.

End Registry.


(** *** [_sanitize_dict], [_reset_objective] and [set_objective] *)

Section Objective.
Context {mon : Type} `{Countable mon}.
Context {key : Type}.
Variable _sanitise_monomial : key -> result mon.

(** The attributes of the engine that hold the objective. *)
Record objective_state : Type := mkObjective {
  objective : gmap mon Q;
  maximize : bool
}.

(** [_reset_objective]. *)
Definition _reset_objective : objective_state := mkObjective ∅ true.

(** What [_sanitize_dict] is given: a dictionary, or a sympy expression,
    seen through [free_symbols] and the items of
    [sp.expand(input_dict).as_coefficients_dict()]. *)
Inductive dict_input : Type :=
| AsDict (items : list (key * Q))
| AsExpr (free_symbols : bool) (as_coefficients_dict : list (key * Q)).

Definition input_dict_copy (input_dict : dict_input) : list (key * Q) :=
  match input_dict with
  | AsDict items => items
  | AsExpr true items => items
  | AsExpr false _ => []
  end.

(** [_sanitize_dict]; [output_dict] is a [defaultdict(int)]. *)
Definition _sanitize_dict (input_dict : dict_input) : result (gmap mon Q) :=
  for_each (fun kv output_dict =>
              if negb (Num.isclose (snd kv) 0) then
                try m <- _sanitise_monomial (fst kv) in
                inr (<[m := (default 0%Q (output_dict !! m) + snd kv)%Q]>
                       output_dict)
              else inr output_dict)
           (input_dict_copy input_dict) ∅.

(** [set_objective]; the objective and the direction are all it writes,
    besides the reset of the solution. *)
Definition set_objective (objective : option dict_input) (direction : string)
  (s : @state mon _ _) : result objective_state :=
  if negb (negb (supports_problem s) || negb (bool_decide (is_Some objective)))
  then inl AssertionError
  else if negb (bool_decide (direction ∈ ["max"; "min"]))
  then inl AssertionError
  else
    let maximize := bool_decide (direction = "max") in
    match objective with
    | None => inr (mkObjective ∅ maximize)
    | Some objective =>
        let sign := if maximize then 1%Q else (-1)%Q in
        try sanitized <- _sanitize_dict objective in
        let objective := (fun coeff => (sign * coeff)%Q) <$> sanitized in
        let surprising_objective_terms :=
          filter (fun m => negb (in_monomials m s))
            (elements (dom objective)) in
        if Nat.eqb (length surprising_objective_terms) 0
        then inr (mkObjective objective maximize)
        else inl AssertionError
    end.

End Objective.
End InflationLP.

(** ** The canonicaliser of [fast_npa]

    The engine calls [to_canonical], [mon_lexsorted],
    [remove_projector_squares] and [mon_is_zero] of the module [fast_npa] and
    reads the table [_notcomm] computed by [notcomm_from_lexorder]; none of
    them is in the two engine files. *)

Module FastNpa.

Section Canonical.
(** [nr_sources]: an operator is [party; copy_1 .. copy_{N_S}; setting;
    outcome]. *)
Variable nr_sources : nat.

Definition party (o : list nat) : nat := nth 0 o 0.
Definition copies (o : list nat) : list nat := firstn nr_sources (skipn 1 o).
Definition ops_eqb (a b : list nat) : bool := bool_decide (a = b).

(** The default lexicographic order of [__init__] sorts the operators as
    rows, first column first: an operator ranks before another when its row
    is lexicographically smaller. *)
Definition rank_gtb (a b : list nat) : bool :=
  match Np.lex_compare Nat.compare a b with
  | Gt => true
  | _ => false
  end.

(** Modelled from the spec: the table [_notcomm] of section 4.B, which
    [notcomm_from_lexorder] of [fast_npa] computes.  "Two operators commute
    iff either (i) the commuting model is selected, or (ii) they belong to
    different parties, or (iii) they disagree on at least one copy index of
    a source they both consume"; "the matrix is symmetric with a zero
    diagonal".  Rule (i) is the caller's, which does not read the table in
    the commuting model; the copy index 0 stands for a source that the party
    does not consume. *)
Definition notcomm (a b : list nat) : bool :=
  Nat.eqb (party a) (party b) && negb (ops_eqb a b) &&
  negb (existsb (fun p => negb (Nat.eqb (fst p) 0) && negb (Nat.eqb (snd p) 0)
                          && negb (Nat.eqb (fst p) (snd p)))
          (zip (copies a) (copies b))).

Section WithTable.
Variable nc : list nat -> list nat -> bool.

(** Modelled from the spec: rule 3 of section 4.C, "for any pair of adjacent
    operators a, b with NC[a,b]=0 and rank(a) > rank(b), swap them", applied
    from left to right and repeated to a fixed point. *)
Fixpoint bubble (a : list nat) (rest : list (list nat)) : list (list nat) :=
  match rest with
  | [] => [a]
  | b :: rest' =>
      if negb (nc a b) && rank_gtb a b then b :: bubble a rest'
      else a :: bubble b rest'
  end.

Definition swap_pass (m : list (list nat)) : list (list nat) :=
  match m with
  | [] => []
  | a :: rest => bubble a rest
  end.

Definition commutation_sort (m : list (list nat)) : list (list nat) :=
  Nat.iter (length m) swap_pass m.

(** Modelled from the spec: rule 2 of section 4.C, "two adjacent identical
    operators collapse to one". *)
Definition remove_projector_squares (m : list (list nat)) : list (list nat) :=
  Np.dedup_adjacent ops_eqb m.

(** Modelled from the spec: rule 1 of section 4.C, "two adjacent operators
    with identical (party, copies, setting) and distinct outcomes reduce the
    whole monomial to zero". *)
Definition orthogonal (a b : list nat) : bool :=
  bool_decide (removelast a = removelast b) && negb (ops_eqb a b).

Fixpoint mon_is_zero (m : list (list nat)) : bool :=
  match m with
  | [] => false
  | a :: m' =>
      match m' with
      | [] => false
      | b :: _ => orthogonal a b || mon_is_zero m'
      end
  end.

(** Modelled from the spec: the canonicaliser of section 4.C; the
    distinguished value zero is the zero operator, one row of zeros. *)
Definition to_canonical (m : list (list nat)) : list (list nat) :=
  let canon := remove_projector_squares (commutation_sort m) in
  if mon_is_zero canon then [replicate (1 + nr_sources + 2) 0] else canon.

End WithTable.

(** Modelled from the spec: "in the commuting model step 3 is total (all
    ranks sortable)": [mon_lexsorted] sorts the operators by rank. *)
Definition mon_lexsorted (m : list (list nat)) : list (list nat) :=
  Np.sort (Np.lex_leb Nat.compare) m.

End Canonical.

End FastNpa.

(** The bilocal scenario of [test_sdp.py]: three parties in a line, two
    sources, inflation [[2, 2]], one setting and two outcomes per party. *)
Module Bilocal.

Definition hypergraph : list (list bool) :=
  [[true; true; false]; [false; true; true]].
Definition inflation_levels : list nat := [2; 2].
Definition settings_per_party : list nat := [1; 1; 1].
Definition outcomes_per_party : list nat := [2; 2; 2].

Definition build_columns (nc : list nat -> list nat -> bool) (commuting : bool)
  (spec : InflationSDP.column_specification) : list (list (list nat)) :=
  InflationSDP.build_columns hypergraph inflation_levels settings_per_party
    outcomes_per_party commuting
    (FastNpa.to_canonical 2 nc) (FastNpa.mon_lexsorted)
    (FastNpa.remove_projector_squares) (FastNpa.mon_is_zero)
    spec 0.

(** [col_structure] of the test. *)
Definition col_structure : list (list nat) :=
  [[]; [0]; [1]; [2]; [0; 0]; [0; 1]; [0; 2]; [1; 1]; [1; 2]; [2; 2]].

(** Operators of the bilocal scenario, as [test_sdp.py] names them. *)
Definition A_1 : list nat := [1; 1; 0; 0; 0].
Definition A_2 : list nat := [1; 2; 0; 0; 0].
Definition B_11 : list nat := [2; 1; 1; 0; 0].
Definition B_12 : list nat := [2; 1; 2; 0; 0].

End Bilocal.

(** ** Source permutations on monomials, from [general_tools] *)

Module GeneralTools.

(** Modelled from the spec: section 4.E, "relabeling copy s according to pi
    induces a permutation of the operator alphabet (fixing operators that do
    not consume s)".  The copy [c] of the source becomes the copy
    [permutation[c - 1] + 1]; a copy the permutation does not list stays. *)
Definition permute_copy (source : nat) (permutation : list nat)
  (o : list nat) : list nat :=
  match o !! (1 + source) with
  | Some (S c) => <[1 + source := S (nth c permutation c)]> o
  | _ => o
  end.

(** Modelled from the spec: section 4.H, step 2, "applying g operator-wise
    to each M_i", the result being brought to canonical form. *)
Definition apply_source_permutation_coord_input
  (to_canonical : list (list nat) -> list (list nat))
  (columns : list (list (list nat))) (source : nat) (permutation : list nat)
  : list (list (list nat)) :=
  map (fun m => to_canonical (map (permute_copy source permutation) m)) columns.

Fixpoint index_in {B : Type} `{EqDecision B} (x : B) (l : list B) : option nat :=
  match l with
  | [] => None
  | y :: l' => if decide (x = y) then Some 0 else S <$> index_in x l'
  end.

(** Modelled from the spec: section 4.H, step 2, "re-looking up the result
    (the generator set must be closed under G)": the position in the original
    list of every permuted monomial; an exception when one of them is not in
    the original list. *)
Definition find_permutation {B : Type} `{EqDecision B}
  (list_permuted list_original : list B) : result (list nat) :=
  Np.map_result (fun x => match index_in x list_original with
                          | Some i => inr i
                          | None => inl OtherError
                          end) list_permuted.

(** Modelled from the spec: section 4.E, "the group G is the direct product
    over sources".  The images of a monomial under the relabellings of the
    copies of the sources [source], [source + 1], ..., each one brought to
    canonical form. *)
Fixpoint orbit (to_canonical : list (list nat) -> list (list nat))
  (inflation_levels : list nat) (source : nat) (mon : list (list nat))
  : list (list (list nat)) :=
  match inflation_levels with
  | [] => [to_canonical mon]
  | k :: levels =>
      flat_map (fun permutation =>
                  orbit to_canonical levels (S source)
                    (map (permute_copy source permutation) mon))
        (Np.permutations (seq 0 k))
  end.

(** Modelled from the spec: section 4.E, "representative choice: the
    lex-minimum of the orbit", the monomials compared operator by operator
    and the operators entry by entry. *)
Definition to_representative
  (to_canonical : list (list nat) -> list (list nat))
  (inflation_levels : list nat) (mon : list (list nat)) : list (list nat) :=
  match Np.sort (Np.lex_leb (Np.lex_compare Nat.compare))
          (orbit to_canonical inflation_levels 0 mon) with
  | rep :: _ => rep
  | [] => mon
  end.

End GeneralTools.

(** ** Statements used by the properties below *)

(** What the supports block of the clean-up makes of the known moments
    [known] it finds: the monomials with a value not close to 0 leave the
    known moments and get the lower bound 1, the others stay, and no
    semiknown relation is left. *)
Definition supports_postcondition `{Countable mon}
  (known known' lowerbounds' : gmap mon Q) (semiknown' : gmap mon (Q * mon))
  : Prop :=
  semiknown' = ∅ /\
  forall m v, known !! m = Some v ->
    if Num.isclose v 0
    then known' !! m = Some v
    else known' !! m = None /\ lowerbounds' !! m = Some 1%Q.

(** What [set_values] of the SDP engine leaves alone up to the clean-up:
    the kind of problem and the objective. *)
Definition sdp_same_problem `{Countable mon}
  (s s0 : @InflationSDP.state mon _ _) : Prop :=
  InflationSDP.supports_problem s0 = InflationSDP.supports_problem s
  /\ InflationSDP.objective s0 = InflationSDP.objective s.

(** The same for the LP engine. *)
Definition lp_same_problem `{Countable mon}
  (s s0 : @InflationLP.state mon _ _) : Prop :=
  InflationLP.supports_problem s0 = InflationLP.supports_problem s.

(** The coefficient the first loop of [_update_objective] leaves on the
    unit: the products [coefficient * value] added one after the other. *)
Definition unit_coefficient `{Countable mon} (known po : gmap mon Q) (u : Q) (l : list mon) : Q :=
  foldl (fun acc m =>
           (acc + default 0 (po !! m) * default 0 (known !! m))%Q) u l.


(** The bound given by the first entry of a dictionary of bounds whose key
    stands for the monomial [m]. *)
Fixpoint first_bound {key mon : Type} `{EqDecision mon} (f : key -> mon)
  (d : list (key * Q)) (m : mon) : option Q :=
  match d with
  | [] => None
  | kv :: d' => if decide (f (fst kv) = m) then Some (snd kv)
                else first_bound f d' m
  end.

(** A dictionary of bounds holds two keys for one monomial with bounds that
    are not close. *)
Definition contradictory {key mon : Type} (sanitise : key -> result mon)
  (d : list (key * Q)) : Prop :=
  exists i j ki bi kj bj m,
    i < j /\ d !! i = Some (ki, bi) /\ d !! j = Some (kj, bj)
    /\ sanitise ki = inr m /\ sanitise kj = inr m
    /\ Num.isclose bi bj = false.

(** A later bound is not close to the first bound given for its monomial. *)
Definition contradicts_first {key mon : Type} `{EqDecision mon}
  (f : key -> mon) (d : list (key * Q)) : Prop :=
  exists d1 kj bj d2 b0,
    d = d1 ++ (kj, bj) :: d2
    /\ first_bound f d1 (f kj) = Some b0
    /\ Num.isclose b0 bj = false.

(** The bound of [m] once the entries [d] have been read after the entries
    summarised by [acc]. *)
Definition bound_of {key : Type} `{Countable mon} (f : key -> mon)
  (acc : gmap mon Q) (d : list (key * Q)) (m : mon)
  : option Q :=
  match acc !! m with
  | Some b => Some b
  | None => first_bound f d m
  end.


(** The swaps of source copies that [_calculate_inflation_symmetries] keeps
    and drops. *)
Module SymmetrySpec.
Section Swaps.
Context {arr bytes : Type}.
Variable from_2dndarray : arr -> bytes.
Variable apply_source_permutation_coord_input :
  list arr -> nat -> list nat -> list arr.
Variable find_permutation : list bytes -> list bytes -> result (list nat).
Variable generating_monomials : list arr.

(** What [find_permutation] answers for the swap [sp]. *)
Definition swap_result (sp : nat * list nat) : result (list nat) :=
  find_permutation
    (map from_2dndarray
       (apply_source_permutation_coord_input generating_monomials
          (fst sp) (snd sp)))
    (map from_2dndarray generating_monomials).

Definition is_dropped (sp : nat * list nat) : bool :=
  match swap_result sp with
  | inr _ => false
  | inl _ => true
  end.

Definition kept (sps : list (nat * list nat)) : list (list nat) :=
  omap (fun sp => match swap_result sp with
                  | inr p => Some p
                  | inl _ => None
                  end) sps.

Definition dropped (sps : list (nat * list nat)) : list (nat * list nat) :=
  filter (fun sp => is_dropped sp) sps.

End Swaps.
End SymmetrySpec.

(** Invariants of the registry of the LP engine. *)
Module LPRegistrySpec.
Section Invariants.
Context {K : Type} `{Countable K}.
Local Abbreviation registry := (@InflationLP.registry K _ _).

(** The compounds the cache names are on the heap, below the next address. *)
Definition well_formed (r : registry) : Prop :=
  (forall k a, InflationLP.monomial_from_atoms r !! k = Some a ->
               is_Some (InflationLP.heap r !! a))
  /\ (forall a, is_Some (InflationLP.heap r !! a) ->
                a < InflationLP.next_addr r).

(** The part of the registry the atomic monomials do not touch. *)
Definition same_compounds (r r' : registry) : Prop :=
  InflationLP.monomial_from_atoms r' = InflationLP.monomial_from_atoms r
  /\ InflationLP.first_free_idx r' = InflationLP.first_free_idx r
  /\ InflationLP.heap r' = InflationLP.heap r
  /\ InflationLP.next_addr r <= InflationLP.next_addr r'.

End Invariants.
End LPRegistrySpec.

(** Invariants of the registry of the SDP engine. *)
Module SDPRegistrySpec.
Section Invariants.
Context {K : Type} `{Countable K}.
Local Abbreviation registry := (@InflationSDP.registry K _ _).

(** The compounds the cache names are on the heap, below the next address. *)
Definition well_formed (r : registry) : Prop :=
  (forall k a,
     InflationSDP.compound_monomial_from_tuple_of_atoms_cache r !! k = Some a ->
     is_Some (InflationSDP.heap r !! a))
  /\ (forall a, is_Some (InflationSDP.heap r !! a) ->
                a < InflationSDP.next_addr r).

(** The part of the registry the atomic monomials do not touch. *)
Definition same_compounds (r r' : registry) : Prop :=
  InflationSDP.compound_monomial_from_tuple_of_atoms_cache r'
  = InflationSDP.compound_monomial_from_tuple_of_atoms_cache r
  /\ InflationSDP.heap r' = InflationSDP.heap r
  /\ InflationSDP.next_addr r <= InflationSDP.next_addr r'.

End Invariants.
End SDPRegistrySpec.

(** The symmetrisation of the moment matrix: arrays read inside their
    bounds, and what is asked of the list of symmetries. *)
Module ApplySpec.

(** [a[i, j]] and [permutation[i]]. *)
Definition at2 (a : list (list nat)) (i j : nat) : nat :=
  nth j (nth i a []) 0.
Definition img (permutation : list nat) (i : nat) : nat :=
  nth i permutation 0.

(** An array of shape [(n, n)]. *)
Definition square (n : nat) (a : list (list nat)) : Prop :=
  length a = n /\ Forall (fun row => length row = n) a.

(** A list of [n] indices of the generating columns. *)
Definition index_map (n : nat) (permutation : list nat) : Prop :=
  length permutation = n /\ Forall (fun x => x < n) permutation.

(** The list holds the composition of any two of its permutations, and an
    inverse of each of them. *)
Definition closed (n : nat) (perms : list (list nat)) : Prop :=
  forall p q, p ∈ perms -> q ∈ perms ->
    exists t, t ∈ perms /\ forall i, i < n -> img t i = img q (img p i).
Definition has_inverses (n : nat) (perms : list (list nat)) : Prop :=
  forall p, p ∈ perms ->
    exists q, q ∈ perms /\ forall i, i < n -> img q (img p i) = i.

(** Two entries that hold one index are sent by a symmetry to two entries
    that hold one index: the symmetry acts on the indices. *)
Definition equivariant (n : nat) (momentmatrix : list (list nat))
  (perms : list (list nat)) : Prop :=
  forall p, p ∈ perms ->
    forall i j k l, i < n -> j < n -> k < n -> l < n ->
      at2 momentmatrix i j = at2 momentmatrix k l ->
      at2 momentmatrix (img p i) (img p j)
      = at2 momentmatrix (img p k) (img p l).

(** The distinct indices of the matrix are [lowest], [lowest + 1], ...,
    [lowest + count - 1]. *)
Definition no_gap (momentmatrix : list (list nat)) (lowest count : nat)
  : Prop :=
  (Np.unique_with_index (concat momentmatrix)).*1 = seq lowest count.

(** [g[permutation]]: the index map that applies [permutation], then [g]. *)
Definition compose (g permutation : list nat) : list nat :=
  map (img g) permutation.

(** The index maps that one pass over the list of symmetries composes: the
    identity, and the products of listed permutations taken in the order of
    the list. *)
Definition ordered_products (n : nat) (perms : list (list nat))
  : list (list nat) :=
  foldl (fun acc permutation =>
           acc ++ map (fun g => compose g permutation) acc)
    [seq 0 n] perms.

(** The least index of the orbit of the entry [(i, j)] under the index maps
    of [group]. *)
Definition least_of_orbit (momentmatrix : list (list nat))
  (group : list (list nat)) (i j w : nat) : Prop :=
  (forall g, g ∈ group ->
     w <= at2 momentmatrix (img g i) (img g j))
  /\ (exists g, g ∈ group /\ w = at2 momentmatrix (img g i) (img g j)).

End ApplySpec.

(** The symmetries of several sources, as [_calculate_inflation_symmetries]
    collects them: the index maps of one source hold the identity, the
    composition of any two of them and an inverse of each, and those of two
    different sources commute. *)
Module SourcesSpec.
Import ApplySpec.

Definition commutes_with (n : nat) (x b : list nat) : Prop :=
  forall i, i < n -> img x (img b i) = img b (img x i).

Definition commute (n : nat) (G1 G2 : list (list nat)) : Prop :=
  forall p q, p ∈ G1 -> q ∈ G2 -> commutes_with n p q.

Definition group_of_index_maps (n : nat) (G : list (list nat)) : Prop :=
  seq 0 n ∈ G /\ (forall p, p ∈ G -> index_map n p)
  /\ closed n G /\ has_inverses n G.

Fixpoint pairwise_commute (n : nat) (groups : list (list (list nat)))
  : Prop :=
  match groups with
  | [] => True
  | G :: groups => Forall (commute n G) groups /\ pairwise_commute n groups
  end.

(** [perms] lists, in whatever order and however often, the index maps of
    the sources and nothing else. *)
Definition symmetries_of_sources (n : nat) (groups : list (list (list nat)))
  (perms : list (list nat)) : Prop :=
  Forall (group_of_index_maps n) groups
  /\ pairwise_commute n groups
  /\ (forall p, p ∈ perms <-> exists G, G ∈ groups /\ p ∈ G).

(** One index map per source, composed. *)
Definition product_of (n : nat) (bs : list (list nat)) : list nat :=
  foldr compose (seq 0 n) bs.

Definition one_of_each (bs : list (list nat)) (groups : list (list (list nat)))
  : Prop :=
  Forall2 (fun (b : list nat) (G : list (list nat)) => b ∈ G) bs groups.

Definition in_product (n : nat) (groups : list (list (list nat)))
  (t : list nat) : Prop :=
  exists bs, one_of_each bs groups /\ t = product_of n bs.

(** No index map other than the identity is chosen for two sources. *)
Fixpoint tidy (n : nat) (bs : list (list nat)) : Prop :=
  match bs with
  | [] => True
  | b :: bs => (b = seq 0 n \/ b ∉ bs) /\ tidy n bs
  end.

End SourcesSpec.

(** ** Small concrete engines

    Monomials, atoms and dictionary keys are numbers; the unit is [1] and
    the zero monomial is [0]. *)

Module Example.

Definition Zero : nat := 0.
Definition One : nat := 1.
Definition sanitise (k : nat) : result nat := inr k.
Definition always (m : nat) : bool := true.
Definition len (m : nat) : nat := 1.
Definition factor_0 (m : nat) : result nat := inr m.
Definition no_evaluation (m : nat) (known : gmap nat Q) (use_lpi : bool)
  : Q * list nat * known_status := (0%Q, [], StatusNo).
Definition from_atoms (l : list nat) : nat := hd 1 l.
Definition no_unpack (m : nat) : result (Q * nat) := inl TypeError.

(** A supports problem of the SDP engine with three monomials. *)
Definition sdp_supports_state : @InflationSDP.state nat _ _ :=
  InflationSDP.mkState true false true [1; 2; 3] false ∅ ∅ ∅ ∅
    {[One := 0%Q]} ∅.

(** The monomial 2 is given the value 0, the monomial 3 the value 1/2. *)
Definition supports_values : option (list (nat * option Q)) :=
  Some [(2, Some 0%Q); (3, Some (1 # 2)%Q)].

Definition sdp_set_values :=
  InflationSDP.set_values Zero One sanitise always always len factor_0
    no_evaluation from_atoms no_unpack.

(** An objective [5 * m2] with the semiknown relation [m2 = 1/2 * m3]. *)
Definition sdp_semiknown_state : @InflationSDP.state nat _ _ :=
  InflationSDP.mkState false false true [1; 2; 3] true {[One := 1%Q]}
    {[2 := ((1 # 2)%Q, 3)]} ∅ ∅
    (<[2 := 5%Q]> {[One := 0%Q]}) ∅.

(** An LP engine whose registry knows the unit under the name "1". *)
Definition lp_key : Type := py_input nat nat unit unit.
Definition lp_sanitise : lp_key -> result nat :=
  InflationLP._sanitise_monomial One {["1" := One]} from_atoms
    (fun _ => []) (fun _ => tt) (fun _ => tt) (fun _ => 1) (fun _ => tt)
    (fun _ => 2).

Definition lp_state : @InflationLP.state nat _ _ :=
  InflationLP.mkState false 0 [1; 2] false {[One := 1%Q]} ∅ ∅ ∅.

(** Three keys for the unit, the number 1, the monomial itself and its name,
    with the bounds 0, 1e-8 and -1e-8. *)
Definition three_bounds : list (lp_key * Q) :=
  [ (InReal 1, 0%Q);
    (InCompound One, (1 # 100000000)%Q);
    (InStr "1", (-1 # 100000000)%Q) ].

(** A generating set that is not closed under the swap of the two copies of
    its only source: the unit and the operator of the first copy. *)
Definition open_generating_set : list (list (list nat)) :=
  [ []; [[1; 1; 0; 0]] ].

Definition calculate_symmetries (verbose : nat) :=
  InflationSDP._calculate_inflation_symmetries (fun m : list (list nat) => m)
    (GeneralTools.apply_source_permutation_coord_input
       (FastNpa.to_canonical 1 (FastNpa.notcomm 1)))
    GeneralTools.find_permutation verbose [2] open_generating_set.

(** The registries: the key of a compound is the data of its atoms, the
    factorisation leaves a monomial whole, and nothing is reordered. *)
Definition atoms_key {A : Type} (atoms : list (atom_obj A)) : list A :=
  map atom_data atoms.
Definition name_of {A : Type} (atoms : list (atom_obj A)) : string :=
  match atoms with
  | [] => "1"
  | _ => "P"
  end.

(** An SDP engine whose operators have four properties. *)
Definition sdp_init :=
  InflationSDP.init (K := list (list (list nat))) atoms_key name_of
    (fun m => m) (fun m => m) (fun m => [m]) 0 4.

(** The table of a symmetrised moment matrix with two monomials besides the
    zero monomial and the unit, and the monomials the engine builds from
    it. *)
Definition sdp_table_dict : gmap nat (list (list nat)) :=
  {[2 := [[1; 1; 0; 0]]; 3 := [[2; 1; 0; 0]]]}.
Definition sdp_representatives : list nat := [0; 1; 2; 3].
Definition sdp_monomials_of_table :=
  InflationSDP.monomials_of_table (K := list (list (list nat))) atoms_key
    name_of (fun m => m) (fun m => m) (fun m => [m]) 0.

(** An LP engine with two operators and the symmetry that swaps them; its
    columns are the unit and the first operator. *)
Definition lp_columns : list (list bool) := [[false; false]; [true; false]].
Definition lp_init :=
  InflationLP.init (K := list (list nat)) atoms_key name_of 2
    [[0; 1]; [1; 0]] (fun m => [m]).

(** The atomic monomials of an SDP engine with one source of inflation level
    two: the operator of the party 1 on the first copy of the source, and
    its image under the swap of the two copies. *)
Definition sdp_to_canonical : list (list nat) -> list (list nat) :=
  FastNpa.to_canonical 1 (FastNpa.notcomm 1).
Definition sdp_AtomicMonomial :=
  InflationSDP.AtomicMonomial (K := list (list (list nat))) sdp_to_canonical
    (GeneralTools.to_representative sdp_to_canonical [2]) 0.
Definition on_first_copy : list (list nat) := [[1; 1; 0; 0]].
Definition on_second_copy : list (list nat) :=
  map (GeneralTools.permute_copy 0 [1; 0]) on_first_copy.

(** An SDP engine with one source of inflation level two whose generating
    set is not closed under the swap of the copies: the operators of the
    two copies are two monomials of the moment matrix, each its own
    representative. *)
Definition sdp_two_copies_init :=
  InflationSDP.init (K := list (list (list nat))) atoms_key name_of
    sdp_to_canonical (GeneralTools.to_representative sdp_to_canonical [2])
    (fun m => [m]) 0 4.
Definition sdp_two_copies_dict : list (nat * list (list nat)) :=
  [(2, on_first_copy); (3, on_second_copy)].
Definition sdp_two_copies_orbits : list nat := [0; 1; 2; 3].
Definition sdp_two_copies_monomials :=
  InflationSDP.monomials_of_table (K := list (list (list nat))) atoms_key
    name_of sdp_to_canonical
    (GeneralTools.to_representative sdp_to_canonical [2]) (fun m => [m]) 0.

(** A moment matrix of three columns whose nine entries are distinct, with a
    monomial for every index. *)
Definition nine_indices : list (list nat) :=
  [[0; 1; 2]; [3; 4; 5]; [6; 7; 8]].
Definition nine_monomials : gmap nat nat :=
  list_to_map (map (fun k => (k, k)) (seq 0 9)).

(** A moment matrix of two columns on which the swap of the columns acts,
    and the symmetries of one source with two copies: the identity and the
    swap, in the order [np.unique] leaves them. *)
Definition two_columns : list (list nat) := [[1; 2]; [2; 3]].
Definition two_columns_monomials : gmap nat nat := {[2 := 2; 3 := 3]}.
Definition identity_and_swap : list (list nat) := [[0; 1]; [1; 0]].

End Example.

(** ** What the calls that set values leave alone *)

(** The attributes the LP engine does not write while it stores and infers
    values, before the clean-up. *)
Definition lp_frame `{Countable mon} (s s0 : @InflationLP.state mon _ _) : Prop :=
  InflationLP.supports_problem s0 = InflationLP.supports_problem s
  /\ InflationLP.monomials s0 = InflationLP.monomials s
  /\ InflationLP.moment_lowerbounds s0 = InflationLP.moment_lowerbounds s
  /\ InflationLP.moment_upperbounds s0 = InflationLP.moment_upperbounds s.

(** The same for the SDP engine. *)
Definition sdp_frame `{Countable mon} (s s0 : @InflationSDP.state mon _ _) : Prop :=
  InflationSDP.supports_problem s0 = InflationSDP.supports_problem s
  /\ InflationSDP.list_of_monomials s0 = InflationSDP.list_of_monomials s
  /\ InflationSDP.moment_lowerbounds s0 = InflationSDP.moment_lowerbounds s
  /\ InflationSDP._processed_moment_lowerbounds s0 =
     InflationSDP._processed_moment_lowerbounds s
  /\ InflationSDP.objective s0 = InflationSDP.objective s.

(** The monomial an item of the dictionary of values stands for when its
    value is a number: [None] for a NaN value or a key that is not
    recognised. *)
Definition stored_monomial {key mon : Type}
  (_sanitise_monomial : key -> result mon) (kv : key * option Q) : option mon :=
  match snd kv, _sanitise_monomial (fst kv) with
  | Some _, inr m => Some m
  | _, _ => None
  end.

(** The coefficients of a dictionary that stand for the monomial [m] and are
    not close to 0, in the order of the dictionary. *)
Definition coefficients_of {key mon : Type} `{EqDecision mon}
  (_sanitise_monomial : key -> result mon) (m : mon) (items : list (key * Q))
  : list Q :=
  omap (fun kv : key * Q =>
          if Num.isclose (snd kv) 0 then None
          else match _sanitise_monomial (fst kv) with
               | inr m' => if decide (m' = m) then Some (snd kv) else None
               | inl _ => None
               end) items.

(** The clean-up of a supports problem, monomial by monomial: a monomial
    known with a value not close to 0 leaves the known moments and gets the
    lower bound 1; every other monomial keeps its value, if it has one, and
    its lower bound, if it has one; no semiknown relation is left. *)
Definition supports_cleanup_at `{Countable mon}
  (known lowerbounds known' lowerbounds' : gmap mon Q) (m : mon) : Prop :=
  match known !! m with
  | Some v =>
      if Num.isclose v 0
      then known' !! m = Some v /\ lowerbounds' !! m = lowerbounds !! m
      else known' !! m = None /\ lowerbounds' !! m = Some 1%Q
  | None => known' !! m = None /\ lowerbounds' !! m = lowerbounds !! m
  end.

Definition supports_cleanup_of `{Countable mon}
  (known lowerbounds known' lowerbounds' : gmap mon Q)
  (semiknown' : gmap mon (Q * mon)) : Prop :=
  semiknown' = ∅
  /\ (forall m : mon,
        supports_cleanup_at known lowerbounds known' lowerbounds' m).

(** An array of orbits none of whose entries exceeds its own index. *)
Definition never_upwards (orbits : list nat) : Prop :=
  forall i v, orbits !! i = Some v -> v <= i.

(** ** Engines with a product

    The monomials are the unit [1], the atomic monomials [2] and [3] and
    their product [6]; the atoms are [2] and [3]. *)

Module Product.

Definition is_atomic (m : nat) : bool := negb (Nat.eqb m 6).
Definition len (m : nat) : nat := if Nat.eqb m 6 then 2 else 1.

(** The value of a monomial given the values of the atoms. *)
Definition evaluate (m : nat) (known : gmap nat Q) (use_lpi : bool)
  : Q * list nat * known_status :=
  if Nat.eqb m 6 then
    match known !! 2, known !! 3 with
    | Some a, Some b => ((a * b)%Q, [], StatusYes)
    | Some a, None => (a, [3], StatusSemi)
    | None, Some b => (b, [2], StatusSemi)
    | None, None => (1%Q, [2; 3], StatusNo)
    end
  else
    match known !! m with
    | Some a => (a, [], StatusYes)
    | None => (1%Q, [m], StatusNo)
    end.

Definition lp_set_values :=
  InflationLP.set_values Example.One Example.sanitise is_atomic Example.always
    Example.always (fun _ => StatusYes) len Example.factor_0 evaluate
    Example.from_atoms.

Definition lp_state : @InflationLP.state nat _ _ :=
  InflationLP.mkState false 0 [1; 2; 3; 6] false {[Example.One := 1%Q]} ∅ ∅ ∅.

(** A supports problem that holds the lower bound left on the monomial 3 by
    an earlier call, and an upper bound given by the user. *)
Definition lp_supports_state : @InflationLP.state nat _ _ :=
  InflationLP.mkState true 0 [1; 2; 3; 6] false {[Example.One := 1%Q]} ∅
    {[3 := 1%Q]} {[2 := 1%Q]}.

Definition sdp_set_values :=
  InflationSDP.set_values Example.Zero Example.One Example.sanitise is_atomic
    Example.always len Example.factor_0 evaluate Example.from_atoms
    Example.no_unpack.

(** An SDP engine with lower bounds on the two atomic monomials. *)
Definition sdp_state : @InflationSDP.state nat _ _ :=
  InflationSDP.mkState false false true [1; 2; 3; 6] false ∅ ∅
    (<[2 := 0%Q]> {[3 := 0%Q]}) ∅ {[Example.One := 0%Q]} ∅.

Definition sdp_supports_state : @InflationSDP.state nat _ _ :=
  InflationSDP.mkState true false true [1; 2; 3; 6] false ∅ ∅
    {[3 := 1%Q]} ∅ {[Example.One := 0%Q]} ∅.

Definition sdp_set_objective :=
  InflationSDP.set_objective Example.One Example.sanitise Example.no_unpack.

Definition lp_sanitize_dict :=
  InflationLP._sanitize_dict (mon := nat) Example.sanitise.

Definition lp_set_objective :=
  InflationLP.set_objective (mon := nat) Example.sanitise.

End Product.

(** * Part II.  Properties of the embedded code *)

(** ** Generic facts about the helpers *)

Lemma for_each_app {A S : Type} (body : A -> S -> result S) (l1 l2 : list A)
  (s : S) :
  for_each body (l1 ++ l2) s =
  bind (for_each body l1 s) (for_each body l2).
Proof.
  revert s. induction l1 as [|x l1 IH]; intros s; simpl; [reflexivity|].
  destruct (body x s) as [e|s']; simpl; [reflexivity|apply IH].
Qed.

Lemma for_each_total {A S : Type} (body : A -> S -> result S) (f : A -> S -> S)
  (l : list A) (s : S) :
  (forall x s, body x s = inr (f x s)) ->
  for_each body l s = inr (foldl (fun s x => f x s) s l).
Proof.
  intros Hb. revert s. induction l as [|x l IH]; intros s; simpl; [reflexivity|].
  rewrite Hb. simpl. apply IH.
Qed.

Lemma for_each_invariant {A S : Type} (P : S -> Prop)
  (body : A -> S -> result S) (l : list A) (s s' : S) :
  (forall x s s', body x s = inr s' -> P s -> P s') ->
  P s -> for_each body l s = inr s' -> P s'.
Proof.
  intros Hb. revert s. induction l as [|x l IH]; intros s HP; simpl.
  - intros [= <-]. assumption.
  - destruct (body x s) as [e|s1] eqn:Hx; simpl; [discriminate|].
    apply IH. eapply Hb; eassumption.
Qed.

Lemma foldl_invariant {A S : Type} (P : S -> Prop) (f : S -> A -> S)
  (l : list A) (s : S) :
  (forall x s, P s -> P (f s x)) -> P s -> P (foldl f s l).
Proof.
  intros Hf. revert s. induction l as [|x l IH]; intros s HP; simpl; auto.
Qed.

(** ** Numbers in place of monomials *)

Module SanitiseFacts.

Lemma isclose_0_1 : Num.isclose 0 1 = false.
Proof. reflexivity. Qed.

Lemma isclose_1_1 : Num.isclose 1 1 = true.
Proof. reflexivity. Qed.

Lemma isclose_0_0 : Num.isclose 0 0 = true.
Proof. reflexivity. Qed.

(** C10.  A plain number handed to [_sanitise_monomial]: the SDP engine
    returns the unit for a number close to 1, the zero monomial for a number
    close to 0 and raises for any other number; the LP engine returns the unit
    for a number close to 1 and raises for every other number, the number 0
    included.  This holds whatever the registry and the parsers are. *)
Theorem sanitise_number_reserved_constants
  {mon atom sym arr : Type} (Zero One : mon)
  (sdp_names lp_names : gmap string mon)
  (sdp_symbol_to_array : sym -> arr) (sdp_name_to_array : string -> arr)
  (shape_ok : arr -> bool) (to_canonical : arr -> arr)
  (mon_is_zero : arr -> bool) (sdp_Monomial : arr -> mon)
  (_monomial_from_atoms : list atom -> mon) (symbol_names : sym -> list string)
  (lp_symbol_to_array : sym -> arr) (_interpret_name : string -> arr)
  (ndim : arr -> nat) (mon_to_lexrepr : arr -> arr) (lp_Monomial : arr -> mon)
  (x : Q) :
  let sdp := InflationSDP._sanitise_monomial (atom := atom) Zero One sdp_names
               sdp_symbol_to_array sdp_name_to_array shape_ok to_canonical
               mon_is_zero sdp_Monomial in
  let lp := InflationLP._sanitise_monomial One lp_names _monomial_from_atoms
              symbol_names lp_symbol_to_array _interpret_name ndim
              mon_to_lexrepr lp_Monomial in
  sdp (InReal x) =
    (if Num.isclose x 1 then inr One
     else if Num.isclose x 0 then inr Zero
     else inl ConstantMonomialError)
  /\ lp (InReal x) =
    (if Num.isclose x 1 then inr One else inl ConstantMonomialError)
  /\ sdp (InReal 1) = inr One /\ sdp (InReal 0) = inr Zero
  /\ lp (InReal 1) = inr One /\ raises (lp (InReal 0)).
Proof.
  cbv zeta. repeat split.
  exists ConstantMonomialError. reflexivity.
Qed.

End SanitiseFacts.

(** ** The generating set of the bilocal scenario *)

Module ColumnFacts.

(** With the table of section 4.B and the canonicaliser of section 4.C of
    the specification the string ['npa2'] gives 37 columns in the bilocal
    scenario whether or not the commuting model is selected: the two
    operators [B_11] and [B_12] disagree on the copy of the second source,
    so rule (iii) lets them commute and their product is a column in one
    order only. *)
Remark bilocal_npa2_with_the_table_of_the_specification :
  length (Bilocal.build_columns (FastNpa.notcomm 2) false
            (InflationSDP.SpecNpa 2)) = 37
  /\ length (Bilocal.build_columns (FastNpa.notcomm 2) true
               (InflationSDP.SpecNpa 2)) = 37
  /\ [Bilocal.B_11; Bilocal.B_12]
       ∈ Bilocal.build_columns (FastNpa.notcomm 2) false
           (InflationSDP.SpecNpa 2)
  /\ [Bilocal.B_12; Bilocal.B_11]
       ∉ Bilocal.build_columns (FastNpa.notcomm 2) false
           (InflationSDP.SpecNpa 2).
Proof.
  split; [vm_compute; reflexivity|]. split; [vm_compute; reflexivity|].
  split.
  - refine (bool_decide_unpack _ _). vm_compute. exact I.
  - intros Hin. apply (bool_decide_pack _) in Hin. vm_compute in Hin.
    exact Hin.
Qed.

End ColumnFacts.

(** ** Values, supports problems and the objective *)

Module ValuationFacts.

Section NonzeroKnown.
Context `{Countable mon}.

Lemma elem_of_nonzero_known (known : gmap mon Q) (m : mon) :
  m ∈ (filter (fun kv => negb (Num.isclose (snd kv) 0)) (map_to_list known)).*1
  <-> exists v, known !! m = Some v /\ Num.isclose v 0 = false.
Proof.
  rewrite list_elem_of_fmap. split.
  - intros [[m' v] [-> Hin]]. apply list_elem_of_filter in Hin as [Hnz Hin].
    apply elem_of_map_to_list in Hin. simpl in *.
    exists v. split; [assumption|]. destruct (Num.isclose v 0); [done|reflexivity].
  - intros (v & Hl & Hnz). exists (m, v). split; [reflexivity|].
    apply list_elem_of_filter. split.
    + simpl. rewrite Hnz. done.
    + by apply elem_of_map_to_list.
Qed.

Lemma NoDup_nonzero_known (known : gmap mon Q) :
  NoDup (filter (fun kv => negb (Num.isclose (snd kv) 0)) (map_to_list known)).*1.
Proof.
  eapply NoDup_fmap_fst.
  - intros m v1 v2 H1 H2.
    apply list_elem_of_filter in H1 as [_ H1].
    apply list_elem_of_filter in H2 as [_ H2].
    apply elem_of_map_to_list in H1. apply elem_of_map_to_list in H2.
    congruence.
  - apply NoDup_filter, NoDup_map_to_list.
Qed.

End NonzeroKnown.

Section SDP.
Context `{Countable mon}.
Variable One : mon.
Variable unpack_monomial : mon -> result (Q * mon).

Local Abbreviation state := (@InflationSDP.state mon _ _).

Lemma sdp_supports_loop (l : list mon) (s : state) :
  NoDup l ->
  (forall m, m ∈ l -> is_Some (InflationSDP.known_moments s !! m)) ->
  exists s', for_each InflationSDP.supports_step l s = inr s'
    /\ (forall m, InflationSDP.known_moments s' !! m =
                  if decide (m ∈ l) then None
                  else InflationSDP.known_moments s !! m)
    /\ (forall m, InflationSDP.moment_lowerbounds s' !! m =
                  if decide (m ∈ l) then Some 1%Q
                  else InflationSDP.moment_lowerbounds s !! m)
    /\ InflationSDP.semiknown_moments s' = InflationSDP.semiknown_moments s
    /\ InflationSDP.objective s' = InflationSDP.objective s
    /\ InflationSDP.supports_problem s' = InflationSDP.supports_problem s.
Proof.
  revert s. induction l as [|x l IH]; intros s Hnd Hin.
  - exists s. simpl. repeat split; intros m; case_decide; try reflexivity;
      exfalso; eapply not_elem_of_nil; eassumption.
  - apply NoDup_cons in Hnd as [Hx Hnd].
    destruct (Hin x) as [v Hv]; [left|].
    simpl. unfold InflationSDP.supports_step at 1. simpl.
    unfold delitem. rewrite Hv. simpl.
    match goal with |- context [for_each _ l ?s1] => set (s1' := s1) end.
    destruct (IH s1' Hnd) as (s' & Hrun & Hk & Hlb & Hsk & Hobj & Hsup).
    { intros m Hm. subst s1'. simpl. rewrite lookup_delete_ne.
      - apply Hin. by right.
      - intros ->. contradiction. }
    exists s'. split; [exact Hrun|]. subst s1'. simpl in *.
    repeat split; try assumption.
    + intros m. rewrite Hk. destruct (decide (m = x)) as [->|Hne].
      * rewrite lookup_delete_eq.
        repeat case_decide; try reflexivity; exfalso; set_solver.
      * rewrite lookup_delete_ne by congruence.
        repeat case_decide; try reflexivity; exfalso; set_solver.
    + intros m. rewrite Hlb. destruct (decide (m = x)) as [->|Hne].
      * rewrite lookup_insert_eq.
        repeat case_decide; try reflexivity; exfalso; set_solver.
      * rewrite lookup_insert_ne by congruence.
        repeat case_decide; try reflexivity; exfalso; set_solver.
Qed.

Lemma unit_coefficient_ext (known po po1 : gmap mon Q) (u : Q) (l : list mon) :
  (forall m, m ∈ l -> po1 !! m = po !! m) ->
  unit_coefficient known po1 u l = unit_coefficient known po u l.
Proof.
  revert u. induction l as [|x l IH]; intros u Hl; [reflexivity|].
  unfold unit_coefficient in *. simpl. rewrite (Hl x) by left.
  apply IH. intros m Hm. apply Hl. by right.
Qed.

(** The first loop of [_update_objective] never raises when the unit is a
    key of the objective; it removes the known monomials and moves their
    contribution to the unit. *)
Lemma known_loop_returns (known : gmap mon Q) (l : list mon) (po : gmap mon Q)
  (u : Q) :
  NoDup l -> One ∉ l ->
  (forall m, m ∈ l -> is_Some (known !! m) /\ is_Some (po !! m)) ->
  po !! One = Some u ->
  exists po', for_each (InflationSDP.substitute_known One known) l po = inr po'
    /\ po' !! One = Some (unit_coefficient known po u l)
    /\ (forall m, m <> One -> po' !! m =
                   if decide (m ∈ l) then None else po !! m).
Proof.
  revert po u. induction l as [|x l IH]; intros po u Hnd Hone Hin Hu.
  - exists po. simpl. split; [reflexivity|]. split; [assumption|].
    intros m _. reflexivity.
  - apply NoDup_cons in Hnd as [Hx Hnd].
    apply not_elem_of_cons in Hone as [Hne1 Hone].
    destruct (Hin x) as [[v Hv] [c Hc]]; [left|].
    simpl. unfold InflationSDP.substitute_known at 1.
    unfold getitem, delitem. rewrite Hv, Hu, Hc. simpl.
    rewrite lookup_insert_ne by congruence. rewrite Hc. simpl.
    match goal with |- context [for_each _ l ?p1] => set (po1 := p1) end.
    assert (Hsame : forall m, m ∈ l -> po1 !! m = po !! m).
    { intros m Hm. subst po1.
      rewrite lookup_delete_ne by (intros ->; contradiction).
      rewrite lookup_insert_ne by (intros <-; contradiction). reflexivity. }
    destruct (IH po1 (u + c * v)%Q Hnd Hone) as (po' & Hrun & HOne' & Hrest).
    + intros m Hm. split; [apply Hin; by right|].
      rewrite (Hsame m Hm). apply Hin. by right.
    + subst po1. rewrite lookup_delete_ne by congruence.
      apply lookup_insert_eq.
    + exists po'. split; [exact Hrun|]. split.
      { rewrite HOne'. f_equal. rewrite (unit_coefficient_ext _ _ _ _ _ Hsame).
        reflexivity. }
      intros m Hm. rewrite (Hrest m Hm). subst po1.
      destruct (decide (m = x)) as [->|Hne].
      * rewrite lookup_delete_eq.
        repeat case_decide; try reflexivity; exfalso; set_solver.
      * rewrite lookup_delete_ne by congruence.
        rewrite lookup_insert_ne by congruence.
        repeat case_decide; try reflexivity; exfalso; set_solver.
Qed.

(** [_update_objective] only writes [_processed_objective]. *)
Lemma sdp_update_objective_frame (s s' : state) :
  InflationSDP._update_objective One unpack_monomial s = inr s' ->
  InflationSDP.known_moments s' = InflationSDP.known_moments s
  /\ InflationSDP.semiknown_moments s' = InflationSDP.semiknown_moments s
  /\ InflationSDP.moment_lowerbounds s' = InflationSDP.moment_lowerbounds s
  /\ InflationSDP.objective s' = InflationSDP.objective s
  /\ InflationSDP.supports_problem s' = InflationSDP.supports_problem s.
Proof.
  unfold InflationSDP._update_objective.
  destruct (for_each _ _ _) as [e|po]; simpl; [discriminate|].
  destruct (for_each _ _ _) as [e|po']; simpl; [discriminate|].
  intros [= <-]. repeat split.
Qed.

(** Without semiknown relations and with the unit among the keys of the
    objective, [_update_objective] returns. *)
Lemma sdp_update_objective_returns (s : state) :
  InflationSDP.semiknown_moments s = ∅ ->
  is_Some (InflationSDP.objective s !! One) ->
  exists s', InflationSDP._update_objective One unpack_monomial s = inr s'.
Proof.
  intros Hsk [u HOne]. unfold InflationSDP._update_objective.
  destruct (known_loop_returns (InflationSDP.known_moments s)
              (elements ((dom (InflationSDP.known_moments s)
                          ∩ dom (InflationSDP.objective s)) ∖ {[One]}))
              (InflationSDP.objective s) u) as (po & Hrun & _ & _).
  - apply NoDup_elements.
  - rewrite elem_of_elements. set_solver.
  - intros m Hm. apply elem_of_elements in Hm.
    apply elem_of_difference in Hm as [Hm _].
    apply elem_of_intersection in Hm as [H1 H2].
    split; by apply elem_of_dom.
  - assumption.
  - rewrite Hrun. simpl. rewrite Hsk.
    replace (elements (dom (∅ : gmap mon (Q * mon)) ∩ dom po)) with (@nil mon).
    + simpl. eauto.
    + symmetry. apply elements_empty_iff. set_solver.
Qed.

(** The clean-up of the SDP engine in a supports problem: what it returns. *)
Lemma sdp_cleanup_supports_post (s s' : state) :
  InflationSDP.supports_problem s = true ->
  InflationSDP.cleanup_after_set_values One unpack_monomial s = inr s' ->
  supports_postcondition (InflationSDP.known_moments s)
    (InflationSDP.known_moments s') (InflationSDP.moment_lowerbounds s')
    (InflationSDP.semiknown_moments s').
Proof.
  intros Hsup. unfold InflationSDP.cleanup_after_set_values.
  rewrite Hsup.
  destruct (sdp_supports_loop
              (InflationSDP.nonzero_known_monomials
                 (InflationSDP.known_moments s)) s)
    as (s1 & Hrun & Hk & Hlb & Hsk & Hobj & Hsup1).
  { apply NoDup_nonzero_known. }
  { intros m Hm. apply elem_of_nonzero_known in Hm as (v & Hv & _). eauto. }
  rewrite Hrun. simpl. intros Hs'.
  apply sdp_update_objective_frame in Hs' as (Hk' & Hsk' & Hlb' & _ & _).
  simpl in *. split; [assumption|].
  intros m v Hv. rewrite Hk', Hlb', Hk, Hlb.
  destruct (Num.isclose v 0) eqn:Hc.
  - case_decide as Hin; [|assumption].
    apply elem_of_nonzero_known in Hin as (v' & Hv' & Hc'). congruence.
  - case_decide as Hin; [split; reflexivity|].
    exfalso. apply Hin. apply elem_of_nonzero_known. eauto.
Qed.

(** ... and it does return when the unit is a key of the objective, as it is
    after [reset_objective] and [set_objective]. *)
Lemma sdp_cleanup_supports (s : state) :
  InflationSDP.supports_problem s = true ->
  is_Some (InflationSDP.objective s !! One) ->
  exists s',
    InflationSDP.cleanup_after_set_values One unpack_monomial s = inr s'
    /\ supports_postcondition (InflationSDP.known_moments s)
         (InflationSDP.known_moments s') (InflationSDP.moment_lowerbounds s')
         (InflationSDP.semiknown_moments s').
Proof.
  intros Hsup HOne. unfold InflationSDP.cleanup_after_set_values.
  rewrite Hsup.
  destruct (sdp_supports_loop
              (InflationSDP.nonzero_known_monomials
                 (InflationSDP.known_moments s)) s)
    as (s1 & Hrun & Hk & Hlb & Hsk & Hobj & Hsup1).
  { apply NoDup_nonzero_known. }
  { intros m Hm. apply elem_of_nonzero_known in Hm as (v & Hv & _). eauto. }
  rewrite Hrun. simpl.
  destruct (sdp_update_objective_returns
              (InflationSDP.update_physical_lowerbounds
                 (InflationSDP.with_semiknown ∅ s1))) as [s' Hs'].
  { reflexivity. }
  { simpl. rewrite Hobj. assumption. }
  exists s'. split; [exact Hs'|].
  apply sdp_update_objective_frame in Hs' as (Hk' & Hsk' & Hlb' & _ & _).
  simpl in *. split; [assumption|].
  intros m v Hv. rewrite Hk', Hlb', Hk, Hlb.
  destruct (Num.isclose v 0) eqn:Hc.
  - case_decide as Hin; [|assumption].
    apply elem_of_nonzero_known in Hin as (v' & Hv' & Hc'). congruence.
  - case_decide as Hin; [split; reflexivity|].
    exfalso. apply Hin. apply elem_of_nonzero_known. eauto.
Qed.

(** The known part of the substitution: when no semiknown monomial occurs
    in the objective, every known monomial other than the unit leaves the
    processed objective, its coefficient times its value is added to the
    coefficient of the unit, and the other coefficients are kept. *)
Lemma sdp_update_objective_known_part (s : state) (u : Q) :
  InflationSDP.objective s !! One = Some u ->
  (forall m, is_Some (InflationSDP.semiknown_moments s !! m) ->
             InflationSDP.objective s !! m = None) ->
  exists s', InflationSDP._update_objective One unpack_monomial s = inr s'
    /\ InflationSDP._processed_objective s' !! One =
         Some (unit_coefficient (InflationSDP.known_moments s)
                 (InflationSDP.objective s) u
                 (elements ((dom (InflationSDP.known_moments s)
                             ∩ dom (InflationSDP.objective s)) ∖ {[One]})))
    /\ (forall m, m <> One ->
          InflationSDP._processed_objective s' !! m =
          match InflationSDP.known_moments s !! m with
          | Some _ => None
          | None => InflationSDP.objective s !! m
          end).
Proof.
  intros HOne Hdisj. unfold InflationSDP._update_objective.
  destruct (known_loop_returns (InflationSDP.known_moments s)
              (elements ((dom (InflationSDP.known_moments s)
                          ∩ dom (InflationSDP.objective s)) ∖ {[One]}))
              (InflationSDP.objective s) u) as (po & Hrun & Hunit & Hrest).
  - apply NoDup_elements.
  - rewrite elem_of_elements. set_solver.
  - intros m Hm. apply elem_of_elements in Hm.
    apply elem_of_difference in Hm as [Hm _].
    apply elem_of_intersection in Hm as [H1 H2].
    split; by apply elem_of_dom.
  - assumption.
  - rewrite Hrun. simpl.
    assert (Hpo : forall m, m <> One -> po !! m =
              match InflationSDP.known_moments s !! m with
              | Some _ => None
              | None => InflationSDP.objective s !! m
              end).
    { intros m Hm. rewrite (Hrest m Hm). case_decide as Hin.
      - apply elem_of_elements, elem_of_difference in Hin as [Hin _].
        apply elem_of_intersection in Hin as [Hin _].
        apply elem_of_dom in Hin as [v ->]. reflexivity.
      - destruct (InflationSDP.known_moments s !! m) as [v|] eqn:Hv;
          [|reflexivity].
        destruct (InflationSDP.objective s !! m) as [c|] eqn:Hc;
          [|reflexivity].
        exfalso. apply Hin. apply elem_of_elements, elem_of_difference.
        split; [|set_solver].
        apply elem_of_intersection. split; apply elem_of_dom; eauto. }
    replace (elements (dom (InflationSDP.semiknown_moments s) ∩ dom po))
      with (@nil mon).
    + simpl. eexists. split; [reflexivity|]. simpl. split; assumption.
    + symmetry. apply elements_empty_iff. apply elem_of_equiv_empty.
      intros m Hm. apply elem_of_intersection in Hm as [H1 H2].
      apply elem_of_dom in H1. apply elem_of_dom in H2 as [c Hc].
      specialize (Hdisj m H1).
      destruct (decide (m = One)) as [->|Hne]; [congruence|].
      rewrite (Hpo m Hne), Hdisj in Hc.
      destruct (InflationSDP.known_moments s !! m); discriminate.
Qed.

(** C6.  A monomial of the objective that has a semiknown relation and no
    known value makes [_update_objective] raise, where the processed
    objective should have lost the monomial and gained its coefficient times
    [k] on the other monomial of the relation: the loop
    [for (k, v2) in self.semiknown_moments[v1]] walks over the pair
    (number, monomial) instead of unpacking it, and the number, met first,
    does not unpack. *)
Theorem sdp_update_objective_semiknown_raises (s : state) (m : mon) :
  is_Some (InflationSDP.semiknown_moments s !! m) ->
  is_Some (InflationSDP.objective s !! m) ->
  InflationSDP.known_moments s !! m = None ->
  m <> One ->
  raises (InflationSDP._update_objective One unpack_monomial s).
Proof.
  intros Hsk Hobj Hk Hne. unfold InflationSDP._update_objective.
  destruct (for_each (InflationSDP.substitute_known One _) _ _)
    as [e|po] eqn:Hrun; simpl; [by exists e|].
  assert (Hpo : is_Some (po !! m)).
  { destruct (InflationSDP.objective s !! One) as [u|] eqn:HOne.
    - destruct (known_loop_returns (InflationSDP.known_moments s)
              (elements ((dom (InflationSDP.known_moments s)
                          ∩ dom (InflationSDP.objective s)) ∖ {[One]}))
              (InflationSDP.objective s) u) as (po' & Hrun' & _ & Hrest).
      + apply NoDup_elements.
      + rewrite elem_of_elements. set_solver.
      + intros m' Hm'. apply elem_of_elements in Hm'.
        apply elem_of_difference in Hm' as [Hm' _].
        apply elem_of_intersection in Hm' as [H1 H2].
        split; by apply elem_of_dom.
      + exact HOne.
      + rewrite Hrun in Hrun'. injection Hrun' as <-.
        rewrite (Hrest m Hne). case_decide as Hin; [|assumption].
        apply elem_of_elements in Hin.
        apply elem_of_difference in Hin as [Hin _].
        apply elem_of_intersection in Hin as [Hin _].
        apply elem_of_dom in Hin as [? ?]. congruence.
    - (* the unit is not a key: the first loop is empty or raises *)
      destruct (elements ((dom (InflationSDP.known_moments s)
                           ∩ dom (InflationSDP.objective s)) ∖ {[One]}))
        as [|x l] eqn:Hl.
      + simpl in Hrun. injection Hrun as <-. assumption.
      + exfalso. simpl in Hrun.
        unfold InflationSDP.substitute_known at 1 in Hrun.
        assert (Hx : x ∈ (dom (InflationSDP.known_moments s)
                          ∩ dom (InflationSDP.objective s)) ∖ {[One]}).
        { apply elem_of_elements. rewrite Hl. left. }
        apply elem_of_difference in Hx as [Hx _].
        apply elem_of_intersection in Hx as [Hx _].
        apply elem_of_dom in Hx as [v Hv].
        unfold getitem in Hrun. rewrite Hv, HOne in Hrun. discriminate. }
  destruct (elements (dom (InflationSDP.semiknown_moments s) ∩ dom po))
    as [|v1 l] eqn:Hl.
  - exfalso. apply elements_empty_iff in Hl.
    assert (m ∈ dom (InflationSDP.semiknown_moments s) ∩ dom po).
    { apply elem_of_intersection. split; by apply elem_of_dom. }
    set_solver.
  - assert (Hv1 : v1 ∈ dom (InflationSDP.semiknown_moments s) ∩ dom po).
    { apply elem_of_elements. rewrite Hl. left. }
    apply elem_of_intersection in Hv1 as [H1 H2].
    apply elem_of_dom in H1 as [pair Hpair]. apply elem_of_dom in H2 as [c1 Hc1].
    simpl. unfold InflationSDP.substitute_semiknown at 1.
    unfold getitem. rewrite Hc1, Hpair. simpl.
    exists TypeError. reflexivity.
Qed.

End SDP.

Section SDPSetValues.
Context `{Countable mon} `{Countable atom} {key : Type}.
Variables Zero One : mon.
Variable _sanitise_monomial : key -> result mon.
Variables is_atomic knowable_q : mon -> bool.
Variable len : mon -> nat.
Variable knowable_factors_0 : mon -> result atom.
Variable evaluate_given_atomic_monomials_dict :
  mon -> gmap atom Q -> bool -> Q * list atom * known_status.
Variable monomial_from_list_of_atomic : list atom -> mon.
Variable unpack_monomial : mon -> result (Q * mon).

Local Abbreviation state := (@InflationSDP.state mon _ _).

(** Every path through [set_values] that returns ends with
    [cleanup_after_set_values]. *)
Lemma sdp_set_values_ends_with_cleanup
  (values : option (list (key * option Q)))
  (use_lpi normalised only_knowable only_specified : bool) (s s' : state) :
  InflationSDP.set_values Zero One _sanitise_monomial is_atomic knowable_q len
    knowable_factors_0 evaluate_given_atomic_monomials_dict
    monomial_from_list_of_atomic unpack_monomial values use_lpi normalised
    only_knowable only_specified s = inr s' ->
  exists s0, sdp_same_problem s s0
    /\ InflationSDP.cleanup_after_set_values One unpack_monomial s0 = inr s'.
Proof.
  unfold InflationSDP.set_values.
  set (s1 := if normalised && _ then _ else _).
  assert (H1 : sdp_same_problem s s1).
  { subst s1. unfold InflationSDP.reset_values. simpl.
    destruct (InflationSDP.momentmatrix_has_a_zero s);
      destruct (normalised && _); split; reflexivity. }
  clearbody s1.
  destruct values as [[|kv values]|]; try (intros Hc; exists s1; by split).
  set (vs := kv :: values). clearbody vs.
  destruct (for_each _ vs _) as [e|s2] eqn:Hstore; simpl; [discriminate|].
  assert (H2 : sdp_same_problem s s2).
  { eapply (for_each_invariant (sdp_same_problem s)); [|split|exact Hstore].
    - intros x t t' Hx Ht. unfold InflationSDP.store_value in Hx.
      destruct (snd x); [|by injection Hx as <-].
      destruct (_sanitise_monomial _); simpl in Hx; [discriminate|].
      injection Hx as <-. exact Ht.
    - apply H1.
    - apply H1. }
  assert (Hcheck : forall (p : mon -> bool) (t t' : state),
             InflationSDP.check_all p t = inr t' -> t' = t).
  { intros p t t'. unfold InflationSDP.check_all.
    destruct (forallb _ _); [congruence|discriminate]. }
  destruct (if only_specified then _ else _) as [e|s3] eqn:H3; simpl;
    [discriminate|].
  assert (s3 = s2) as ->.
  { destruct only_specified; [congruence|eauto]. }
  destruct (if only_knowable then _ else _) as [e|s4] eqn:H4; simpl;
    [discriminate|].
  assert (s4 = s2) as ->.
  { destruct only_knowable; [eauto|congruence]. }
  destruct only_specified.
  { intros Hc. exists s2. by split. }
  destruct (InflationSDP.atomic_known_moments _ _ _) as [e|ak]; simpl;
    [discriminate|].
  intros Hc. eexists. split; [|exact Hc].
  apply (foldl_invariant (sdp_same_problem s)); [|exact H2].
  intros m t Ht. unfold InflationSDP.infer_value.
  destruct (InflationSDP.known_moments t !! m); [exact Ht|].
  destruct (evaluate_given_atomic_monomials_dict _ _ _) as [[v u] st].
  destruct st; try exact Ht.
  destruct (InflationSDP.use_lpi_constraints t); exact Ht.
Qed.

End SDPSetValues.

Section LP.
Context `{Countable mon}.

Local Abbreviation state := (@InflationLP.state mon _ _).

Lemma lp_supports_loop (l : list mon) (s : state) :
  NoDup l ->
  (forall m, m ∈ l -> is_Some (InflationLP.known_moments s !! m)) ->
  exists s', for_each InflationLP.supports_step l s = inr s'
    /\ (forall m, InflationLP.known_moments s' !! m =
                  if decide (m ∈ l) then None
                  else InflationLP.known_moments s !! m)
    /\ (forall m, InflationLP.moment_lowerbounds s' !! m =
                  if decide (m ∈ l) then Some 1%Q
                  else InflationLP.moment_lowerbounds s !! m).
Proof.
  revert s. induction l as [|x l IH]; intros s Hnd Hin.
  - exists s. simpl. repeat split.
  - apply NoDup_cons in Hnd as [Hx Hnd].
    destruct (Hin x) as [v Hv]; [left|].
    simpl. unfold InflationLP.supports_step at 1. simpl.
    unfold delitem. rewrite Hv. simpl.
    match goal with |- context [for_each _ l ?s1] => set (s1' := s1) end.
    destruct (IH s1' Hnd) as (s' & Hrun & Hk & Hlb).
    { intros m Hm. subst s1'. simpl. rewrite lookup_delete_ne.
      - apply Hin. by right.
      - intros ->. contradiction. }
    exists s'. split; [exact Hrun|]. subst s1'. simpl in *. split.
    + intros m. rewrite Hk. destruct (decide (m = x)) as [->|Hne].
      * rewrite lookup_delete_eq.
        repeat case_decide; try reflexivity; exfalso; set_solver.
      * rewrite lookup_delete_ne by congruence.
        repeat case_decide; try reflexivity; exfalso; set_solver.
    + intros m. rewrite Hlb. destruct (decide (m = x)) as [->|Hne].
      * rewrite lookup_insert_eq.
        repeat case_decide; try reflexivity; exfalso; set_solver.
      * rewrite lookup_insert_ne by congruence.
        repeat case_decide; try reflexivity; exfalso; set_solver.
Qed.

(** The clean-up of the LP engine in a supports problem. *)
Lemma lp_cleanup_supports (s : state) :
  InflationLP.supports_problem s = true ->
  exists s',
    InflationLP._cleanup_after_set_values s = inr s'
    /\ supports_postcondition (InflationLP.known_moments s)
         (InflationLP.known_moments s') (InflationLP.moment_lowerbounds s')
         (InflationLP.semiknown_moments s').
Proof.
  intros Hsup. unfold InflationLP._cleanup_after_set_values.
  rewrite Hsup.
  destruct (lp_supports_loop
              (InflationLP.nonzero_known_monomials
                 (InflationLP.known_moments s)) s)
    as (s1 & Hrun & Hk & Hlb).
  { apply NoDup_nonzero_known. }
  { intros m Hm. apply elem_of_nonzero_known in Hm as (v & Hv & _). eauto. }
  rewrite Hrun. simpl. rewrite map_size_empty. simpl.
  eexists. split; [reflexivity|]. simpl. split; [reflexivity|].
  intros m v Hv. rewrite Hk, Hlb.
  destruct (Num.isclose v 0) eqn:Hc.
  - case_decide as Hin; [|assumption].
    apply elem_of_nonzero_known in Hin as (v' & Hv' & Hc'). congruence.
  - case_decide as Hin; [split; reflexivity|].
    exfalso. apply Hin. apply elem_of_nonzero_known. eauto.
Qed.

End LP.

Section LPSetValues.
Context `{Countable mon} `{Countable atom} {key : Type}.
Variable One : mon.
Variable _sanitise_monomial : key -> result mon.
Variables is_atomic is_knowable : mon -> bool.
Variable atom_is_knowable : atom -> bool.
Variable knowability_status : mon -> known_status.
Variable len : mon -> nat.
Variable factors_0 : mon -> result atom.
Variable evaluate : mon -> gmap atom Q -> bool -> Q * list atom * known_status.
Variable _monomial_from_atoms : list atom -> mon.

Local Abbreviation state := (@InflationLP.state mon _ _).

(** Every path through [set_values] that returns ends with
    [_cleanup_after_set_values]. *)
Lemma lp_set_values_ends_with_cleanup (values : option (list (key * Q)))
  (use_lpi only_specified : bool) (s s' : state) :
  InflationLP.set_values One _sanitise_monomial is_atomic is_knowable
    atom_is_knowable knowability_status len factors_0 evaluate
    _monomial_from_atoms values use_lpi only_specified s = inr s' ->
  exists s0, lp_same_problem s s0
    /\ InflationLP._cleanup_after_set_values s0 = inr s'.
Proof.
  unfold InflationLP.set_values.
  set (s1 := InflationLP._reset_values One s).
  assert (H1 : lp_same_problem s s1) by reflexivity.
  clearbody s1.
  destruct values as [[|kv values]|]; try (intros Hc; exists s1; by split).
  unfold InflationLP.update_values.
  set (vs := kv :: values). clearbody vs.
  destruct (for_each _ vs _) as [e|s2] eqn:Hstore; simpl; [discriminate|].
  assert (H2 : lp_same_problem s s2).
  { eapply (for_each_invariant (lp_same_problem s)); [| |exact Hstore];
      [|exact H1].
    intros x t t' Hx Ht. simpl in Hx.
    destruct (_sanitise_monomial (fst x)); simpl in Hx; [discriminate|].
    injection Hx as <-. exact Ht. }
  destruct (if only_specified then _ else _) as [e|s3] eqn:H3; simpl;
    [discriminate|].
  intros Hc. exists s3. split; [|exact Hc].
  destruct only_specified; [congruence|].
  destruct (InflationLP.atomic_knowns _ _ _) as [e|ak]; simpl in H3;
    [discriminate|].
  eapply (for_each_invariant (lp_same_problem s)); [| |exact H3]; [|exact H2].
  intros m t t' Hx Ht. unfold InflationLP.infer_value in Hx.
  destruct (evaluate _ _ _) as [[v u] st].
  destruct st; try (injection Hx as <-; exact Ht).
  destruct (InflationLP.use_lpi_constraints t); [|injection Hx as <-; exact Ht].
  destruct (_ && _); [discriminate|]. injection Hx as <-. exact Ht.
Qed.

End LPSetValues.


(** The objective [5 * m2] with the relation [m2 = 1/2 * m3]: the processed
    objective should be [5/2 * m3]; the call raises [TypeError]. *)
Lemma update_objective_semiknown_witness :
  InflationSDP._update_objective Example.One Example.no_unpack
    Example.sdp_semiknown_state = inl TypeError
  /\ raises (InflationSDP._update_objective Example.One Example.no_unpack
               Example.sdp_semiknown_state).
Proof.
  split; [vm_compute; reflexivity|].
  apply (sdp_update_objective_semiknown_raises Example.One Example.no_unpack
           Example.sdp_semiknown_state 2).
  - vm_compute. eexists. reflexivity.
  - vm_compute. eexists. reflexivity.
  - vm_compute. reflexivity.
  - discriminate.
Defined.

End ValuationFacts.

(** ** What [set_values] stores, keeps and rejects *)

Module LPValues.

Section Cleanup.
Context `{Countable mon}.

Local Abbreviation state := (@InflationLP.state mon _ _).

Lemma lp_frame_refl (s : state) : lp_frame s s.
Proof. by repeat split. Qed.

Lemma lookup_foldl_delete {V : Type} (l : list mon) (sk : gmap mon V) (m : mon) :
  foldl (fun sk k => delete k sk) sk l !! m =
  if decide (m ∈ l) then None else sk !! m.
Proof.
  revert sk. induction l as [|x l IH]; intros sk; simpl.
  - destruct (decide (m ∈ [])) as [Hin|_]; [by apply elem_of_nil in Hin|done].
  - rewrite IH. destruct (decide (m = x)) as [->|Hne].
    + rewrite lookup_delete_eq.
      repeat case_decide; try reflexivity; exfalso; set_solver.
    + rewrite lookup_delete_ne by congruence.
      repeat case_decide; try reflexivity; exfalso; set_solver.
Qed.

(** What [_cleanup_after_set_values] does to the state it is given. *)
Lemma lp_cleanup_post (s0 s' : state) :
  InflationLP._cleanup_after_set_values s0 = inr s' ->
  InflationLP.supports_problem s' = InflationLP.supports_problem s0
  /\ InflationLP.monomials s' = InflationLP.monomials s0
  /\ InflationLP.moment_upperbounds s' = InflationLP.moment_upperbounds s0
  /\ (forall m, is_Some (InflationLP.known_moments s' !! m) ->
                is_Some (InflationLP.known_moments s0 !! m))
  /\ (forall m, is_Some (InflationLP.known_moments s' !! m) ->
                InflationLP.semiknown_moments s' !! m = None)
  /\ (forall m, InflationLP.moment_lowerbounds s' !! m = Some 1%Q
                \/ InflationLP.moment_lowerbounds s' !! m =
                   InflationLP.moment_lowerbounds s0 !! m)
  /\ (InflationLP.supports_problem s0 = false ->
      InflationLP.moment_lowerbounds s' = InflationLP.moment_lowerbounds s0
      /\ InflationLP.known_moments s' = InflationLP.known_moments s0).
Proof.
  unfold InflationLP._cleanup_after_set_values.
  destruct (InflationLP.supports_problem s0) eqn:Hsup.
  - destruct (ValuationFacts.lp_supports_loop
                (InflationLP.nonzero_known_monomials
                   (InflationLP.known_moments s0)) s0)
      as (s1 & Hrun & Hk & Hlb).
    { apply ValuationFacts.NoDup_nonzero_known. }
    { intros m Hm.
      apply ValuationFacts.elem_of_nonzero_known in Hm as (v & Hv & _). eauto. }
    assert (Hfr : InflationLP.supports_problem s1 = InflationLP.supports_problem s0
                  /\ InflationLP.monomials s1 = InflationLP.monomials s0
                  /\ InflationLP.moment_upperbounds s1 =
                     InflationLP.moment_upperbounds s0).
    { eapply (for_each_invariant
                (fun t => InflationLP.supports_problem t =
                          InflationLP.supports_problem s0
                          /\ InflationLP.monomials t = InflationLP.monomials s0
                          /\ InflationLP.moment_upperbounds t =
                             InflationLP.moment_upperbounds s0));
        [| |exact Hrun]; [|by repeat split].
      intros x t t' Hx Ht. unfold InflationLP.supports_step in Hx.
      simpl in Hx. destruct (delitem _ _); simpl in Hx; [discriminate|].
      injection Hx as <-. exact Ht. }
    destruct Hfr as (F1 & F2 & F3).
    rewrite Hrun. simpl. rewrite map_size_empty. simpl.
    intros [= <-]. simpl. rewrite Hsup in F1.
    repeat split; try assumption.
    + intros m. rewrite Hk. case_decide; [by intros [? ?]|done].
    + intros m. rewrite Hlb. case_decide; [by left|by right].
    + discriminate.
    + discriminate.
  - simpl. destruct (Nat.eqb _ 0) eqn:Hsz.
    + intros [= <-]. repeat split; try assumption; try done.
      * intros m _. apply Nat.eqb_eq in Hsz.
        apply map_size_empty_iff in Hsz. rewrite Hsz. apply lookup_empty.
      * intros m. by right.
    + intros [= <-]. simpl. repeat split; try assumption; try done.
      * intros m Hm. rewrite lookup_foldl_delete.
        case_decide as Hin; [reflexivity|].
        exfalso. apply Hin. apply elem_of_elements, elem_of_dom. exact Hm.
      * intros m. by right.
Qed.

End Cleanup.

Section SetValues.
Context `{Countable mon} `{Countable atom} {key : Type}.
Variable One : mon.
Variable _sanitise_monomial : key -> result mon.
Variables is_atomic is_knowable : mon -> bool.
Variable atom_is_knowable : atom -> bool.
Variable knowability_status : mon -> known_status.
Variable len : mon -> nat.
Variable factors_0 : mon -> result atom.
Variable evaluate : mon -> gmap atom Q -> bool -> Q * list atom * known_status.
Variable _monomial_from_atoms : list atom -> mon.

Local Abbreviation state := (@InflationLP.state mon _ _).
Local Abbreviation update_values :=
  (InflationLP.update_values _sanitise_monomial is_atomic is_knowable
     atom_is_knowable knowability_status len factors_0 evaluate
     _monomial_from_atoms).
Local Abbreviation set_values :=
  (InflationLP.set_values One _sanitise_monomial is_atomic is_knowable
     atom_is_knowable knowability_status len factors_0 evaluate
     _monomial_from_atoms).

(** The loop of [update_values] that stores the given values. *)
Lemma lp_store_loop (values : list (key * Q)) (s s2 : state) :
  for_each (fun kv s =>
              try m <- _sanitise_monomial (fst kv) in
              inr (InflationLP.with_known
                     (<[m := snd kv]> (InflationLP.known_moments s)) s))
    values s = inr s2 ->
  lp_frame s s2
  /\ InflationLP.use_lpi_constraints s2 = InflationLP.use_lpi_constraints s
  /\ InflationLP.semiknown_moments s2 = InflationLP.semiknown_moments s.
Proof.
  intros Hstore.
  eapply (for_each_invariant
            (fun t => lp_frame s t
               /\ InflationLP.use_lpi_constraints t =
                  InflationLP.use_lpi_constraints s
               /\ InflationLP.semiknown_moments t =
                  InflationLP.semiknown_moments s));
    [| |exact Hstore]; [|split; [apply lp_frame_refl|by split]].
  intros x t t' Hx Ht. simpl in Hx.
  destruct (_sanitise_monomial (fst x)); simpl in Hx; [discriminate|].
  injection Hx as <-. exact Ht.
Qed.

Lemma lp_infer_loop (ak : gmap atom Q) (l : list mon) (s s3 : state)
  (P : mon -> Prop) :
  for_each (InflationLP.infer_value evaluate _monomial_from_atoms ak) l s
    = inr s3 ->
  (forall m, m ∈ l -> P m) ->
  (forall m, is_Some (InflationLP.known_moments s !! m) -> P m) ->
  lp_frame s s3
  /\ (forall m, is_Some (InflationLP.known_moments s3 !! m) -> P m).
Proof.
  revert s. induction l as [|x l IH]; intros s; simpl.
  - intros [= <-] _ Hk. split; [apply lp_frame_refl|exact Hk].
  - destruct (InflationLP.infer_value _ _ _ x s) as [e|s1] eqn:Hx; simpl;
      [discriminate|].
    intros Hrun Hl Hk.
    assert (H1 : lp_frame s s1
                 /\ (forall m, is_Some (InflationLP.known_moments s1 !! m) ->
                               P m)).
    { unfold InflationLP.infer_value in Hx.
      destruct (evaluate _ _ _) as [[v u] st]. destruct st.
      - injection Hx as <-. split; [by repeat split|].
        simpl. intros m. destruct (decide (m = x)) as [->|Hne].
        + intros _. apply Hl. by left.
        + rewrite lookup_insert_ne by congruence. apply Hk.
      - destruct (InflationLP.use_lpi_constraints s);
          [|injection Hx as <-; split; [apply lp_frame_refl|exact Hk]].
        destruct (_ && _); [discriminate|]. injection Hx as <-.
        split; [by repeat split|exact Hk].
      - injection Hx as <-. split; [apply lp_frame_refl|exact Hk]. }
    destruct H1 as [F1 K1].
    destruct (IH s1 Hrun) as [F2 K2]; [intros m Hm; apply Hl; by right|exact K1|].
    split; [|exact K2].
    destruct F1 as (a1 & a2 & a3 & a4), F2 as (b1 & b2 & b3 & b4).
    repeat split; congruence.
Qed.

(** [update_values], given at least one value, up to its last line. *)
Lemma lp_update_values_before_cleanup (kv : key * Q) (values : list (key * Q))
  (use_lpi only_specified : bool) (s s' : state) :
  update_values (Some (kv :: values)) use_lpi only_specified s = inr s' ->
  exists s0, lp_frame s s0
    /\ (only_specified = false ->
        forall m, is_Some (InflationLP.known_moments s0 !! m) ->
                  m ∈ InflationLP.monomials s)
    /\ InflationLP._cleanup_after_set_values s0 = inr s'.
Proof.
  unfold InflationLP.update_values.
  set (vs := kv :: values). clearbody vs.
  destruct (for_each _ vs _) as [e|s2] eqn:Hstore; simpl; [discriminate|].
  apply lp_store_loop in Hstore as (F2 & _ & _).
  destruct (if only_specified then _ else _) as [e|s3] eqn:H3; simpl;
    [discriminate|].
  intros Hc. exists s3. split; [|split; [|exact Hc]].
  - destruct only_specified; [by injection H3 as <-|].
    destruct (InflationLP.atomic_knowns _ _ _) as [e|ak]; simpl in H3;
      [discriminate|].
    apply (lp_infer_loop _ _ _ _ (fun _ => True)) in H3 as [F3 _]; [|done|done].
    destruct F2 as (a1 & a2 & a3 & a4), F3 as (b1 & b2 & b3 & b4).
    simpl in *. repeat split; congruence.
  - intros ->.
    destruct (InflationLP.atomic_knowns _ _ _) as [e|ak]; simpl in H3;
      [discriminate|].
    destruct F2 as (a1 & a2 & a3 & a4). simpl in a2.
    apply (lp_infer_loop _ _ _ _ (fun m => m ∈ InflationLP.monomials s))
      in H3 as [_ K3]; [exact K3| |].
    + intros m Hm. rewrite <- a2.
      repeat match type of Hm with
             | context [if ?b then _ else _] => destruct b
             end;
        apply list_elem_of_filter in Hm as [_ Hm]; exact Hm.
    + intros m. simpl. rewrite lookup_foldl_delete.
      case_decide as Hin; [by intros [? ?]|].
      intros Hm. rewrite <- a2.
      destruct (decide (m ∈ InflationLP.monomials s2)) as [Hy|Hn]; [exact Hy|].
      exfalso. apply Hin. apply list_elem_of_filter. split.
      * unfold InflationLP.in_monomials. simpl.
        rewrite bool_decide_eq_false_2 by exact Hn. exact I.
      * apply elem_of_elements, elem_of_dom. exact Hm.
Qed.

(** The store loop keeps the value written last for a monomial. *)
Lemma lp_store_loop_last (vs1 vs2 : list (key * Q)) (k : key) (v : Q)
  (m : mon) (s s2 : state) :
  for_each (fun kv s =>
              try m <- _sanitise_monomial (fst kv) in
              inr (InflationLP.with_known
                     (<[m := snd kv]> (InflationLP.known_moments s)) s))
    (vs1 ++ (k, v) :: vs2) s = inr s2 ->
  _sanitise_monomial k = inr m ->
  (forall kv, kv ∈ vs2 -> _sanitise_monomial (fst kv) <> inr m) ->
  InflationLP.known_moments s2 !! m = Some v.
Proof.
  intros Hrun Hk Hlast.
  revert s Hrun. induction vs1 as [|x vs1 IH]; intros s; simpl.
  - rewrite Hk. simpl.
    match goal with |- for_each _ _ ?t = _ -> _ => set (s1 := t) end.
    assert (H1 : InflationLP.known_moments s1 !! m = Some v)
      by (subst s1; simpl; apply lookup_insert_eq).
    clearbody s1. revert s1 H1.
    induction vs2 as [|y vs2 IH2]; intros s1 H1; simpl.
    + by intros [= <-].
    + assert (Hym := Hlast y ltac:(by left)).
      destruct (_sanitise_monomial (fst y)) as [e|m'] eqn:Hy; simpl;
        [discriminate|].
      apply IH2.
      * intros kv Hkv. apply Hlast. by right.
      * simpl. rewrite lookup_insert_ne by congruence. exact H1.
  - destruct (_sanitise_monomial (fst x)) as [e|m']; simpl; [discriminate|].
    apply IH.
Qed.

(** The loop over the remaining monomials writes the known value of those
    monomials only. *)
Lemma lp_infer_loop_keeps (ak : gmap atom Q) (l : list mon) (s s3 : state)
  (m : mon) :
  for_each (InflationLP.infer_value evaluate _monomial_from_atoms ak) l s
    = inr s3 ->
  m ∉ l ->
  InflationLP.known_moments s3 !! m = InflationLP.known_moments s !! m.
Proof.
  revert s. induction l as [|x l IH]; intros s; simpl.
  - by intros [= <-].
  - destruct (InflationLP.infer_value _ _ _ x s) as [e|s1] eqn:Hx; simpl;
      [discriminate|].
    intros Hrun Hm. apply not_elem_of_cons in Hm as [Hne Hm].
    rewrite (IH s1 Hrun Hm).
    unfold InflationLP.infer_value in Hx.
    destruct (evaluate _ _ _) as [[v u] st]. destruct st.
    + injection Hx as <-. simpl. by rewrite lookup_insert_ne.
    + destruct (InflationLP.use_lpi_constraints s);
        [|by injection Hx as <-].
      destruct (_ && _); [discriminate|]. by injection Hx as <-.
    + by injection Hx as <-.
Qed.

(** [set_values] up to its last line: the state the clean-up is entered in
    has the bounds of the state [set_values] was called in, and holds the
    values given, for the monomials whose value the loops in between do not
    delete or compute. *)
Lemma lp_set_values_enters_cleanup (values : option (list (key * Q)))
  (use_lpi only_specified : bool) (s s' : state) :
  set_values values use_lpi only_specified s = inr s' ->
  exists s0, lp_frame s s0
    /\ (forall vs1 k v vs2 m,
          values = Some (vs1 ++ (k, v) :: vs2) ->
          _sanitise_monomial k = inr m ->
          (forall kv, kv ∈ vs2 -> _sanitise_monomial (fst kv) <> inr m) ->
          only_specified = true
          \/ (m ∈ InflationLP.monomials s /\ is_atomic m = true) ->
          InflationLP.known_moments s0 !! m = Some v)
    /\ InflationLP._cleanup_after_set_values s0 = inr s'.
Proof.
  unfold InflationLP.set_values.
  destruct values as [[|kv values]|].
  1,3: intros Hc; exists (InflationLP._reset_values One s);
       split; [by repeat split|]; split; [|exact Hc];
       intros vs1 k v vs2 m [=]; by destruct vs1.
  unfold InflationLP.update_values.
  set (vs := kv :: values). clearbody vs.
  destruct (for_each _ vs _) as [e|s2] eqn:Hstore; simpl; [discriminate|].
  pose proof (lp_store_loop _ _ _ Hstore) as (F2 & _ & _).
  destruct F2 as (a1 & a2 & a3 & a4). simpl in a1, a2, a3, a4.
  destruct (if only_specified then _ else _) as [e|s3] eqn:H3; simpl;
    [discriminate|].
  intros Hc. exists s3. split; [|split; [|exact Hc]].
  - destruct only_specified; [injection H3 as <-; by repeat split|].
    destruct (InflationLP.atomic_knowns _ _ _) as [e|ak]; simpl in H3;
      [discriminate|].
    apply (lp_infer_loop _ _ _ _ (fun _ => True)) in H3 as [F3 _]; [|done|done].
    destruct F3 as (b1 & b2 & b3 & b4).
    simpl in *. repeat split; congruence.
  - intros vs1 k v vs2 m [= ->] Hk Hlast Hcase.
    pose proof (lp_store_loop_last _ _ _ _ _ _ _ Hstore Hk Hlast) as Hv.
    destruct only_specified; [by injection H3 as <-|].
    destruct Hcase as [?|[Hmon Hat]]; [discriminate|].
    destruct (InflationLP.atomic_knowns _ _ _) as [e|ak]; simpl in H3;
      [discriminate|].
    rewrite (lp_infer_loop_keeps _ _ _ _ m H3).
    + simpl. rewrite lookup_foldl_delete.
      case_decide as Hin; [|exact Hv].
      apply list_elem_of_filter in Hin as [Hin _].
      unfold InflationLP.in_monomials in Hin. simpl in Hin.
      rewrite a2 in Hin. rewrite bool_decide_eq_true_2 in Hin by exact Hmon.
      destruct Hin.
    + intros Hin.
      repeat match type of Hin with
             | context [if ?b then _ else _] => destruct b
             end;
        apply list_elem_of_filter in Hin as [Hp _];
        rewrite Hat in Hp; destruct Hp.
Qed.

(** The clean-up of a supports problem, monomial by monomial. *)
Lemma lp_cleanup_supports_exact (s0 s' : state) :
  InflationLP.supports_problem s0 = true ->
  InflationLP._cleanup_after_set_values s0 = inr s' ->
  supports_cleanup_of (InflationLP.known_moments s0)
    (InflationLP.moment_lowerbounds s0) (InflationLP.known_moments s')
    (InflationLP.moment_lowerbounds s') (InflationLP.semiknown_moments s').
Proof.
  intros Hsup. unfold InflationLP._cleanup_after_set_values. rewrite Hsup.
  destruct (ValuationFacts.lp_supports_loop
              (InflationLP.nonzero_known_monomials
                 (InflationLP.known_moments s0)) s0)
    as (s1 & Hrun & Hk & Hlb).
  { apply ValuationFacts.NoDup_nonzero_known. }
  { intros m Hm.
    apply ValuationFacts.elem_of_nonzero_known in Hm as (v & Hv & _). eauto. }
  rewrite Hrun. simpl. rewrite map_size_empty. simpl.
  intros [= <-]. simpl. split; [reflexivity|].
  intros m. unfold supports_cleanup_at. rewrite Hk, Hlb.
  destruct (InflationLP.known_moments s0 !! m) as [v|] eqn:Hv.
  - destruct (Num.isclose v 0) eqn:Hc.
    + case_decide as Hin; [|by split].
      apply ValuationFacts.elem_of_nonzero_known in Hin as (v' & Hv' & Hc').
      congruence.
    + case_decide as Hin; [by split|].
      exfalso. apply Hin. apply ValuationFacts.elem_of_nonzero_known. eauto.
  - case_decide as Hin; [|by split].
    apply ValuationFacts.elem_of_nonzero_known in Hin as (v' & Hv' & _).
    congruence.
Qed.


Lemma lp_set_values_before_cleanup (values : option (list (key * Q)))
  (use_lpi only_specified : bool) (s s' : state) :
  set_values values use_lpi only_specified s = inr s' ->
  exists s0, lp_frame s s0
    /\ InflationLP._cleanup_after_set_values s0 = inr s'.
Proof.
  unfold InflationLP.set_values.
  destruct values as [[|kv values]|];
    try (intros Hc; eexists; split; [|exact Hc]; by repeat split).
  intros Hu. apply lp_update_values_before_cleanup in Hu as (s0 & F & _ & Hc).
  exists s0. split; [|exact Hc].
  destruct F as (a1 & a2 & a3 & a4). by repeat split.
Qed.

(** When [set_values] of the LP engine returns, no monomial has both a
    known value and a semiknown one: the clean-up pops every known monomial
    from [semiknown_moments]. *)
Theorem lp_known_and_semiknown_are_disjoint
  (values : option (list (key * Q))) (use_lpi only_specified : bool)
  (s s' : state) (m : mon) :
  set_values values use_lpi only_specified s = inr s' ->
  is_Some (InflationLP.known_moments s' !! m) ->
  InflationLP.semiknown_moments s' !! m = None.
Proof.
  intros Hs. apply lp_set_values_before_cleanup in Hs as (s0 & _ & Hc).
  apply lp_cleanup_post in Hc as (_ & _ & _ & _ & Hd & _). apply Hd.
Qed.

(** [set_values] of the LP engine, given values and not told to keep only
    the specified ones, leaves a value only on monomials of
    [self.monomials]: a value given for another monomial is deleted (after
    a warning) and is not an error. *)
Theorem lp_set_values_forgets_unrecognised_monomials
  (kv : key * Q) (values : list (key * Q)) (use_lpi : bool)
  (s s' : state) (m : mon) :
  set_values (Some (kv :: values)) use_lpi false s = inr s' ->
  is_Some (InflationLP.known_moments s' !! m) ->
  m ∈ InflationLP.monomials s.
Proof.
  unfold InflationLP.set_values. intros Hu.
  apply lp_update_values_before_cleanup in Hu as (s0 & F & K & Hc).
  apply lp_cleanup_post in Hc as (_ & _ & _ & Hk & _).
  intros Hm. apply (K eq_refl), Hk, Hm.
Qed.

(** [set_values] of the LP engine never removes a bound: the upper bounds
    are untouched, and each lower bound is either as before or the 1.0 a
    supports problem puts on a monomial of the support.  Outside a supports
    problem the lower bounds are untouched too. *)
Theorem lp_set_values_keeps_the_bounds
  (values : option (list (key * Q))) (use_lpi only_specified : bool)
  (s s' : state) :
  set_values values use_lpi only_specified s = inr s' ->
  InflationLP.moment_upperbounds s' = InflationLP.moment_upperbounds s
  /\ (forall m, InflationLP.moment_lowerbounds s' !! m = Some 1%Q
                \/ InflationLP.moment_lowerbounds s' !! m =
                   InflationLP.moment_lowerbounds s !! m)
  /\ (InflationLP.supports_problem s = false ->
      InflationLP.moment_lowerbounds s' = InflationLP.moment_lowerbounds s).
Proof.
  intros Hs. apply lp_set_values_before_cleanup in Hs as (s0 & F & Hc).
  destruct F as (a1 & a2 & a3 & a4).
  apply lp_cleanup_post in Hc as (_ & _ & Hub & _ & _ & Hlb & Hns).
  split; [congruence|]. split.
  - intros m. rewrite <- a3. apply Hlb.
  - intros Hsup. rewrite <- a3. apply Hns. congruence.
Qed.

End SetValues.

(** The value 1/2 for the monomial 2 and the value 1/4 for the product 6,
    with linearized polynomial constraints: the loop over the products makes
    6 semiknown although its value is known, and the clean-up pops it. *)
Lemma lp_known_and_semiknown_witness :
  exists s',
    Product.lp_set_values (Some [(2, (1 # 2)%Q); (6, (1 # 4)%Q)]) true false
      Product.lp_state = inr s'
    /\ InflationLP.known_moments s' !! 6 = Some (1 # 4)%Q
    /\ InflationLP.semiknown_moments s' !! 6 = None.
Proof.
  destruct (Product.lp_set_values (Some [(2, (1 # 2)%Q); (6, (1 # 4)%Q)]) true
              false Product.lp_state) as [e|s'] eqn:Hrun;
    [vm_compute in Hrun; discriminate|].
  exists s'. split; [reflexivity|].
  assert (Hk : InflationLP.known_moments s' !! 6 = Some (1 # 4)%Q).
  { pose proof Hrun as Hc. vm_compute in Hc. injection Hc as <-. reflexivity. }
  split; [exact Hk|].
  unfold Product.lp_set_values in Hrun.
  eapply lp_known_and_semiknown_are_disjoint; [exact Hrun|].
  rewrite Hk. eexists. reflexivity.
Defined.

(** A value for the monomial 7, which is not a monomial of the engine, is
    forgotten. *)
Lemma lp_set_values_forgets_witness :
  exists s',
    Product.lp_set_values (Some [(2, (1 # 2)%Q); (7, (1 # 3)%Q)]) false false
      Product.lp_state = inr s'
    /\ InflationLP.known_moments s' !! 7 = None
    /\ 2 ∈ InflationLP.monomials Product.lp_state.
Proof.
  destruct (Product.lp_set_values (Some [(2, (1 # 2)%Q); (7, (1 # 3)%Q)])
              false false Product.lp_state) as [e|s'] eqn:Hrun;
    [vm_compute in Hrun; discriminate|].
  exists s'. split; [reflexivity|].
  assert (Hk : InflationLP.known_moments s' !! 7 = None
               /\ InflationLP.known_moments s' !! 2 = Some (1 # 2)%Q).
  { pose proof Hrun as Hc. vm_compute in Hc. injection Hc as <-.
    split; reflexivity. }
  split; [apply Hk|].
  unfold Product.lp_set_values in Hrun.
  eapply lp_set_values_forgets_unrecognised_monomials; [exact Hrun|].
  rewrite (proj2 Hk). eexists. reflexivity.
Defined.

(** In a supports problem that holds the lower bound 1 on the monomial 3
    from an earlier call, the monomial 3 is given the value 0: the lower
    bound stays beside the value. *)
Lemma lp_set_values_keeps_the_bounds_witness :
  exists s',
    Product.lp_set_values (Some [(2, (1 # 2)%Q); (3, 0%Q)]) false true
      Product.lp_supports_state = inr s'
    /\ InflationLP.known_moments s' !! 3 = Some 0%Q
    /\ InflationLP.moment_lowerbounds s' !! 3 = Some 1%Q
    /\ InflationLP.moment_upperbounds s' =
       InflationLP.moment_upperbounds Product.lp_supports_state.
Proof.
  destruct (Product.lp_set_values (Some [(2, (1 # 2)%Q); (3, 0%Q)]) false true
              Product.lp_supports_state) as [e|s'] eqn:Hrun;
    [vm_compute in Hrun; discriminate|].
  exists s'. split; [reflexivity|].
  assert (Hk : InflationLP.known_moments s' !! 3 = Some 0%Q).
  { pose proof Hrun as Hc. vm_compute in Hc. injection Hc as <-. reflexivity. }
  split; [exact Hk|].
  unfold Product.lp_set_values in Hrun.
  destruct (lp_set_values_keeps_the_bounds _ _ _ _ _ _ _ _ _ _ _ _ _ _ _ Hrun)
    as (Hub & Hlb & _).
  split; [|exact Hub].
  destruct (Hlb 3) as [H1|H1]; [exact H1|rewrite H1; reflexivity].
Defined.

End LPValues.

Module SDPValues.

Section Cleanup.
Context `{Countable mon}.
Variable One : mon.
Variable unpack_monomial : mon -> result (Q * mon).

Local Abbreviation state := (@InflationSDP.state mon _ _).

Lemma sdp_frame_refl (s : state) : sdp_frame s s.
Proof. by repeat split. Qed.

Lemma sdp_frame_trans (s s1 s2 : state) :
  sdp_frame s s1 -> sdp_frame s1 s2 -> sdp_frame s s2.
Proof.
  intros (a1 & a2 & a3 & a4 & a5) (b1 & b2 & b3 & b4 & b5).
  repeat split; congruence.
Qed.

Lemma lookup_foldl_copy (lb : gmap mon Q) (l : list mon) (acc : gmap mon Q)
  (m : mon) :
  (forall x, x ∈ l -> is_Some (lb !! x)) ->
  foldl (fun acc m => match lb !! m with
                      | Some v => <[m := v]> acc
                      | None => acc
                      end) acc l !! m =
  if decide (m ∈ l) then lb !! m else acc !! m.
Proof.
  revert acc. induction l as [|x l IH]; intros acc Hl; simpl.
  - destruct (decide (m ∈ [])) as [Hin|_]; [by apply elem_of_nil in Hin|done].
  - rewrite IH by (intros y Hy; apply Hl; by right).
    destruct (Hl x) as [v Hv]; [by left|]. rewrite Hv.
    destruct (decide (m = x)) as [->|Hne].
    + rewrite lookup_insert_eq.
      repeat case_decide; try congruence; exfalso; set_solver.
    + rewrite lookup_insert_ne by congruence.
      repeat case_decide; try reflexivity; exfalso; set_solver.
Qed.

(** [update_physical_lowerbounds] on processed lower bounds that were just
    reset. *)
Lemma sdp_update_physical_lowerbounds_spec (s : state) (m : mon) :
  InflationSDP._processed_moment_lowerbounds s = ∅ ->
  InflationSDP._processed_moment_lowerbounds
    (InflationSDP.update_physical_lowerbounds s) !! m =
  match InflationSDP.known_moments s !! m with
  | Some _ => None
  | None => InflationSDP.moment_lowerbounds s !! m
  end.
Proof.
  intros Hp. unfold InflationSDP.update_physical_lowerbounds. simpl.
  rewrite lookup_foldl_copy.
  - rewrite Hp, lookup_empty.
    case_decide as Hin.
    + apply elem_of_elements, elem_of_difference in Hin as [_ Hk].
      apply not_elem_of_dom in Hk. by rewrite Hk.
    + destruct (InflationSDP.known_moments s !! m) as [v|] eqn:Hk; [done|].
      destruct (InflationSDP.moment_lowerbounds s !! m) as [b|] eqn:Hb; [|done].
      exfalso. apply Hin. apply elem_of_elements, elem_of_difference. split.
      * apply elem_of_dom. eauto.
      * by apply not_elem_of_dom.
  - intros x Hx. apply elem_of_elements, elem_of_difference in Hx as [Hx _].
    by apply elem_of_dom.
Qed.

Lemma sdp_update_objective_keeps_processed_lowerbounds (s s' : state) :
  InflationSDP._update_objective One unpack_monomial s = inr s' ->
  InflationSDP._processed_moment_lowerbounds s' =
  InflationSDP._processed_moment_lowerbounds s.
Proof.
  unfold InflationSDP._update_objective.
  destruct (for_each _ _ _) as [e|po]; simpl; [discriminate|].
  destruct (for_each _ _ _) as [e|po']; simpl; [discriminate|].
  by intros [= <-].
Qed.

(** What [cleanup_after_set_values] does to a state whose processed lower
    bounds were just reset. *)
Lemma sdp_cleanup_post (s0 s' : state) :
  InflationSDP.cleanup_after_set_values One unpack_monomial s0 = inr s' ->
  InflationSDP._processed_moment_lowerbounds s0 = ∅ ->
  (forall m, InflationSDP._processed_moment_lowerbounds s' !! m =
             match InflationSDP.known_moments s' !! m with
             | Some _ => None
             | None => InflationSDP.moment_lowerbounds s' !! m
             end)
  /\ (forall m, InflationSDP.moment_lowerbounds s' !! m = Some 1%Q
                \/ InflationSDP.moment_lowerbounds s' !! m =
                   InflationSDP.moment_lowerbounds s0 !! m)
  /\ (InflationSDP.supports_problem s0 = false ->
      InflationSDP.moment_lowerbounds s' = InflationSDP.moment_lowerbounds s0
      /\ InflationSDP.known_moments s' = InflationSDP.known_moments s0
      /\ InflationSDP.semiknown_moments s' =
         InflationSDP.semiknown_moments s0).
Proof.
  unfold InflationSDP.cleanup_after_set_values.
  destruct (InflationSDP.supports_problem s0) eqn:Hsup.
  - destruct (ValuationFacts.sdp_supports_loop unpack_monomial
                (InflationSDP.nonzero_known_monomials
                   (InflationSDP.known_moments s0)) s0)
      as (s1 & Hrun & Hk & Hlb & _).
    { apply ValuationFacts.NoDup_nonzero_known. }
    { intros m Hm.
      apply ValuationFacts.elem_of_nonzero_known in Hm as (v & Hv & _). eauto. }
    assert (Hp1 : InflationSDP._processed_moment_lowerbounds s1 =
                  InflationSDP._processed_moment_lowerbounds s0).
    { eapply (for_each_invariant
                (fun t => InflationSDP._processed_moment_lowerbounds t =
                          InflationSDP._processed_moment_lowerbounds s0));
        [| |exact Hrun]; [|reflexivity].
      intros x t t' Hx Ht. unfold InflationSDP.supports_step in Hx.
      simpl in Hx. destruct (delitem _ _); simpl in Hx; [discriminate|].
      injection Hx as <-. exact Ht. }
    rewrite Hrun. cbn [bind]. intros Hu Hp.
    apply ValuationFacts.sdp_update_objective_frame in Hu as Hfr.
    destruct Hfr as (Fk & _ & Flb & _).
    assert (Fp : InflationSDP._processed_moment_lowerbounds s' =
                 InflationSDP._processed_moment_lowerbounds
                   (InflationSDP.update_physical_lowerbounds
                      (InflationSDP.with_semiknown ∅ s1))).
    { by apply sdp_update_objective_keeps_processed_lowerbounds in Hu. }
    split; [|split].
    + intros m. rewrite Fp, Fk, Flb.
      rewrite sdp_update_physical_lowerbounds_spec by (simpl; congruence).
      reflexivity.
    + intros m. rewrite Flb. simpl. rewrite Hlb.
      case_decide; [by left|by right].
    + discriminate.
  - cbn [bind]. intros Hu Hp.
    apply ValuationFacts.sdp_update_objective_frame in Hu as Hfr.
    destruct Hfr as (Fk & Fs & Flb & _).
    assert (Fp : InflationSDP._processed_moment_lowerbounds s' =
                 InflationSDP._processed_moment_lowerbounds
                   (InflationSDP.update_physical_lowerbounds s0)).
    { by apply sdp_update_objective_keeps_processed_lowerbounds in Hu. }
    split; [|split].
    + intros m. rewrite Fp, Fk, Flb.
      rewrite sdp_update_physical_lowerbounds_spec by exact Hp.
      reflexivity.
    + intros m. right. by rewrite Flb.
    + intros _. by repeat split.
Qed.

(** The clean-up of a supports problem, monomial by monomial. *)
Lemma sdp_cleanup_supports_exact (s0 s' : state) :
  InflationSDP.supports_problem s0 = true ->
  InflationSDP.cleanup_after_set_values One unpack_monomial s0 = inr s' ->
  supports_cleanup_of (InflationSDP.known_moments s0)
    (InflationSDP.moment_lowerbounds s0) (InflationSDP.known_moments s')
    (InflationSDP.moment_lowerbounds s') (InflationSDP.semiknown_moments s').
Proof.
  intros Hsup. unfold InflationSDP.cleanup_after_set_values. rewrite Hsup.
  destruct (ValuationFacts.sdp_supports_loop unpack_monomial
              (InflationSDP.nonzero_known_monomials
                 (InflationSDP.known_moments s0)) s0)
    as (s1 & Hrun & Hk & Hlb & _).
  { apply ValuationFacts.NoDup_nonzero_known. }
  { intros m Hm.
    apply ValuationFacts.elem_of_nonzero_known in Hm as (v & Hv & _). eauto. }
  rewrite Hrun. cbn [bind]. intros Hu.
  apply ValuationFacts.sdp_update_objective_frame in Hu
    as (Fk & Fs & Flb & _).
  simpl in Fk, Fs, Flb. split; [exact Fs|].
  intros m. unfold supports_cleanup_at. rewrite Fk, Flb, Hk, Hlb.
  destruct (InflationSDP.known_moments s0 !! m) as [v|] eqn:Hv.
  - destruct (Num.isclose v 0) eqn:Hc.
    + case_decide as Hin; [|by split].
      apply ValuationFacts.elem_of_nonzero_known in Hin as (v' & Hv' & Hc').
      congruence.
    + case_decide as Hin; [by split|].
      exfalso. apply Hin. apply ValuationFacts.elem_of_nonzero_known. eauto.
  - case_decide as Hin; [|by split].
    apply ValuationFacts.elem_of_nonzero_known in Hin as (v' & Hv' & _).
    congruence.
Qed.

End Cleanup.

Section SetValues.
Context `{Countable mon} `{Countable atom} {key : Type}.
Variables Zero One : mon.
Variable _sanitise_monomial : key -> result mon.
Variables is_atomic knowable_q : mon -> bool.
Variable len : mon -> nat.
Variable knowable_factors_0 : mon -> result atom.
Variable evaluate_given_atomic_monomials_dict :
  mon -> gmap atom Q -> bool -> Q * list atom * known_status.
Variable monomial_from_list_of_atomic : list atom -> mon.
Variable unpack_monomial : mon -> result (Q * mon).

Local Abbreviation state := (@InflationSDP.state mon _ _).
Local Abbreviation set_values :=
  (InflationSDP.set_values Zero One _sanitise_monomial is_atomic knowable_q len
     knowable_factors_0 evaluate_given_atomic_monomials_dict
     monomial_from_list_of_atomic unpack_monomial).
Local Abbreviation store_value := (InflationSDP.store_value _sanitise_monomial).
Local Abbreviation infer_value :=
  (InflationSDP.infer_value evaluate_given_atomic_monomials_dict
     monomial_from_list_of_atomic).

Local Abbreviation stored := (stored_monomial _sanitise_monomial).

Lemma sdp_store_step_frame (kv : key * option Q) (t t' : state) :
  store_value kv t = inr t' -> sdp_frame t t'
    /\ InflationSDP.use_lpi_constraints t' = InflationSDP.use_lpi_constraints t
    /\ InflationSDP.semiknown_moments t' = InflationSDP.semiknown_moments t.
Proof.
  unfold InflationSDP.store_value.
  destruct (snd kv); [|intros [= <-]; by repeat split].
  destruct (_sanitise_monomial _); simpl; [discriminate|].
  intros [= <-]. by repeat split.
Qed.

Lemma sdp_store_loop_frame (values : list (key * option Q)) (s s2 : state) :
  for_each store_value values s = inr s2 -> sdp_frame s s2.
Proof.
  apply (for_each_invariant (sdp_frame s)); [|apply sdp_frame_refl].
  intros x t t' Hx Ht. apply sdp_store_step_frame in Hx as [Hx _].
  eapply sdp_frame_trans; eassumption.
Qed.

(** The store loop keeps the value written last for a monomial. *)
Lemma sdp_store_loop_last (vs1 vs2 : list (key * option Q)) (k : key) (v : Q)
  (m : mon) (s s2 : state) :
  for_each store_value (vs1 ++ (k, Some v) :: vs2) s = inr s2 ->
  _sanitise_monomial k = inr m ->
  (forall kv, kv ∈ vs2 -> stored kv <> Some m) ->
  InflationSDP.known_moments s2 !! m = Some v.
Proof.
  intros Hrun Hk Hlast.
  revert s Hrun. induction vs1 as [|x vs1 IH]; intros s; simpl.
  - unfold InflationSDP.store_value at 1. simpl. rewrite Hk. simpl.
    match goal with |- for_each _ _ ?t = _ -> _ => set (s1 := t) end.
    assert (H1 : InflationSDP.known_moments s1 !! m = Some v)
      by (subst s1; simpl; apply lookup_insert_eq).
    clearbody s1. revert s1 H1.
    induction vs2 as [|y vs2 IH2]; intros s1 H1; simpl.
    + by intros [= <-].
    + destruct (store_value y s1) as [e|s1'] eqn:Hy; simpl; [discriminate|].
      apply IH2.
      * intros kv Hkv. apply Hlast. by right.
      * unfold InflationSDP.store_value in Hy.
        assert (Hym := Hlast y ltac:(by left)).
        unfold stored_monomial in Hym.
        destruct (snd y); [|by injection Hy as <-].
        destruct (_sanitise_monomial (fst y)) as [e|m']; simpl in Hy;
          [discriminate|].
        injection Hy as <-. simpl.
        rewrite lookup_insert_ne by congruence. exact H1.
  - destruct (store_value x s) as [e|s1] eqn:Hx; simpl; [discriminate|].
    apply IH.
Qed.

(** Every monomial stored by the loop is a key of the known moments. *)
Lemma sdp_store_loop_keys (values : list (key * option Q)) (s s2 : state)
  (m : mon) :
  for_each store_value values s = inr s2 ->
  (is_Some (InflationSDP.known_moments s !! m)
   \/ exists kv, kv ∈ values /\ stored kv = Some m) ->
  is_Some (InflationSDP.known_moments s2 !! m).
Proof.
  revert s. induction values as [|x values IH]; intros s; simpl.
  - intros [= <-] [Hm|(kv & Hin & _)]; [exact Hm|by apply elem_of_nil in Hin].
  - destruct (store_value x s) as [e|s1] eqn:Hx; simpl; [discriminate|].
    intros Hrun Hm. apply (IH s1 Hrun).
    unfold InflationSDP.store_value in Hx. unfold stored_monomial in Hm.
    destruct Hm as [Hm|(kv & Hin & Hkv)].
    + left. destruct (snd x); [|by injection Hx as <-].
      destruct (_sanitise_monomial (fst x)) as [e|m']; simpl in Hx;
        [discriminate|].
      injection Hx as <-. simpl.
      destruct (decide (m = m')) as [->|Hne];
        [rewrite lookup_insert_eq; eauto|by rewrite lookup_insert_ne].
    + apply elem_of_cons in Hin as [->|Hin].
      * left. destruct (snd x); [|discriminate].
        destruct (_sanitise_monomial (fst x)) as [e|m']; simpl in Hx;
          [discriminate|].
        injection Hkv as ->. injection Hx as <-. simpl.
        rewrite lookup_insert_eq. eauto.
      * right. exists kv. by split.
Qed.

Lemma sdp_infer_loop (ak : gmap atom Q) (l : list mon) (s : state) :
  sdp_frame s (foldl (fun s m => infer_value ak m s) s l)
  /\ (forall m v, InflationSDP.known_moments s !! m = Some v ->
        InflationSDP.known_moments
          (foldl (fun s m => infer_value ak m s) s l) !! m = Some v).
Proof.
  revert s. induction l as [|x l IH]; intros s; simpl.
  - split; [apply sdp_frame_refl|auto].
  - destruct (IH (infer_value ak x s)) as [F K].
    assert (H1 : sdp_frame s (infer_value ak x s)
                 /\ forall m v, InflationSDP.known_moments s !! m = Some v ->
                      InflationSDP.known_moments (infer_value ak x s) !! m
                      = Some v).
    { unfold InflationSDP.infer_value.
      destruct (InflationSDP.known_moments s !! x) eqn:Hx;
        [split; [apply sdp_frame_refl|auto]|].
      destruct (evaluate_given_atomic_monomials_dict _ _ _) as [[v u] st].
      destruct st.
      - split; [by repeat split|]. simpl. intros m w Hm.
        rewrite lookup_insert_ne by congruence. exact Hm.
      - destruct (InflationSDP.use_lpi_constraints s);
          (split; [by repeat split|auto]).
      - split; [apply sdp_frame_refl|auto]. }
    destruct H1 as [F1 K1]. split.
    + eapply sdp_frame_trans; eassumption.
    + intros m v Hm. apply K, K1, Hm.
Qed.

(** [set_values] up to its last line: the state the clean-up is entered in
    has no processed lower bounds, and holds the values stored by the
    loop. *)
Lemma sdp_set_values_before_cleanup
  (values : option (list (key * option Q)))
  (use_lpi normalised only_knowable only_specified : bool) (s s' : state) :
  set_values values use_lpi normalised only_knowable only_specified s = inr s' ->
  exists s0,
    InflationSDP.supports_problem s0 = InflationSDP.supports_problem s
    /\ InflationSDP.moment_lowerbounds s0 = InflationSDP.moment_lowerbounds s
    /\ InflationSDP._processed_moment_lowerbounds s0 = ∅
    /\ (forall vs1 k v vs2 m,
          values = Some (vs1 ++ (k, Some v) :: vs2) ->
          _sanitise_monomial k = inr m ->
          (forall kv, kv ∈ vs2 -> stored kv <> Some m) ->
          InflationSDP.known_moments s0 !! m = Some v)
    /\ (forall vs kv m,
          values = Some vs -> only_specified = false ->
          kv ∈ vs -> stored kv = Some m -> is_atomic m = true)
    /\ InflationSDP.cleanup_after_set_values One unpack_monomial s0 = inr s'.
Proof.
  unfold InflationSDP.set_values.
  set (s1 := if normalised && _ then _ else _).
  assert (H1 : sdp_frame (InflationSDP.with_processed_lowerbounds ∅ s) s1).
  { subst s1. unfold InflationSDP.reset_values. simpl.
    destruct (InflationSDP.momentmatrix_has_a_zero s);
      destruct (normalised && _); by repeat split. }
  clearbody s1. destruct H1 as (a1 & a2 & a3 & a4 & a5). simpl in *.
  destruct values as [[|kv values]|].
  1,3: intros Hc; exists s1; repeat split; try assumption;
       try (intros; discriminate).
  2: { intros vs kv m [= <-] _ Hin. by apply elem_of_nil in Hin. }
  { intros vs1 k v vs2 m [= Hnil]. by destruct vs1. }
  set (vs := kv :: values). clearbody vs.
  destruct (for_each _ vs _) as [e|s2] eqn:Hstore; simpl; [discriminate|].
  apply sdp_store_loop_frame in Hstore as F2.
  destruct F2 as (b1 & b2 & b3 & b4 & b5). simpl in *.
  assert (Hcheck : forall (p : mon -> bool) (t t' : state),
             InflationSDP.check_all p t = inr t' ->
             t' = t /\ forall m, is_Some (InflationSDP.known_moments t !! m) ->
                                 p m = true).
  { intros p t t'. unfold InflationSDP.check_all.
    destruct (forallb _ _) eqn:Hall; [|discriminate].
    intros [= <-]. split; [reflexivity|].
    intros m Hm. rewrite forallb_forall in Hall. apply Hall.
    apply list_elem_of_In, elem_of_elements, elem_of_dom. exact Hm. }
  destruct (if only_specified then _ else _) as [e|s3] eqn:H3; simpl;
    [discriminate|].
  assert (s3 = s2 /\ (only_specified = false ->
                      forall m, is_Some (InflationSDP.known_moments s2 !! m) ->
                                is_atomic m = true)) as [-> Hatomic].
  { destruct only_specified; [split; [congruence|discriminate]|].
    apply Hcheck in H3 as [-> H3]. split; [reflexivity|auto]. }
  destruct (if only_knowable then _ else _) as [e|s4] eqn:H4; simpl;
    [discriminate|].
  assert (s4 = s2) as ->.
  { destruct only_knowable; [by apply Hcheck in H4 as [-> _]|congruence]. }
  assert (Hat : forall vs' kv' m,
            Some vs = Some vs' -> only_specified = false ->
            kv' ∈ vs' -> stored kv' = Some m -> is_atomic m = true).
  { intros vs' kv' m [= <-] Hos Hin Hkv. apply (Hatomic Hos).
    eapply sdp_store_loop_keys; [exact Hstore|]. right. eauto. }
  destruct only_specified.
  { intros Hc. exists s2.
    split; [congruence|]. split; [congruence|]. split; [congruence|].
    split; [|split; [exact Hat|exact Hc]].
    intros vs1 k v vs2 m [= ->] Hk Hlast.
    eapply sdp_store_loop_last; eassumption. }
  destruct (InflationSDP.atomic_known_moments _ _ _) as [e|ak]; simpl;
    [discriminate|].
  match goal with
  | |- context [foldl _ _ ?l] =>
      destruct (sdp_infer_loop ak l s2) as [(c1 & c2 & c3 & c4 & c5) K]
  end.
  intros Hc. eexists. split; [|split; [|split; [|split; [|split;
    [|exact Hc]]]]].
  - congruence.
  - congruence.
  - congruence.
  - intros vs1 k v vs2 m [= ->] Hk Hlast. apply K.
    eapply sdp_store_loop_last; eassumption.
  - exact Hat.
Qed.

(** When [set_values] of the SDP engine returns, the processed lower bounds
    (those handed to the solver) are the lower bounds of the monomials
    without a known value: the lower bound of a monomial whose value is
    known is left out. *)
Theorem sdp_processed_lowerbounds_after_set_values
  (values : option (list (key * option Q)))
  (use_lpi normalised only_knowable only_specified : bool) (s s' : state)
  (m : mon) :
  set_values values use_lpi normalised only_knowable only_specified s = inr s' ->
  InflationSDP._processed_moment_lowerbounds s' !! m =
  match InflationSDP.known_moments s' !! m with
  | Some _ => None
  | None => InflationSDP.moment_lowerbounds s' !! m
  end.
Proof.
  intros Hs.
  apply sdp_set_values_before_cleanup in Hs as (s0 & _ & _ & Hp & _ & _ & Hc).
  apply sdp_cleanup_post in Hc as [Hc _]; [apply Hc|exact Hp].
Qed.

(** [set_values] of the SDP engine, not told to keep only the specified
    values, raises when a key with a number for value stands for a monomial
    that is not atomic; the other keys of the dictionary do not matter. *)
Theorem sdp_set_values_rejects_non_atomic
  (values : list (key * option Q)) (k : key) (v : Q) (m : mon)
  (use_lpi normalised only_knowable : bool) (s : state) :
  (k, Some v) ∈ values ->
  _sanitise_monomial k = inr m ->
  is_atomic m = false ->
  raises (set_values (Some values) use_lpi normalised only_knowable false s).
Proof.
  intros Hin Hk Hna.
  destruct (set_values (Some values) use_lpi normalised only_knowable false s)
    as [e|s'] eqn:Hs; [by exists e|].
  apply sdp_set_values_before_cleanup in Hs as (s0 & _ & _ & _ & _ & Hat & _).
  assert (is_atomic m = true); [|congruence].
  eapply (Hat values (k, Some v) m); try done.
  unfold stored_monomial. simpl. by rewrite Hk.
Qed.

(** Outside a supports problem, the value [set_values] of the SDP engine
    leaves on a monomial is the last number given for it: a later NaN, or a
    later value for another monomial, does not change it, and neither does
    the inference of the products. *)
Theorem sdp_set_values_last_value_wins
  (vs1 vs2 : list (key * option Q)) (k : key) (v : Q) (m : mon)
  (use_lpi normalised only_knowable only_specified : bool) (s s' : state) :
  InflationSDP.supports_problem s = false ->
  _sanitise_monomial k = inr m ->
  (forall kv, kv ∈ vs2 -> stored kv <> Some m) ->
  set_values (Some (vs1 ++ (k, Some v) :: vs2)) use_lpi normalised
    only_knowable only_specified s = inr s' ->
  InflationSDP.known_moments s' !! m = Some v.
Proof.
  intros Hsup Hk Hlast Hs.
  apply sdp_set_values_before_cleanup in Hs
    as (s0 & F1 & _ & Hp & Hv & _ & Hc).
  apply sdp_cleanup_post in Hc as (_ & _ & Hns); [|exact Hp].
  destruct Hns as (_ & -> & _); [congruence|].
  eapply Hv; eauto.
Qed.

(** [set_values] of the SDP engine never removes a lower bound: each one is
    as before, or the 1.0 a supports problem puts on a monomial of the
    support; outside a supports problem they are all as before. *)
Theorem sdp_set_values_keeps_the_lower_bounds
  (values : option (list (key * option Q)))
  (use_lpi normalised only_knowable only_specified : bool) (s s' : state) :
  set_values values use_lpi normalised only_knowable only_specified s = inr s' ->
  (forall m, InflationSDP.moment_lowerbounds s' !! m = Some 1%Q
             \/ InflationSDP.moment_lowerbounds s' !! m =
                InflationSDP.moment_lowerbounds s !! m)
  /\ (InflationSDP.supports_problem s = false ->
      InflationSDP.moment_lowerbounds s' = InflationSDP.moment_lowerbounds s).
Proof.
  intros Hs.
  apply sdp_set_values_before_cleanup in Hs
    as (s0 & F1 & F2 & Hp & _ & _ & Hc).
  apply sdp_cleanup_post in Hc as (_ & Hlb & Hns); [|exact Hp].
  split.
  - intros m. rewrite <- F2. apply Hlb.
  - intros Hsup. rewrite <- F2. apply Hns. congruence.
Qed.

End SetValues.

(** The monomial 2 has the lower bound 0 and is given the value 1/2: its
    lower bound is not among the processed ones. *)
Lemma sdp_processed_lowerbounds_witness :
  exists s',
    Product.sdp_set_values (Some [(2, Some (1 # 2)%Q)]) false true false false
      Product.sdp_state = inr s'
    /\ InflationSDP.moment_lowerbounds s' !! 2 = Some 0%Q
    /\ InflationSDP._processed_moment_lowerbounds s' !! 2 = None
    /\ InflationSDP._processed_moment_lowerbounds s' !! 3 = Some 0%Q.
Proof.
  destruct (Product.sdp_set_values (Some [(2, Some (1 # 2)%Q)]) false true
              false false Product.sdp_state) as [e|s'] eqn:Hrun;
    [vm_compute in Hrun; discriminate|].
  exists s'. split; [reflexivity|].
  assert (Hk : InflationSDP.known_moments s' !! 2 = Some (1 # 2)%Q
               /\ InflationSDP.known_moments s' !! 3 = None
               /\ InflationSDP.moment_lowerbounds s' !! 2 = Some 0%Q
               /\ InflationSDP.moment_lowerbounds s' !! 3 = Some 0%Q).
  { pose proof Hrun as Hc. vm_compute in Hc. injection Hc as <-.
    repeat split; reflexivity. }
  destruct Hk as (K2 & K3 & L2 & L3).
  split; [exact L2|].
  unfold Product.sdp_set_values in Hrun.
  split.
  - rewrite (sdp_processed_lowerbounds_after_set_values _ _ _ _ _ _ _ _ _ _ _
               _ _ _ _ _ _ 2 Hrun).
    rewrite K2. reflexivity.
  - rewrite (sdp_processed_lowerbounds_after_set_values _ _ _ _ _ _ _ _ _ _ _
               _ _ _ _ _ _ 3 Hrun).
    rewrite K3. exact L3.
Defined.

(** A value for the product 6 beside a value for the monomial 2. *)
Lemma sdp_set_values_rejects_witness :
  raises (Product.sdp_set_values
            (Some [(2, Some (1 # 2)%Q); (6, Some (1 # 4)%Q)]) false true false
            false Product.sdp_state).
Proof.
  apply (sdp_set_values_rejects_non_atomic Example.Zero Example.One
           Example.sanitise Product.is_atomic Example.always Product.len
           Example.factor_0 Product.evaluate Example.from_atoms
           Example.no_unpack
           [(2, Some (1 # 2)%Q); (6, Some (1 # 4)%Q)] 6 (1 # 4)%Q 6).
  - right. left.
  - reflexivity.
  - reflexivity.
Defined.

(** The monomial 2 is given 1/2, then 1/3, then a NaN. *)
Lemma sdp_last_value_wins_witness :
  exists s',
    Product.sdp_set_values
      (Some ([(2, Some (1 # 2)%Q)] ++
             (2, Some (1 # 3)%Q) :: [(3, None); (2, None)]))
      false true false false Product.sdp_state = inr s'
    /\ InflationSDP.known_moments s' !! 2 = Some (1 # 3)%Q.
Proof.
  destruct (Product.sdp_set_values
              (Some ([(2, Some (1 # 2)%Q)] ++
                     (2, Some (1 # 3)%Q) :: [(3, None); (2, None)]))
              false true false false Product.sdp_state) as [e|s'] eqn:Hrun;
    [vm_compute in Hrun; discriminate|].
  exists s'. split; [reflexivity|].
  unfold Product.sdp_set_values in Hrun.
  eapply sdp_set_values_last_value_wins; [| | |exact Hrun].
  - reflexivity.
  - reflexivity.
  - intros kv Hkv.
    apply elem_of_cons in Hkv as [->|Hkv]; [discriminate|].
    apply elem_of_cons in Hkv as [->|Hkv]; [discriminate|].
    by apply elem_of_nil in Hkv.
Defined.

(** In a supports problem that holds the lower bound 1 on the monomial 3
    from an earlier call, the monomial 3 is given the value 0: the lower
    bound stays beside the value. *)
Lemma sdp_set_values_keeps_the_lower_bounds_witness :
  exists s',
    Product.sdp_set_values (Some [(2, Some (1 # 2)%Q); (3, Some 0%Q)]) false
      true false true Product.sdp_supports_state = inr s'
    /\ InflationSDP.known_moments s' !! 3 = Some 0%Q
    /\ InflationSDP.moment_lowerbounds s' !! 3 = Some 1%Q.
Proof.
  destruct (Product.sdp_set_values (Some [(2, Some (1 # 2)%Q); (3, Some 0%Q)])
              false true false true Product.sdp_supports_state)
    as [e|s'] eqn:Hrun; [vm_compute in Hrun; discriminate|].
  exists s'. split; [reflexivity|].
  assert (Hk : InflationSDP.known_moments s' !! 3 = Some 0%Q).
  { pose proof Hrun as Hc. vm_compute in Hc. injection Hc as <-. reflexivity. }
  split; [exact Hk|].
  unfold Product.sdp_set_values in Hrun.
  destruct (sdp_set_values_keeps_the_lower_bounds _ _ _ _ _ _ _ _ _ _ _ _ _ _
              _ _ _ Hrun) as (Hlb & _).
  destruct (Hlb 3) as [H1|H1]; [exact H1|rewrite H1; reflexivity].
Defined.

End SDPValues.

(** ** Supports problems *)

Module SupportsFacts.

Section Supports.
Context `{Countable mon} `{Countable atom} {key : Type}.
Variables Zero One : mon.
Variable unpack_monomial : mon -> result (Q * mon).
Variable monomial_from_list_of_atomic : list atom -> mon.
Variable len : mon -> nat.
(** The SDP engine. *)
Variable sdp_sanitise : key -> result mon.
Variables sdp_is_atomic knowable_q : mon -> bool.
Variable knowable_factors_0 : mon -> result atom.
Variable evaluate_given_atomic_monomials_dict :
  mon -> gmap atom Q -> bool -> Q * list atom * known_status.
(** The LP engine. *)
Variable lp_sanitise : key -> result mon.
Variables lp_is_atomic is_knowable : mon -> bool.
Variable atom_is_knowable : atom -> bool.
Variable knowability_status : mon -> known_status.
Variable factors_0 : mon -> result atom.
Variable evaluate : mon -> gmap atom Q -> bool -> Q * list atom * known_status.

(** C5.  In a supports problem, a call of [set_values] (of which
    [set_distribution] is an instance) that returns has entered the
    clean-up in a state [s0] that has the lower bounds of the state of the
    call and holds the values given (for each monomial the last number
    given for it; in the LP engine with [only_specified_values = False],
    where the loops in between delete and compute values, for the atomic
    monomials of [self.monomials]), and the state [s'] it returns is the
    clean-up of [s0]: monomial by monomial, a moment known in [s0] with a
    value not close to 0 is no longer known in [s'] and has the lower bound
    1 there, a moment known with a value close to 0 is still known with that
    value and keeps its lower bound, a moment not known in [s0] is not known
    in [s'] and keeps its lower bound, and there is no semiknown relation in
    [s'].  In particular a monomial given a value not close to 0 ends
    without a value and with the lower bound 1, and one given a value close
    to 0 ends with that value.  This holds in both engines, and the clean-up
    itself always returns (in the SDP engine, when the unit is a key of the
    objective). *)
Theorem supports_cleanup_after_set_values :
  (forall values use_lpi normalised only_knowable only_specified
          (s s' : @InflationSDP.state mon _ _),
      InflationSDP.supports_problem s = true ->
      InflationSDP.set_values Zero One sdp_sanitise sdp_is_atomic knowable_q
        len knowable_factors_0 evaluate_given_atomic_monomials_dict
        monomial_from_list_of_atomic unpack_monomial values use_lpi
        normalised only_knowable only_specified s = inr s' ->
      (exists s0,
         InflationSDP.moment_lowerbounds s0 = InflationSDP.moment_lowerbounds s
         /\ (forall vs1 k v vs2 m,
               values = Some (vs1 ++ (k, Some v) :: vs2) ->
               sdp_sanitise k = inr m ->
               (forall kv, kv ∈ vs2 ->
                  stored_monomial sdp_sanitise kv <> Some m) ->
               InflationSDP.known_moments s0 !! m = Some v)
         /\ InflationSDP.cleanup_after_set_values One unpack_monomial s0
            = inr s'
         /\ supports_cleanup_of (InflationSDP.known_moments s0)
              (InflationSDP.moment_lowerbounds s)
              (InflationSDP.known_moments s')
              (InflationSDP.moment_lowerbounds s')
              (InflationSDP.semiknown_moments s'))
      /\ InflationSDP.semiknown_moments s' = ∅
      /\ (forall vs1 k v vs2 m,
            values = Some (vs1 ++ (k, Some v) :: vs2) ->
            sdp_sanitise k = inr m ->
            (forall kv, kv ∈ vs2 ->
               stored_monomial sdp_sanitise kv <> Some m) ->
            if Num.isclose v 0
            then InflationSDP.known_moments s' !! m = Some v
            else InflationSDP.known_moments s' !! m = None
                 /\ InflationSDP.moment_lowerbounds s' !! m = Some 1%Q))
  /\ (forall s : @InflationSDP.state mon _ _,
        InflationSDP.supports_problem s = true ->
        is_Some (InflationSDP.objective s !! One) ->
        exists s',
          InflationSDP.cleanup_after_set_values One unpack_monomial s = inr s')
  /\ (forall values use_lpi only_specified (s s' : @InflationLP.state mon _ _),
        InflationLP.supports_problem s = true ->
        InflationLP.set_values One lp_sanitise lp_is_atomic is_knowable
          atom_is_knowable knowability_status len factors_0 evaluate
          monomial_from_list_of_atomic values use_lpi only_specified s
        = inr s' ->
        (exists s0,
           InflationLP.moment_lowerbounds s0 = InflationLP.moment_lowerbounds s
           /\ (forall vs1 k v vs2 m,
                 values = Some (vs1 ++ (k, v) :: vs2) ->
                 lp_sanitise k = inr m ->
                 (forall kv, kv ∈ vs2 -> lp_sanitise (fst kv) <> inr m) ->
                 only_specified = true
                 \/ (m ∈ InflationLP.monomials s /\ lp_is_atomic m = true) ->
                 InflationLP.known_moments s0 !! m = Some v)
           /\ InflationLP._cleanup_after_set_values s0 = inr s'
           /\ supports_cleanup_of (InflationLP.known_moments s0)
                (InflationLP.moment_lowerbounds s)
                (InflationLP.known_moments s')
                (InflationLP.moment_lowerbounds s')
                (InflationLP.semiknown_moments s'))
        /\ InflationLP.semiknown_moments s' = ∅
        /\ (forall vs1 k v vs2 m,
              values = Some (vs1 ++ (k, v) :: vs2) ->
              lp_sanitise k = inr m ->
              (forall kv, kv ∈ vs2 -> lp_sanitise (fst kv) <> inr m) ->
              only_specified = true
              \/ (m ∈ InflationLP.monomials s /\ lp_is_atomic m = true) ->
              if Num.isclose v 0
              then InflationLP.known_moments s' !! m = Some v
              else InflationLP.known_moments s' !! m = None
                   /\ InflationLP.moment_lowerbounds s' !! m = Some 1%Q))
  /\ (forall s : @InflationLP.state mon _ _,
        InflationLP.supports_problem s = true ->
        exists s', InflationLP._cleanup_after_set_values s = inr s').
Proof.
  split; [|split; [|split]].
  - intros values use_lpi normalised only_knowable only_specified s s' Hsup Hrun.
    apply SDPValues.sdp_set_values_before_cleanup in Hrun
      as (s0 & Hs0 & Hlb0 & _ & Hvals & _ & Hc).
    pose proof (SDPValues.sdp_cleanup_supports_exact One unpack_monomial s0 s'
                  ltac:(congruence) Hc) as Hex.
    rewrite Hlb0 in Hex.
    split; [exists s0; split; [exact Hlb0|]; split; [exact Hvals|];
            split; [exact Hc|exact Hex]|].
    destruct Hex as [Hsk Hex]. split; [exact Hsk|].
    intros vs1 k v vs2 m Hv Hk Hlast.
    specialize (Hvals vs1 k v vs2 m Hv Hk Hlast).
    specialize (Hex m). unfold supports_cleanup_at in Hex.
    rewrite Hvals in Hex. destruct (Num.isclose v 0); [apply Hex|exact Hex].
  - intros s Hsup HOne.
    destruct (ValuationFacts.sdp_cleanup_supports One unpack_monomial s Hsup
                HOne) as (s' & Hs' & _). eauto.
  - intros values use_lpi only_specified s s' Hsup Hrun.
    apply LPValues.lp_set_values_enters_cleanup in Hrun
      as (s0 & (Hs0 & _ & Hlb0 & _) & Hvals & Hc).
    pose proof (LPValues.lp_cleanup_supports_exact s0 s'
                  ltac:(congruence) Hc) as Hex.
    rewrite Hlb0 in Hex.
    split; [exists s0; split; [exact Hlb0|]; split; [exact Hvals|];
            split; [exact Hc|exact Hex]|].
    destruct Hex as [Hsk Hex]. split; [exact Hsk|].
    intros vs1 k v vs2 m Hv Hk Hlast Hcase.
    specialize (Hvals vs1 k v vs2 m Hv Hk Hlast Hcase).
    specialize (Hex m). unfold supports_cleanup_at in Hex.
    rewrite Hvals in Hex. destruct (Num.isclose v 0); [apply Hex|exact Hex].
  - intros s Hsup.
    destruct (ValuationFacts.lp_cleanup_supports s Hsup) as (s' & Hs' & _).
    eauto.
Qed.

End Supports.

(** The statement above at a small supports problem of the SDP engine: the
    monomial 2 is set to 0 and the monomial 3 to 1/2. *)
Lemma supports_cleanup_witness :
  InflationSDP.supports_problem Example.sdp_supports_state = true
  /\ exists s',
       Example.sdp_set_values
         (Some ([(2, Some 0%Q)] ++ (3, Some (1 # 2)%Q) :: [])) false true
         false true Example.sdp_supports_state = inr s'
       /\ InflationSDP.semiknown_moments s' = ∅
       /\ InflationSDP.known_moments s' !! 3 = None
       /\ InflationSDP.moment_lowerbounds s' !! 3 = Some 1%Q
       /\ InflationSDP.known_moments s' !! 2 = Some 0%Q.
Proof.
  split; [reflexivity|].
  destruct (Example.sdp_set_values
              (Some ([(2, Some 0%Q)] ++ (3, Some (1 # 2)%Q) :: [])) false true
              false true Example.sdp_supports_state) as [e|s'] eqn:Hrun.
  - exfalso. vm_compute in Hrun. discriminate.
  - exists s'. split; [reflexivity|].
    destruct (proj1 (supports_cleanup_after_set_values Example.Zero Example.One
                       Example.no_unpack Example.from_atoms Example.len
                       Example.sanitise Example.always Example.always
                       Example.factor_0 Example.no_evaluation
                       Example.sanitise Example.always Example.always
                       Example.always (fun _ => StatusNo) Example.factor_0
                       Example.no_evaluation)
                _ false true false true
                Example.sdp_supports_state s' eq_refl Hrun)
      as (_ & Hsk & Hvals).
    split; [exact Hsk|].
    pose proof (Hvals [(2, Some 0%Q)] 3 (1 # 2)%Q [] 3 eq_refl eq_refl
                  ltac:(intros kv Hkv; by apply elem_of_nil in Hkv)) as H3.
    pose proof (Hvals [] 2 0%Q [(3, Some (1 # 2)%Q)] 2 eq_refl eq_refl) as H2.
    simpl in H3. destruct H3 as [H3k H3l].
    split; [exact H3k|]. split; [exact H3l|].
    apply H2. intros kv Hkv.
    apply list_elem_of_singleton in Hkv as ->. discriminate.
Defined.

End SupportsFacts.

(** ** Bounds given twice *)

Module BoundsFacts.

Lemma isclose_refl (b : Q) : Num.isclose b b = true.
Proof.
  unfold Num.isclose. apply Qle_bool_iff.
  assert (H0 : (Qabs (b - b) == 0)%Q).
  { rewrite <- (Qabs_wd 0%Q); [reflexivity|]. ring. }
  rewrite H0.
  assert (0 <= Qabs b)%Q by apply Qabs_nonneg.
  unfold Num.atol, Num.rtol.
  apply Qle_trans with (0 + 0)%Q; [discriminate|].
  apply Qplus_le_compat; [discriminate|].
  apply Qmult_le_0_compat; [discriminate|assumption].
Qed.

Section Loop.
Context {key : Type} `{Countable mon}.
Variable sanitise : key -> result mon.
Variable f : key -> mon.

Lemma bound_of_cons_new (acc : gmap mon Q) k b d m :
  acc !! f k = None ->
  bound_of f acc ((k, b) :: d) m = bound_of f (<[f k := b]> acc) d m.
Proof.
  intros Hk. unfold bound_of. simpl.
  destruct (decide (f k = m)) as [<-|Hne].
  - rewrite Hk, lookup_insert_eq. reflexivity.
  - rewrite lookup_insert_ne by assumption. reflexivity.
Qed.

Lemma bound_of_cons_old (acc : gmap mon Q) k b b0 d m :
  acc !! f k = Some b0 ->
  bound_of f acc ((k, b) :: d) m = bound_of f acc d m.
Proof.
  intros Hk. unfold bound_of. simpl.
  destruct (decide (f k = m)) as [<-|Hne]; [rewrite Hk|]; reflexivity.
Qed.

(** When the loop returns, it has kept the first bound of every monomial and
    every later bound was close to it. *)
Lemma loop_returns (d : list (key * Q)) (acc acc' : gmap mon Q) :
  (forall kv, kv ∈ d -> sanitise (fst kv) = inr (f (fst kv))) ->
  for_each (InflationLP.sanitize_bound sanitise) d acc = inr acc' ->
  (forall m, acc' !! m = bound_of f acc d m)
  /\ (forall d1 kj bj d2 b0,
        d = d1 ++ (kj, bj) :: d2 ->
        bound_of f acc d1 (f kj) = Some b0 -> Num.isclose b0 bj = true).
Proof.
  revert acc. induction d as [|[k b] d IH]; intros acc Hs; simpl.
  - intros [= <-]. split.
    + intros m. unfold bound_of. simpl. by destruct (acc !! m).
    + intros d1 kj bj d2 b0 Hd. by destruct d1.
  - unfold InflationLP.sanitize_bound at 1. rewrite (Hs (k, b)) by left.
    simpl. destruct (acc !! f k) as [b0|] eqn:Hk.
    + destruct (Num.isclose b0 b) eqn:Hc; simpl; [|discriminate].
      intros Hrun. apply IH in Hrun as [Hm Hok];
        [|intros kv Hkv; apply Hs; by right].
      split.
      * intros m. rewrite Hm. symmetry. eapply bound_of_cons_old; eassumption.
      * intros d1 kj bj d2 b1 Hd Hb. destruct d1 as [|[k1 b1'] d1].
        -- simpl in Hd. injection Hd as -> -> ->.
           unfold bound_of in Hb. simpl in Hb. rewrite Hk in Hb.
           injection Hb as <-. assumption.
        -- simpl in Hd. injection Hd as -> -> ->.
           rewrite (bound_of_cons_old _ _ _ _ _ _ Hk) in Hb. eapply Hok; eauto.
    + simpl. intros Hrun. apply IH in Hrun as [Hm Hok];
        [|intros kv Hkv; apply Hs; by right].
      split.
      * intros m. rewrite Hm. symmetry. by apply bound_of_cons_new.
      * intros d1 kj bj d2 b1 Hd Hb. destruct d1 as [|[k1 b1'] d1].
        -- simpl in Hd. injection Hd as -> -> ->.
           unfold bound_of in Hb. simpl in Hb. rewrite Hk in Hb. discriminate.
        -- simpl in Hd. injection Hd as -> -> ->.
           rewrite (bound_of_cons_new _ _ _ _ _ Hk) in Hb. eapply Hok; eauto.
Qed.

(** When the loop raises, the exception is the failed assertion, and some
    bound was not close to the first bound of its monomial. *)
Lemma loop_raises (d : list (key * Q)) (acc : gmap mon Q) (e : exn) :
  (forall kv, kv ∈ d -> sanitise (fst kv) = inr (f (fst kv))) ->
  for_each (InflationLP.sanitize_bound sanitise) d acc = inl e ->
  e = AssertionError
  /\ exists d1 kj bj d2 b0,
       d = d1 ++ (kj, bj) :: d2
       /\ bound_of f acc d1 (f kj) = Some b0 /\ Num.isclose b0 bj = false.
Proof.
  revert acc. induction d as [|[k b] d IH]; intros acc Hs; simpl;
    [discriminate|].
  unfold InflationLP.sanitize_bound at 1. rewrite (Hs (k, b)) by left.
  simpl. destruct (acc !! f k) as [b0|] eqn:Hk.
  - destruct (Num.isclose b0 b) eqn:Hc; simpl.
    + intros Hrun. apply IH in Hrun
        as (-> & d1 & kj & bj & d2 & b1 & -> & Hb & Hnc);
        [|intros kv Hkv; apply Hs; by right].
      split; [reflexivity|].
      exists ((k, b) :: d1), kj, bj, d2, b1. split; [reflexivity|].
      split; [|assumption].
      by rewrite (bound_of_cons_old _ _ _ _ _ _ Hk).
    + intros [= <-]. split; [reflexivity|].
      exists [], k, b, d, b0. split; [reflexivity|]. split; [|assumption].
      unfold bound_of. by rewrite Hk.
  - simpl. intros Hrun. apply IH in Hrun
      as (-> & d1 & kj & bj & d2 & b1 & -> & Hb & Hnc);
      [|intros kv Hkv; apply Hs; by right].
    split; [reflexivity|].
    exists ((k, b) :: d1), kj, bj, d2, b1. split; [reflexivity|].
    split; [|assumption].
    by rewrite (bound_of_cons_new _ _ _ _ _ Hk).
Qed.

Lemma bound_of_empty (d : list (key * Q)) (m : mon) :
  bound_of f ∅ d m = first_bound f d m.
Proof. unfold bound_of. by rewrite lookup_empty. Qed.

(** The loop on a whole dictionary: it raises exactly when a bound is not
    close to the first bound of its monomial. *)
Lemma loop_spec (d : list (key * Q)) :
  (forall kv, kv ∈ d -> sanitise (fst kv) = inr (f (fst kv))) ->
  (contradicts_first f d ->
   for_each (InflationLP.sanitize_bound sanitise) d ∅ = inl AssertionError)
  /\ (~ contradicts_first f d ->
      exists acc, for_each (InflationLP.sanitize_bound sanitise) d ∅ = inr acc
                  /\ forall m, acc !! m = first_bound f d m).
Proof.
  intros Hs.
  destruct (for_each (InflationLP.sanitize_bound sanitise) d ∅)
    as [e|acc] eqn:Hrun.
  - apply loop_raises in Hrun as (-> & d1 & kj & bj & d2 & b0 & Hd & Hb & Hc);
      [|assumption].
    split; [reflexivity|]. intros Hno. exfalso. apply Hno.
    exists d1, kj, bj, d2, b0. by rewrite <- bound_of_empty.
  - apply loop_returns in Hrun as [Hm Hok]; [|assumption]. split.
    + intros (d1 & kj & bj & d2 & b0 & Hd & Hb & Hc).
      rewrite <- bound_of_empty in Hb.
      rewrite (Hok _ _ _ _ _ Hd Hb) in Hc. discriminate.
    + intros _. exists acc. split; [reflexivity|].
      intros m. rewrite Hm. apply bound_of_empty.
Qed.

Lemma first_bound_elem (d : list (key * Q)) (m : mon) (b : Q) :
  first_bound f d m = Some b -> exists k, (k, b) ∈ d /\ f k = m.
Proof.
  induction d as [|[k b'] d IH]; simpl; [discriminate|].
  destruct (decide (f k = m)) as [<-|Hne].
  - intros [= <-]. exists k. split; [left|reflexivity].
  - intros Hb. destruct (IH Hb) as (k' & Hin & Hk'). exists k'.
    split; [by right|assumption].
Qed.

(** Equal bounds for equal monomials never contradict. *)
Lemma identical_values_do_not_contradict (d : list (key * Q)) :
  (forall k1 b1 k2 b2, (k1, b1) ∈ d -> (k2, b2) ∈ d -> f k1 = f k2 -> b1 = b2) ->
  ~ contradicts_first f d.
Proof.
  intros Hsame (d1 & kj & bj & d2 & b0 & -> & Hb & Hc).
  apply first_bound_elem in Hb as (k & Hin & Hk).
  rewrite (Hsame k b0 kj bj) in Hc.
  - rewrite isclose_refl in Hc. discriminate.
  - apply elem_of_app. by left.
  - apply elem_of_app. right. left.
  - assumption.
Qed.

(** C8, as the code has it.  Let every key of the dictionary [d] sanitise to
    a monomial.  [set_bounds] raises (a failed assertion) exactly when the
    bound of some key is not close to the bound of the first key of [d] that
    sanitises to the same monomial, and the bounds of that type are then
    left empty; otherwise it returns and stores, for every monomial, the
    first bound given for it, so that one monomial never holds two bounds;
    in particular equal bounds for one monomial are accepted.  This holds
    for the upper and for the lower bounds. *)
Theorem set_bounds_compares_with_first_bound (d : list (key * Q))
  (s : @InflationLP.state mon _ _) :
  (forall kv, kv ∈ d -> sanitise (fst kv) = inr (f (fst kv))) ->
  let up := InflationLP.set_bounds sanitise (Some d) "up" s in
  let lo := InflationLP.set_bounds sanitise (Some d) "lo" s in
  (contradicts_first f d ->
     snd up = inl AssertionError /\ InflationLP.moment_upperbounds (fst up) = ∅
     /\ snd lo = inl AssertionError
     /\ InflationLP.moment_lowerbounds (fst lo) = ∅)
  /\ (~ contradicts_first f d ->
       snd up = inr tt /\ snd lo = inr tt
       /\ forall m,
            InflationLP.moment_upperbounds (fst up) !! m = first_bound f d m
            /\ InflationLP.moment_lowerbounds (fst lo) !! m
               = first_bound f d m)
  /\ ((forall k1 b1 k2 b2,
         (k1, b1) ∈ d -> (k2, b2) ∈ d -> f k1 = f k2 -> b1 = b2) ->
      snd up = inr tt /\ snd lo = inr tt).
Proof.
  intros Hs up lo. destruct (loop_spec d Hs) as [Hbad Hgood].
  assert (Hup : up = InflationLP._set_upperbounds sanitise (Some d) s)
    by reflexivity.
  assert (Hlo : lo = InflationLP._set_lowerbounds sanitise (Some d) s)
    by reflexivity.
  clearbody up lo. subst up lo.
  unfold InflationLP._set_upperbounds, InflationLP._set_lowerbounds.
  split; [|split].
  - intros Hc. rewrite (Hbad Hc). simpl. repeat split.
  - intros Hc. destruct (Hgood Hc) as (acc & -> & Hacc). simpl.
    repeat split; apply Hacc.
  - intros Hsame.
    destruct (Hgood (identical_values_do_not_contradict d Hsame))
      as (acc & -> & _). simpl. split; reflexivity.
Qed.

End Loop.

(** The claim as it is worded fails: the number 1, the unit itself and its
    name are three keys for the unit; the bounds 1e-8 and -1e-8 of the last
    two are not close to each other, but each is close to the first bound 0,
    and the call returns. *)
Lemma contradictory_bounds_accepted :
  ~ (contradictory Example.lp_sanitise Example.three_bounds ->
     raises (snd (InflationLP.set_bounds Example.lp_sanitise
                    (Some Example.three_bounds) "up" Example.lp_state))).
Proof.
  intros Hclaim.
  assert (Hc : contradictory Example.lp_sanitise Example.three_bounds).
  { exists 1, 2, (InCompound Example.One), (1 # 100000000)%Q,
      (InStr "1"), (-1 # 100000000)%Q, Example.One.
    repeat split; try reflexivity. lia. }
  destruct (Hclaim Hc) as [e He]. vm_compute in He. discriminate.
Qed.

(** The statement of the code at these three bounds: the first bound, 0, is
    the one stored. *)
Lemma set_bounds_witness :
  (forall kv, kv ∈ Example.three_bounds ->
     Example.lp_sanitise (fst kv) = inr Example.One)
  /\ ~ contradicts_first (fun _ : Example.lp_key => Example.One)
        Example.three_bounds
  /\ snd (InflationLP.set_bounds Example.lp_sanitise
            (Some Example.three_bounds) "up" Example.lp_state) = inr tt
  /\ InflationLP.moment_upperbounds
       (fst (InflationLP.set_bounds Example.lp_sanitise
               (Some Example.three_bounds) "up" Example.lp_state))
       !! Example.One = Some 0%Q.
Proof.
  assert (Hs : forall kv, kv ∈ Example.three_bounds ->
                 Example.lp_sanitise (fst kv) = inr Example.One).
  { intros kv Hkv. unfold Example.three_bounds in Hkv.
    apply elem_of_cons in Hkv as [Hkv|Hkv]; [by subst kv|].
    apply elem_of_cons in Hkv as [Hkv|Hkv]; [by subst kv|].
    apply elem_of_cons in Hkv as [Hkv|Hkv]; [by subst kv|].
    by apply elem_of_nil in Hkv. }
  assert (Hno : ~ contradicts_first (fun _ : Example.lp_key => Example.One)
                  Example.three_bounds).
  { intros (d1 & kj & bj & d2 & b0 & Hd & Hb & Hc).
    unfold Example.three_bounds in Hd.
    destruct d1 as [|x1 d1]; [discriminate Hb|]. injection Hd as <- Hd.
    simpl in Hb. injection Hb as <-.
    destruct d1 as [|x2 d1].
    { injection Hd as <- <- <-. vm_compute in Hc. discriminate. }
    injection Hd as <- Hd.
    destruct d1 as [|x3 d1].
    { injection Hd as <- <- <-. vm_compute in Hc. discriminate. }
    injection Hd as <- Hd. destruct d1; discriminate Hd. }
  split; [exact Hs|]. split; [exact Hno|].
  destruct (set_bounds_compares_with_first_bound Example.lp_sanitise
              (fun _ => Example.One) Example.three_bounds Example.lp_state Hs)
    as (_ & Hgood & _).
  destruct (Hgood Hno) as (Hup & _ & Hm). split; [exact Hup|].
  destruct (Hm Example.One) as [-> _]. reflexivity.
Defined.

End BoundsFacts.

(** ** Sorting and [np.unique] *)

Module NpFacts.

Section Sort.
Context {A : Type}.
Variable leb : A -> A -> bool.

Lemma elem_of_insert_sorted (x y : A) (l : list A) :
  y ∈ Np.insert_sorted leb x l <-> y = x \/ y ∈ l.
Proof.
  induction l as [|z l IH]; simpl.
  - rewrite list_elem_of_singleton. set_solver.
  - destruct (leb x z).
    + rewrite !elem_of_cons. tauto.
    + rewrite !elem_of_cons, IH. tauto.
Qed.

Lemma elem_of_sort (y : A) (l : list A) : y ∈ Np.sort leb l <-> y ∈ l.
Proof.
  induction l as [|x l IH]; simpl; [reflexivity|].
  rewrite elem_of_insert_sorted, elem_of_cons, IH. reflexivity.
Qed.

Lemma length_insert_sorted (x : A) (l : list A) :
  length (Np.insert_sorted leb x l) = S (length l).
Proof.
  induction l as [|z l IH]; simpl; [reflexivity|].
  destruct (leb x z); simpl; [reflexivity|]. by rewrite IH.
Qed.

Lemma length_sort (l : list A) : length (Np.sort leb l) = length l.
Proof.
  induction l as [|x l IH]; simpl; [reflexivity|].
  by rewrite length_insert_sorted, IH.
Qed.

End Sort.

Section Dedup.
Context {A : Type}.
Variable eqb : A -> A -> bool.
Hypothesis eqb_eq : forall x y, eqb x y = true -> x = y.

Lemma elem_of_dedup_from (prev y : A) (l : list A) :
  y ∈ prev :: Np.dedup_from eqb prev l <-> y ∈ prev :: l.
Proof.
  revert prev. induction l as [|z l IH]; intros prev; simpl; [reflexivity|].
  destruct (eqb prev z) eqn:E.
  - apply eqb_eq in E as <-. rewrite IH. rewrite !elem_of_cons. tauto.
  - rewrite (elem_of_cons (z :: _)), IH. rewrite !elem_of_cons. tauto.
Qed.

Lemma elem_of_dedup_adjacent (y : A) (l : list A) :
  y ∈ Np.dedup_adjacent eqb l <-> y ∈ l.
Proof.
  destruct l as [|x l]; simpl; [reflexivity|]. apply elem_of_dedup_from.
Qed.

End Dedup.

Lemma lex_compare_eq (r1 r2 : list nat) :
  Np.lex_compare Nat.compare r1 r2 = Eq -> r1 = r2.
Proof.
  revert r2. induction r1 as [|x r1 IH]; intros [|y r2]; simpl;
    try discriminate; [reflexivity|].
  destruct (Nat.compare x y) eqn:E; try discriminate.
  apply Nat.compare_eq in E as ->. intros Hr. f_equal. by apply IH.
Qed.

Lemma rows_eqb_eq (r1 r2 : list nat) : Np.rows_eqb r1 r2 = true -> r1 = r2.
Proof.
  unfold Np.rows_eqb.
  destruct (Np.lex_compare Nat.compare r1 r2) eqn:E; try discriminate.
  intros _. by apply lex_compare_eq.
Qed.

(** [np.unique(rows, axis=0)] keeps exactly the rows it is given. *)
Lemma elem_of_unique_rows (row : list nat) (rows : list (list nat)) :
  row ∈ Np.unique_rows rows <-> row ∈ rows.
Proof.
  unfold Np.unique_rows.
  rewrite (elem_of_dedup_adjacent _ rows_eqb_eq). apply elem_of_sort.
Qed.

(** *** The last element of a sorted list *)

Section LastOfSort.
Context {A : Type}.
Variable leb : A -> A -> bool.
Hypothesis leb_total : forall x y, leb x y = false -> leb y x = true.
Hypothesis leb_trans :
  forall x y z, leb x y = true -> leb y z = true -> leb x z = true.

Local Abbreviation le := (fun x y => leb x y = true).

Lemma insert_sorted_sorted (x : A) (l : list A) :
  StronglySorted le l -> StronglySorted le (Np.insert_sorted leb x l).
Proof.
  induction 1 as [|z l Hs IH Hz]; simpl.
  - repeat constructor.
  - destruct (leb x z) eqn:E.
    + constructor; [by constructor|]. constructor; [exact E|].
      eapply Forall_impl; [exact Hz|]. intros w Hw. simpl in *. eauto.
    + constructor; [exact IH|].
      apply Forall_forall. intros w Hw.
      apply elem_of_insert_sorted in Hw as [->|Hw]; [by apply leb_total|].
      by apply (proj1 (Forall_forall _ _) Hz).
Qed.

Lemma sort_sorted (l : list A) : StronglySorted le (Np.sort leb l).
Proof.
  induction l as [|x l IH]; simpl; [constructor|].
  by apply insert_sorted_sorted.
Qed.

Lemma last_of_sorted (l : list A) (y : A) :
  StronglySorted le l -> last l = Some y ->
  forall z, z ∈ l -> z = y \/ leb z y = true.
Proof.
  induction 1 as [|x l Hs IH Hx]; [discriminate|].
  intros Hlast z Hz. destruct l as [|x' l].
  - simpl in Hlast. injection Hlast as <-.
    apply list_elem_of_singleton in Hz. by left.
  - assert (Hlast' : last (x' :: l) = Some y) by exact Hlast.
    apply elem_of_cons in Hz as [->|Hz]; [|by apply IH].
    right. apply (proj1 (Forall_forall _ _) Hx).
    apply last_Some in Hlast' as [l' ->]. apply elem_of_app. right. left.
Qed.

(** The last element of the sorted list is the greatest one. *)
Lemma last_of_sort_is_max (l : list A) (y : A) :
  last (Np.sort leb l) = Some y ->
  y ∈ l /\ forall z, z ∈ l -> z = y \/ leb z y = true.
Proof.
  intros Hlast. split.
  - apply (elem_of_sort leb). apply last_Some in Hlast as [l' ->].
    apply elem_of_app. right. left.
  - intros z Hz. eapply last_of_sorted; [apply sort_sorted|exact Hlast|].
    by apply elem_of_sort.
Qed.

End LastOfSort.

(** *** The lexicographic order of boolean rows *)

Lemma bool_lex_refl (r : list bool) : Np.lex_leb Np.bool_compare r r = true.
Proof.
  unfold Np.lex_leb. induction r as [|[] r IH]; simpl; auto.
Qed.

Lemma bool_lex_total (r1 r2 : list bool) :
  Np.lex_leb Np.bool_compare r1 r2 = false ->
  Np.lex_leb Np.bool_compare r2 r1 = true.
Proof.
  unfold Np.lex_leb. revert r2.
  induction r1 as [|x r1 IH]; intros [|y r2]; simpl; try discriminate; auto.
  destruct x, y; simpl; auto; discriminate.
Qed.

Lemma bool_lex_trans (r1 r2 r3 : list bool) :
  Np.lex_leb Np.bool_compare r1 r2 = true ->
  Np.lex_leb Np.bool_compare r2 r3 = true ->
  Np.lex_leb Np.bool_compare r1 r3 = true.
Proof.
  unfold Np.lex_leb. revert r2 r3.
  induction r1 as [|x r1 IH]; intros [|y r2] [|z r3]; simpl;
    try discriminate; auto.
  destruct x, y, z; simpl; try discriminate; auto; apply IH.
Qed.

(** *** Indexing with the result of [np.lexsort] *)

Lemma take_pairs {A : Type} (rows : list A) (ps : list (A * nat)) :
  (forall p, p ∈ ps -> rows !! snd p = Some (fst p)) ->
  Np.take rows (ps.*2) = inr (ps.*1).
Proof.
  induction ps as [|[r i] ps IH]; intros Hps; [reflexivity|].
  pose proof (Hps (r, i) ltac:(left)) as Hi. simpl in Hi.
  unfold Np.take in *. rewrite !fmap_cons. cbn [Np.map_result fst snd].
  unfold Np.item at 1. rewrite Hi. cbn [bind].
  rewrite IH; [reflexivity|]. intros p Hp. apply Hps. by right.
Qed.

Lemma elem_of_zip_seq {A : Type} (rows : list A) (r : A) (i : nat) :
  (r, i) ∈ zip rows (seq 0 (length rows)) <-> rows !! i = Some r.
Proof.
  rewrite list_elem_of_lookup. split.
  - intros [j Hj]. apply lookup_zip_with_Some in Hj
      as (r' & i' & [= <- <-] & Hr & Hi).
    apply lookup_seq in Hi as [-> _]. exact Hr.
  - intros Hr. exists i. apply lookup_zip_with_Some.
    exists r, i. split; [reflexivity|]. split; [exact Hr|].
    apply lookup_seq. split; [reflexivity|]. by eapply lookup_lt_Some.
Qed.

(** [rows[np.lexsort(...)]] is the list of rows, sorted. *)
Lemma take_lexsort {A : Type} (cmp : A -> A -> comparison)
  (rows : list (list A)) :
  Np.take rows (Np.lexsort_rows cmp rows)
  = inr ((Np.sort (fun p q => Np.lex_leb cmp (fst p) (fst q))
            (zip rows (seq 0 (length rows)))).*1).
Proof.
  unfold Np.lexsort_rows. apply take_pairs.
  intros [r i] Hp. apply elem_of_sort in Hp. by apply elem_of_zip_seq.
Qed.

End NpFacts.

(** ** [np.unique] with the index of the first occurrence *)

Module UniqueFacts.

Local Abbreviation leb_fst :=
  (fun p q : nat * nat => Nat.leb (fst p) (fst q)).
Local Abbreviation eqb_fst :=
  (fun p q : nat * nat => Nat.eqb (fst p) (fst q)).
(** The order of the pairs (value, index): by value, then by index. *)
Local Abbreviation pair_le :=
  (fun p q : nat * nat => fst p < fst q \/ (fst p = fst q /\ snd p <= snd q)).

Lemma zip_seq_sorted (a : list nat) (k : nat) :
  StronglySorted (fun p q : nat * nat => snd p < snd q)
    (zip a (seq k (length a)))
  /\ Forall (fun p : nat * nat => k <= snd p) (zip a (seq k (length a))).
Proof.
  revert k. induction a as [|x a IH]; intros k; simpl.
  - split; constructor.
  - destruct (IH (S k)) as [Hs Hk]. split.
    + constructor; [exact Hs|].
      eapply Forall_impl; [exact Hk|]. simpl. intros p Hp. lia.
    + constructor; [simpl; lia|].
      eapply Forall_impl; [exact Hk|]. simpl. intros p Hp. lia.
Qed.

Lemma insert_pair_sorted (p : nat * nat) (l : list (nat * nat)) :
  StronglySorted pair_le l ->
  Forall (fun q => snd p < snd q) l ->
  StronglySorted pair_le (Np.insert_sorted leb_fst p l).
Proof.
  induction 1 as [|z l Hs IH Hz]; intros Hp; simpl.
  - repeat constructor.
  - apply Forall_cons in Hp as [Hpz Hp].
    destruct (Nat.leb_spec (fst p) (fst z)) as [Hle|Hlt].
    + constructor; [by constructor|]. constructor; [lia|].
      apply Forall_forall. intros w Hw.
      pose proof (proj1 (Forall_forall _ _) Hz w Hw) as H1.
      pose proof (proj1 (Forall_forall _ _) Hp w Hw) as H2.
      simpl in *. lia.
    + constructor; [by apply IH|].
      apply Forall_forall. intros w Hw.
      apply NpFacts.elem_of_insert_sorted in Hw as [->|Hw]; [lia|].
      by apply (proj1 (Forall_forall _ _) Hz).
Qed.

Lemma sort_pairs_sorted (l : list (nat * nat)) :
  StronglySorted (fun p q : nat * nat => snd p < snd q) l ->
  StronglySorted pair_le (Np.sort leb_fst l).
Proof.
  induction 1 as [|p l Hs IH Hp]; simpl; [constructor|].
  apply insert_pair_sorted; [exact IH|].
  apply Forall_forall. intros q Hq. apply NpFacts.elem_of_sort in Hq.
  by apply (proj1 (Forall_forall _ _) Hp).
Qed.

(** What is kept of a sorted list of pairs: one pair for each value, the
    one with the least index, the values increasing. *)
Lemma dedup_from_sorted (prev : nat * nat) (l : list (nat * nat)) :
  StronglySorted pair_le (prev :: l) ->
  StronglySorted (fun p q : nat * nat => fst p < fst q)
    (prev :: Np.dedup_from eqb_fst prev l)
  /\ (forall z, z ∈ prev :: Np.dedup_from eqb_fst prev l -> z ∈ prev :: l)
  /\ (forall z w, z ∈ prev :: Np.dedup_from eqb_fst prev l -> w ∈ prev :: l ->
        fst w = fst z -> snd z <= snd w)
  /\ (forall w, w ∈ prev :: l ->
        exists z, z ∈ prev :: Np.dedup_from eqb_fst prev l /\ fst z = fst w).
Proof.
  revert prev. induction l as [|y l IH]; intros prev Hs; simpl.
  - split; [repeat constructor|]. split; [auto|]. split.
    + intros z w Hz Hw _. apply list_elem_of_singleton in Hz, Hw.
      subst. lia.
    + intros w Hw. eauto.
  - apply StronglySorted_inv in Hs as [Hs Hprev].
    apply Forall_cons in Hprev as [Hpy Hprev].
    pose proof Hs as Hs'. apply StronglySorted_inv in Hs' as [Hsl Hy].
    destruct (Nat.eqb_spec (fst prev) (fst y)) as [Heq|Hne].
    + destruct (IH prev) as (H1 & H2 & H3 & H4).
      { constructor; assumption. }
      split; [exact H1|]. split; [|split].
      * intros z Hz. apply H2 in Hz. set_solver.
      * intros z w Hz Hw Hfst.
        apply elem_of_cons in Hw as [->|Hw]; [by apply H3; [|left|]|].
        apply elem_of_cons in Hw as [->|Hw];
          [|apply H3; [assumption|by right|assumption]].
        apply elem_of_cons in Hz as [->|Hz]; [lia|].
        apply StronglySorted_inv in H1 as [_ H1].
        pose proof (proj1 (Forall_forall _ _) H1 z Hz). simpl in *. lia.
      * intros w Hw. apply elem_of_cons in Hw as [->|Hw]; [apply H4; by left|].
        apply elem_of_cons in Hw as [->|Hw]; [|apply H4; by right].
        exists prev. split; [by left|exact Heq].
    + destruct (IH y Hs) as (H1 & H2 & H3 & H4).
      assert (Hlt : fst prev < fst y) by lia.
      split; [|split; [|split]].
      * constructor; [exact H1|].
        apply Forall_forall. intros z Hz.
        apply elem_of_cons in Hz as [->|Hz]; [exact Hlt|].
        apply StronglySorted_inv in H1 as [_ H1].
        pose proof (proj1 (Forall_forall _ _) H1 z Hz). simpl in *. lia.
      * intros z Hz. apply elem_of_cons in Hz as [->|Hz]; [by left|].
        right. by apply H2.
      * intros z w Hz Hw Hfst.
        apply elem_of_cons in Hz as [->|Hz].
        -- apply elem_of_cons in Hw as [->|Hw]; [lia|].
           pose proof (proj1 (Forall_forall _ _)
                         (Forall_cons_2 _ _ _ Hpy Hprev) w Hw).
           simpl in *. lia.
        -- apply elem_of_cons in Hw as [->|Hw]; [|by apply H3].
           assert (fst y <= fst z).
           { apply elem_of_cons in Hz as [->|Hz]; [lia|].
             apply StronglySorted_inv in H1 as [_ H1].
             pose proof (proj1 (Forall_forall _ _) H1 z Hz). simpl in *. lia. }
           lia.
      * intros w Hw. apply elem_of_cons in Hw as [->|Hw].
        -- exists prev. split; [by left|reflexivity].
        -- destruct (H4 w Hw) as (z & Hz & Hfst). exists z.
           split; [by right|exact Hfst].
Qed.

(** [np.unique(a, return_index=True)]: the values of [a] in increasing
    order, each one with the index of its first occurrence. *)
Lemma unique_with_index_spec (a : list nat) :
  StronglySorted lt (Np.unique_with_index a).*1
  /\ (forall v i, (v, i) ∈ Np.unique_with_index a -> a !! i = Some v)
  /\ (forall v i j, (v, i) ∈ Np.unique_with_index a -> a !! j = Some v ->
        i <= j)
  /\ (forall v, v ∈ a -> exists i, (v, i) ∈ Np.unique_with_index a).
Proof.
  unfold Np.unique_with_index.
  pose proof (sort_pairs_sorted _ (proj1 (zip_seq_sorted a 0))) as Hs.
  assert (Hel : forall v i,
             (v, i) ∈ Np.sort leb_fst (zip a (seq 0 (length a)))
             <-> a !! i = Some v).
  { intros v i. rewrite NpFacts.elem_of_sort. apply NpFacts.elem_of_zip_seq. }
  destruct (Np.sort leb_fst (zip a (seq 0 (length a)))) as [|prev l].
  - simpl. split; [constructor|]. split; [set_solver|]. split; [set_solver|].
    intros v Hv. apply list_elem_of_lookup in Hv as [i Hi].
    apply Hel in Hi. set_solver.
  - simpl Np.dedup_adjacent.
    destruct (dedup_from_sorted prev l Hs) as (H1 & H2 & H3 & H4).
    split; [|split; [|split]].
    + clear -H1. induction H1 as [|p r Hs IH Hp]; [constructor|].
      rewrite fmap_cons. constructor; [exact IH|].
      apply Forall_fmap. exact Hp.
    + intros v i Hvi. apply Hel. by apply H2.
    + intros v i j Hvi Hj. apply Hel in Hj.
      apply (H3 (v, i) (v, j)); [assumption..|reflexivity].
    + intros v Hv. apply list_elem_of_lookup in Hv as [j Hj].
      apply Hel in Hj. destruct (H4 _ Hj) as ([v' i] & Hz & Hfst).
      simpl in Hfst. subst v'. eauto.
Qed.

Lemma index_of_elem (x : nat) (l : list nat) :
  x ∈ l -> exists k, Np.index_of x l = Some k /\ l !! k = Some x.
Proof.
  induction l as [|y l IH]; [by intros ?%elem_of_nil|].
  intros Hx. simpl. destruct (Nat.eqb_spec x y) as [->|Hne].
  - exists 0. split; reflexivity.
  - apply elem_of_cons in Hx as [?|Hx]; [congruence|].
    destruct (IH Hx) as (k & Hk & Hl). exists (S k). rewrite Hk.
    split; [reflexivity|exact Hl].
Qed.

Lemma index_of_lookup (x : nat) (l : list nat) (k : nat) :
  NoDup l -> l !! k = Some x -> Np.index_of x l = Some k.
Proof.
  intros Hnd. revert k. induction Hnd as [|y l Hy Hnd IH]; intros k Hk;
    [by rewrite lookup_nil in Hk|].
  simpl. destruct (Nat.eqb_spec x y) as [->|Hne].
  - destruct k as [|k]; [reflexivity|]. simpl in Hk.
    exfalso. apply Hy. by eapply list_elem_of_lookup_2.
  - destruct k as [|k]; simpl in Hk; [congruence|].
    by rewrite (IH k Hk).
Qed.

Lemma sorted_lt_NoDup (l : list nat) : StronglySorted lt l -> NoDup l.
Proof.
  induction 1 as [|x l Hs IH Hx]; constructor; [|exact IH].
  intros Hin. pose proof (proj1 (Forall_forall _ _) Hx x Hin). lia.
Qed.

End UniqueFacts.

(** ** Symmetries of a generating set that is not closed *)

Module SymmetryFacts.

Section Calculate.
Context {arr bytes : Type}.
Variable from_2dndarray : arr -> bytes.
Variable apply_source_permutation_coord_input :
  list arr -> nat -> list nat -> list arr.
Variable find_permutation : list bytes -> list bytes -> result (list nat).
Variable verbose : nat.
Variable generating_monomials : list arr.

Local Abbreviation swap_result :=
  (SymmetrySpec.swap_result from_2dndarray apply_source_permutation_coord_input
     find_permutation generating_monomials).
Local Abbreviation kept :=
  (SymmetrySpec.kept from_2dndarray apply_source_permutation_coord_input
     find_permutation generating_monomials).
Local Abbreviation dropped :=
  (SymmetrySpec.dropped from_2dndarray apply_source_permutation_coord_input
     find_permutation generating_monomials).

Lemma symmetry_step_eq (sp : nat * list nat) (syms : list (list nat))
  (warns : list string) :
  InflationSDP.symmetry_step from_2dndarray
    apply_source_permutation_coord_input find_permutation verbose
    generating_monomials (map from_2dndarray generating_monomials)
    sp (syms, warns)
  = match swap_result sp with
    | inr p => (syms ++ [p], warns)
    | inl _ => if Nat.ltb 0 verbose
               then (syms, warns ++ [InflationSDP.not_closed_warning])
               else (syms, warns)
    end.
Proof. reflexivity. Qed.

Lemma kept_cons (sp : nat * list nat) (sps : list (nat * list nat)) :
  kept (sp :: sps) = match swap_result sp with
                     | inr p => p :: kept sps
                     | inl _ => kept sps
                     end.
Proof.
  unfold SymmetrySpec.kept. cbn [omap]. simpl.
  by destruct (swap_result sp).
Qed.

Lemma dropped_cons (sp : nat * list nat) (sps : list (nat * list nat)) :
  dropped (sp :: sps) = match swap_result sp with
                        | inr _ => dropped sps
                        | inl _ => sp :: dropped sps
                        end.
Proof.
  unfold SymmetrySpec.dropped. rewrite filter_cons.
  unfold SymmetrySpec.is_dropped. by destruct (swap_result sp).
Qed.

Lemma collect_spec (sps : list (nat * list nat))
  (st : list (list nat) * list string) :
  foldl (fun st sp =>
           InflationSDP.symmetry_step from_2dndarray
             apply_source_permutation_coord_input find_permutation verbose
             generating_monomials (map from_2dndarray generating_monomials)
             sp st) st sps
  = (fst st ++ kept sps,
     snd st ++ (if Nat.ltb 0 verbose
                then replicate (length (dropped sps))
                       InflationSDP.not_closed_warning
                else [])).
Proof.
  revert st. induction sps as [|sp sps IH]; intros [syms warns].
  - simpl. destruct (Nat.ltb 0 verbose); by rewrite !app_nil_r.
  - cbn [foldl]. rewrite symmetry_step_eq, kept_cons, dropped_cons.
    destruct (swap_result sp) as [e|p].
    + destruct (Nat.ltb 0 verbose) eqn:Hv; rewrite IH, ?Hv; simpl.
      * rewrite <- app_assoc. reflexivity.
      * reflexivity.
    + rewrite IH. simpl. rewrite <- app_assoc. reflexivity.
Qed.

(** C7, as the code has it.  [_calculate_inflation_symmetries] always
    returns.  The symmetries it returns are exactly the permutations found
    for the swaps under which the generating set is closed: a swap for which
    [find_permutation] raises is dropped and the others are kept.  A warning
    is emitted for each dropped swap only when [verbose > 0]; with the
    default [verbose = 0] none is emitted. *)
Theorem not_closed_symmetries_are_dropped (inflation_levels : list nat) :
  let sps := InflationSDP.source_permutations inflation_levels in
  let run := InflationSDP._calculate_inflation_symmetries from_2dndarray
               apply_source_permutation_coord_input find_permutation verbose
               inflation_levels generating_monomials in
  (forall row, row ∈ fst run <->
               exists sp, sp ∈ sps /\ swap_result sp = inr row)
  /\ snd run = (if Nat.ltb 0 verbose
                then replicate (length (dropped sps))
                       InflationSDP.not_closed_warning
                else []).
Proof.
  intros sps run. subst run.
  unfold InflationSDP._calculate_inflation_symmetries,
    InflationSDP.collect_symmetries.
  rewrite collect_spec. simpl. fold sps. split; [|reflexivity].
  intros row. rewrite NpFacts.elem_of_unique_rows. unfold SymmetrySpec.kept.
  rewrite list_elem_of_omap. split.
  - intros (sp & Hin & Hsp). exists sp. split; [assumption|].
    destruct (swap_result sp); [discriminate|congruence].
  - intros (sp & Hin & Hsp). exists sp. split; [assumption|].
    by rewrite Hsp.
Qed.

End Calculate.

(** The claim as it is worded fails for the default verbosity: the set made
    of the unit and of the operator of the first copy is not closed under the
    swap of the two copies, the swap is dropped, and no warning is emitted. *)
Lemma no_warning_when_quiet :
  ~ ((exists sp, sp ∈ InflationSDP.source_permutations [2]
                 /\ raises (SymmetrySpec.swap_result
                              (fun m : list (list nat) => m)
                              (GeneralTools.apply_source_permutation_coord_input
                                 (FastNpa.to_canonical 1 (FastNpa.notcomm 1)))
                              GeneralTools.find_permutation
                              Example.open_generating_set sp))
     -> snd (Example.calculate_symmetries 0) <> []).
Proof.
  intros Hclaim. apply Hclaim; [|vm_compute; reflexivity].
  exists (0, [1; 0]). split.
  - vm_compute. right. left.
  - exists OtherError. vm_compute. reflexivity.
Qed.

(** With [verbose = 1] the same run emits the warning, once; in both runs
    only the identity is returned. *)
Lemma warning_when_verbose :
  Example.calculate_symmetries 1
  = ([[0; 1]], [InflationSDP.not_closed_warning])
  /\ Example.calculate_symmetries 0 = ([[0; 1]], []).
Proof. split; vm_compute; reflexivity. Qed.

End SymmetryFacts.

(** ** The registry of the LP engine *)

Module LPRegistryFacts.

Section Representative.
Context {K : Type} `{Countable K}.
Variable atoms_key : list (atom_obj (list nat)) -> K.
Variable name_of : list (atom_obj (list nat)) -> string.
Variable _nr_operators : nat.
Variable lexorder_symmetries : list (list nat).
Variable factorize_monomial_1d : list nat -> list (list nat).

Local Abbreviation registry := (@InflationLP.registry K _ _).
Local Abbreviation orbit_rows :=
  (InflationLP.orbit_rows lexorder_symmetries).
Local Abbreviation sorted_orbit :=
  (InflationLP.sorted_orbit lexorder_symmetries).
Local Abbreviation _AtomicMonomial :=
  (InflationLP._AtomicMonomial (K := K) _nr_operators lexorder_symmetries).

(** The sorted orbit holds the rows of the orbit, the greatest one last. *)
Lemma sorted_orbit_spec (key : list bool) (rows : list (list bool)) :
  orbit_rows key = inr rows ->
  exists sorted, sorted_orbit key = inr sorted
    /\ (forall row, row ∈ sorted <-> row ∈ rows)
    /\ (forall rep, last sorted = Some rep ->
          rep ∈ rows
          /\ forall row, row ∈ rows ->
               Np.lex_leb Np.bool_compare row rep = true).
Proof.
  intros Hrows. unfold InflationLP.sorted_orbit. rewrite Hrows. simpl.
  rewrite NpFacts.take_lexsort. eexists. split; [reflexivity|].
  set (leb := fun p q : list bool * nat =>
                Np.lex_leb Np.bool_compare (fst p) (fst q)).
  set (ps := zip rows (seq 0 (length rows))).
  assert (Hps : forall row, row ∈ (Np.sort leb ps).*1 <-> row ∈ rows).
  { intros row. rewrite list_elem_of_fmap. split.
    - intros ([r i] & -> & Hin). apply NpFacts.elem_of_sort in Hin.
      apply NpFacts.elem_of_zip_seq in Hin.
      apply list_elem_of_lookup. eauto.
    - intros Hin. apply list_elem_of_lookup in Hin as [i Hi].
      exists (row, i). split; [reflexivity|].
      apply NpFacts.elem_of_sort. by apply NpFacts.elem_of_zip_seq. }
  split; [exact Hps|].
  intros rep Hlast. rewrite fmap_last in Hlast.
  destruct (last (Np.sort leb ps)) as [[rep' i]|] eqn:Hl; [|discriminate].
  injection Hlast as ->.
  apply NpFacts.last_of_sort_is_max in Hl as [Hin Hmax].
  - split.
    + apply Hps. apply list_elem_of_fmap. exists (rep, i).
      split; [reflexivity|]. by apply NpFacts.elem_of_sort.
    + intros row Hrow. apply list_elem_of_lookup in Hrow as [j Hj].
      destruct (Hmax (row, j)) as [[= -> ->]|Hle].
      * by apply NpFacts.elem_of_zip_seq.
      * apply NpFacts.bool_lex_refl.
      * exact Hle.
  - intros p q. apply NpFacts.bool_lex_total.
  - intros p q t. apply NpFacts.bool_lex_trans.
Qed.

Lemma lookup_foldl_insert {V : Type} (cache : gmap (list bool) V) (v : V)
  (keys : list (list bool)) (k : list bool) :
  foldl (fun cache alt_key => <[alt_key := v]> cache) cache keys !! k
  = if decide (k ∈ keys) then Some v else cache !! k.
Proof.
  revert cache. induction keys as [|x keys IH]; intros cache; simpl.
  - reflexivity.
  - rewrite IH. destruct (decide (k = x)) as [->|Hne].
    + rewrite lookup_insert_eq.
      repeat case_decide; try reflexivity; exfalso; set_solver.
    + rewrite lookup_insert_ne by congruence.
      repeat case_decide; try reflexivity; exfalso; set_solver.
Qed.

(** C3, as the code has it.  On a miss of the cache, with more than one
    symmetry, [_AtomicMonomial] builds the atomic monomial from the row
    [mon_as_symboolvec[-1]], the last one of the orbit sorted by
    [np.lexsort]: the representative is a member of the orbit and every
    member of the orbit compares lexicographically no greater than it (with
    [False < True] and the first operator as the most significant position);
    it is the lex-maximum bitvector of the orbit, not the lex-minimum.  All
    the members of the orbit become keys of that one object. *)
Theorem lp_representative_is_lex_max (array1d : list nat) (key : list bool)
  (rows : list (list bool)) (r : registry) :
  InflationLP.to_boolvec _nr_operators array1d = inr key ->
  InflationLP.atomic_monomial_from_hash r !! key = None ->
  length lexorder_symmetries <> 1 ->
  orbit_rows key = inr rows ->
  rows <> [] ->
  exists rep r',
    _AtomicMonomial array1d r
    = inr (mkAtom (InflationLP.next_addr r) (InflationLP.flatnonzero rep), r')
    /\ rep ∈ rows
    /\ (forall row, row ∈ rows ->
          Np.lex_leb Np.bool_compare row rep = true)
    /\ (forall row, row ∈ rows ->
          InflationLP.atomic_monomial_from_hash r' !! row
          = Some (mkAtom (InflationLP.next_addr r)
                    (InflationLP.flatnonzero rep))).
Proof.
  intros Hkey Hmiss Hsyms Hrows Hne.
  destruct (sorted_orbit_spec key rows Hrows) as (sorted & Hsorted & Hin & Hmax).
  destruct (last sorted) as [rep|] eqn:Hlast.
  - destruct (Hmax rep eq_refl) as [Hrep Hle].
    exists rep. eexists. unfold InflationLP._AtomicMonomial.
    rewrite Hkey. simpl. rewrite Hmiss.
    destruct (Nat.eqb_spec (length lexorder_symmetries) 1) as [?|_];
      [contradiction|].
    rewrite Hsorted. simpl. unfold InflationLP.last_row. rewrite Hlast. simpl.
    split; [reflexivity|]. split; [exact Hrep|]. split; [exact Hle|].
    intros row Hrow. simpl. rewrite lookup_foldl_insert.
    case_decide as Hd; [reflexivity|]. exfalso. apply Hd. by apply Hin.
  - exfalso. apply last_None in Hlast. subst sorted.
    destruct rows as [|row rows]; [contradiction|].
    assert (Hrow : row ∈ @nil (list bool)) by (apply Hin; left).
    by apply elem_of_nil in Hrow.
Qed.

End Representative.

Section Ids.
Context {K : Type} `{Countable K}.
Variable atoms_key : list (atom_obj (list nat)) -> K.
Variable name_of : list (atom_obj (list nat)) -> string.
Variable _nr_operators : nat.
Variable lexorder_symmetries : list (list nat).
Variable factorize_monomial_1d : list nat -> list (list nat).

Local Abbreviation registry := (@InflationLP.registry K _ _).
Local Abbreviation _AtomicMonomial :=
  (InflationLP._AtomicMonomial (K := K) _nr_operators lexorder_symmetries).
Local Abbreviation atoms_of_factors :=
  (InflationLP.atoms_of_factors (K := K) _nr_operators lexorder_symmetries).
Local Abbreviation _monomial_from_atoms :=
  (InflationLP._monomial_from_atoms atoms_key name_of).
Local Abbreviation Monomial :=
  (InflationLP.Monomial atoms_key name_of _nr_operators lexorder_symmetries
     factorize_monomial_1d).
Local Abbreviation initialize_monomials :=
  (InflationLP.initialize_monomials atoms_key name_of _nr_operators
     lexorder_symmetries factorize_monomial_1d).

Local Abbreviation well_formed := (@LPRegistrySpec.well_formed K _ _).
Local Abbreviation same_compounds := (@LPRegistrySpec.same_compounds K _ _).

Local Ltac solve_same :=
  unfold LPRegistrySpec.same_compounds; simpl; repeat split; try reflexivity; try lia.

Lemma lp_atomic_same_compounds (array1d : list nat) (r r' : registry) a :
  _AtomicMonomial array1d r = inr (a, r') -> same_compounds r r'.
Proof.
  unfold InflationLP._AtomicMonomial.
  destruct (InflationLP.to_boolvec _ _) as [e|key]; simpl; [discriminate|].
  destruct (InflationLP.atomic_monomial_from_hash r !! key).
  { intros [= _ <-]. solve_same. }
  destruct (Nat.eqb _ 1).
  { intros [= _ <-]. solve_same. }
  destruct (InflationLP.sorted_orbit _ _) as [e|rows]; simpl; [discriminate|].
  destruct (InflationLP.last_row _) as [e|rep]; simpl; [discriminate|].
  intros [= _ <-]. solve_same.
Qed.

Lemma lp_atoms_same_compounds (fs : list (list nat)) (r r' : registry) atoms :
  atoms_of_factors fs r = inr (atoms, r') -> same_compounds r r'.
Proof.
  revert r atoms. induction fs as [|f fs IH]; intros r atoms; simpl.
  - intros [= _ <-]. solve_same.
  - destruct (Nat.eqb (length f) 0); [apply IH|].
    destruct (_AtomicMonomial f r) as [e|[a r1]] eqn:Ha; simpl; [discriminate|].
    destruct (atoms_of_factors fs r1) as [e|[rest r2]] eqn:Hr; simpl;
      [discriminate|].
    intros [= _ <-].
    apply lp_atomic_same_compounds in Ha as (H1 & H2 & H3 & H4).
    apply IH in Hr as (H1' & H2' & H3' & H4').
    unfold LPRegistrySpec.same_compounds. repeat split; try congruence. lia.
Qed.

(** [Monomial] writes the index of the compound it returns and leaves the
    other compounds alone. *)
Lemma lp_Monomial_spec (array1d : list nat) (i : Z) (r r' : registry) (mon : nat) :
  well_formed r -> (0 <= i)%Z ->
  Monomial array1d i r = inr (mon, r') ->
  well_formed r'
  /\ (exists c, InflationLP.heap r' !! mon = Some c /\ idx c = Some i)
  /\ (forall a, a <> mon ->
        InflationLP.heap r' !! a = InflationLP.heap r !! a).
Proof.
  intros [Hwf1 Hwf2] Hi. unfold InflationLP.Monomial.
  destruct (atoms_of_factors _ r) as [e|[atoms r1]] eqn:Hat; simpl;
    [discriminate|].
  apply lp_atoms_same_compounds in Hat as (Hc & Hf & Hh & Hn).
  unfold InflationLP._monomial_from_atoms.
  destruct (InflationLP.monomial_from_atoms r1 !! atoms_key atoms) as [a|] eqn:Hk.
  - intros [= <- <-]. simpl. rewrite Hc in Hk.
    destruct (Hwf1 _ _ Hk) as [c Hc'].
    split; [|split].
    + split; simpl.
      * intros k b Hb. rewrite Hc in Hb. rewrite lookup_alter.
        case_decide as Hd; [|rewrite Hh; eauto].
        subst b. rewrite Hh, Hc'. simpl. eauto.
      * intros b Hb. rewrite lookup_alter in Hb.
        case_decide as Hd.
        -- subst b. rewrite Hh, Hc' in Hb. apply Nat.lt_le_trans with
             (InflationLP.next_addr r); [|assumption].
           apply Hwf2. eauto.
        -- rewrite Hh in Hb. apply Nat.lt_le_trans with
             (InflationLP.next_addr r); [|assumption]. by apply Hwf2.
    + rewrite lookup_alter. case_decide; [|congruence].
      rewrite Hh, Hc'. simpl. eexists. split; [reflexivity|].
      unfold attach_idx. destruct (Z.leb_spec 0 i); [reflexivity|lia].
    + intros b Hb. rewrite lookup_alter_ne by congruence. by rewrite Hh.
  - intros [= <- <-]. simpl.
    assert (Hfresh : InflationLP.heap r !! InflationLP.next_addr r1 = None).
    { destruct (InflationLP.heap r !! InflationLP.next_addr r1) eqn:E;
        [|reflexivity].
      assert (InflationLP.next_addr r1 < InflationLP.next_addr r)
        by (apply Hwf2; eauto). lia. }
    split; [|split].
    + split; simpl.
      * intros k b Hb. rewrite lookup_alter.
        destruct (decide (atoms_key atoms = k)) as [<-|Hne].
        -- rewrite lookup_insert_eq in Hb. injection Hb as <-.
           case_decide; [|congruence]. rewrite lookup_insert_eq. simpl. eauto.
        -- rewrite lookup_insert_ne in Hb by assumption. rewrite Hc in Hb.
           destruct (Hwf1 _ _ Hb) as [c Hc'].
           case_decide as Hd.
           ++ subst b. rewrite lookup_insert_eq. simpl. eauto.
           ++ rewrite lookup_insert_ne by congruence. rewrite Hh. eauto.
      * intros b Hb. rewrite lookup_alter in Hb.
        case_decide as Hd; [subst b; lia|].
        rewrite lookup_insert_ne in Hb by congruence. rewrite Hh in Hb.
        apply Hwf2 in Hb. lia.
    + rewrite lookup_alter. case_decide; [|congruence].
      rewrite lookup_insert_eq. simpl. eexists. split; [reflexivity|].
      unfold attach_idx. destruct (Z.leb_spec 0 i); [reflexivity|lia].
    + intros b Hb. rewrite lookup_alter_ne by congruence.
      rewrite lookup_insert_ne by congruence. by rewrite Hh.
Qed.

(** The loop over the columns: the compound of column [j] ends with the
    index [i + j], unless a later column names the same compound. *)
Lemma lp_initialize_monomials_spec (cols : list (list bool)) (i : Z)
  (r r' : registry) (ms : list nat) :
  well_formed r -> (0 <= i)%Z ->
  initialize_monomials i cols r = inr (ms, r') ->
  well_formed r'
  /\ length ms = length cols
  /\ (forall a, a ∉ ms -> InflationLP.heap r' !! a = InflationLP.heap r !! a)
  /\ (forall j a, ms !! j = Some a ->
        (forall j', j < j' -> ms !! j' <> Some a) ->
        exists c, InflationLP.heap r' !! a = Some c
                  /\ idx c = Some (i + Z.of_nat j)%Z).
Proof.
  revert i r ms. induction cols as [|col cols IH]; intros i r ms Hwf Hi; simpl.
  - intros [= <- <-]. repeat split; try assumption; try apply Hwf.
    intros j a Hj. by rewrite lookup_nil in Hj.
  - destruct (Monomial _ i r) as [e|[mon r1]] eqn:Hm; simpl; [discriminate|].
    destruct (initialize_monomials (i + 1)%Z cols r1) as [e|[ms' r2]] eqn:Hr;
      simpl; [discriminate|].
    intros [= <- <-].
    apply lp_Monomial_spec in Hm as (Hwf1 & (c & Hc & Hidx) & Hother);
      [|assumption..].
    apply IH in Hr as (Hwf2 & Hlen & Hframe & Hrest); [|assumption|lia].
    split; [assumption|]. split; [simpl; congruence|]. split.
    + intros a Ha. apply not_elem_of_cons in Ha as [Hne Ha].
      rewrite (Hframe a Ha). by apply Hother.
    + intros [|j] a Hj Hlast; simpl in Hj.
      * injection Hj as <-. exists c. rewrite Hframe.
        -- split; [assumption|]. rewrite Hidx. f_equal. lia.
        -- intros Hin. apply list_elem_of_lookup in Hin as [j' Hj'].
           apply (Hlast (S j')); [lia|exact Hj'].
      * destruct (Hrest j a Hj) as (c' & Hc' & Hidx').
        -- intros j' Hlt. apply (Hlast (S j')). lia.
        -- exists c'. split; [assumption|]. rewrite Hidx'. f_equal. lia.
Qed.

Lemma NoDup_map_1 {A B : Type} (f : A -> B) (l : list A) :
  NoDup (map f l) -> NoDup l.
Proof.
  induction l as [|x l IH]; simpl; intros Hn; [constructor|].
  apply NoDup_cons in Hn as [Hx Hn]. apply NoDup_cons.
  split; [|auto]. intros Hin. apply Hx.
  apply list_elem_of_In, in_map, list_elem_of_In, Hin.
Qed.

Lemma lp_empty_well_formed : well_formed InflationLP.empty_registry.
Proof.
  split; simpl.
  - intros k a Hk. by rewrite lookup_empty in Hk.
  - intros a [c Hc]. by rewrite lookup_empty in Hc.
Qed.

(** After [__init__] the compound of column [j] has the index [j], the
    first column has the key of the unit, and the next free index is the
    number of columns plus one. *)
Lemma lp_init_ids (cols : list (list bool)) (One : nat) (monomials : list nat)
  (r : registry) :
  InflationLP.init atoms_key name_of _nr_operators lexorder_symmetries
    factorize_monomial_1d cols = inr (One, monomials, r) ->
  length monomials = length cols
  /\ (exists first, monomials !! 0 = Some first
        /\ InflationLP.key_at atoms_key r first
           = InflationLP.key_at atoms_key r One)
  /\ (forall j a, monomials !! j = Some a ->
        exists c, InflationLP.heap r !! a = Some c
                  /\ idx c = Some (Z.of_nat j))
  /\ InflationLP.first_free_idx r = Some (Z.of_nat (length cols) + 1)%Z.
Proof.
  unfold InflationLP.init.
  destruct (Monomial [] 1%Z _) as [e|[one r0]] eqn:Hone; simpl;
    [discriminate|].
  apply lp_Monomial_spec in Hone as (Hwf0 & _ & _);
    [|apply lp_empty_well_formed|lia].
  destruct (initialize_monomials 0%Z cols _) as [e|[ms r1]] eqn:Hms; simpl;
    [discriminate|].
  apply lp_initialize_monomials_spec in Hms as (Hwf1 & Hlen & _ & Hids); [| |lia].
  2:{ destruct Hwf0 as [_ Hwf0]. split; simpl; [|exact Hwf0].
      intros k a Hk. by rewrite lookup_empty in Hk. }
  destruct ms as [|first ms]; [discriminate|].
  destruct (bool_decide _) eqn:Hfirst; simpl; [|discriminate].
  destruct (bool_decide (NoDup _)) eqn:Hnodup; simpl; [|discriminate].
  intros [= <- <- <-]. simpl.
  apply bool_decide_eq_true in Hfirst, Hnodup.
  split; [exact Hlen|]. split; [exists first; split; [reflexivity|exact Hfirst]|].
  split; [|reflexivity].
  intros j a Hj. destruct (Hids j a Hj) as (c & Hc & Hidx).
  - intros j' Hlt Hj'.
    assert (Hnd : NoDup (first :: ms))
      by (eapply (NoDup_map_1 (InflationLP.key_at atoms_key _));
          exact Hnodup).
    pose proof (NoDup_lookup _ _ _ _ Hnd Hj Hj'). lia.
  - exists c. split; [exact Hc|]. rewrite Hidx; f_equal; lia.
Qed.

End Ids.

(** The claim as it is worded fails: with two operators and the symmetry
    that swaps them, the monomial made of the second operator has the
    bitvector [[False, True]]; the registry stores the representative
    [[True, False]], which is greater than that member of the orbit. *)
Lemma representative_is_not_lex_min :
  exists mon r' rep,
    InflationLP._AtomicMonomial (K := list (list nat)) 2 [[0; 1]; [1; 0]] [1]
      InflationLP.empty_registry = inr (mon, r')
    /\ InflationLP.to_boolvec 2 (atom_data mon) = inr rep
    /\ InflationLP.orbit_rows [[0; 1]; [1; 0]] [false; true]
       = inr [[false; true]; [true; false]]
    /\ ~ (forall row, row ∈ [[false; true]; [true; false]] ->
            Np.lex_leb Np.bool_compare rep row = true).
Proof.
  eexists. eexists. exists [true; false].
  split; [vm_compute; reflexivity|]. split; [reflexivity|].
  split; [reflexivity|].
  intros Hmin. specialize (Hmin [false; true] ltac:(left)). discriminate.
Qed.

(** The statement of the code at that input. *)
Lemma lp_representative_witness :
  exists rep r',
    InflationLP._AtomicMonomial (K := list (list nat)) 2 [[0; 1]; [1; 0]] [1]
      InflationLP.empty_registry
    = inr (mkAtom 0 (InflationLP.flatnonzero rep), r')
    /\ rep ∈ [[false; true]; [true; false]]
    /\ (forall row, row ∈ [[false; true]; [true; false]] ->
          Np.lex_leb Np.bool_compare row rep = true)
    /\ (forall row, row ∈ [[false; true]; [true; false]] ->
          InflationLP.atomic_monomial_from_hash r' !! row
          = Some (mkAtom 0 (InflationLP.flatnonzero rep))).
Proof.
  apply (lp_representative_is_lex_max (K := list (list nat)) 2
           [[0; 1]; [1; 0]] [1] [false; true] [[false; true]; [true; false]]
           InflationLP.empty_registry).
  - reflexivity.
  - reflexivity.
  - simpl. lia.
  - reflexivity.
  - discriminate.
Defined.

End LPRegistryFacts.

(** ** The table of the symmetrised moment matrix *)

Module TableFacts.

Lemma map_result_fst {A B C : Type} (f : A * B -> result (A * C))
  (l : list (A * B)) (ys : list (A * C)) :
  (forall p y, f p = inr y -> fst y = fst p) ->
  Np.map_result f l = inr ys -> ys.*1 = l.*1.
Proof.
  intros Hf. revert ys. induction l as [|p l IH]; intros ys; simpl.
  - by intros [= <-].
  - destruct (f p) as [e|y] eqn:Hp; simpl; [discriminate|].
    destruct (Np.map_result f l) as [e|ys'] eqn:Hl; simpl; [discriminate|].
    intros [= <-]. rewrite !fmap_cons, (Hf p y Hp). f_equal. by apply IH.
Qed.

Lemma filter_from_2 (k : nat) (rest : list nat) :
  Forall (fun x => 2 <= x) rest ->
  filter (fun p : nat * nat => Nat.leb 2 (snd p))
    (zip (seq k (length rest)) rest)
  = zip (seq k (length rest)) rest.
Proof.
  intros Hrest. revert k. induction Hrest as [|x rest Hx Hrest IH]; intros k;
    [reflexivity|].
  cbn [length seq zip_with]. rewrite filter_cons_True.
  - f_equal. apply IH.
  - cbn [snd]. apply Is_true_eq_left. apply Nat.leb_le. exact Hx.
Qed.

(** The keys of the table of the symmetrised moment matrix: when the
    indices 0 and 1 are representatives, the other representatives are
    numbered from 2 on, without a gap. *)
Lemma sym_dict_keys {A : Type} (unsymidx_to_canonical_mon_dict : gmap nat A)
  (old_representative_indices : list nat) (table : list (nat * A)) :
  StronglySorted lt old_representative_indices ->
  old_representative_indices !! 0 = Some 0 ->
  old_representative_indices !! 1 = Some 1 ->
  InflationSDP.sym_dict unsymidx_to_canonical_mon_dict
    old_representative_indices = inr table ->
  table.*1 = seq 2 (length old_representative_indices - 2).
Proof.
  intros Hs H0 H1 Hd.
  destruct old_representative_indices as [|x0 [|x1 rest]]; try discriminate.
  injection H0 as ->. injection H1 as ->.
  assert (Hrest : Forall (fun x => 2 <= x) rest).
  { apply StronglySorted_inv in Hs as [Hs _].
    apply StronglySorted_inv in Hs as [_ Hs].
    eapply Forall_impl; [exact Hs|]. simpl. intros x Hx. lia. }
  unfold InflationSDP.sym_dict in Hd.
  apply map_result_fst in Hd.
  2:{ intros p y. destruct (getitem _ _) as [e|m]; simpl; [discriminate|].
      by intros [= <-]. }
  rewrite Hd. cbn [length seq zip zip_with].
  rewrite filter_cons_False by (intros []).
  rewrite filter_cons_False by (intros []).
  change (zip_with pair (seq 2 (length rest)) rest)
    with (zip (seq 2 (length rest)) rest).
  rewrite (filter_from_2 2 rest Hrest).
  rewrite fst_zip by (rewrite length_seq; lia).
  f_equal. lia.
Qed.

End TableFacts.

(** ** The registry of the SDP engine *)

Module SDPRegistryFacts.

Section Ids.
Local Abbreviation arr := (list (list nat)).
Context {K : Type} `{Countable K}.
Variable atoms_key : list (atom_obj arr) -> K.
Variable name_of : list (atom_obj arr) -> string.
Variable to_canonical : arr -> arr.
Variable to_representative : arr -> arr.
Variable factorize_monomial : arr -> list arr.
Variable verbose : nat.
Variable _nr_properties : nat.

Local Abbreviation registry := (@InflationSDP.registry K _ _).
Local Abbreviation AtomicMonomial :=
  (InflationSDP.AtomicMonomial (K := K) to_canonical to_representative verbose).
Local Abbreviation atoms_of_factors :=
  (InflationSDP.atoms_of_factors (K := K) to_canonical to_representative
     verbose).
Local Abbreviation Monomial :=
  (InflationSDP.Monomial atoms_key name_of to_canonical to_representative
     factorize_monomial verbose).
Local Abbreviation monomials_of_table :=
  (InflationSDP.monomials_of_table atoms_key name_of to_canonical
     to_representative factorize_monomial verbose).
Local Abbreviation init :=
  (InflationSDP.init atoms_key name_of to_canonical to_representative
     factorize_monomial verbose _nr_properties).
Local Abbreviation well_formed := (@SDPRegistrySpec.well_formed K _ _).
Local Abbreviation same_compounds := (@SDPRegistrySpec.same_compounds K _ _).

Local Ltac solve_same :=
  unfold SDPRegistrySpec.same_compounds; simpl; repeat split;
  try reflexivity; try lia.

Lemma sdp_representative_same_compounds (mon : arr) (r r' : registry) a :
  InflationSDP.inflation_aware_to_ndarray_representative to_canonical
    to_representative verbose mon r = (a, r') ->
  same_compounds r r'.
Proof.
  unfold InflationSDP.inflation_aware_to_ndarray_representative,
    InflationSDP.set_canonsym, InflationSDP.warn.
  intros Heq. repeat case_match; simplify_eq; solve_same.
Qed.

Lemma sdp_atomic_same_compounds (array2d : arr) (r r' : registry) a :
  AtomicMonomial array2d r = (a, r') -> same_compounds r r'.
Proof.
  unfold InflationSDP.AtomicMonomial, InflationSDP.new_atom,
    InflationSDP.set_canonsym, InflationSDP.set_atomic.
  intros Heq.
  destruct (InflationSDP.atomic_monomial_from_hash_cache r !! _);
    [simplify_eq; solve_same|].
  destruct (InflationSDP.canonsym_ndarray_from_hash_cache r !! _).
  { destruct (InflationSDP.atomic_monomial_from_hash_cache r !! _);
      simplify_eq; solve_same. }
  destruct (_ || _).
  { simplify_eq. solve_same. }
  destruct (InflationSDP.inflation_aware_to_ndarray_representative _ _ _ _ _)
    as [rep r1] eqn:Hrep.
  apply sdp_representative_same_compounds in Hrep as (H1 & H2 & H3).
  simplify_eq. unfold SDPRegistrySpec.same_compounds. simpl.
  repeat split; try assumption. lia.
Qed.

Lemma sdp_atoms_same_compounds (fs : list arr) (r r' : registry) atoms :
  atoms_of_factors fs r = (atoms, r') -> same_compounds r r'.
Proof.
  revert r atoms. induction fs as [|f fs IH]; intros r atoms; simpl.
  - intros [= _ <-]. solve_same.
  - destruct (Nat.eqb (length f) 0); [apply IH|].
    destruct (AtomicMonomial f r) as [a r1] eqn:Ha.
    destruct (atoms_of_factors fs r1) as [rest r2] eqn:Hr.
    intros [= _ <-].
    apply sdp_atomic_same_compounds in Ha as (H1 & H2 & H3).
    apply IH in Hr as (H1' & H2' & H3').
    unfold SDPRegistrySpec.same_compounds. repeat split; try congruence. lia.
Qed.

(** [Monomial] writes the index of the compound it returns and leaves the
    other compounds alone. *)
Lemma sdp_Monomial_spec (array2d : arr) (i : Z) (r r' : registry) (mon : nat) :
  well_formed r -> (0 <= i)%Z ->
  Monomial array2d i r = (mon, r') ->
  well_formed r'
  /\ (exists c, InflationSDP.heap r' !! mon = Some c /\ idx c = Some i)
  /\ (forall a, a <> mon ->
        InflationSDP.heap r' !! a = InflationSDP.heap r !! a).
Proof.
  intros [Hwf1 Hwf2] Hi. unfold InflationSDP.Monomial.
  destruct (atoms_of_factors _ r) as [atoms r1] eqn:Hat.
  apply sdp_atoms_same_compounds in Hat as (Hc & Hh & Hn).
  unfold InflationSDP.monomial_from_list_of_atomic.
  destruct (InflationSDP.compound_monomial_from_tuple_of_atoms_cache r1 !! _)
    as [a|] eqn:Hk.
  - intros [= <- <-]. simpl. rewrite Hc in Hk.
    destruct (Hwf1 _ _ Hk) as [c Hc'].
    split; [|split].
    + split; simpl.
      * intros k b Hb. rewrite Hc in Hb. rewrite lookup_alter.
        case_decide as Hd; [|rewrite Hh; eauto].
        subst b. rewrite Hh, Hc'. simpl. eauto.
      * intros b Hb. rewrite lookup_alter in Hb.
        case_decide as Hd.
        -- subst b. rewrite Hh, Hc' in Hb. apply Nat.lt_le_trans with
             (InflationSDP.next_addr r); [|assumption].
           apply Hwf2. eauto.
        -- rewrite Hh in Hb. apply Nat.lt_le_trans with
             (InflationSDP.next_addr r); [|assumption]. by apply Hwf2.
    + rewrite lookup_alter. case_decide; [|congruence].
      rewrite Hh, Hc'. simpl. eexists. split; [reflexivity|].
      unfold attach_idx. destruct (Z.leb_spec 0 i); [reflexivity|lia].
    + intros b Hb. rewrite lookup_alter_ne by congruence. by rewrite Hh.
  - intros [= <- <-]. simpl.
    assert (Hfresh : InflationSDP.heap r !! InflationSDP.next_addr r1 = None).
    { destruct (InflationSDP.heap r !! InflationSDP.next_addr r1) eqn:E;
        [|reflexivity].
      assert (InflationSDP.next_addr r1 < InflationSDP.next_addr r)
        by (apply Hwf2; eauto). lia. }
    split; [|split].
    + split; simpl.
      * intros k b Hb. rewrite lookup_alter.
        match type of Hb with
        | <[?key := _]> _ !! _ = _ =>
            destruct (decide (key = k)) as [<-|Hne]
        end.
        -- rewrite lookup_insert_eq in Hb. injection Hb as <-.
           case_decide; [|congruence]. rewrite lookup_insert_eq. simpl. eauto.
        -- rewrite lookup_insert_ne in Hb by assumption. rewrite Hc in Hb.
           destruct (Hwf1 _ _ Hb) as [c Hc'].
           case_decide as Hd.
           ++ subst b. rewrite lookup_insert_eq. simpl. eauto.
           ++ rewrite lookup_insert_ne by congruence. rewrite Hh. eauto.
      * intros b Hb. rewrite lookup_alter in Hb.
        case_decide as Hd; [subst b; lia|].
        rewrite lookup_insert_ne in Hb by congruence. rewrite Hh in Hb.
        apply Hwf2 in Hb. lia.
    + rewrite lookup_alter. case_decide; [|congruence].
      rewrite lookup_insert_eq. simpl. eexists. split; [reflexivity|].
      unfold attach_idx. destruct (Z.leb_spec 0 i); [reflexivity|lia].
    + intros b Hb. rewrite lookup_alter_ne by congruence.
      rewrite lookup_insert_ne by congruence. by rewrite Hh.
Qed.

Lemma sdp_empty_well_formed : well_formed InflationSDP.empty_registry.
Proof.
  split; simpl.
  - intros k a Hk. by rewrite lookup_empty in Hk.
  - intros a [c Hc]. by rewrite lookup_empty in Hc.
Qed.

(** After [__init__] the unit has the index 1, and the zero monomial, a
    different compound, the index 0. *)
Lemma sdp_init_ids (Zero One : nat) (r : registry) :
  init = (Zero, One, r) ->
  well_formed r
  /\ (exists c, InflationSDP.heap r !! One = Some c /\ idx c = Some 1%Z)
  /\ (Zero <> One ->
      exists c, InflationSDP.heap r !! Zero = Some c /\ idx c = Some 0%Z).
Proof.
  unfold InflationSDP.init.
  destruct (Monomial _ 0%Z _) as [z r0] eqn:Hz.
  destruct (Monomial _ 1%Z r0) as [o r1] eqn:Ho.
  intros [= <- <- <-].
  apply sdp_Monomial_spec in Hz as (Hwf0 & (c0 & Hc0 & Hi0) & _);
    [|apply sdp_empty_well_formed|lia].
  apply sdp_Monomial_spec in Ho as (Hwf1 & Hone & Hother); [|assumption|lia].
  split; [assumption|]. split; [assumption|].
  intros Hne. exists c0. by rewrite (Hother z Hne).
Qed.

(** The monomials of the moment matrix: the compound of the entry [(k, v)]
    ends with the index [k], unless a later entry names the same compound. *)
Lemma sdp_monomials_of_table_spec (table : list (nat * arr)) (r r' : registry)
  (ms : list nat) :
  well_formed r ->
  monomials_of_table table r = (ms, r') ->
  well_formed r'
  /\ length ms = length table
  /\ (forall a, a ∉ ms -> InflationSDP.heap r' !! a = InflationSDP.heap r !! a)
  /\ (forall j a kv, ms !! j = Some a -> table !! j = Some kv ->
        (forall j', j < j' -> ms !! j' <> Some a) ->
        exists c, InflationSDP.heap r' !! a = Some c
                  /\ idx c = Some (Z.of_nat (fst kv))).
Proof.
  revert r ms. induction table as [|[k v] table IH]; intros r ms Hwf; simpl.
  - intros [= <- <-]. repeat split; try assumption; try apply Hwf.
    intros j a kv Hj. by rewrite lookup_nil in Hj.
  - destruct (Monomial v _ r) as [mon r1] eqn:Hm.
    destruct (monomials_of_table table r1) as [ms' r2] eqn:Hr.
    intros [= <- <-].
    apply sdp_Monomial_spec in Hm as (Hwf1 & (c & Hc & Hidx) & Hother);
      [|assumption|lia].
    apply IH in Hr as (Hwf2 & Hlen & Hframe & Hrest); [|assumption].
    split; [assumption|]. split; [simpl; congruence|]. split.
    + intros a Ha. apply not_elem_of_cons in Ha as [Hne Ha].
      rewrite (Hframe a Ha). by apply Hother.
    + intros [|j] a kv Hj Hkv Hlast; simpl in Hj, Hkv.
      * injection Hj as <-. injection Hkv as <-. exists c. rewrite Hframe.
        -- split; assumption.
        -- intros Hin. apply list_elem_of_lookup in Hin as [j' Hj'].
           apply (Hlast (S j')); [lia|exact Hj'].
      * apply (Hrest j a kv Hj Hkv).
        intros j' Hlt. apply (Hlast (S j')). lia.
Qed.

(** The monomials of the moment matrix are numbered from 2 on, in the order
    of the table, when 0 and 1 are representatives and the entries of the
    table are different compounds. *)
Lemma sdp_table_ids (unsymidx_to_canonical_mon_dict : gmap nat arr)
  (old_representative_indices : list nat) (table : list (nat * arr))
  (r r' : registry) (ms : list nat) :
  well_formed r ->
  StronglySorted lt old_representative_indices ->
  old_representative_indices !! 0 = Some 0 ->
  old_representative_indices !! 1 = Some 1 ->
  InflationSDP.sym_dict unsymidx_to_canonical_mon_dict
    old_representative_indices = inr table ->
  monomials_of_table table r = (ms, r') ->
  NoDup ms ->
  (forall a, a ∉ ms -> InflationSDP.heap r' !! a = InflationSDP.heap r !! a)
  /\ (forall j a, ms !! j = Some a ->
        exists c, InflationSDP.heap r' !! a = Some c
                  /\ idx c = Some (2 + Z.of_nat j)%Z).
Proof.
  intros Hwf Hs H0 H1 Hd Hms Hnd.
  pose proof (TableFacts.sym_dict_keys _ _ _ Hs H0 H1 Hd) as Hkeys.
  destruct (sdp_monomials_of_table_spec table r r' ms Hwf Hms)
    as (_ & Hlen & Hframe & Hids).
  split; [exact Hframe|]. intros j a Hj.
  assert (Hjt : j < length table)
    by (rewrite <- Hlen; by eapply lookup_lt_Some).
  destruct (lookup_lt_is_Some_2 table j Hjt) as [kv Hkv].
  destruct (Hids j a kv Hj Hkv) as (c & Hc & Hidx).
  { intros j' Hlt Hj'. pose proof (NoDup_lookup _ _ _ _ Hnd Hj Hj'). lia. }
  exists c. split; [exact Hc|]. rewrite Hidx. f_equal.
  assert (Hk : table.*1 !! j = Some (fst kv))
    by (by rewrite list_lookup_fmap, Hkv).
  rewrite Hkeys in Hk. apply lookup_seq in Hk as [-> _]. lia.
Qed.

End Ids.

Section Aliasing.
Local Abbreviation arr := (list (list nat)).
Context {K : Type} `{Countable K}.
Variable to_canonical : arr -> arr.
Variable to_representative : arr -> arr.
Variable verbose : nat.

Local Abbreviation registry := (@InflationSDP.registry K _ _).
Local Abbreviation AtomicMonomial :=
  (InflationSDP.AtomicMonomial (K := K) to_canonical to_representative verbose).
Local Abbreviation key := InflationSDP.from_2dndarray.

(** The branch of [AtomicMonomial] for a key that is in neither cache: the
    object returned is new, whatever the caches hold for the key of the
    representative, and both keys are pointed to it. *)
Lemma sdp_atomic_key_in_neither_cache (m rep : arr) (r : registry) :
  InflationSDP.atomic_monomial_from_hash_cache r !! key m = None ->
  InflationSDP.canonsym_ndarray_from_hash_cache r !! key m = None ->
  Nat.eqb (length m) 0 || InflationSDP.array_equiv_0 m = false ->
  to_canonical m = m ->
  to_representative m = rep ->
  exists r',
    AtomicMonomial m r = (mkAtom (InflationSDP.next_addr r) rep, r')
    /\ InflationSDP.next_addr r' = S (InflationSDP.next_addr r)
    /\ (forall k,
          InflationSDP.atomic_monomial_from_hash_cache r' !! k
          = if decide (k = key m \/ k = key rep)
            then Some (mkAtom (InflationSDP.next_addr r) rep)
            else InflationSDP.atomic_monomial_from_hash_cache r !! k)
    /\ (forall k,
          InflationSDP.canonsym_ndarray_from_hash_cache r' !! k
          = if decide (k = key m \/ k = key rep)
            then Some rep
            else InflationSDP.canonsym_ndarray_from_hash_cache r !! k).
Proof.
  intros Hat Hcs Hnz Hcan Hrep.
  unfold InflationSDP.AtomicMonomial. rewrite Hat, Hcs, Hnz.
  unfold InflationSDP.inflation_aware_to_ndarray_representative.
  rewrite Hcan, Hcs, Hrep.
  destruct (InflationSDP.canonsym_ndarray_from_hash_cache r !! key rep);
    destruct (Nat.ltb 0 verbose); simpl;
    (eexists; split; [reflexivity|]; simpl; split; [reflexivity|];
     split; intros k; case_decide as Hk;
     [ destruct Hk as [->| ->];
       [ destruct (decide (key rep = key m)) as [->|Hne];
         [by rewrite lookup_insert_eq
         |by rewrite lookup_insert_ne, lookup_insert_eq by exact Hne]
       | by rewrite lookup_insert_eq ]
     | by rewrite !lookup_insert_ne by (intros Heq; apply Hk; rewrite <- Heq; auto)
     | destruct Hk as [->| ->];
       [ destruct (decide (key rep = key m)) as [->|Hne];
         [by rewrite lookup_insert_eq
         |by rewrite lookup_insert_ne, lookup_insert_eq by exact Hne]
       | by rewrite lookup_insert_eq ]
     | by rewrite !lookup_insert_ne by (intros Heq; apply Hk; rewrite <- Heq; auto) ]).
Qed.

(** C1, in the SDP engine.  Two monomials [m] and [m'] of one orbit, whose
    representative is [m], are given to [AtomicMonomial] one after the other,
    the caches knowing neither of them.  The second call does not return the
    object of the first: it makes a second object with the same data and
    points both keys to it, so that the object the caller holds for [m] is no
    longer the one the registry returns for [m]. *)
Theorem sdp_atomic_monomial_of_symmetric_image_is_a_second_object
  (m m' : arr) (r : registry) :
  key m' <> key m ->
  InflationSDP.atomic_monomial_from_hash_cache r !! key m = None ->
  InflationSDP.canonsym_ndarray_from_hash_cache r !! key m = None ->
  InflationSDP.atomic_monomial_from_hash_cache r !! key m' = None ->
  InflationSDP.canonsym_ndarray_from_hash_cache r !! key m' = None ->
  Nat.eqb (length m) 0 || InflationSDP.array_equiv_0 m = false ->
  Nat.eqb (length m') 0 || InflationSDP.array_equiv_0 m' = false ->
  to_canonical m = m -> to_canonical m' = m' ->
  to_representative m = m -> to_representative m' = m ->
  exists a a' r1 r2,
    AtomicMonomial m r = (a, r1)
    /\ AtomicMonomial m' r1 = (a', r2)
    /\ atom_data a = m /\ atom_data a' = m
    /\ atom_addr a <> atom_addr a'
    /\ InflationSDP.atomic_monomial_from_hash_cache r1 !! key m = Some a
    /\ InflationSDP.atomic_monomial_from_hash_cache r2 !! key m = Some a'
    /\ InflationSDP.atomic_monomial_from_hash_cache r2 !! key m' = Some a'
    /\ AtomicMonomial m r2 = (a', r2).
Proof.
  intros Hne Hat Hcs Hat' Hcs' Hnz Hnz' Hcan Hcan' Hrep Hrep'.
  destruct (sdp_atomic_key_in_neither_cache m m r Hat Hcs Hnz Hcan Hrep)
    as (r1 & H1 & Hn1 & Ha1 & Hc1).
  assert (Hfresh : ~ (key m' = key m \/ key m' = key m)) by tauto.
  destruct (sdp_atomic_key_in_neither_cache m' m r1) as (r2 & H2 & Hn2 & Ha2 & _);
    try assumption.
  { rewrite Ha1. by rewrite decide_False. }
  { rewrite Hc1. by rewrite decide_False. }
  eexists _, _, r1, r2. split; [exact H1|]. split; [exact H2|].
  split; [reflexivity|]. split; [reflexivity|].
  split; [simpl; lia|].
  split; [rewrite Ha1; rewrite decide_True by auto; reflexivity|].
  assert (Hm : InflationSDP.atomic_monomial_from_hash_cache r2 !! key m
               = Some (mkAtom (InflationSDP.next_addr r1) m))
    by (rewrite Ha2; rewrite decide_True by auto; reflexivity).
  split; [exact Hm|].
  split; [rewrite Ha2; rewrite decide_True by auto; reflexivity|].
  unfold InflationSDP.AtomicMonomial. by rewrite Hm.
Qed.

End Aliasing.

(** The two objects on the engine with one source of inflation level two:
    the operator on the first copy, then its image under the swap. *)
Lemma sdp_atomic_monomial_second_object_witness :
  exists a a' r1 r2,
    Example.sdp_AtomicMonomial Example.on_first_copy
      InflationSDP.empty_registry = (a, r1)
    /\ Example.sdp_AtomicMonomial Example.on_second_copy r1 = (a', r2)
    /\ atom_data a = Example.on_first_copy
    /\ atom_data a' = Example.on_first_copy
    /\ atom_addr a <> atom_addr a'
    /\ InflationSDP.atomic_monomial_from_hash_cache r1
         !! InflationSDP.from_2dndarray Example.on_first_copy = Some a
    /\ InflationSDP.atomic_monomial_from_hash_cache r2
         !! InflationSDP.from_2dndarray Example.on_first_copy = Some a'
    /\ InflationSDP.atomic_monomial_from_hash_cache r2
         !! InflationSDP.from_2dndarray Example.on_second_copy = Some a'
    /\ Example.sdp_AtomicMonomial Example.on_first_copy r2 = (a', r2).
Proof.
  apply (sdp_atomic_monomial_of_symmetric_image_is_a_second_object
           (K := list (list (list nat))) Example.sdp_to_canonical
           (GeneralTools.to_representative Example.sdp_to_canonical [2]) 0
           Example.on_first_copy Example.on_second_copy
           InflationSDP.empty_registry);
    try reflexivity.
  vm_compute. discriminate.
Defined.

End SDPRegistryFacts.

(** ** The symmetrisation of the moment matrix *)

Module ApplyFacts.
Import ApplySpec.

Lemma map_result_total {A B : Type} (f : A -> result B) (g : A -> B)
  (l : list A) :
  (forall x, x ∈ l -> f x = inr (g x)) -> Np.map_result f l = inr (map g l).
Proof.
  induction l as [|x l IH]; intros Hf; simpl; [reflexivity|].
  rewrite (Hf x) by left. simpl. rewrite IH; [reflexivity|].
  intros y Hy. apply Hf. by right.
Qed.

Lemma lookup_map {A B : Type} (f : A -> B) (l : list A) (i : nat) :
  map f l !! i = f <$> l !! i.
Proof.
  revert i. induction l as [|x l IH]; intros [|i]; simpl; auto.
Qed.

Lemma item_in_range {A : Type} (a : list A) (k : nat) (d : A) :
  k < length a -> Np.item a k = inr (nth k a d).
Proof.
  intros Hk. unfold Np.item.
  destruct (lookup_lt_is_Some_2 a k Hk) as [x Hx]. rewrite Hx.
  by rewrite (nth_lookup_Some _ _ d _ Hx).
Qed.

(** Fancy indexing inside the array. *)
Lemma take_in_range {A : Type} (a : list A) (idx : list nat) (d : A) :
  Forall (fun k => k < length a) idx ->
  Np.take a idx = inr (map (fun k => nth k a d) idx).
Proof.
  intros Hidx. unfold Np.take. apply map_result_total.
  intros k Hk. apply item_in_range.
  by apply (proj1 (Forall_forall _ _) Hidx).
Qed.

Lemma at2_lookup (a : list (list nat)) (i j : nat) (row : list nat) (x : nat) :
  a !! i = Some row -> row !! j = Some x -> at2 a i j = x.
Proof.
  intros Hi Hj. unfold at2.
  rewrite (nth_lookup_Some _ _ [] _ Hi). by apply nth_lookup_Some.
Qed.

Lemma square_lookup (n : nat) (a : list (list nat)) (i j : nat) :
  square n a -> i < n -> j < n ->
  exists row, a !! i = Some row /\ length row = n
              /\ row !! j = Some (at2 a i j).
Proof.
  intros [Hlen Hrows] Hi Hj.
  assert (Hia : i < length a) by lia.
  destruct (lookup_lt_is_Some_2 a i Hia) as [row Hrow].
  pose proof (proj1 (Forall_lookup _ _) Hrows i row Hrow) as Hl.
  simpl in Hl.
  assert (Hjr : j < length row) by lia.
  destruct (lookup_lt_is_Some_2 row j Hjr) as [x Hx].
  exists row. split; [exact Hrow|]. split; [exact Hl|].
  by rewrite (at2_lookup _ _ _ _ _ Hrow Hx).
Qed.

Lemma img_lt (n : nat) (p : list nat) (i : nat) :
  index_map n p -> i < n -> img p i < n /\ p !! i = Some (img p i).
Proof.
  intros [Hlen Hp] Hi.
  destruct (lookup_lt_is_Some_2 p i ltac:(lia)) as [x Hx].
  unfold img. rewrite (nth_lookup_Some _ _ 0 _ Hx).
  split; [|exact Hx]. by apply (proj1 (Forall_lookup _ _) Hp i x).
Qed.

Lemma same_shape_square (n : nat) (a b : list (list nat)) :
  square n a -> square n b -> InflationSDP.same_shape a b = true.
Proof.
  intros [Hla Ha] [Hlb Hb]. unfold InflationSDP.same_shape.
  apply andb_true_iff. split; [apply Nat.eqb_eq; lia|].
  apply forallb_forall. intros [r1 r2] Hin. apply Nat.eqb_eq. simpl.
  apply list_elem_of_In, list_elem_of_lookup in Hin as [k Hk].
  apply lookup_zip_with_Some in Hk as (x & y & [= <- <-] & Hx & Hy).
  pose proof (proj1 (Forall_lookup _ _) Ha k r1 Hx) as H1.
  pose proof (proj1 (Forall_lookup _ _) Hb k r2 Hy) as H2.
  simpl in H1, H2. lia.
Qed.

(** One symmetry: every entry becomes the least of itself and of the entry
    the permutation sends it to. *)
Lemma symmetrize_step_spec (n : nat) (p : list nat) (S : list (list nat)) :
  index_map n p -> square n S ->
  exists S',
    InflationSDP.symmetrize_step p S = inr S'
    /\ square n S'
    /\ forall i j, i < n -> j < n ->
         at2 S' i j = Nat.min (at2 S i j) (at2 S (img p i) (img p j)).
Proof.
  intros Hp HS. pose proof Hp as [Hlen Hlt]. pose proof HS as [HlS Hrows].
  unfold InflationSDP.symmetrize_step, InflationSDP.permuted.
  rewrite (take_in_range S p []) by (by rewrite HlS).
  cbn [bind].
  rewrite (map_result_total _ (fun row => map (fun k => nth k row 0) p)).
  2:{ intros row Hrow. apply list_elem_of_fmap in Hrow as (k & -> & Hk).
      apply take_in_range.
      assert (Hkn : k < n) by (by apply (proj1 (Forall_forall _ _) Hlt)).
      destruct (lookup_lt_is_Some_2 S k ltac:(lia)) as [row Hrow].
      rewrite (nth_lookup_Some _ _ [] _ Hrow).
      by rewrite (proj1 (Forall_lookup _ _) Hrows k row Hrow). }
  cbn [bind].
  set (P := map _ (map _ p)).
  assert (HP : square n P).
  { split; [unfold P; by rewrite !length_map|].
    apply Forall_forall. intros row Hrow.
    apply list_elem_of_fmap in Hrow as (r & -> & _). by rewrite length_map. }
  assert (HPij : forall i j, i < n -> j < n ->
                   at2 P i j = at2 S (img p i) (img p j)).
  { intros i j Hi Hj.
    destruct (img_lt n p i Hp Hi) as [_ Hpi].
    destruct (img_lt n p j Hp Hj) as [_ Hpj].
    apply (at2_lookup P i j (map (fun k => nth k (nth (img p i) S []) 0) p)).
    - unfold P. rewrite !list_lookup_fmap, Hpi. reflexivity.
    - rewrite list_lookup_fmap, Hpj. reflexivity. }
  unfold InflationSDP.minimum. rewrite (same_shape_square n S P HS HP).
  eexists. split; [reflexivity|]. split.
  - destruct HP as [HlP HrowsP]. split; [rewrite length_zip_with; lia|].
    apply Forall_lookup. intros k row Hk.
    apply lookup_zip_with_Some in Hk as (x & y & -> & Hx & Hy).
    rewrite length_zip_with.
    rewrite (proj1 (Forall_lookup _ _) Hrows k x Hx).
    rewrite (proj1 (Forall_lookup _ _) HrowsP k y Hy). lia.
  - intros i j Hi Hj. rewrite <- (HPij i j Hi Hj).
    destruct (square_lookup n S i j HS Hi Hj) as (r1 & Hr1 & _ & Hx1).
    destruct (square_lookup n P i j HP Hi Hj) as (r2 & Hr2 & _ & Hx2).
    apply (at2_lookup _ i j (zip_with Nat.min r1 r2)).
    + rewrite lookup_zip_with, Hr1, Hr2. reflexivity.
    + rewrite lookup_zip_with, Hx1, Hx2. reflexivity.
Qed.

Lemma img_identity (n i : nat) : i < n -> img (seq 0 n) i = i.
Proof.
  intros Hi. unfold img. apply nth_lookup_Some. apply lookup_seq. lia.
Qed.

Lemma identity_index_map (n : nat) : index_map n (seq 0 n).
Proof.
  split; [apply length_seq|]. apply Forall_forall. intros x Hx.
  apply elem_of_seq in Hx. lia.
Qed.

Lemma img_compose (n : nat) (g p : list nat) (i : nat) :
  index_map n p -> i < n -> img (compose g p) i = img g (img p i).
Proof.
  intros Hp Hi. destruct (img_lt n p i Hp Hi) as [_ Hl].
  unfold compose, img at 1. apply nth_lookup_Some.
  by rewrite lookup_map, Hl.
Qed.

Lemma compose_index_map (n : nat) (g p : list nat) :
  index_map n g -> index_map n p -> index_map n (compose g p).
Proof.
  intros Hg [Hlen Hp]. split; [unfold compose; by rewrite length_map|].
  apply Forall_forall. intros x Hx. unfold compose in Hx.
  apply list_elem_of_In, in_map_iff in Hx as (y & <- & Hy).
  apply list_elem_of_In in Hy.
  apply (img_lt n g y Hg). by apply (proj1 (Forall_forall _ _) Hp).
Qed.

Lemma compose_identity (n : nat) (p : list nat) :
  index_map n p -> compose (seq 0 n) p = p.
Proof.
  intros [_ Hp]. unfold compose.
  induction Hp as [|x p Hx Hp IH]; simpl; [reflexivity|].
  by rewrite (img_identity n x Hx), IH.
Qed.

Local Abbreviation one_more := (fun (acc : list (list nat)) permutation =>
  acc ++ map (fun g => compose g permutation) acc).

Lemma products_grow (perms acc : list (list nat)) (g : list nat) :
  g ∈ acc -> g ∈ foldl one_more acc perms.
Proof.
  revert acc. induction perms as [|p perms IH]; intros acc Hg; simpl;
    [exact Hg|].
  apply IH. apply elem_of_app. by left.
Qed.

(** The identity and every listed permutation are among the products. *)
Lemma identity_in_products (n : nat) (perms : list (list nat)) :
  seq 0 n ∈ ordered_products n perms.
Proof. apply products_grow. by left. Qed.

Lemma listed_in_products (n : nat) (perms : list (list nat)) (p : list nat) :
  (forall q, q ∈ perms -> index_map n q) ->
  p ∈ perms -> p ∈ ordered_products n perms.
Proof.
  unfold ordered_products.
  assert (Hgen : forall acc, seq 0 n ∈ acc ->
            (forall q, q ∈ perms -> index_map n q) ->
            p ∈ perms -> p ∈ foldl one_more acc perms).
  { induction perms as [|q perms IH]; intros acc Hid Hmaps Hp;
      [by apply elem_of_nil in Hp|].
    simpl. apply elem_of_cons in Hp as [->|Hp].
    - apply products_grow. apply elem_of_app. right.
      apply list_elem_of_In, in_map_iff. exists (seq 0 n).
      split; [apply compose_identity, Hmaps; by left|].
      apply list_elem_of_In, Hid.
    - apply IH; [apply elem_of_app; by left| |exact Hp].
      intros r Hr. apply Hmaps. by right. }
  intros Hmaps Hp. apply Hgen; [by left|exact Hmaps|exact Hp].
Qed.

Section Symmetrise.
Variable n : nat.
Variable M : list (list nat).

(** The array is below the images of the matrix under the index maps
    composed so far, and every entry of the array is one of these images. *)
Local Abbreviation lower := (fun (acc : list (list nat)) T =>
  forall i j g, i < n -> j < n -> g ∈ acc ->
    at2 T i j <= at2 M (img g i) (img g j)).
Local Abbreviation attained := (fun (acc : list (list nat)) T =>
  forall i j, i < n -> j < n ->
    exists g, g ∈ acc /\ at2 T i j = at2 M (img g i) (img g j)).

Lemma symmetrize_loop (todo : list (list nat)) :
  forall (acc : list (list nat)) (T : list (list nat)),
    (forall p, p ∈ todo -> index_map n p) ->
    (forall g, g ∈ acc -> index_map n g) ->
    square n T -> lower acc T -> attained acc T ->
    exists T',
      for_each InflationSDP.symmetrize_step todo T = inr T'
      /\ square n T'
      /\ (forall g, g ∈ foldl one_more acc todo -> index_map n g)
      /\ lower (foldl one_more acc todo) T'
      /\ attained (foldl one_more acc todo) T'.
Proof.
  induction todo as [|p todo IH]; intros acc T Htodo Hacc HT Hlow Hatt.
  - exists T. simpl. split; [reflexivity|]. split; [exact HT|].
    split; [exact Hacc|]. split; [exact Hlow|exact Hatt].
  - assert (Hmap : index_map n p) by (apply Htodo; left).
    destruct (symmetrize_step_spec n p T Hmap HT) as (T1 & Hstep & HT1 & Hmin).
    assert (Hin : forall g, g ∈ one_more acc p ->
              g ∈ acc \/ exists g0, g0 ∈ acc /\ g = compose g0 p).
    { intros g Hg. apply elem_of_app in Hg as [Hg|Hg]; [by left|]. right.
      apply list_elem_of_In, in_map_iff in Hg as (g0 & <- & Hg0).
      apply list_elem_of_In in Hg0. by exists g0. }
    destruct (IH (one_more acc p) T1) as (T' & Hloop & HT' & Hacc' & Hlow' & Hatt').
    + intros q Hq. apply Htodo. by right.
    + intros g Hg. destruct (Hin g Hg) as [Hg0|(g0 & Hg0 & ->)];
        [by apply Hacc|]. apply compose_index_map; [by apply Hacc|exact Hmap].
    + exact HT1.
    + intros i j g Hi Hj Hg. rewrite (Hmin i j Hi Hj).
      destruct (img_lt n p i Hmap Hi) as [Hpi _].
      destruct (img_lt n p j Hmap Hj) as [Hpj _].
      destruct (Hin g Hg) as [Hg0|(g0 & Hg0 & ->)].
      * pose proof (Hlow i j g Hi Hj Hg0). lia.
      * rewrite (img_compose n g0 p i Hmap Hi), (img_compose n g0 p j Hmap Hj).
        pose proof (Hlow _ _ g0 Hpi Hpj Hg0). lia.
    + intros i j Hi Hj. rewrite (Hmin i j Hi Hj).
      destruct (img_lt n p i Hmap Hi) as [Hpi _].
      destruct (img_lt n p j Hmap Hj) as [Hpj _].
      destruct (Nat.min_spec (at2 T i j) (at2 T (img p i) (img p j)))
        as [[_ ->]|[_ ->]].
      * destruct (Hatt i j Hi Hj) as (g & Hg & ->).
        exists g. split; [apply elem_of_app; by left|reflexivity].
      * destruct (Hatt _ _ Hpi Hpj) as (g & Hg & ->).
        exists (compose g p). split.
        -- apply elem_of_app. right.
           apply list_elem_of_In, in_map_iff. exists g.
           split; [reflexivity|apply list_elem_of_In, Hg].
        -- by rewrite (img_compose n g p i Hmap Hi),
             (img_compose n g p j Hmap Hj).
    + exists T'. simpl. rewrite Hstep. cbn [bind].
      split; [exact Hloop|]. split; [exact HT'|].
      split; [exact Hacc'|]. split; [exact Hlow'|exact Hatt'].
Qed.

Variable group : list (list nat).
Hypothesis Hgroup : forall g, g ∈ group -> index_map n g.
Hypothesis Hclosed : closed n group.
Hypothesis Hinv : has_inverses n group.
Hypothesis Hequi : equivariant n M group.
Variable T : list (list nat).
Hypothesis Hlow : lower group T.
Hypothesis Hatt : attained group T.

(** The symmetrised array is the same on an entry and on its image. *)
Lemma symmetric_invariant (g : list nat) (i j : nat) :
  g ∈ group -> i < n -> j < n ->
  at2 T (img g i) (img g j) = at2 T i j.
Proof.
  intros Hg Hi Hj. pose proof (Hgroup g Hg) as Hmap.
  destruct (img_lt n g i Hmap Hi) as [Hgi _].
  destruct (img_lt n g j Hmap Hj) as [Hgj _].
  apply Nat.le_antisymm.
  - destruct (Hinv g Hg) as (g' & Hg' & Hback).
    destruct (Hatt i j Hi Hj) as (h & Hh & ->).
    destruct (Hclosed g' h Hg' Hh) as (t & Ht & Hcomp).
    pose proof (Hlow _ _ t Hgi Hgj Ht) as Hup.
    by rewrite (Hcomp _ Hgi), (Hcomp _ Hgj), (Hback i Hi), (Hback j Hj)
      in Hup.
  - destruct (Hatt _ _ Hgi Hgj) as (h & Hh & ->).
    destruct (Hclosed g h Hg Hh) as (t & Ht & Hcomp).
    pose proof (Hlow i j t Hi Hj Ht) as Hup.
    by rewrite (Hcomp i Hi), (Hcomp j Hj) in Hup.
Qed.

(** Two entries that hold one index of the matrix hold one index of the
    symmetrised array. *)
Lemma symmetric_by_value (i j k l : nat) :
  i < n -> j < n -> k < n -> l < n ->
  at2 M i j = at2 M k l -> at2 T i j = at2 T k l.
Proof.
  assert (Hle : forall i j k l, i < n -> j < n -> k < n -> l < n ->
                  at2 M i j = at2 M k l -> at2 T i j <= at2 T k l).
  { clear i j k l. intros i j k l Hi Hj Hk Hl Heq.
    destruct (Hatt k l Hk Hl) as (h & Hh & ->).
    rewrite <- (Hequi h Hh i j k l Hi Hj Hk Hl Heq). by apply Hlow. }
  intros Hi Hj Hk Hl Heq. apply Nat.le_antisymm; apply Hle; auto.
Qed.

(** The entry of the symmetrised array is the least index of the orbit. *)
Lemma symmetric_least (i j : nat) :
  i < n -> j < n -> least_of_orbit M group i j (at2 T i j).
Proof.
  intros Hi Hj. split; [intros g Hg; by apply Hlow|by apply Hatt].
Qed.

End Symmetrise.

End ApplyFacts.

Module OrbitFacts.
Import ApplySpec.

Lemma square_same_rows (n : nat) (M S : list (list nat)) :
  square n M -> square n S ->
  Forall2 (fun a b : list nat => length a = length b) M S.
Proof.
  intros [HlM HM] [HlS HS]. apply Forall2_same_length_lookup_2.
  - lia.
  - intros i a b Ha Hb.
    pose proof (proj1 (Forall_lookup _ _) HM i a Ha) as H1.
    pose proof (proj1 (Forall_lookup _ _) HS i b Hb) as H2.
    simpl in H1, H2. lia.
Qed.

(** A position of the flattened matrix is an entry of the matrix, and the
    same entry of any array of the same shape. *)
Lemma concat_lookup_shape (M T : list (list nat)) (pos v : nat) :
  Forall2 (fun a b : list nat => length a = length b) M T ->
  concat M !! pos = Some v ->
  exists i j, i < length M /\ j < length (nth i M [])
              /\ at2 M i j = v /\ concat T !! pos = Some (at2 T i j).
Proof.
  intros HF. revert pos. induction HF as [|a b M T Hab HF IH]; intros pos;
    simpl; [by rewrite lookup_nil|].
  destruct (Nat.lt_ge_cases pos (length a)) as [Hlt|Hge].
  - rewrite lookup_app_l by exact Hlt. intros Hv.
    exists 0, pos. split; [simpl; lia|]. split; [exact Hlt|].
    split; [by apply nth_lookup_Some|].
    rewrite lookup_app_l by lia.
    assert (Hb : pos < length b) by lia.
    destruct (lookup_lt_is_Some_2 b pos Hb) as [x Hx].
    rewrite Hx. f_equal. symmetry. by apply nth_lookup_Some.
  - rewrite lookup_app_r by exact Hge. intros Hv.
    destruct (IH _ Hv) as (i & j & Hi & Hj & Hat & HT).
    exists (S i), j. split; [simpl; lia|]. split; [exact Hj|].
    split; [exact Hat|]. rewrite lookup_app_r by lia.
    rewrite <- Hab. exact HT.
Qed.

Lemma at2_in_concat (n : nat) (M : list (list nat)) (i j : nat) :
  square n M -> i < n -> j < n -> at2 M i j ∈ concat M.
Proof.
  intros HM Hi Hj.
  destruct (ApplyFacts.square_lookup n M i j HM Hi Hj) as (row & Hrow & _ & Hx).
  apply list_elem_of_In, in_concat. exists row.
  split; apply list_elem_of_In; by eapply list_elem_of_lookup_2.
Qed.

Lemma foldl_min_least (m : nat) (l : list nat) :
  Forall (fun x => m <= x) l -> foldl Nat.min m l = m.
Proof.
  induction 1 as [|x l Hx Hl IH]; simpl; [reflexivity|].
  by rewrite Nat.min_l.
Qed.

Lemma np_min_seq (lowest count : nat) :
  0 < count -> InflationSDP.np_min (seq lowest count) = inr lowest.
Proof.
  destruct count as [|count]; [lia|]. intros _. simpl. f_equal.
  apply foldl_min_least. apply Forall_forall. intros x Hx.
  apply elem_of_seq in Hx. lia.
Qed.

Lemma fst_snd_eq (l : list (nat * nat)) :
  (forall p, p ∈ l -> fst p = snd p) -> l.*1 = l.*2.
Proof.
  induction l as [|p l IH]; intros Hl; [reflexivity|].
  rewrite !fmap_cons, (Hl p) by left. f_equal. apply IH.
  intros q Hq. apply Hl. by right.
Qed.

Lemma map_result_returns {A B : Type} (f : A -> result B) (l : list A) :
  (forall x, x ∈ l -> exists y, f x = inr y) ->
  exists ys, Np.map_result f l = inr ys.
Proof.
  induction l as [|x l IH]; intros Hf; simpl; [eauto|].
  destruct (Hf x) as [y ->]; [by left|]. simpl.
  destruct IH as [ys ->]; [intros z Hz; apply Hf; by right|].
  simpl. eauto.
Qed.

(** *** The loop that follows the orbits *)

Section Follow.
Variable orbits : list nat.
Hypothesis orbits_le : forall v, v < length orbits -> nth v orbits 0 <= v.
Hypothesis orbits_idem :
  forall v, v < length orbits ->
    nth (nth v orbits 0) orbits 0 = nth v orbits 0.

Lemma orbits_lookup (v : nat) :
  v < length orbits -> orbits !! v = Some (nth v orbits 0).
Proof.
  intros Hv. destruct (lookup_lt_is_Some_2 orbits v Hv) as [x Hx].
  by rewrite (nth_lookup_Some _ _ 0 _ Hx).
Qed.

Lemma follow_fixed (fuel w : nat) :
  2 <= fuel -> w < length orbits -> nth w orbits 0 = w ->
  InflationSDP.follow fuel orbits w 0 = Some (inr w).
Proof.
  intros Hfuel Hw Hfix. destruct fuel as [|[|fuel]]; try lia.
  assert (Hitem : Np.item orbits w = inr w)
    by (unfold Np.item; by rewrite (orbits_lookup w Hw), Hfix).
  cbn [InflationSDP.follow]. rewrite Hitem.
  destruct (Nat.eqb w 0); [reflexivity|]. by rewrite Hitem, Nat.eqb_refl.
Qed.

(** With orbits that already point to their representatives the loop
    leaves the array as it is. *)
Lemma follow_all_fixed (fuel : nat) (keys : list nat) :
  2 <= fuel -> Forall (fun k => k < length orbits) keys ->
  InflationSDP.follow_all fuel keys orbits = Some (inr orbits).
Proof.
  intros Hfuel. induction 1 as [|key keys Hkey Hkeys IH]; simpl;
    [reflexivity|].
  unfold Np.item. rewrite (orbits_lookup key Hkey).
  rewrite follow_fixed; [| exact Hfuel | | by apply orbits_idem].
  2:{ pose proof (orbits_le key Hkey). lia. }
  rewrite list_insert_id by (by apply orbits_lookup). exact IH.
Qed.

(** [np.unique] on such orbits: a representative is first met at its own
    position, which is what the assertion of the code checks. *)
Lemma unique_orbits_positions :
  (Np.unique_with_index orbits).*1 = (Np.unique_with_index orbits).*2.
Proof.
  destruct (UniqueFacts.unique_with_index_spec orbits) as (_ & HA & HC & _).
  apply fst_snd_eq. intros [v i] Hp. simpl.
  pose proof (HA v i Hp) as Hi.
  assert (Hlt : i < length orbits) by (by eapply lookup_lt_Some).
  rewrite (orbits_lookup i Hlt) in Hi. injection Hi as Hi.
  pose proof (orbits_le i Hlt) as Hle. rewrite Hi in Hle.
  assert (Hv : v < length orbits) by lia.
  assert (Hfix : orbits !! v = Some v).
  { rewrite (orbits_lookup v Hv). f_equal. rewrite <- Hi.
    by apply orbits_idem. }
  pose proof (HC v i v Hp Hfix). lia.
Qed.

(** The new index of an old one: the position of its representative among
    the representatives. *)
Lemma unique_inverse_lookup (v : nat) :
  v < length orbits ->
  exists k,
    nth v (Np.unique_inverse orbits) 0 = k
    /\ (Np.unique_with_index orbits).*1 !! k = Some (nth v orbits 0).
Proof.
  intros Hv. unfold Np.unique_inverse.
  destruct (UniqueFacts.unique_with_index_spec orbits) as (_ & _ & _ & HB).
  destruct (HB (nth v orbits 0)) as [i Hi].
  { eapply list_elem_of_lookup_2. by apply orbits_lookup. }
  destruct (UniqueFacts.index_of_elem (nth v orbits 0)
              (Np.unique_with_index orbits).*1) as (k & Hk & Hl).
  { apply list_elem_of_fmap. by exists (nth v orbits 0, i). }
  exists k. split; [|exact Hl].
  apply nth_lookup_Some.
  by rewrite ApplyFacts.lookup_map, (orbits_lookup v Hv); simpl; rewrite Hk.
Qed.

End Follow.

(** *** The orbits read from the symmetrised array *)

Section Orbits.
Variable n : nat.
Variables M T : list (list nat).
Variables lowest count : nat.
Hypothesis HM : square n M.
Hypothesis HT : square n T.
Hypothesis Hgap : no_gap M lowest count.
Hypothesis Hval :
  forall i j k l, i < n -> j < n -> k < n -> l < n ->
    at2 M i j = at2 M k l -> at2 T i j = at2 T k l.

Local Abbreviation where_it_matters_flat :=
  ((Np.unique_with_index (concat M)).*2).
Local Abbreviation picked :=
  (map (fun k => nth k (concat T) 0) where_it_matters_flat).
Local Abbreviation orbits := (seq 0 lowest ++ picked).

Lemma values_in_range (v : nat) :
  v ∈ concat M -> lowest <= v < lowest + count.
Proof.
  intros Hv.
  destruct (UniqueFacts.unique_with_index_spec (concat M))
    as (_ & _ & _ & HB).
  destruct (HB v Hv) as [i Hi].
  assert (Hin : v ∈ (Np.unique_with_index (concat M)).*1)
    by (apply list_elem_of_fmap; by exists (v, i)).
  rewrite Hgap in Hin. apply elem_of_seq in Hin. lia.
Qed.

Lemma position_entry (v pos : nat) :
  (v, pos) ∈ Np.unique_with_index (concat M) ->
  exists i j, i < n /\ j < n /\ at2 M i j = v
              /\ concat T !! pos = Some (at2 T i j).
Proof.
  intros Hp.
  destruct (UniqueFacts.unique_with_index_spec (concat M))
    as (_ & HA & _ & _).
  destruct (concat_lookup_shape M T pos v (square_same_rows n M T HM HT)
              (HA v pos Hp)) as (i & j & Hi & Hj & Hat & Hpos).
  destruct HM as [HlM Hrows].
  assert (Hjn : j < n).
  { destruct (lookup_lt_is_Some_2 M i Hi) as [row Hrow].
    pose proof (proj1 (Forall_lookup _ _) Hrows i row Hrow) as Hl.
    simpl in Hl. rewrite (nth_lookup_Some _ _ [] _ Hrow) in Hj. lia. }
  exists i, j. split; [lia|]. by repeat split.
Qed.

Lemma take_picked :
  Np.take (concat T) where_it_matters_flat = inr picked.
Proof.
  apply ApplyFacts.take_in_range. apply Forall_forall. intros pos Hpos.
  apply list_elem_of_fmap in Hpos as ([v pos'] & -> & Hp). simpl.
  destruct (position_entry v pos' Hp) as (i & j & _ & _ & _ & Hl).
  by eapply lookup_lt_Some.
Qed.

Lemma orbits_length : length orbits = lowest + count.
Proof.
  rewrite length_app, length_seq, length_map, length_fmap.
  rewrite <- (length_fmap fst), Hgap, length_seq. reflexivity.
Qed.

Lemma orbits_absent (v : nat) : v < lowest -> nth v orbits 0 = v.
Proof.
  intros Hv. apply nth_lookup_Some.
  rewrite lookup_app_l by (by rewrite length_seq).
  apply lookup_seq. lia.
Qed.

Lemma orbits_value (v : nat) :
  lowest <= v < lowest + count ->
  exists i j, i < n /\ j < n /\ at2 M i j = v
              /\ nth v orbits 0 = at2 T i j.
Proof.
  intros Hv.
  assert (Hk : (Np.unique_with_index (concat M)).*1 !! (v - lowest) = Some v).
  { rewrite Hgap. apply lookup_seq. lia. }
  apply list_lookup_fmap_Some in Hk as ([v' pos] & Hfst & Hu).
  simpl in Hfst. subst v'.
  destruct (position_entry v pos) as (i & j & Hi & Hj & Hat & Hpos).
  { by eapply list_elem_of_lookup_2. }
  exists i, j. split; [exact Hi|]. split; [exact Hj|]. split; [exact Hat|].
  apply nth_lookup_Some.
  rewrite lookup_app_r by (rewrite length_seq; lia).
  rewrite length_seq, ApplyFacts.lookup_map, list_lookup_fmap, Hu. simpl.
  f_equal. by apply nth_lookup_Some.
Qed.

Lemma orbits_entry (i j : nat) :
  i < n -> j < n ->
  lowest <= at2 M i j < lowest + count
  /\ nth (at2 M i j) orbits 0 = at2 T i j.
Proof.
  intros Hi Hj.
  pose proof (values_in_range _ (at2_in_concat n M i j HM Hi Hj)) as Hr.
  split; [exact Hr|].
  destruct (orbits_value _ Hr) as (k & l & Hk & Hl & Hat & ->).
  by apply Hval.
Qed.

End Orbits.

End OrbitFacts.

(** *** The symmetries of several sources *)

Module SourcesFacts.
Import ApplySpec SourcesSpec.

Lemma index_map_ext (n : nat) (a b : list nat) :
  length a = n -> length b = n ->
  (forall i, i < n -> img a i = img b i) -> a = b.
Proof.
  intros Ha Hb Hab. apply (nth_ext a b 0 0); [lia|].
  intros i Hi. apply Hab. lia.
Qed.

Lemma compose_assoc (n : nat) (a b c : list nat) :
  index_map n b -> index_map n c ->
  compose (compose a b) c = compose a (compose b c).
Proof.
  intros Hb [_ Hc]. unfold compose. rewrite map_map.
  apply map_ext_in. intros x Hx.
  refine (ApplyFacts.img_compose n a b x Hb _).
  apply (proj1 (Forall_forall _ _) Hc). by apply list_elem_of_In.
Qed.

Lemma compose_id_r (n : nat) (p : list nat) :
  index_map n p -> compose p (seq 0 n) = p.
Proof.
  intros Hp. apply (index_map_ext n).
  - unfold compose. by rewrite length_map, length_seq.
  - apply Hp.
  - intros i Hi.
    rewrite (ApplyFacts.img_compose n) by
      (apply ApplyFacts.identity_index_map || exact Hi).
    by rewrite ApplyFacts.img_identity.
Qed.

Lemma product_index_map (n : nat) (bs : list (list nat)) :
  Forall (index_map n) bs -> index_map n (product_of n bs).
Proof.
  induction 1 as [|b bs Hb _ IH]; simpl;
    [apply ApplyFacts.identity_index_map|].
  by apply ApplyFacts.compose_index_map.
Qed.

Lemma product_onto (n : nat) (bs : list (list nat)) (t : list nat) :
  Forall (index_map n) bs -> index_map n t ->
  foldr compose t bs = compose (product_of n bs) t.
Proof.
  intros Hbs Ht. induction Hbs as [|b bs Hb Hbs IH]; simpl.
  - by rewrite ApplyFacts.compose_identity.
  - rewrite IH. symmetry. apply (compose_assoc n); [|exact Ht].
    by apply product_index_map.
Qed.

Lemma product_app (n : nat) (bs1 bs2 : list (list nat)) :
  Forall (index_map n) bs1 -> Forall (index_map n) bs2 ->
  product_of n (bs1 ++ bs2)
  = compose (product_of n bs1) (product_of n bs2).
Proof.
  intros H1 H2. unfold product_of at 1. rewrite foldr_app.
  apply product_onto; [exact H1|]. by apply product_index_map.
Qed.

(** An index map that commutes with every factor commutes with the
    product. *)
Lemma commutes_compose (n : nat) (x b : list nat) :
  index_map n x -> index_map n b -> commutes_with n x b ->
  compose x b = compose b x.
Proof.
  intros Hx Hb Hc. apply (index_map_ext n).
  - unfold compose. rewrite length_map. apply Hb.
  - unfold compose. rewrite length_map. apply Hx.
  - intros i Hi. rewrite !(ApplyFacts.img_compose n) by assumption.
    by apply Hc.
Qed.

Lemma commutes_product (n : nat) (x : list nat) (bs : list (list nat)) :
  index_map n x -> Forall (index_map n) bs ->
  Forall (commutes_with n x) bs ->
  compose x (product_of n bs) = compose (product_of n bs) x.
Proof.
  intros Hx Hbs Hc. induction Hbs as [|b bs Hb Hbs IH]; simpl.
  - rewrite (compose_id_r n) by exact Hx.
    by rewrite ApplyFacts.compose_identity.
  - apply Forall_cons in Hc as [Hcb Hc].
    pose proof (product_index_map n bs Hbs) as HP.
    rewrite <- (compose_assoc n) by assumption.
    rewrite (commutes_compose n x b) by assumption.
    rewrite (compose_assoc n) by assumption.
    rewrite IH by exact Hc.
    symmetry. by apply (compose_assoc n).
Qed.

Lemma commutes_with_sym (n : nat) (x b : list nat) :
  commutes_with n x b -> commutes_with n b x.
Proof. intros Hc i Hi. symmetry. by apply Hc. Qed.

Lemma group_compose (n : nat) (G : list (list nat)) (p q : list nat) :
  group_of_index_maps n G -> p ∈ G -> q ∈ G -> compose q p ∈ G.
Proof.
  intros (_ & Hmaps & Hclosed & _) Hp Hq.
  destruct (Hclosed p q Hp Hq) as (t & Ht & Himg).
  assert (t = compose q p) as <-; [|exact Ht].
  apply (index_map_ext n).
  - by apply Hmaps.
  - unfold compose. rewrite length_map. by apply Hmaps.
  - intros i Hi. rewrite (ApplyFacts.img_compose n) by auto. by apply Himg.
Qed.

Lemma one_of_each_maps (n : nat) (bs : list (list nat))
  (groups : list (list (list nat))) :
  Forall (group_of_index_maps n) groups -> one_of_each bs groups ->
  Forall (index_map n) bs.
Proof.
  intros Hg Hbs. induction Hbs as [|b G bs groups Hb Hbs IH];
    [constructor|].
  apply Forall_cons in Hg as [(_ & Hmaps & _) Hg].
  constructor; [by apply Hmaps|by apply IH].
Qed.

Lemma one_of_each_commutes (n : nat) (x : list nat) (G0 : list (list nat))
  (bs : list (list nat)) (groups : list (list (list nat))) :
  one_of_each bs groups -> x ∈ G0 ->
  Forall (fun G => commute n G0 G \/ commute n G G0) groups ->
  Forall (commutes_with n x) bs.
Proof.
  intros Hbs Hx Hc. induction Hbs as [|b G bs groups Hb Hbs IH];
    [constructor|].
  apply Forall_cons in Hc as [Hc0 Hc]. constructor; [|by apply IH].
  destruct Hc0 as [Hc0|Hc0]; [by apply Hc0|].
  apply commutes_with_sym. by apply Hc0.
Qed.

Lemma identities_of_each (n : nat) (groups : list (list (list nat))) :
  Forall (group_of_index_maps n) groups ->
  one_of_each (replicate (length groups) (seq 0 n)) groups
  /\ product_of n (replicate (length groups) (seq 0 n)) = seq 0 n.
Proof.
  induction 1 as [|G groups (Hid & _) _ [IH1 IH2]];
    [split; [constructor|reflexivity]|].
  cbn [length replicate]. split; [by constructor|].
  change (compose (seq 0 n)
            (product_of n (replicate (length groups) (seq 0 n))) = seq 0 n).
  rewrite IH2.
  apply ApplyFacts.compose_identity, ApplyFacts.identity_index_map.
Qed.

(** The product of one index map of each source, followed by one more index
    map of some source, is again such a product. *)
Lemma product_times_listed (n : nat) (groups : list (list (list nat)))
  (bs : list (list nat)) (x : list nat) (G : list (list nat)) :
  Forall (group_of_index_maps n) groups -> pairwise_commute n groups ->
  one_of_each bs groups -> G ∈ groups -> x ∈ G ->
  exists bs', one_of_each bs' groups
              /\ product_of n bs' = compose (product_of n bs) x.
Proof.
  intros Hg Hc Hbs. revert Hg Hc.
  induction Hbs as [|b G0 bs groups Hb Hbs IH]; intros Hg Hc HG Hx;
    [by apply elem_of_nil in HG|].
  pose proof (one_of_each_maps n bs groups (Forall_inv_tail Hg) Hbs) as Hmaps.
  pose proof (product_index_map n bs Hmaps) as HP.
  apply Forall_cons in Hg as [HG0 Hg]. destruct Hc as [Hc0 Hc].
  assert (Hbm : index_map n b) by (by apply HG0).
  apply elem_of_cons in HG as [->|HG].
  - assert (Hxm : index_map n x) by (by apply HG0).
    exists (compose b x :: bs). split.
    + constructor; [by apply (group_compose n)|exact Hbs].
    + change (compose (compose b x) (product_of n bs)
              = compose (compose b (product_of n bs)) x).
      rewrite !(compose_assoc n) by assumption. f_equal.
      apply commutes_product; [exact Hxm|exact Hmaps|].
      apply (one_of_each_commutes n x G0 bs groups Hbs Hx).
      eapply Forall_impl; [exact Hc0|]. intros G' HG'. by left.
  - destruct (IH Hg Hc HG Hx) as (bs' & Hbs' & Hprod).
    assert (Hxm : index_map n x).
    { apply (proj1 (Forall_forall _ _) Hg G HG). exact Hx. }
    exists (b :: bs'). split; [by constructor|].
    change (compose b (product_of n bs')
            = compose (compose b (product_of n bs)) x).
    rewrite Hprod. symmetry. by apply (compose_assoc n).
Qed.

Lemma one_of_each_listed (bs : list (list nat))
  (groups : list (list (list nat))) :
  one_of_each bs groups ->
  Forall (fun b => exists G, G ∈ groups /\ b ∈ G) bs.
Proof.
  induction 1 as [|b G bs groups Hb _ IH]; constructor.
  - exists G. split; [by left|exact Hb].
  - eapply Forall_impl; [exact IH|].
    intros b' (G' & HG' & Hb'). exists G'. split; [by right|exact Hb'].
Qed.

Lemma in_product_index_map (n : nat) (groups : list (list (list nat)))
  (t : list nat) :
  Forall (group_of_index_maps n) groups -> in_product n groups t ->
  index_map n t.
Proof.
  intros Hg (bs & Hbs & ->). apply product_index_map.
  by apply (one_of_each_maps n bs groups).
Qed.

(** The index maps composed by one pass are products of one index map of
    each source. *)
Lemma products_are_products_of_sources (n : nat)
  (groups : list (list (list nat))) (perms : list (list nat)) (t : list nat) :
  symmetries_of_sources n groups perms ->
  t ∈ ordered_products n perms -> in_product n groups t.
Proof.
  intros (Hg & Hc & Hperms). unfold ordered_products.
  assert (Hgen : forall l acc,
            (forall p, p ∈ l -> exists G, G ∈ groups /\ p ∈ G) ->
            (forall g, g ∈ acc -> in_product n groups g) ->
            forall g, g ∈ foldl (fun acc permutation =>
                                   acc ++ map (fun g => compose g permutation)
                                            acc) acc l ->
                      in_product n groups g).
  { induction l as [|x l IH]; intros acc Hl Hacc g Hin; [by apply Hacc|].
    simpl in Hin. refine (IH _ _ _ g Hin).
    { intros p Hp. apply Hl. by right. }
    intros g' Hg'. apply elem_of_app in Hg' as [Hg'|Hg']; [by apply Hacc|].
    apply list_elem_of_fmap in Hg' as (g0 & -> & Hg0).
    destruct (Hacc g0 Hg0) as (bs & Hbs & ->).
    destruct (Hl x ltac:(by left)) as (G & HG & Hx).
    destruct (product_times_listed n groups bs x G Hg Hc Hbs HG Hx)
      as (bs' & Hbs' & Hprod).
    exists bs'. split; [exact Hbs'|by symmetry]. }
  apply Hgen.
  - intros p Hp. by apply Hperms.
  - intros g Hin. apply list_elem_of_singleton in Hin as ->.
    destruct (identities_of_each n groups Hg) as [H1 H2].
    eexists. split; [exact H1|by symmetry].
Qed.

(** Products of one index map of each source are closed under composition
    and under inverses. *)
Lemma product_times_product (n : nat) (groups : list (list (list nat)))
  (bs : list (list nat)) :
  Forall (group_of_index_maps n) groups -> pairwise_commute n groups ->
  Forall (fun b => exists G, G ∈ groups /\ b ∈ G) bs ->
  forall t, in_product n groups t ->
    in_product n groups (compose t (product_of n bs)).
Proof.
  intros Hg Hc Hbs.
  assert (Hmaps : Forall (index_map n) bs).
  { eapply Forall_impl; [exact Hbs|]. intros b (G & HG & Hb).
    by apply (proj1 (Forall_forall _ _) Hg G HG). }
  induction Hbs as [|b bs (G & HG & Hb) Hbs IH]; intros t Ht.
  - change (product_of n []) with (seq 0 n).
    rewrite (compose_id_r n); [exact Ht|].
    by apply (in_product_index_map n groups).
  - apply Forall_cons in Hmaps as [Hbm Hmaps].
    change (product_of n (b :: bs)) with (compose b (product_of n bs)).
    rewrite <- (compose_assoc n);
      [|exact Hbm|by apply product_index_map].
    apply IH; [exact Hmaps|].
    destruct Ht as (ts & Hts & ->).
    destruct (product_times_listed n groups ts b G Hg Hc Hts HG Hb)
      as (bs' & Hbs' & Hprod).
    exists bs'. split; [exact Hbs'|by symmetry].
Qed.

Lemma product_inverse (n : nat) (groups : list (list (list nat)))
  (bs : list (list nat)) :
  Forall (group_of_index_maps n) groups -> pairwise_commute n groups ->
  one_of_each bs groups ->
  exists bs', one_of_each bs' groups
              /\ forall i, i < n ->
                   img (product_of n bs') (img (product_of n bs) i) = i.
Proof.
  intros Hg Hc Hbs. revert Hg Hc.
  induction Hbs as [|b G bs groups Hb Hbs IH]; intros Hg Hc.
  - exists []. split; [constructor|]. intros i Hi.
    change (product_of n []) with (seq 0 n).
    by rewrite !ApplyFacts.img_identity by (rewrite ?ApplyFacts.img_identity; lia).
  - pose proof (one_of_each_maps n bs groups (Forall_inv_tail Hg) Hbs)
      as Hmaps.
    pose proof (product_index_map n bs Hmaps) as HP.
    apply Forall_cons in Hg as [HG Hg]. destruct Hc as [Hc0 Hc].
    destruct (IH Hg Hc) as (bs' & Hbs' & Hinv).
    pose proof (one_of_each_maps n bs' groups Hg Hbs') as Hmaps'.
    pose proof (product_index_map n bs' Hmaps') as HP'.
    pose proof HG as (_ & HGmaps & _ & HGinv).
    destruct (HGinv b Hb) as (binv & Hbinv & Hleft).
    assert (Hbm : index_map n b) by (by apply HGmaps).
    exists (binv :: bs'). split; [by constructor|].
    intros i Hi.
    change (product_of n (binv :: bs'))
      with (compose binv (product_of n bs')).
    change (product_of n (b :: bs)) with (compose b (product_of n bs)).
    destruct (ApplyFacts.img_lt n _ i HP Hi) as [HPi _].
    destruct (ApplyFacts.img_lt n b _ Hbm HPi) as [Hbi _].
    rewrite (ApplyFacts.img_compose n _ _ i HP Hi).
    rewrite (ApplyFacts.img_compose n _ _ _ HP' Hbi).
    assert (Hcomm : compose b (product_of n bs')
                    = compose (product_of n bs') b).
    { apply commutes_product; [exact Hbm|exact Hmaps'|].
      apply (one_of_each_commutes n b G bs' groups Hbs' Hb).
      eapply Forall_impl; [exact Hc0|]. intros G' HG'. by left. }
    rewrite <- (ApplyFacts.img_compose n _ b _ Hbm HPi), <- Hcomm.
    rewrite (ApplyFacts.img_compose n _ _ _ HP' HPi).
    rewrite Hinv by exact Hi. by apply Hleft.
Qed.

Lemma pairwise_commute_tail (n : nat) (A B : list (list (list nat))) :
  pairwise_commute n (A ++ B) -> pairwise_commute n B.
Proof. induction A as [|G A IH]; [done|]. intros [_ HA]. by apply IH. Qed.

Lemma pairwise_commute_after (n : nat) (G : list (list nat))
  (A B : list (list (list nat))) :
  pairwise_commute n (A ++ G :: B) -> Forall (commute n G) B.
Proof. intros HA. by apply pairwise_commute_tail in HA as [HG _]. Qed.

Lemma pairwise_commute_before (n : nat) (G : list (list nat))
  (A B : list (list (list nat))) :
  pairwise_commute n (A ++ G :: B) -> Forall (fun G' => commute n G' G) A.
Proof.
  induction A as [|G' A IH]; [constructor|]. intros [HG' HA].
  constructor; [|by apply IH].
  apply (proj1 (Forall_forall _ _) HG'). apply elem_of_app. right. by left.
Qed.

Lemma tidy_split (n : nat) (bs1 bs2 : list (list nat)) (x : list nat) :
  tidy n (bs1 ++ x :: bs2) -> x <> seq 0 n ->
  (x ∉ bs1) /\ (x ∉ bs2) /\ tidy n (bs1 ++ seq 0 n :: bs2).
Proof.
  intros Ht Hx. induction bs1 as [|b bs1 IH].
  - destruct Ht as [[->|Hnot] Ht]; [done|].
    split; [apply not_elem_of_nil|]. split; [exact Hnot|].
    split; [by left|exact Ht].
  - destruct Ht as [Hb Ht]. destruct (IH Ht) as (H1 & H2 & H3).
    split; [|split; [exact H2|split; [|exact H3]]].
    + apply not_elem_of_cons. split; [|exact H1]. intros ->.
      destruct Hb as [Hb|Hb]; [done|]. apply Hb.
      apply elem_of_app. right. by left.
    + destruct Hb as [Hb|Hb]; [by left|].
      destruct (decide (b = seq 0 n)) as [->|Hne]; [by left|]. right.
      apply not_elem_of_app in Hb as [Hb1 Hb2].
      apply not_elem_of_cons in Hb2 as [_ Hb2].
      apply not_elem_of_app. split; [exact Hb1|].
      apply not_elem_of_cons. by split.
Qed.

(** A tidy choice among the listed index maps is reached by one pass over
    the list, in whatever order the list is. *)
Lemma tidy_product_in_products (n : nat) (groups : list (list (list nat))) :
  Forall (group_of_index_maps n) groups -> pairwise_commute n groups ->
  forall L bs,
    one_of_each bs groups ->
    Forall (fun b => b = seq 0 n \/ b ∈ L) bs -> tidy n bs ->
    product_of n bs ∈ ordered_products n L.
Proof.
  intros Hg Hc L. induction L as [|x L IH] using rev_ind;
    intros bs Hbs HL Ht.
  - assert (Hall : bs = replicate (length groups) (seq 0 n)).
    { clear Ht Hg Hc. induction Hbs as [|b G bs groups _ _ IHb];
        [reflexivity|].
      apply Forall_cons in HL as [[->|Hb] HL];
        [|by apply elem_of_nil in Hb].
      simpl. f_equal. by apply IHb. }
    rewrite Hall, (proj2 (identities_of_each n groups Hg)). by left.
  - unfold ordered_products. rewrite foldl_app. cbn [foldl].
    fold (ordered_products n L). apply elem_of_app.
    destruct (decide (x <> seq 0 n /\ x ∈ bs)) as [[Hx Hin]|Hno].
    + right. apply list_elem_of_split in Hin as (bs1 & bs2 & ->).
      destruct (tidy_split n bs1 bs2 x Ht Hx) as (Hx1 & Hx2 & Ht').
      apply Forall2_app_inv_l in Hbs as (Gs1 & Gs' & Hbs1 & Hbs' & ->).
      apply Forall2_cons_inv_l in Hbs' as (G & Gs2 & HxG & Hbs2 & ->).
      pose proof Hg as Hgall.
      apply Forall_app in Hg as [Hg1 Hg2].
      apply Forall_cons in Hg2 as [HG Hg2].
      pose proof (one_of_each_maps n bs1 Gs1 Hg1 Hbs1) as Hm1.
      pose proof (one_of_each_maps n bs2 Gs2 Hg2 Hbs2) as Hm2.
      pose proof (product_index_map n bs2 Hm2) as HP2.
      assert (Hxm : index_map n x) by (by apply HG).
      assert (Hidm : index_map n (seq 0 n))
        by apply ApplyFacts.identity_index_map.
      apply list_elem_of_fmap. exists (product_of n (bs1 ++ seq 0 n :: bs2)).
      split.
      * rewrite !(product_app n) by (try constructor; assumption).
        change (product_of n (x :: bs2)) with (compose x (product_of n bs2)).
        change (product_of n (seq 0 n :: bs2))
          with (compose (seq 0 n) (product_of n bs2)).
        rewrite ApplyFacts.compose_identity by exact HP2.
        rewrite (compose_assoc n) by assumption. f_equal.
        apply commutes_product; [exact Hxm|exact Hm2|].
        apply (one_of_each_commutes n x G bs2 Gs2 Hbs2 HxG).
        eapply Forall_impl;
          [exact (pairwise_commute_after n G Gs1 Gs2 Hc)|].
        intros G' HG'. by left.
      * apply IH; [| |exact Ht'].
        -- apply Forall2_app; [exact Hbs1|].
           constructor; [apply HG|exact Hbs2].
        -- apply Forall_app in HL as [HL1 HL2].
           apply Forall_cons in HL2 as [_ HL2].
           assert (Hkeep : forall l, x ∉ l ->
                     Forall (fun b => b = seq 0 n \/ b ∈ L ++ [x]) l ->
                     Forall (fun b => b = seq 0 n \/ b ∈ L) l).
           { intros l Hxl Hl. apply Forall_forall. intros b Hb.
             destruct (proj1 (Forall_forall _ _) Hl b Hb) as [->|Hin];
               [by left|].
             apply elem_of_app in Hin as [Hin|Hin]; [by right|].
             apply list_elem_of_singleton in Hin as ->. done. }
           apply Forall_app. split; [by apply Hkeep|].
           constructor; [by left|by apply Hkeep].
    + left. apply IH; [exact Hbs| |exact Ht].
      apply Forall_forall. intros b Hb.
      destruct (proj1 (Forall_forall _ _) HL b Hb) as [->|Hin]; [by left|].
      apply elem_of_app in Hin as [Hin|Hin]; [by right|].
      apply list_elem_of_singleton in Hin as ->.
      destruct (decide (x = seq 0 n)) as [->|Hne]; [by left|].
      exfalso. apply Hno. by split.
Qed.

Lemma tidy_or_repeated (n : nat) (bs : list (list nat)) :
  tidy n bs
  \/ exists l1 y l2 l3, bs = l1 ++ y :: l2 ++ y :: l3 /\ y <> seq 0 n.
Proof.
  induction bs as [|b bs [IH|(l1 & y & l2 & l3 & -> & Hy)]].
  - by left.
  - destruct (decide (b = seq 0 n)) as [Hb|Hb]; [left; split; auto|].
    destruct (decide (b ∈ bs)) as [Hin|Hin]; [|left; split; auto].
    right. apply list_elem_of_split in Hin as (l2 & l3 & ->).
    by exists [], b, l2, l3.
  - right. by exists (b :: l1), y, l2, l3.
Qed.

(** Every product of one index map of each source is the product of a tidy
    choice: an index map chosen for two sources is replaced by its square
    for the first and the identity for the second. *)
Lemma tidy_choice (n : nat) (groups : list (list (list nat))) :
  Forall (group_of_index_maps n) groups -> pairwise_commute n groups ->
  forall c bs,
    one_of_each bs groups ->
    length (filter (fun b => b <> seq 0 n) bs) <= c ->
    exists bs', one_of_each bs' groups /\ tidy n bs'
                /\ product_of n bs' = product_of n bs.
Proof.
  intros Hg Hc c. induction c as [|c IH]; intros bs Hbs Hcount;
    (destruct (tidy_or_repeated n bs)
       as [Ht|(l1 & y & l2 & l3 & -> & Hy)]; [by exists bs|]);
    rewrite filter_app, (filter_cons_True _ y) in Hcount by exact Hy;
    rewrite filter_app, (filter_cons_True _ y) in Hcount by exact Hy;
    rewrite length_app in Hcount; cbn [length] in Hcount;
    rewrite length_app in Hcount; cbn [length] in Hcount; [lia|].
  apply Forall2_app_inv_l in Hbs as (Gs1 & Gs' & Hbs1 & Hbs' & ->).
  apply Forall2_cons_inv_l in Hbs' as (G & Gs'' & HyG & Hbs'' & ->).
  apply Forall2_app_inv_l in Hbs'' as (Gs2 & Gs' & Hbs2 & Hbs' & ->).
  apply Forall2_cons_inv_l in Hbs' as (G' & Gs3 & HyG' & Hbs3 & ->).
  pose proof Hg as Hgall.
  apply Forall_app in Hg as [Hg1 Hg]. apply Forall_cons in Hg as [HG Hg].
  apply Forall_app in Hg as [Hg2 Hg]. apply Forall_cons in Hg as [HG' Hg3].
  pose proof (one_of_each_maps n l1 Gs1 Hg1 Hbs1) as Hm1.
  pose proof (one_of_each_maps n l2 Gs2 Hg2 Hbs2) as Hm2.
  pose proof (one_of_each_maps n l3 Gs3 Hg3 Hbs3) as Hm3.
  pose proof (product_index_map n l2 Hm2) as HP2.
  pose proof (product_index_map n l3 Hm3) as HP3.
  assert (Hym : index_map n y) by (by apply HG).
  assert (Hidm : index_map n (seq 0 n))
    by apply ApplyFacts.identity_index_map.
  assert (Hyy : compose y y ∈ G) by (by apply (group_compose n)).
  assert (Hyym : index_map n (compose y y)) by (by apply HG).
  destruct (IH (l1 ++ compose y y :: l2 ++ seq 0 n :: l3))
    as (bs' & Hbs' & Ht' & Hprod).
  { apply Forall2_app; [exact Hbs1|]. constructor; [exact Hyy|].
    apply Forall2_app; [exact Hbs2|]. constructor; [apply HG'|exact Hbs3]. }
  { rewrite filter_app, length_app, filter_cons.
    rewrite filter_app, (filter_cons_False _ (seq 0 n)) by (by intros []).
    destruct (decide (compose y y <> seq 0 n));
      cbn [length]; rewrite length_app; lia. }
  exists bs'. split; [exact Hbs'|]. split; [exact Ht'|]. rewrite Hprod.
  rewrite !(product_app n l1) by
    (repeat first [assumption | apply Forall_app; split | constructor]).
  f_equal.
  change (product_of n (compose y y :: l2 ++ seq 0 n :: l3))
    with (compose (compose y y) (product_of n (l2 ++ seq 0 n :: l3))).
  change (product_of n (y :: l2 ++ y :: l3))
    with (compose y (product_of n (l2 ++ y :: l3))).
  rewrite !(product_app n l2) by (try constructor; assumption).
  change (product_of n (seq 0 n :: l3))
    with (compose (seq 0 n) (product_of n l3)).
  change (product_of n (y :: l3)) with (compose y (product_of n l3)).
  rewrite ApplyFacts.compose_identity by exact HP3.
  rewrite (compose_assoc n y y) by
    (try apply ApplyFacts.compose_index_map; assumption).
  f_equal.
  rewrite <- !(compose_assoc n) by assumption. f_equal.
  apply commutes_product; [exact Hym|exact Hm2|].
  apply (one_of_each_commutes n y G' l2 Gs2 Hbs2 HyG').
  apply pairwise_commute_tail in Hc. destruct Hc as [_ Hc].
  eapply Forall_impl; [exact (pairwise_commute_before n G' Gs2 Gs3 Hc)|].
  intros G0 HG0. by right.
Qed.

(** The index maps that one pass over the symmetries of the sources composes
    hold the composition of any two of them and an inverse of each: one pass
    is enough, in whatever order [np.unique] leaves the list. *)
Lemma products_of_sources_are_a_group (n : nat)
  (groups : list (list (list nat))) (perms : list (list nat)) :
  symmetries_of_sources n groups perms ->
  closed n (ordered_products n perms)
  /\ has_inverses n (ordered_products n perms).
Proof.
  intros Hs. pose proof Hs as (Hg & Hc & Hperms).
  assert (Hback : forall bs, one_of_each bs groups ->
            product_of n bs ∈ ordered_products n perms).
  { intros bs Hbs.
    destruct (tidy_choice n groups Hg Hc _ bs Hbs (Nat.le_refl _))
      as (bs' & Hbs' & Ht' & <-).
    apply (tidy_product_in_products n groups Hg Hc); [exact Hbs'| |exact Ht'].
    eapply Forall_impl; [exact (one_of_each_listed bs' groups Hbs')|].
    intros b HG. right. by apply Hperms. }
  split.
  - intros p q Hp Hq.
    apply (products_are_products_of_sources n groups perms _ Hs) in Hp, Hq.
    pose proof (in_product_index_map n groups p Hg Hp) as Hpm.
    destruct Hp as (bp & Hbp & ->).
    destruct (product_times_product n groups bp Hg Hc
                (one_of_each_listed bp groups Hbp) q Hq) as (bs & Hbs & Heq).
    exists (compose q (product_of n bp)).
    split; [rewrite Heq; by apply Hback|].
    intros i Hi. by apply (ApplyFacts.img_compose n).
  - intros p Hp.
    apply (products_are_products_of_sources n groups perms _ Hs) in Hp.
    destruct Hp as (bp & Hbp & ->).
    destruct (product_inverse n groups bp Hg Hc Hbp) as (bs' & Hbs' & Hinv).
    exists (product_of n bs'). split; [by apply Hback|exact Hinv].
Qed.

(** Index maps that act on the indices of the matrix compose to index maps
    that act on them. *)
Lemma equivariant_products (n : nat) (momentmatrix : list (list nat))
  (perms : list (list nat)) :
  (forall p, p ∈ perms -> index_map n p) ->
  equivariant n momentmatrix perms ->
  equivariant n momentmatrix (ordered_products n perms).
Proof.
  intros Hmaps He. unfold ordered_products.
  assert (Hgen : forall l acc,
            (forall p, p ∈ l -> p ∈ perms) ->
            (forall g, g ∈ acc -> index_map n g) ->
            equivariant n momentmatrix acc ->
            equivariant n momentmatrix
              (foldl (fun acc permutation =>
                        acc ++ map (fun g => compose g permutation) acc)
                 acc l)).
  { induction l as [|x l IH]; intros acc Hl Hacc Hinv; [exact Hinv|].
    simpl. assert (Hxm : index_map n x) by (apply Hmaps, Hl; by left).
    apply IH.
    - intros p Hp. apply Hl. by right.
    - intros g Hg. apply elem_of_app in Hg as [Hg|Hg]; [by apply Hacc|].
      apply list_elem_of_fmap in Hg as (g0 & -> & Hg0).
      apply ApplyFacts.compose_index_map; [by apply Hacc|exact Hxm].
    - intros g Hg i j k l' Hi Hj Hk Hl' Heq.
      apply elem_of_app in Hg as [Hg|Hg]; [by apply (Hinv g Hg)|].
      apply list_elem_of_fmap in Hg as (g0 & -> & Hg0).
      rewrite !(ApplyFacts.img_compose n) by assumption.
      apply (Hinv g0 Hg0); try (by apply (ApplyFacts.img_lt n x)).
      apply (He x (Hl x ltac:(by left))); assumption. }
  apply Hgen; [auto| |].
  - intros g Hg. apply list_elem_of_singleton in Hg as ->.
    apply ApplyFacts.identity_index_map.
  - intros g Hg i j k l Hi Hj Hk Hl Heq.
    apply list_elem_of_singleton in Hg as ->.
    by rewrite !ApplyFacts.img_identity.
Qed.

End SourcesFacts.

Module SymmetrisationFacts.
Import ApplySpec SourcesSpec.

Lemma at2_map (f : nat -> nat) (n : nat) (M : list (list nat)) (i j : nat) :
  square n M -> i < n -> j < n ->
  at2 (map (map f) M) i j = f (at2 M i j).
Proof.
  intros HM Hi Hj.
  destruct (ApplyFacts.square_lookup n M i j HM Hi Hj) as (row & Hrow & _ & Hx).
  apply (ApplyFacts.at2_lookup _ i j (map f row)).
  - by rewrite ApplyFacts.lookup_map, Hrow.
  - by rewrite ApplyFacts.lookup_map, Hx.
Qed.

Lemma least_of_orbit_unique (M group : list (list nat)) (i j w w' : nat) :
  least_of_orbit M group i j w -> least_of_orbit M group i j w' -> w = w'.
Proof.
  intros (H1 & g & Hg & Hw) (H1' & g' & Hg' & Hw'). apply Nat.le_antisymm.
  - rewrite Hw'. by apply H1.
  - rewrite Hw. by apply H1'.
Qed.


(** What the hypothesis on the list of symmetries is for.  The cyclic
    permutation of three columns alone is a list with neither the identity
    nor the square of the cycle, which [_calculate_inflation_symmetries]
    does not return; on it one pass leaves 0 at [(0, 0)] and 4 at [(1, 1)],
    the image of [(0, 0)].  With the three index maps of the cycle listed,
    the three entries of the diagonal take one index. *)
Lemma lone_cycle_is_not_symmetrised :
  (exists symmetric_arr unsym_idx_to_sym_idx symidx_to_canonical_mon_dict,
     InflationSDP._apply_inflation_symmetries 10 Example.nine_indices
       Example.nine_monomials [[1; 2; 0]] false
     = Some (inr (symmetric_arr, unsym_idx_to_sym_idx,
                  symidx_to_canonical_mon_dict))
     /\ symmetric_arr = [[0; 1; 2]; [3; 4; 5]; [1; 2; 0]]
     /\ at2 symmetric_arr (img [1; 2; 0] 0) (img [1; 2; 0] 0)
        <> at2 symmetric_arr 0 0)
  /\ (exists symmetric_arr unsym_idx_to_sym_idx symidx_to_canonical_mon_dict,
        InflationSDP._apply_inflation_symmetries 10 Example.nine_indices
          Example.nine_monomials [[0; 1; 2]; [1; 2; 0]; [2; 0; 1]] false
        = Some (inr (symmetric_arr, unsym_idx_to_sym_idx,
                     symidx_to_canonical_mon_dict))
        /\ symmetric_arr = [[0; 1; 2]; [2; 0; 1]; [1; 2; 0]]).
Proof.
  split.
  - eexists. eexists. eexists.
    split; [vm_compute; reflexivity|]. split; [reflexivity|].
    vm_compute. discriminate.
  - eexists. eexists. eexists.
    split; [vm_compute; reflexivity|]. reflexivity.
Qed.

Local Ltac listed H :=
  unfold Example.identity_and_swap in H;
  repeat (apply elem_of_cons in H as [->|H]); [| |by apply elem_of_nil in H].
Local Ltac one_listed :=
  first [ exists [0; 1]; split; [by left|];
          intros [|[|i]] Hi; [reflexivity|reflexivity|lia]
        | exists [1; 0]; split; [right; by left|];
          intros [|[|i]] Hi; [reflexivity|reflexivity|lia] ].


End SymmetrisationFacts.
(** ** The indices of the monomials *)

Module IdFacts.

Section Fill.
Context {K : Type} `{Countable K}.
Local Abbreviation registry := (@InflationSDP.registry K _ _).

(** The loop that fills the cache of the representatives writes that cache
    only. *)
Lemma fill_canonsym_same_compounds
  (unsymidx_to_unsym_monarray_dict : list (nat * list (list nat)))
  (orbits : list nat) (table : list (nat * list (list nat)))
  (r r1 : registry) :
  InflationSDP.fill_canonsym unsymidx_to_unsym_monarray_dict orbits table r
    = inr r1 ->
  InflationSDP.compound_monomial_from_tuple_of_atoms_cache r1
    = InflationSDP.compound_monomial_from_tuple_of_atoms_cache r
  /\ InflationSDP.heap r1 = InflationSDP.heap r
  /\ InflationSDP.next_addr r1 = InflationSDP.next_addr r
  /\ InflationSDP.atomic_monomial_from_hash_cache r1
     = InflationSDP.atomic_monomial_from_hash_cache r.
Proof.
  unfold InflationSDP.fill_canonsym.
  apply (for_each_invariant
           (fun t : registry =>
              InflationSDP.compound_monomial_from_tuple_of_atoms_cache t
              = InflationSDP.compound_monomial_from_tuple_of_atoms_cache r
              /\ InflationSDP.heap t = InflationSDP.heap r
              /\ InflationSDP.next_addr t = InflationSDP.next_addr r
              /\ InflationSDP.atomic_monomial_from_hash_cache t
                 = InflationSDP.atomic_monomial_from_hash_cache r));
    [|by repeat split].
  intros kv t t' Hx Ht.
  destruct (Np.item orbits (snd kv)); simpl in Hx; [discriminate|].
  destruct (getitem _ _); simpl in Hx; [discriminate|].
  injection Hx as <-. exact Ht.
Qed.

End Fill.

(** [np.unique] sorts: when 0 and 1 are values of the array of orbits they
    are the first two representatives. *)
Lemma first_two_representatives (orbits : list nat) :
  0 ∈ orbits -> 1 ∈ orbits ->
  StronglySorted lt (Np.unique_with_index orbits).*1
  /\ (Np.unique_with_index orbits).*1 !! 0 = Some 0
  /\ (Np.unique_with_index orbits).*1 !! 1 = Some 1.
Proof.
  intros H0 H1.
  destruct (UniqueFacts.unique_with_index_spec orbits) as (Hs & _ & _ & Hall).
  assert (Hin : forall v, v ∈ orbits -> v ∈ (Np.unique_with_index orbits).*1).
  { intros v Hv. destruct (Hall v Hv) as [i Hi].
    apply list_elem_of_fmap. by exists (v, i). }
  apply Hin in H0, H1. split; [exact Hs|].
  destruct ((Np.unique_with_index orbits).*1) as [|x l];
    [by apply elem_of_nil in H0|].
  apply StronglySorted_inv in Hs as [Hl Hx].
  assert (x = 0) as ->.
  { apply elem_of_cons in H0 as [->|H0]; [reflexivity|].
    pose proof (proj1 (Forall_forall _ _) Hx 0 H0). lia. }
  split; [reflexivity|].
  apply elem_of_cons in H1 as [H1|H1]; [discriminate|].
  destruct l as [|y l]; [by apply elem_of_nil in H1|].
  apply StronglySorted_inv in Hl as [_ Hy].
  apply Forall_cons in Hx as [Hxy _].
  apply elem_of_cons in H1 as [<-|H1]; [reflexivity|].
  pose proof (proj1 (Forall_forall _ _) Hy 1 H1). lia.
Qed.

(** C4, as the code has it.  In the SDP engine [__init__] gives the zero
    monomial the index 0 and the unit the index 1; [generate_relaxation]
    takes from [np.unique] on the array of orbits the representatives and
    the new index of every old one, fills the cache of the representatives
    and builds the monomials of the symmetrised moment matrix with the keys
    of its table for indices: these are numbered from 2 on without a gap, in
    the order of the table, when 0 and 1 are values of the array of orbits
    (they are representatives), and each monomial keeps its index, and the
    zero monomial and the unit theirs, when the monomials of the table are
    different compounds, different from these two.  In the LP engine the
    indices are those of the columns and start at 0: the compound of column
    [j] has the index [j], the first column is the unit, so the unit has the
    index 0 and the second column the index 1, and the monomials created
    later take their indices from the number of columns plus one. *)
Theorem zero_and_one_in_sdp_and_column_index_in_lp
  {K1 : Type} `{Countable K1} {K2 : Type} `{Countable K2}
  (sdp_atoms_key : list (atom_obj (list (list nat))) -> K1)
  (sdp_name_of : list (atom_obj (list (list nat))) -> string)
  (to_canonical to_representative : list (list nat) -> list (list nat))
  (factorize_monomial : list (list nat) -> list (list (list nat)))
  (verbose _nr_properties : nat)
  (lp_atoms_key : list (atom_obj (list nat)) -> K2)
  (lp_name_of : list (atom_obj (list nat)) -> string)
  (_nr_operators : nat) (lexorder_symmetries : list (list nat))
  (factorize_monomial_1d : list nat -> list (list nat))
  (Zero One : nat) (r r1 r' : InflationSDP.registry)
  (unsymidx_to_unsym_monarray_dict : list (nat * list (list nat)))
  (orbits : list nat)
  (symidx_to_sym_monarray_dict : list (nat * list (list nat)))
  (list_of_monomials : list nat)
  (cols : list (list bool)) (lp_One : nat) (monomials : list nat)
  (lp_r : InflationLP.registry) :
  InflationSDP.init sdp_atoms_key sdp_name_of to_canonical to_representative
    factorize_monomial verbose _nr_properties = (Zero, One, r) ->
  0 ∈ orbits -> 1 ∈ orbits ->
  InflationSDP.sym_dict (list_to_map unsymidx_to_unsym_monarray_dict)
    (Np.unique_with_index orbits).*1 = inr symidx_to_sym_monarray_dict ->
  InflationSDP.fill_canonsym unsymidx_to_unsym_monarray_dict
    (Np.unique_inverse orbits) symidx_to_sym_monarray_dict r = inr r1 ->
  InflationSDP.monomials_of_table sdp_atoms_key sdp_name_of to_canonical
    to_representative factorize_monomial verbose symidx_to_sym_monarray_dict
    r1 = (list_of_monomials, r') ->
  NoDup (Zero :: One :: list_of_monomials) ->
  InflationLP.init lp_atoms_key lp_name_of _nr_operators lexorder_symmetries
    factorize_monomial_1d cols = inr (lp_One, monomials, lp_r) ->
  ((exists c, InflationSDP.heap r' !! Zero = Some c /\ idx c = Some 0%Z)
   /\ (exists c, InflationSDP.heap r' !! One = Some c /\ idx c = Some 1%Z)
   /\ symidx_to_sym_monarray_dict.*1
      = seq 2 (length symidx_to_sym_monarray_dict)
   /\ length list_of_monomials = length symidx_to_sym_monarray_dict
   /\ (forall j a, list_of_monomials !! j = Some a ->
         exists c, InflationSDP.heap r' !! a = Some c
                   /\ idx c = Some (2 + Z.of_nat j)%Z))
  /\ (length monomials = length cols
      /\ (exists first, monomials !! 0 = Some first
            /\ InflationLP.key_at lp_atoms_key lp_r first
               = InflationLP.key_at lp_atoms_key lp_r lp_One)
      /\ (forall j a, monomials !! j = Some a ->
            exists c, InflationLP.heap lp_r !! a = Some c
                      /\ idx c = Some (Z.of_nat j))
      /\ InflationLP.first_free_idx lp_r
         = Some (Z.of_nat (length cols) + 1)%Z).
Proof.
  intros Hsdp Hin0 Hin1 Hd Hfill Hms Hnd Hlp. split.
  - destruct (first_two_representatives orbits Hin0 Hin1) as (Hs & Hr0 & Hr1).
    apply NoDup_cons in Hnd as [HZero Hnd].
    apply NoDup_cons in Hnd as [HOne Hnd].
    apply SDPRegistryFacts.sdp_init_ids in Hsdp as (Hwf & Hone & Hzero).
    apply fill_canonsym_same_compounds in Hfill as (Fc & Fh & Fn & _).
    assert (Hwf1 : SDPRegistrySpec.well_formed r1).
    { destruct Hwf as [W1 W2]. split.
      - intros k a. rewrite Fc, Fh. apply W1.
      - intros a. rewrite Fh, Fn. apply W2. }
    edestruct (SDPRegistryFacts.sdp_table_ids (K := K1)) as [Hframe Hids];
      [exact Hwf1|exact Hs|exact Hr0|exact Hr1|exact Hd|exact Hms|exact Hnd|].
    pose proof (TableFacts.sym_dict_keys _ _ _ Hs Hr0 Hr1 Hd) as Hkeys.
    assert (Hcount : length symidx_to_sym_monarray_dict
                     = length (Np.unique_with_index orbits).*1 - 2).
    { rewrite <- (length_fmap fst), Hkeys. apply length_seq. }
    rewrite <- Hcount in Hkeys.
    destruct (SDPRegistryFacts.sdp_monomials_of_table_spec _ _ _ _ _ _ _ _ _ _
                Hwf1 Hms) as (_ & Hlen & _).
    split; [|split; [|split; [exact Hkeys|split; [exact Hlen|exact Hids]]]].
    + rewrite Hframe, Fh by (intros Hin; apply HZero; by right).
      apply Hzero. intros ->. apply HZero. by left.
    + rewrite Hframe, Fh by exact HOne. exact Hone.
  - exact (LPRegistryFacts.lp_init_ids _ _ _ _ _ _ _ _ _ Hlp).
Qed.

(** The claim as it is worded fails in the LP engine: with the unit and one
    operator as columns, the unit has the index 0 and the compound of the
    operator, which has a factor, the index 1. *)
Lemma lp_unit_has_index_0_and_an_operator_index_1 :
  exists lp_One unit_mon other r c_unit c_other,
    Example.lp_init Example.lp_columns = inr (lp_One, [unit_mon; other], r)
    /\ InflationLP.heap r !! unit_mon = Some c_unit
    /\ factors c_unit = [] /\ idx c_unit = Some 0%Z
    /\ InflationLP.heap r !! other = Some c_other
    /\ factors c_other <> [] /\ idx c_other = Some 1%Z.
Proof.
  exists 0, 1, 3. eexists. exists (mkCompound [] (Some 0%Z)).
  exists (mkCompound [mkAtom 2 [0]] (Some 1%Z)).
  split; [vm_compute; reflexivity|].
  split; [vm_compute; reflexivity|].
  split; [reflexivity|]. split; [reflexivity|].
  split; [vm_compute; reflexivity|].
  split; [discriminate|reflexivity].
Qed.

(** What the two conditions on the SDP engine exclude.  When 1 is not a
    value of the array of orbits (the old index 1 is in the orbit of 0) the
    keys of the table start at 1; and a compound that the table names twice
    takes the later index, so that no monomial has the earlier one. *)
Remark sdp_conditions_on_the_table :
  InflationSDP.sym_dict
    (list_to_map [(2, Example.on_first_copy); (3, Example.on_second_copy)])
    (Np.unique_with_index [0; 0; 2; 3]).*1
  = inr [(1, Example.on_first_copy); (2, Example.on_second_copy)]
  /\ (let '(ms, r') :=
        Example.sdp_two_copies_monomials
          [(2, Example.on_first_copy); (3, Example.on_first_copy)]
          Example.sdp_two_copies_init.2 in
      exists a c, ms = [a; a] /\ InflationSDP.heap r' !! a = Some c
                  /\ idx c = Some 3%Z).
Proof.
  split; [vm_compute; reflexivity|].
  vm_compute. eexists _, _. repeat split.
Qed.

(** The statement of the code on two small engines: an SDP engine whose
    moment matrix holds the operators of the two copies of its source, each
    its own representative, and an LP engine with two columns. *)
Lemma zero_and_one_in_sdp_and_column_index_in_lp_witness :
  exists Zero One r table r1 list_of_monomials r' lp_One monomials lp_r,
    Example.sdp_two_copies_init = (Zero, One, r)
    /\ InflationSDP.sym_dict (list_to_map Example.sdp_two_copies_dict)
         (Np.unique_with_index Example.sdp_two_copies_orbits).*1 = inr table
    /\ InflationSDP.fill_canonsym Example.sdp_two_copies_dict
         (Np.unique_inverse Example.sdp_two_copies_orbits) table r = inr r1
    /\ Example.sdp_two_copies_monomials table r1 = (list_of_monomials, r')
    /\ Example.lp_init Example.lp_columns = inr (lp_One, monomials, lp_r)
    /\ length list_of_monomials = 2
    /\ (exists c, InflationSDP.heap r' !! Zero = Some c /\ idx c = Some 0%Z)
    /\ (exists c, InflationSDP.heap r' !! One = Some c /\ idx c = Some 1%Z)
    /\ (forall j a, list_of_monomials !! j = Some a ->
          exists c, InflationSDP.heap r' !! a = Some c
                    /\ idx c = Some (2 + Z.of_nat j)%Z)
    /\ (forall j a, monomials !! j = Some a ->
          exists c, InflationLP.heap lp_r !! a = Some c
                    /\ idx c = Some (Z.of_nat j))
    /\ InflationLP.first_free_idx lp_r = Some 3%Z.
Proof.
  pose (i := Example.sdp_two_copies_init).
  pose (t := Example.sdp_two_copies_dict).
  pose (r1 := match InflationSDP.fill_canonsym Example.sdp_two_copies_dict
                      (Np.unique_inverse Example.sdp_two_copies_orbits)
                      t i.2 with
              | inr x => x
              | inl _ => i.2
              end).
  pose (m := Example.sdp_two_copies_monomials t r1).
  destruct (Example.lp_init Example.lp_columns) as [e|[[lp_One lp_ms] lp_r]]
    eqn:Hlp; [vm_compute in Hlp; discriminate|].
  exists i.1.1, i.1.2, i.2, t, r1, m.1, m.2, lp_One, lp_ms, lp_r.
  assert (Hsdp : Example.sdp_two_copies_init = (i.1.1, i.1.2, i.2))
    by (subst i; by destruct Example.sdp_two_copies_init as [[? ?] ?]).
  assert (Hd : InflationSDP.sym_dict
                 (list_to_map Example.sdp_two_copies_dict)
                 (Np.unique_with_index Example.sdp_two_copies_orbits).*1
               = inr t)
    by (vm_compute; reflexivity).
  assert (Hfill : InflationSDP.fill_canonsym Example.sdp_two_copies_dict
                    (Np.unique_inverse Example.sdp_two_copies_orbits) t i.2
                  = inr r1)
    by (vm_compute; reflexivity).
  assert (Hms : Example.sdp_two_copies_monomials t r1 = (m.1, m.2))
    by (subst m; by destruct (Example.sdp_two_copies_monomials t r1)).
  assert (Heq : i.1.1 :: i.1.2 :: m.1 = [1; 2; 4; 6])
    by (vm_compute; reflexivity).
  assert (Hnd : NoDup (i.1.1 :: i.1.2 :: m.1)).
  { rewrite Heq. by apply (bool_decide_unpack _). }
  destruct (zero_and_one_in_sdp_and_column_index_in_lp
              (K1 := list (list (list nat))) (K2 := list (list nat))
              Example.atoms_key Example.name_of Example.sdp_to_canonical
              (GeneralTools.to_representative Example.sdp_to_canonical [2])
              (fun m => [m]) 0 4 Example.atoms_key Example.name_of 2
              [[0; 1]; [1; 0]] (fun m => [m])
              i.1.1 i.1.2 i.2 r1 m.2 Example.sdp_two_copies_dict
              Example.sdp_two_copies_orbits
              t m.1 Example.lp_columns
              lp_One lp_ms lp_r Hsdp
              ltac:(by apply (bool_decide_unpack _))
              ltac:(by apply (bool_decide_unpack _))
              Hd Hfill Hms Hnd Hlp)
    as ((Hzero & Hone & _ & Hlen & Htable) & _ & _ & Hids & Hfree).
  split; [exact Hsdp|]. split; [exact Hd|]. split; [exact Hfill|].
  split; [exact Hms|]. split; [reflexivity|]. split; [exact Hlen|].
  split; [exact Hzero|]. split; [exact Hone|].
  split; [exact Htable|]. split; [exact Hids|exact Hfree].
Defined.

End IdFacts.

(** * Part III.  More of the two engines *)

(** ** Keys of the caches *)

Module KeyFacts.

(** *** The bytes of an array, SDP engine *)

Lemma map_mod_small (l : list nat) :
  Forall (fun x => x < 256) l -> map (fun x => x mod 256) l = l.
Proof.
  induction 1 as [|x l Hx Hl IH]; [reflexivity|].
  cbn [map]. by rewrite Nat.mod_small, IH.
Qed.

Lemma from_2dndarray_small (array2d : list (list nat)) :
  Forall (Forall (fun x => x < 256)) array2d ->
  InflationSDP.from_2dndarray array2d = concat array2d.
Proof.
  intros Hsmall. unfold InflationSDP.from_2dndarray. apply map_mod_small.
  apply Forall_forall. intros x Hx.
  apply list_elem_of_In, in_concat in Hx as (row & Hrow & Hx).
  apply list_elem_of_In in Hrow, Hx.
  pose proof (proj1 (Forall_forall _ _) Hsmall row Hrow) as Hr.
  by apply (proj1 (Forall_forall _ _) Hr).
Qed.

Lemma rows_of_concat (k : nat) (array2d : list (list nat)) :
  Forall (fun row => length row = k) array2d ->
  InflationSDP.rows_of k (length array2d) (concat array2d) = array2d.
Proof.
  induction 1 as [|row rows Hrow Hrows IH]; [reflexivity|].
  simpl. rewrite take_app_length' by (by symmetry).
  rewrite drop_app_length' by (by symmetry). by rewrite IH.
Qed.

Lemma length_concat_rows (k : nat) (array2d : list (list nat)) :
  Forall (fun row => length row = k) array2d ->
  length (concat array2d) = length array2d * k.
Proof.
  induction 1 as [|row rows Hrow Hrows IH]; [reflexivity|].
  simpl. rewrite length_app, IH, Hrow. lia.
Qed.

Lemma concat_rows_of (k n : nat) (flat : list nat) :
  length flat = n * k ->
  concat (InflationSDP.rows_of k n flat) = flat
  /\ length (InflationSDP.rows_of k n flat) = n
  /\ Forall (fun row => length row = k) (InflationSDP.rows_of k n flat).
Proof.
  revert flat. induction n as [|n IH]; intros flat Hlen; simpl.
  - split; [|split; [reflexivity|constructor]].
    symmetry. apply nil_length_inv. lia.
  - destruct (IH (drop k flat)) as (H1 & H2 & H3).
    { rewrite length_drop. lia. }
    split; [by rewrite H1, take_drop|]. split; [by rewrite H2|].
    constructor; [|exact H3]. rewrite length_take. lia.
Qed.

(** [to_2dndarray] undoes [from_2dndarray] on an array whose rows have
    [_nr_properties] entries, all of them bytes, and [from_2dndarray] undoes
    [to_2dndarray] on a buffer of bytes that [to_2dndarray] accepts. *)
Theorem bytes_round_trip (_nr_properties : nat) :
  0 < _nr_properties ->
  (forall array2d,
     Forall (fun row => length row = _nr_properties) array2d ->
     Forall (Forall (fun x => x < 256)) array2d ->
     InflationSDP.to_2dndarray _nr_properties
       (InflationSDP.from_2dndarray array2d) = inr array2d)
  /\ (forall bytestream array2d,
        Forall (fun x => x < 256) bytestream ->
        InflationSDP.to_2dndarray _nr_properties bytestream = inr array2d ->
        InflationSDP.from_2dndarray array2d = bytestream
        /\ Forall (fun row => length row = _nr_properties) array2d).
Proof.
  intros Hk. split.
  - intros array2d Hrows Hsmall.
    rewrite (from_2dndarray_small _ Hsmall).
    unfold InflationSDP.to_2dndarray.
    rewrite (length_concat_rows _ _ Hrows).
    destruct (Nat.eqb_spec _nr_properties 0) as [?|_]; [lia|].
    rewrite Nat.Div0.mod_mul, Nat.eqb_refl. cbn [negb].
    rewrite Nat.div_mul by lia. by rewrite rows_of_concat.
  - intros bytestream array2d Hsmall. unfold InflationSDP.to_2dndarray.
    destruct (Nat.eqb_spec _nr_properties 0) as [?|_]; [lia|].
    destruct (Nat.eqb_spec (length bytestream mod _nr_properties) 0)
      as [Hmod|?]; [|discriminate].
    cbn [negb]. intros [= <-].
    destruct (concat_rows_of _nr_properties
                (length bytestream / _nr_properties) bytestream)
      as (Hcat & _ & Hrows).
    { pose proof (Nat.div_mod_eq (length bytestream) _nr_properties). lia. }
    split; [|exact Hrows].
    rewrite from_2dndarray_small, Hcat; [reflexivity|].
    apply Forall_forall. intros row Hrow. apply Forall_forall. intros x Hx.
    apply (proj1 (Forall_forall _ _) Hsmall).
    rewrite <- Hcat. apply list_elem_of_In, in_concat. exists row.
    split; by apply list_elem_of_In.
Qed.

(** The round trip on an array of two operators. *)
Lemma bytes_round_trip_witness :
  InflationSDP.to_2dndarray 4
    (InflationSDP.from_2dndarray [[1; 1; 0; 0]; [2; 1; 0; 1]])
  = inr [[1; 1; 0; 0]; [2; 1; 0; 1]].
Proof.
  apply (proj1 (bytes_round_trip 4 ltac:(lia)));
    repeat (constructor; try lia).
Defined.

End KeyFacts.

(** ** Bitvectors of the LP engine *)

Module BoolvecFacts.

Local Abbreviation mark :=
  (fun (i : nat) (key : list bool) =>
     if Nat.ltb i (length key) then inr (<[i := true]> key)
     else @inl exn (list bool) IndexError).

Lemma mark_all_spec (array1d : list nat) (key0 : list bool) :
  (forall i, i ∈ array1d -> i < length key0) ->
  exists key,
    for_each mark array1d key0 = inr key
    /\ length key = length key0
    /\ forall i, key !! i = Some true
                 <-> key0 !! i = Some true \/ i ∈ array1d.
Proof.
  revert key0. induction array1d as [|j array1d IH]; intros key0 Hin; simpl.
  - exists key0. split; [reflexivity|]. split; [reflexivity|].
    intros i. rewrite elem_of_nil. tauto.
  - assert (Hj : j < length key0) by (apply Hin; left).
    destruct (Nat.ltb_spec j (length key0)) as [_|?]; [|lia]. cbn [bind].
    destruct (IH (<[j := true]> key0)) as (key & Hrun & Hlen & Hkey).
    { intros i Hi. rewrite length_insert. apply Hin. by right. }
    exists key. split; [exact Hrun|].
    split; [by rewrite Hlen, length_insert|].
    intros i. rewrite Hkey, elem_of_cons.
    destruct (decide (i = j)) as [->|Hne].
    + rewrite list_lookup_insert_eq by exact Hj. tauto.
    + rewrite list_lookup_insert_ne by congruence. tauto.
Qed.

Lemma mark_all_inv (array1d : list nat) (key0 key : list bool) :
  for_each mark array1d key0 = inr key ->
  (forall i, i ∈ array1d -> i < length key0)
  /\ length key = length key0
  /\ forall i, key !! i = Some true
               <-> key0 !! i = Some true \/ i ∈ array1d.
Proof.
  revert key0. induction array1d as [|j array1d IH]; intros key0; simpl.
  - intros [= <-]. split; [by intros i ?%elem_of_nil|].
    split; [reflexivity|]. intros i. rewrite elem_of_nil. tauto.
  - destruct (Nat.ltb_spec j (length key0)) as [Hj|Hj]; cbn [bind];
      [|discriminate].
    intros Hrun. destruct (IH _ Hrun) as (Hin & Hlen & Hkey).
    rewrite length_insert in Hin, Hlen.
    split; [|split; [exact Hlen|]].
    + intros i Hi. apply elem_of_cons in Hi as [->|Hi]; [exact Hj|by apply Hin].
    + intros i. rewrite Hkey, elem_of_cons.
      destruct (decide (i = j)) as [->|Hne].
      * rewrite list_lookup_insert_eq by exact Hj. tauto.
      * rewrite list_lookup_insert_ne by congruence. tauto.
Qed.

Lemma mark_all_raises (array1d : list nat) (key0 : list bool) (e : exn) :
  for_each mark array1d key0 = inl e ->
  e = IndexError /\ exists i, i ∈ array1d /\ length key0 <= i.
Proof.
  revert key0. induction array1d as [|j array1d IH]; intros key0; simpl;
    [discriminate|].
  destruct (Nat.ltb_spec j (length key0)) as [Hj|Hj]; cbn [bind].
  - intros Hrun. destruct (IH _ Hrun) as (-> & i & Hi & Hle).
    rewrite length_insert in Hle.
    split; [reflexivity|]. exists i. split; [by right|exact Hle].
  - intros [= <-]. split; [reflexivity|]. exists j. split; [by left|exact Hj].
Qed.

Lemma elem_of_flatnonzero (boolvec : list bool) (i : nat) :
  i ∈ InflationLP.flatnonzero boolvec <-> boolvec !! i = Some true.
Proof.
  unfold InflationLP.flatnonzero. rewrite list_elem_of_filter, elem_of_seq.
  split.
  - intros [Hnth Hi].
    destruct (lookup_lt_is_Some_2 boolvec i ltac:(lia)) as [b Hb].
    rewrite (nth_lookup_Some _ _ false _ Hb) in Hnth.
    destruct b; [exact Hb|contradiction].
  - intros Hb. rewrite (nth_lookup_Some _ _ false _ Hb).
    split; [exact I|]. apply lookup_lt_Some in Hb. lia.
Qed.

Lemma filter_sorted (P : nat -> Prop) `{!forall x, Decision (P x)}
  (l : list nat) :
  StronglySorted lt l -> StronglySorted lt (filter P l).
Proof.
  induction 1 as [|x l Hs IH Hx]; [constructor|].
  rewrite filter_cons. destruct (decide (P x)); [|exact IH].
  constructor; [exact IH|]. apply Forall_forall. intros y Hy.
  apply list_elem_of_filter in Hy as [_ Hy].
  by apply (proj1 (Forall_forall _ _) Hx).
Qed.

Lemma seq_sorted (start len : nat) : StronglySorted lt (seq start len).
Proof.
  revert start. induction len as [|len IH]; intros start; simpl;
    constructor; [apply IH|].
  apply Forall_forall. intros y Hy. apply elem_of_seq in Hy. lia.
Qed.

Lemma to_boolvec_inv (_nr_operators : nat) (array1d : list nat)
  (key : list bool) :
  InflationLP.to_boolvec _nr_operators array1d = inr key ->
  (forall i, i ∈ array1d -> i < _nr_operators)
  /\ length key = _nr_operators
  /\ forall i, key !! i = Some true <-> i ∈ array1d.
Proof.
  intros Hrun. unfold InflationLP.to_boolvec in Hrun.
  destruct (mark_all_inv _ _ _ Hrun) as (Hin & Hlen & Hkey).
  unfold InflationLP.blank_bool_vec in Hin, Hlen, Hkey.
  rewrite length_replicate in Hin, Hlen.
  split; [exact Hin|]. split; [exact Hlen|].
  intros i. rewrite Hkey. split; [|by right].
  intros [Hi|?]; [|assumption].
  apply lookup_replicate in Hi as [? _]. discriminate.
Qed.

Lemma to_boolvec_returns (_nr_operators : nat) (array1d : list nat) :
  (forall i, i ∈ array1d -> i < _nr_operators) ->
  exists key, InflationLP.to_boolvec _nr_operators array1d = inr key.
Proof.
  intros Hin. unfold InflationLP.to_boolvec.
  destruct (mark_all_spec array1d (InflationLP.blank_bool_vec _nr_operators))
    as (key & Hrun & _).
  - unfold InflationLP.blank_bool_vec. by rewrite length_replicate.
  - by exists key.
Qed.

Lemma to_boolvec_flatnonzero (_nr_operators : nat) (key : list bool) :
  length key = _nr_operators ->
  InflationLP.to_boolvec _nr_operators (InflationLP.flatnonzero key)
  = inr key.
Proof.
  intros Hlen.
  destruct (to_boolvec_returns _nr_operators (InflationLP.flatnonzero key))
    as [key' Hrun].
  { intros i Hi. apply elem_of_flatnonzero, lookup_lt_Some in Hi. lia. }
  rewrite Hrun. f_equal.
  destruct (to_boolvec_inv _ _ _ Hrun) as (_ & Hlen' & Hkey).
  apply list_eq_same_length with _nr_operators; [assumption..|].
  intros i b b' Hi Hb Hb'.
  specialize (Hkey i). rewrite elem_of_flatnonzero in Hkey.
  destruct b, b'; try reflexivity.
  - exfalso. apply Hkey in Hb. congruence.
  - exfalso. apply Hkey in Hb'. congruence.
Qed.

(** [key[array1d] = True] and [np.flatnonzero] undo each other: the
    bitvector of the indices of a bitvector is that bitvector, and the
    indices of the bitvector of a list of indices are the indices of the
    list, in increasing order and without repetition.  The bitvector is
    built exactly when every index is below the number of operators;
    otherwise the exception is an [IndexError]. *)
Theorem boolvec_round_trip (_nr_operators : nat) :
  (forall key,
     length key = _nr_operators ->
     InflationLP.to_boolvec _nr_operators (InflationLP.flatnonzero key)
     = inr key)
  /\ (forall array1d key,
        InflationLP.to_boolvec _nr_operators array1d = inr key ->
        length key = _nr_operators
        /\ StronglySorted lt (InflationLP.flatnonzero key)
        /\ forall i, i ∈ InflationLP.flatnonzero key <-> i ∈ array1d)
  /\ (forall array1d,
        (forall i, i ∈ array1d -> i < _nr_operators) <->
        exists key, InflationLP.to_boolvec _nr_operators array1d = inr key)
  /\ (forall array1d e,
        InflationLP.to_boolvec _nr_operators array1d = inl e ->
        e = IndexError).
Proof.
  split; [apply to_boolvec_flatnonzero|]. split; [|split].
  - intros array1d key Hrun.
    destruct (to_boolvec_inv _ _ _ Hrun) as (_ & Hlen & Hkey).
    split; [exact Hlen|]. split.
    + apply filter_sorted, seq_sorted.
    + intros i. by rewrite elem_of_flatnonzero.
  - intros array1d. split; [apply to_boolvec_returns|].
    intros [key Hrun]. apply (to_boolvec_inv _ _ _ Hrun).
  - intros array1d e Hrun. unfold InflationLP.to_boolvec in Hrun.
    by apply mark_all_raises in Hrun as [-> _].
Qed.

End BoolvecFacts.

(** ** Interning in the LP engine *)

Module LPInterning.

Section Atoms.
Context {K : Type} `{Countable K}.
Variable _nr_operators : nat.
Variable lexorder_symmetries : list (list nat).

Local Abbreviation registry := (@InflationLP.registry K _ _).
Local Abbreviation _AtomicMonomial :=
  (InflationLP._AtomicMonomial (K := K) _nr_operators lexorder_symmetries).

Lemma length_map_result {A B : Type} (f : A -> result B) (l : list A)
  (ys : list B) :
  Np.map_result f l = inr ys -> length ys = length l.
Proof.
  revert ys. induction l as [|x l IH]; intros ys; simpl.
  - by intros [= <-].
  - destruct (f x) as [e|y]; simpl; [discriminate|].
    destruct (Np.map_result f l) as [e|ys']; simpl; [discriminate|].
    intros [= <-]. simpl. by rewrite (IH ys').
Qed.

Lemma elem_of_map_result {A B : Type} (f : A -> result B) (l : list A)
  (ys : list B) (y : B) :
  Np.map_result f l = inr ys -> y ∈ ys -> exists x, x ∈ l /\ f x = inr y.
Proof.
  revert ys. induction l as [|x l IH]; intros ys; simpl.
  - intros [= <-] Hy. by apply elem_of_nil in Hy.
  - destruct (f x) as [e|y0] eqn:Hx; simpl; [discriminate|].
    destruct (Np.map_result f l) as [e|ys'] eqn:Hl; simpl; [discriminate|].
    intros [= <-] Hy. apply elem_of_cons in Hy as [->|Hy].
    + exists x. split; [by left|exact Hx].
    + destruct (IH ys' eq_refl Hy) as (x' & Hx' & Hfx').
      exists x'. split; [by right|exact Hfx'].
Qed.

(** A row of the orbit has as many entries as the symmetry has. *)
Lemma orbit_row_length (key : list bool) (rows : list (list bool))
  (row : list bool) :
  Forall (fun permutation => length permutation = _nr_operators)
    lexorder_symmetries ->
  InflationLP.orbit_rows lexorder_symmetries key = inr rows ->
  row ∈ rows -> length row = _nr_operators.
Proof.
  intros Hlen Hrows Hrow. unfold InflationLP.orbit_rows in Hrows.
  destruct (elem_of_map_result _ _ _ _ Hrows Hrow) as (p & Hp & Htake).
  unfold Np.take in Htake. apply length_map_result in Htake.
  rewrite Htake. by apply (proj1 (Forall_forall _ _) Hlen).
Qed.

(** The LP engine aliases the orbit.  On a miss of the cache, with more
    than one symmetry, the object [_AtomicMonomial] makes is the one it
    returns afterwards for every member of the orbit, and these later calls
    leave the registry as it is. *)
Theorem lp_orbit_members_are_one_object (array1d : list nat)
  (key : list bool) (rows : list (list bool)) (r : registry) :
  Forall (fun permutation => length permutation = _nr_operators)
    lexorder_symmetries ->
  InflationLP.to_boolvec _nr_operators array1d = inr key ->
  InflationLP.atomic_monomial_from_hash r !! key = None ->
  length lexorder_symmetries <> 1 ->
  InflationLP.orbit_rows lexorder_symmetries key = inr rows ->
  rows <> [] ->
  exists mon r1,
    _AtomicMonomial array1d r = inr (mon, r1)
    /\ forall row, row ∈ rows ->
         _AtomicMonomial (InflationLP.flatnonzero row) r1 = inr (mon, r1).
Proof.
  intros Hlen Hkey Hmiss Hsyms Hrows Hne.
  destruct (LPRegistryFacts.sorted_orbit_spec lexorder_symmetries key rows
              Hrows) as (sorted & Hsorted & Hin & Hmax).
  destruct (last sorted) as [rep|] eqn:Hlast.
  2:{ exfalso. apply last_None in Hlast. subst sorted.
      destruct rows as [|row rows]; [contradiction|].
      assert (Hrow : row ∈ @nil (list bool)) by (apply Hin; left).
      by apply elem_of_nil in Hrow. }
  eexists. eexists. split.
  - unfold InflationLP._AtomicMonomial. rewrite Hkey. cbn [bind].
    rewrite Hmiss.
    destruct (Nat.eqb_spec (length lexorder_symmetries) 1) as [?|_];
      [contradiction|].
    rewrite Hsorted. cbn [bind]. unfold InflationLP.last_row.
    rewrite Hlast. cbn [bind]. reflexivity.
  - intros row Hrow. unfold InflationLP._AtomicMonomial.
    rewrite (BoolvecFacts.to_boolvec_flatnonzero _nr_operators row
               (orbit_row_length key rows row Hlen Hrows Hrow)).
    cbn [bind]. cbn [InflationLP.atomic_monomial_from_hash].
    rewrite LPRegistryFacts.lookup_foldl_insert.
    rewrite decide_True by (by apply Hin). reflexivity.
Qed.

(** The same array twice: the second call finds the object of the first
    and leaves the registry as it is, when the engine has a single symmetry
    or the array is in its own orbit (the identity is a symmetry). *)
Theorem lp_atomic_monomial_twice (array1d : list nat) (key : list bool)
  (rows : list (list bool)) (r r1 : registry) (mon : atom_obj (list nat)) :
  InflationLP.to_boolvec _nr_operators array1d = inr key ->
  InflationLP.orbit_rows lexorder_symmetries key = inr rows ->
  length lexorder_symmetries = 1 \/ key ∈ rows ->
  _AtomicMonomial array1d r = inr (mon, r1) ->
  _AtomicMonomial array1d r1 = inr (mon, r1).
Proof.
  intros Hkey Hrows Hself. unfold InflationLP._AtomicMonomial.
  rewrite Hkey. cbn [bind].
  destruct (InflationLP.atomic_monomial_from_hash r !! key) as [m|] eqn:Hm.
  { intros [= <- <-]. by rewrite Hm. }
  destruct (Nat.eqb_spec (length lexorder_symmetries) 1) as [H1|Hn1].
  { intros [= <- <-]. cbn [InflationLP.atomic_monomial_from_hash].
    by rewrite lookup_insert_eq. }
  destruct Hself as [?|Hself]; [contradiction|].
  destruct (LPRegistryFacts.sorted_orbit_spec lexorder_symmetries key rows
              Hrows) as (sorted & Hsorted & Hin & _).
  rewrite Hsorted. cbn [bind].
  destruct (InflationLP.last_row sorted) as [e|rep]; cbn [bind];
    [discriminate|].
  intros [= <- <-]. cbn [InflationLP.atomic_monomial_from_hash].
  rewrite LPRegistryFacts.lookup_foldl_insert.
  rewrite decide_True by (by apply Hin). reflexivity.
Qed.

End Atoms.

(** Two operators and the symmetry that swaps them: the monomial of the
    second operator, then the members of its orbit. *)
Lemma lp_orbit_members_witness :
  exists mon r1,
    InflationLP._AtomicMonomial (K := list (list nat)) 2 [[0; 1]; [1; 0]] [1]
      InflationLP.empty_registry = inr (mon, r1)
    /\ forall row, row ∈ [[false; true]; [true; false]] ->
         InflationLP._AtomicMonomial 2 [[0; 1]; [1; 0]]
           (InflationLP.flatnonzero row) r1 = inr (mon, r1).
Proof.
  apply (lp_orbit_members_are_one_object (K := list (list nat)) 2
           [[0; 1]; [1; 0]] [1] [false; true] [[false; true]; [true; false]]
           InflationLP.empty_registry).
  - repeat constructor.
  - reflexivity.
  - reflexivity.
  - simpl. lia.
  - reflexivity.
  - discriminate.
Defined.

Lemma lp_atomic_monomial_twice_witness :
  exists mon r1,
    InflationLP._AtomicMonomial (K := list (list nat)) 2 [[0; 1]; [1; 0]] [1]
      InflationLP.empty_registry = inr (mon, r1)
    /\ InflationLP._AtomicMonomial 2 [[0; 1]; [1; 0]] [1] r1 = inr (mon, r1).
Proof.
  destruct (InflationLP._AtomicMonomial (K := list (list nat)) 2
              [[0; 1]; [1; 0]] [1] InflationLP.empty_registry)
    as [e|[mon r1]] eqn:Hcall; [vm_compute in Hcall; discriminate|].
  exists mon, r1. split; [reflexivity|].
  apply (lp_atomic_monomial_twice (K := list (list nat)) 2 [[0; 1]; [1; 0]]
           [1] [false; true] [[false; true]; [true; false]]
           InflationLP.empty_registry r1 mon).
  - reflexivity.
  - reflexivity.
  - right. by left.
  - exact Hcall.
Defined.

End LPInterning.

(** ** Interning in the SDP engine *)

Module SDPInterning.

Section Atoms.
Local Abbreviation arr := (list (list nat)).
Context {K : Type} `{Countable K}.
Variable atoms_key : list (atom_obj arr) -> K.
Variable name_of : list (atom_obj arr) -> string.
Variable to_canonical : arr -> arr.
Variable to_representative : arr -> arr.
Variable verbose : nat.

Local Abbreviation registry := (@InflationSDP.registry K _ _).
Local Abbreviation AtomicMonomial :=
  (InflationSDP.AtomicMonomial (K := K) to_canonical to_representative verbose).
Local Abbreviation monomial_from_list_of_atomic :=
  (InflationSDP.monomial_from_list_of_atomic atoms_key name_of).
Local Abbreviation key := InflationSDP.from_2dndarray.

(** Whatever branch [AtomicMonomial] takes, the object it returns is the
    one the cache holds for the bytes of the array it was given; the same
    call made again returns that object and leaves the registry as it
    is. *)
Theorem sdp_atomic_monomial_twice (array2d : arr) (r r' : registry)
  (a : atom_obj arr) :
  AtomicMonomial array2d r = (a, r') ->
  InflationSDP.atomic_monomial_from_hash_cache r' !! key array2d = Some a
  /\ AtomicMonomial array2d r' = (a, r').
Proof.
  intros Hcall.
  assert (Hcached :
            InflationSDP.atomic_monomial_from_hash_cache r' !! key array2d
            = Some a).
  { revert Hcall.
    unfold InflationSDP.AtomicMonomial, InflationSDP.new_atom,
      InflationSDP.set_canonsym, InflationSDP.set_atomic.
    destruct (InflationSDP.atomic_monomial_from_hash_cache r !! key array2d)
      as [m|] eqn:Hm.
    { by intros [= <- <-]. }
    destruct (InflationSDP.canonsym_ndarray_from_hash_cache r !! key array2d)
      as [rep|].
    { destruct (InflationSDP.atomic_monomial_from_hash_cache r !! key rep)
        as [m|].
      - intros [= <- <-]. cbn. by rewrite lookup_insert_eq.
      - intros [= <- <-]. cbn.
        destruct (decide (key rep = key array2d)) as [->|Hne].
        + by rewrite lookup_insert_eq.
        + by rewrite lookup_insert_ne, lookup_insert_eq. }
    destruct (_ || _).
    { intros [= <- <-]. cbn. by rewrite lookup_insert_eq. }
    destruct (InflationSDP.inflation_aware_to_ndarray_representative _ _ _ _ _)
      as [rep r1].
    intros [= <- <-]. cbn.
    destruct (decide (key rep = key array2d)) as [->|Hne].
    + by rewrite lookup_insert_eq.
    + by rewrite lookup_insert_ne, lookup_insert_eq. }
  split; [exact Hcached|].
  unfold InflationSDP.AtomicMonomial. by rewrite Hcached.
Qed.

Lemma collect_atoms_without_zero (l acc : list (atom_obj arr)) :
  Forall (fun a => InflationSDP.is_zero a = false) l ->
  InflationSDP.collect_atoms l acc
  = acc ++ filter (fun a => negb (InflationSDP.is_one a)) l.
Proof.
  intros Hl. revert acc. induction Hl as [|a l Ha Hl IH]; intros acc.
  - cbn [InflationSDP.collect_atoms]. by rewrite app_nil_r.
  - cbn [InflationSDP.collect_atoms]. rewrite Ha.
    destruct (InflationSDP.is_one a) eqn:Ho; cbn [negb]; rewrite IH.
    + rewrite filter_cons_False by (rewrite Ho; intros []). reflexivity.
    + rewrite filter_cons_True by (rewrite Ho; exact I).
      by rewrite <- app_assoc.
Qed.

Lemma collect_atoms_with_zero (l1 l2 acc : list (atom_obj arr))
  (z : atom_obj arr) :
  Forall (fun a => InflationSDP.is_zero a = false) l1 ->
  InflationSDP.is_zero z = true ->
  InflationSDP.collect_atoms (l1 ++ z :: l2) acc = [z].
Proof.
  intros Hl1 Hz. revert acc. induction Hl1 as [|a l1 Ha Hl1 IH]; intros acc.
  - cbn [app InflationSDP.collect_atoms]. by rewrite Hz.
  - cbn [app InflationSDP.collect_atoms]. rewrite Ha.
    destruct (InflationSDP.is_one a); cbn [negb]; apply IH.
Qed.

(** A zero factor absorbs the product and the unit factors are left out:
    with a zero factor the atoms kept are the first zero factor alone,
    whatever the other factors; without one they are the factors that are
    not the unit, in their order. *)
Theorem zero_absorbs_and_units_drop (l : list (atom_obj arr)) :
  (forall l1 z l2,
     l = l1 ++ z :: l2 -> InflationSDP.is_zero z = true ->
     Forall (fun a => InflationSDP.is_zero a = false) l1 ->
     InflationSDP.collect_atoms l [] = [z])
  /\ (Forall (fun a => InflationSDP.is_zero a = false) l ->
      InflationSDP.collect_atoms l []
      = filter (fun a => negb (InflationSDP.is_one a)) l).
Proof.
  split.
  - intros l1 z l2 -> Hz Hl1. by apply collect_atoms_with_zero.
  - intros Hl. by rewrite collect_atoms_without_zero.
Qed.

(** Compounds are interned by the key of their atoms: two lists of atoms
    that keep the same key give the same compound, and the second call
    neither allocates nor changes the registry. *)
Theorem sdp_compound_is_interned (l l' : list (atom_obj arr))
  (r r' : registry) (mon : nat) :
  atoms_key (InflationSDP.collect_atoms l' [])
  = atoms_key (InflationSDP.collect_atoms l []) ->
  monomial_from_list_of_atomic l r = (mon, r') ->
  monomial_from_list_of_atomic l' r' = (mon, r')
  /\ InflationSDP.compound_monomial_from_tuple_of_atoms_cache r'
       !! atoms_key (InflationSDP.collect_atoms l []) = Some mon.
Proof.
  intros Hkey. unfold InflationSDP.monomial_from_list_of_atomic.
  rewrite Hkey.
  destruct (InflationSDP.compound_monomial_from_tuple_of_atoms_cache r !! _)
    as [m|] eqn:Hm.
  - intros [= <- <-]. by rewrite Hm.
  - intros [= <- <-]. cbn. by rewrite lookup_insert_eq.
Qed.

End Atoms.

(** The operator on the first copy of the source, twice. *)
Lemma sdp_atomic_monomial_twice_witness :
  exists a r',
    Example.sdp_AtomicMonomial Example.on_first_copy
      InflationSDP.empty_registry = (a, r')
    /\ InflationSDP.atomic_monomial_from_hash_cache r'
         !! InflationSDP.from_2dndarray Example.on_first_copy = Some a
    /\ Example.sdp_AtomicMonomial Example.on_first_copy r' = (a, r').
Proof.
  destruct (Example.sdp_AtomicMonomial Example.on_first_copy
              InflationSDP.empty_registry) as [a r'] eqn:Hcall.
  exists a, r'. split; [reflexivity|].
  exact (sdp_atomic_monomial_twice _ _ _ _ _ _ _ Hcall).
Defined.

(** A product with a unit factor and the same product without it. *)
Lemma sdp_compound_is_interned_witness :
  exists mon r',
    InflationSDP.monomial_from_list_of_atomic (K := list (list (list nat)))
      Example.atoms_key Example.name_of
      [mkAtom 0 []; mkAtom 1 [[1; 1; 0; 0]]] InflationSDP.empty_registry
    = (mon, r')
    /\ InflationSDP.monomial_from_list_of_atomic Example.atoms_key
         Example.name_of [mkAtom 1 [[1; 1; 0; 0]]] r' = (mon, r').
Proof.
  destruct (InflationSDP.monomial_from_list_of_atomic
              (K := list (list (list nat))) Example.atoms_key Example.name_of
              [mkAtom 0 []; mkAtom 1 [[1; 1; 0; 0]]]
              InflationSDP.empty_registry) as [mon r'] eqn:Hcall.
  exists mon, r'. split; [reflexivity|].
  apply (sdp_compound_is_interned Example.atoms_key Example.name_of
           [mkAtom 0 []; mkAtom 1 [[1; 1; 0; 0]]] [mkAtom 1 [[1; 1; 0; 0]]]
           InflationSDP.empty_registry r' mon); [reflexivity|exact Hcall].
Defined.

End SDPInterning.

Module LPIds.

Section Ids.
Context {K : Type} `{Countable K}.
Variable atoms_key : list (atom_obj (list nat)) -> K.
Variable name_of : list (atom_obj (list nat)) -> string.
Variable _nr_operators : nat.
Variable lexorder_symmetries : list (list nat).
Variable factorize_monomial_1d : list nat -> list (list nat).

Local Abbreviation registry := (@InflationLP.registry K _ _).
Local Abbreviation atoms_of_factors :=
  (InflationLP.atoms_of_factors (K := K) _nr_operators lexorder_symmetries).
Local Abbreviation Monomial :=
  (InflationLP.Monomial atoms_key name_of _nr_operators lexorder_symmetries
     factorize_monomial_1d).

(** [Monomial] called without an index ([idx = -1]).  A compound that is
    already in the cache is returned as it is: no index changes and the
    counter [first_free_idx] stays.  A new compound takes the index
    [first_free_idx], and the counter moves on by one; before
    [_generate_lp] has set the counter, the new compound has no index. *)
Theorem lp_monomial_without_index (array1d : list nat) (r r1 : registry)
  (atoms : list (atom_obj (list nat))) :
  atoms_of_factors (factorize_monomial_1d array1d) r = inr (atoms, r1) ->
  (forall mon,
     InflationLP.monomial_from_atoms r !! atoms_key atoms = Some mon ->
     exists r',
       Monomial array1d (-1)%Z r = inr (mon, r')
       /\ InflationLP.heap r' = InflationLP.heap r
       /\ InflationLP.first_free_idx r' = InflationLP.first_free_idx r)
  /\ (InflationLP.monomial_from_atoms r !! atoms_key atoms = None ->
      exists r',
        Monomial array1d (-1)%Z r = inr (InflationLP.next_addr r1, r')
        /\ InflationLP.heap r'
           = <[InflationLP.next_addr r1 :=
                 mkCompound atoms (InflationLP.first_free_idx r)]>
               (InflationLP.heap r)
        /\ InflationLP.first_free_idx r'
           = (fun i => (i + 1)%Z) <$> InflationLP.first_free_idx r
        /\ InflationLP.monomial_from_atoms r' !! atoms_key atoms
           = Some (InflationLP.next_addr r1)).
Proof.
  intros Hat.
  pose proof (LPRegistryFacts.lp_atoms_same_compounds _ _ _ _ _ _ Hat)
    as (Hc & Hf & Hh & Hn).
  unfold InflationLP.Monomial. rewrite Hat. cbn [bind fst snd].
  unfold InflationLP._monomial_from_atoms. rewrite Hc. split.
  - intros mon Hmon. rewrite Hmon. eexists. split; [reflexivity|].
    cbn. rewrite Hh, Hf. split; [|reflexivity].
    apply alter_id. intros c _. reflexivity.
  - intros Hmiss. rewrite Hmiss. eexists. split; [reflexivity|].
    cbn. rewrite Hh, Hf. split; [|split].
    + rewrite alter_insert_eq. f_equal. unfold attach_idx. cbn.
      f_equal. by destruct (InflationLP.first_free_idx r).
    + by destruct (InflationLP.first_free_idx r).
    + by rewrite lookup_insert_eq.
Qed.

End Ids.

(** After [_generate_lp] on the two columns of the small engine, the
    monomial of the second operator is new: it takes the index 3. *)
Lemma lp_monomial_without_index_witness :
  exists lp_One monomials r atoms r1 r',
    Example.lp_init Example.lp_columns = inr (lp_One, monomials, r)
    /\ InflationLP.atoms_of_factors 2 [[0; 1]; [1; 0]] [[0; 1]] r
       = inr (atoms, r1)
    /\ InflationLP.Monomial Example.atoms_key Example.name_of 2
         [[0; 1]; [1; 0]] (fun m => [m]) [0; 1] (-1)%Z r
       = inr (InflationLP.next_addr r1, r')
    /\ InflationLP.heap r' !! InflationLP.next_addr r1
       = Some (mkCompound atoms (Some 3%Z))
    /\ InflationLP.first_free_idx r' = Some 4%Z.
Proof.
  destruct (Example.lp_init Example.lp_columns) as [e|[[lp_One ms] r]]
    eqn:Hinit; [vm_compute in Hinit; discriminate|].
  destruct (InflationLP.atoms_of_factors 2 [[0; 1]; [1; 0]] [[0; 1]] r)
    as [e|[atoms r1]] eqn:Hat.
  { exfalso. revert Hat. vm_compute in Hinit. injection Hinit as <- <- <-.
    vm_compute. discriminate. }
  assert (Hfree : InflationLP.first_free_idx r = Some 3%Z).
  { revert Hinit. clear. vm_compute. by intros [= <- <- <-]. }
  assert (Hmiss : InflationLP.monomial_from_atoms r
                    !! Example.atoms_key atoms = None).
  { revert Hat. vm_compute in Hinit. injection Hinit as <- <- <-.
    vm_compute. by intros [= <- <-]. }
  destruct (proj2 (lp_monomial_without_index Example.atoms_key
                     Example.name_of 2 [[0; 1]; [1; 0]] (fun m => [m])
                     [0; 1] r r1 atoms Hat) Hmiss)
    as (r' & Hcall & Hheap & Hfree' & _).
  exists lp_One, ms, r, atoms, r1, r'.
  split; [reflexivity|]. split; [exact Hat|]. split; [exact Hcall|].
  split.
  - by rewrite Hheap, lookup_insert_eq, Hfree.
  - by rewrite Hfree', Hfree.
Defined.

End LPIds.

(** ** The objective *)

Module ObjectiveFacts.

Lemma Qmult_m1_opp (c : Q) : (-1 * c)%Q = Qopp (1 * c)%Q.
Proof. destruct c as [[|p|p] d]; reflexivity. Qed.

Section OptionSum.

(** What [d[m] += v] does to the entry of [m] in a [defaultdict(int)]. *)
Local Abbreviation add_to := (fun (o : option Q) (v : Q) => Some (default 0%Q o + v)%Q).

Lemma foldl_add_to_Some (vs : list Q) (q : Q) :
  foldl add_to (Some q) vs = Some (foldl Qplus q vs).
Proof.
  revert q. induction vs as [|v vs IH]; intros q; simpl; [reflexivity|].
  apply IH.
Qed.

End OptionSum.

Section LP.
Context `{Countable mon} {key : Type}.
Variable _sanitise_monomial : key -> result mon.

Local Abbreviation state := (@InflationLP.state mon _ _).
Local Abbreviation _sanitize_dict := (InflationLP._sanitize_dict _sanitise_monomial).
Local Abbreviation set_objective := (InflationLP.set_objective _sanitise_monomial).
Local Abbreviation coefficients := (coefficients_of _sanitise_monomial).

Lemma lp_sanitize_loop (items : list (key * Q)) (acc out : gmap mon Q) (m : mon) :
  for_each (fun kv output_dict =>
              if negb (Num.isclose (snd kv) 0) then
                try m <- _sanitise_monomial (fst kv) in
                inr (<[m := (default 0%Q (output_dict !! m) + snd kv)%Q]>
                       output_dict)
              else inr output_dict) items acc = inr out ->
  out !! m =
  foldl (fun (o : option Q) (v : Q) => Some (default 0%Q o + v)%Q) (acc !! m)
    (coefficients m items).
Proof.
  revert acc. induction items as [|kv items IH]; intros acc; simpl.
  - by intros [= <-].
  - unfold coefficients_of. simpl.
    destruct (Num.isclose (snd kv) 0); simpl; [apply IH|].
    destruct (_sanitise_monomial (fst kv)) as [e|m']; simpl; [discriminate|].
    intros Hrun. rewrite (IH _ Hrun).
    destruct (decide (m' = m)) as [->|Hne]; simpl.
    + by rewrite lookup_insert_eq.
    + by rewrite lookup_insert_ne.
Qed.

(** [_sanitize_dict] adds up the coefficients given for the same monomial,
    under whichever keys, and leaves out those close to 0: the monomial is a
    key of the result when one of its coefficients is not close to 0, even
    when they cancel. *)
Theorem lp_sanitize_dict_adds_up (input_dict : InflationLP.dict_input)
  (out : gmap mon Q) (m : mon) :
  _sanitize_dict input_dict = inr out ->
  out !! m =
  match coefficients m (InflationLP.input_dict_copy input_dict) with
  | [] => None
  | vs => Some (foldl Qplus 0%Q vs)
  end.
Proof.
  unfold InflationLP._sanitize_dict. intros Hrun.
  rewrite (lp_sanitize_loop _ _ _ m Hrun), lookup_empty.
  destruct (coefficients m _) as [|v vs]; [reflexivity|].
  simpl. apply foldl_add_to_Some.
Qed.

(** The objective stored for the direction "min" is the one stored for
    "max" with every coefficient negated, on the same monomials. *)
Theorem lp_set_objective_min_negates_max (objective : InflationLP.dict_input)
  (s : state) (o1 : InflationLP.objective_state) :
  set_objective (Some objective) "max" s = inr o1 ->
  InflationLP.maximize o1 = true
  /\ exists o2,
       set_objective (Some objective) "min" s = inr o2
       /\ InflationLP.maximize o2 = false
       /\ InflationLP.objective o2 = Qopp <$> InflationLP.objective o1.
Proof.
  unfold InflationLP.set_objective.
  destruct (negb (negb (InflationLP.supports_problem s) || _));
    [discriminate|].
  cbn [bool_decide]. simpl negb at 1 2.
  rewrite !bool_decide_eq_true_2 by set_solver. simpl negb.
  rewrite ?(bool_decide_eq_true_2 ("max" = "max")) by reflexivity.
  rewrite !(bool_decide_eq_false_2 ("min" = "max")) by discriminate.
  cbv iota.
  destruct (_sanitize_dict objective) as [e|d]; simpl; [discriminate|].
  assert (Hneg : (fun coeff : Q => (-1 * coeff)%Q) <$> d =
                 Qopp <$> ((fun coeff : Q => (1 * coeff)%Q) <$> d)).
  { rewrite <- map_fmap_compose. apply map_fmap_ext.
    intros k c _. simpl. apply Qmult_m1_opp. }
  rewrite Hneg, !dom_fmap_L.
  destruct (Nat.eqb _ 0); [|discriminate].
  intros [= <-]. simpl. split; [reflexivity|].
  eexists. repeat split.
Qed.

End LP.

Section SDP.
Context `{Countable mon} {key : Type}.
Variable One : mon.
Variable _sanitise_monomial : key -> result mon.
Variable unpack_monomial : mon -> result (Q * mon).

Local Abbreviation state := (@InflationSDP.state mon _ _).
Local Abbreviation set_objective :=
  (InflationSDP.set_objective One _sanitise_monomial unpack_monomial).
Local Abbreviation symmetrized_objective :=
  (InflationSDP.symmetrized_objective One _sanitise_monomial).

(** Whether every key of the expression is recognised. *)
Local Abbreviation recognised objective :=
  (match objective with
   | InflationSDP.ObjNumber _ => True
   | InflationSDP.ObjExpr items =>
       forall kv, kv ∈ items -> exists m, _sanitise_monomial (fst kv) = inr m
   end).

Lemma sdp_symmetrized_loop (sign : Q) (items : list (key * Q))
  (acc : gmap mon Q) :
  is_Some (acc !! One) ->
  (forall kv, kv ∈ items -> exists m, _sanitise_monomial (fst kv) = inr m) ->
  exists o,
    for_each (fun kv acc =>
                try m <- _sanitise_monomial (fst kv) in
                inr (<[m := (default 0%Q (acc !! m) + sign * snd kv)%Q]> acc))
      items acc = inr o
    /\ is_Some (o !! One).
Proof.
  revert acc. induction items as [|kv items IH]; intros acc HOne Hrec; simpl.
  - eauto.
  - destruct (Hrec kv) as [m Hm]; [by left|]. rewrite Hm. simpl.
    apply IH.
    + destruct (decide (m = One)) as [->|Hne];
        [rewrite lookup_insert_eq; eauto|by rewrite lookup_insert_ne].
    + intros kv' Hkv'. apply Hrec. by right.
Qed.

(** In an engine without semiknown relations, [set_objective] with the
    direction "max" or "min" and an objective whose keys are all recognised
    returns; it writes the objective and the processed objective only, and
    the unit is a key of the objective it stores, whatever the objective
    given. *)
Theorem sdp_set_objective_returns (objective : InflationSDP.objective_input)
  (direction : string) (s : state) :
  direction ∈ ["max"; "min"] ->
  recognised objective ->
  InflationSDP.semiknown_moments s = ∅ ->
  exists s',
    set_objective objective direction s = inr s'
    /\ is_Some (InflationSDP.objective s' !! One)
    /\ InflationSDP.known_moments s' = InflationSDP.known_moments s
    /\ InflationSDP.moment_lowerbounds s' = InflationSDP.moment_lowerbounds s
    /\ InflationSDP._processed_moment_lowerbounds s' =
       InflationSDP._processed_moment_lowerbounds s.
Proof.
  intros Hdir Hrec Hsk. unfold InflationSDP.set_objective.
  rewrite bool_decide_eq_true_2 by exact Hdir. simpl negb. cbv iota.
  set (sign := if bool_decide (direction = "max") then 1%Q else (-1)%Q).
  clearbody sign.
  assert (Ho : exists o, symmetrized_objective sign objective = inr o
                         /\ is_Some (o !! One)).
  { destruct objective as [c|items]; simpl.
    - eexists. split; [reflexivity|]. rewrite lookup_singleton_eq. eauto.
    - apply sdp_symmetrized_loop; [|exact Hrec].
      rewrite lookup_singleton_eq. eauto. }
  destruct Ho as (o & -> & HOne). simpl.
  destruct (ValuationFacts.sdp_update_objective_returns One unpack_monomial
              (InflationSDP.with_objective o s) Hsk HOne) as [s' Hs'].
  exists s'. split; [exact Hs'|].
  pose proof (ValuationFacts.sdp_update_objective_frame _ _ _ _ Hs')
    as (Fk & _ & Flb & Fo & _).
  split; [by rewrite Fo|]. split; [exact Fk|]. split; [exact Flb|].
  unfold InflationSDP._update_objective in Hs'.
  destruct (for_each _ _ _) as [e|po]; simpl in Hs'; [discriminate|].
  destruct (for_each _ _ _) as [e|po']; simpl in Hs'; [discriminate|].
  by injection Hs' as <-.
Qed.

End SDP.

(** The monomial 2 with the coefficients 1/2 and -1/2, the monomial 3 with
    the coefficient 0: the monomial 2 is a key of the result, the monomial 3
    is not. *)
Lemma lp_sanitize_dict_witness :
  exists out,
    Product.lp_sanitize_dict
      (InflationLP.AsDict [(2, (1 # 2)%Q); (2, (-1 # 2)%Q); (3, 0%Q)])
    = inr out
    /\ out !! 2 = Some (foldl Qplus 0%Q [(1 # 2)%Q; (-1 # 2)%Q])
    /\ out !! 3 = None.
Proof.
  destruct (Product.lp_sanitize_dict
              (InflationLP.AsDict [(2, (1 # 2)%Q); (2, (-1 # 2)%Q); (3, 0%Q)]))
    as [e|out] eqn:Hrun; [vm_compute in Hrun; discriminate|].
  exists out. split; [reflexivity|].
  unfold Product.lp_sanitize_dict in Hrun.
  split.
  - exact (lp_sanitize_dict_adds_up Example.sanitise _ out 2 Hrun).
  - exact (lp_sanitize_dict_adds_up Example.sanitise _ out 3 Hrun).
Defined.

(** The objective 1/2 * m2. *)
Lemma lp_set_objective_witness :
  exists o1,
    Product.lp_set_objective (Some (InflationLP.AsDict [(2, (1 # 2)%Q)])) "max"
      Product.lp_state = inr o1
    /\ exists o2,
         Product.lp_set_objective (Some (InflationLP.AsDict [(2, (1 # 2)%Q)]))
           "min" Product.lp_state = inr o2
         /\ InflationLP.objective o2 = Qopp <$> InflationLP.objective o1.
Proof.
  destruct (Product.lp_set_objective
              (Some (InflationLP.AsDict [(2, (1 # 2)%Q)])) "max"
              Product.lp_state) as [e|o1] eqn:Hrun;
    [vm_compute in Hrun; discriminate|].
  exists o1. split; [reflexivity|].
  unfold Product.lp_set_objective in Hrun.
  destruct (lp_set_objective_min_negates_max Example.sanitise _ _ o1 Hrun)
    as (_ & o2 & H2 & _ & Hneg).
  exists o2. split; [exact H2|exact Hneg].
Defined.

(** The objective [1/2 * m2 + 1/2 * m2], to be minimised. *)
Lemma sdp_set_objective_witness :
  exists s',
    Product.sdp_set_objective
      (InflationSDP.ObjExpr [(2, (1 # 2)%Q); (2, (1 # 2)%Q)]) "min"
      Product.sdp_state = inr s'
    /\ is_Some (InflationSDP.objective s' !! Example.One).
Proof.
  destruct (sdp_set_objective_returns Example.One Example.sanitise
              Example.no_unpack
              (InflationSDP.ObjExpr [(2, (1 # 2)%Q); (2, (1 # 2)%Q)]) "min"
              Product.sdp_state) as (s' & Hrun & HOne & _).
  - right. left.
  - intros kv _. eexists. reflexivity.
  - reflexivity.
  - exists s'. split; [exact Hrun|exact HOne].
Defined.

End ObjectiveFacts.

(** ** The loop over the orbits *)

Module OrbitLoop.

Lemma follow_same (orbits : list nat) (fuel val : nat) :
  never_upwards orbits -> val < length orbits -> val < fuel ->
  exists r, InflationSDP.follow fuel orbits val val = Some (inr r)
    /\ r <= val /\ orbits !! r = Some r.
Proof.
  intros Hdown. revert val. induction fuel as [|fuel IH]; intros val Hlen Hfuel;
    [lia|].
  destruct (lookup_lt_is_Some_2 orbits val Hlen) as [v Hv].
  pose proof (Hdown val v Hv) as Hle.
  cbn [InflationSDP.follow]. unfold Np.item. rewrite Hv.
  destruct (Nat.eqb v val) eqn:Heq.
  - apply Nat.eqb_eq in Heq as ->. exists val. by repeat split.
  - apply Nat.eqb_neq in Heq.
    destruct (IH v) as (r & Hr & Hrv & Hfix); [lia|lia|].
    exists r. repeat split; [exact Hr|lia|exact Hfix].
Qed.

Lemma follow_start (orbits : list nat) (fuel val : nat) :
  never_upwards orbits -> val < length orbits -> val + 1 < fuel ->
  exists r, InflationSDP.follow fuel orbits val 0 = Some (inr r)
    /\ r <= val /\ orbits !! r = Some r.
Proof.
  intros Hdown Hlen Hfuel. destruct fuel as [|fuel]; [lia|].
  destruct (lookup_lt_is_Some_2 orbits val Hlen) as [v Hv].
  pose proof (Hdown val v Hv) as Hle.
  cbn [InflationSDP.follow]. unfold Np.item. rewrite Hv.
  destruct (Nat.eqb v 0) eqn:Heq.
  - apply Nat.eqb_eq in Heq as ->. exists 0. repeat split; [lia|].
    destruct (lookup_lt_is_Some_2 orbits 0) as [w Hw]; [lia|].
    pose proof (Hdown 0 w Hw). by replace w with 0 in Hw by lia.
  - destruct (follow_same orbits fuel v Hdown) as (r & Hr & Hrv & Hfix);
      [lia|lia|].
    exists r. repeat split; [exact Hr|lia|exact Hfix].
Qed.

Lemma follow_all_from (fuel m k : nat) (orbits : list nat) :
  never_upwards orbits -> k + m = length orbits -> length orbits < fuel ->
  (forall i v, i < k -> orbits !! i = Some v -> orbits !! v = Some v) ->
  exists orbits',
    InflationSDP.follow_all fuel (seq k m) orbits = Some (inr orbits')
    /\ length orbits' = length orbits
    /\ never_upwards orbits'
    /\ (forall i v, orbits' !! i = Some v -> orbits' !! v = Some v).
Proof.
  revert k orbits. induction m as [|m IH]; intros k orbits Hdown Hlen Hfuel Hdone.
  - exists orbits. simpl. repeat split; [exact Hdown|].
    intros i v Hi. apply (Hdone i v); [|exact Hi].
    apply lookup_lt_Some in Hi. lia.
  - cbn [seq InflationSDP.follow_all].
    destruct (lookup_lt_is_Some_2 orbits k) as [val Hval]; [lia|].
    pose proof (Hdown k val Hval) as Hle.
    unfold Np.item. rewrite Hval.
    destruct (follow_start orbits fuel val Hdown) as (r & Hr & Hrv & Hfix);
      [lia|lia|].
    rewrite Hr.
    destruct (IH (S k) (<[k := r]> orbits)) as (orbits' & Hrun & Hl & Hd & Hi).
    + intros i v. destruct (decide (i = k)) as [->|Hne].
      * rewrite list_lookup_insert_eq by lia. intros [= <-]. lia.
      * rewrite list_lookup_insert_ne by congruence. apply Hdown.
    + rewrite length_insert. lia.
    + rewrite length_insert. exact Hfuel.
    + intros i v Hik. destruct (decide (i = k)) as [->|Hne].
      * rewrite list_lookup_insert_eq by lia. intros [= <-].
        destruct (decide (r = k)) as [->|Hrk].
        -- rewrite list_lookup_insert_eq by lia. reflexivity.
        -- rewrite list_lookup_insert_ne by congruence. exact Hfix.
      * rewrite list_lookup_insert_ne by congruence. intros Hiv.
        pose proof (Hdown i v Hiv).
        rewrite list_lookup_insert_ne by lia.
        apply (Hdone i v); [lia|exact Hiv].
    + exists orbits'. rewrite length_insert in Hl. by repeat split.
Qed.

(** The loop that makes the orbits go until the representative ends
    whenever no entry of [orbits] exceeds its own index, whether or not the
    symmetries form a group: one more turn than the array has entries is
    enough for every key.  Afterwards every entry is an index that is its
    own entry, and still does not exceed the index it is stored at. *)
Theorem orbit_loop_terminates (fuel : nat) (orbits : list nat) :
  never_upwards orbits -> length orbits < fuel ->
  exists orbits',
    InflationSDP.follow_all fuel (seq 0 (length orbits)) orbits
      = Some (inr orbits')
    /\ length orbits' = length orbits
    /\ forall i v, orbits' !! i = Some v -> v <= i /\ orbits' !! v = Some v.
Proof.
  intros Hdown Hfuel.
  destruct (follow_all_from fuel (length orbits) 0 orbits Hdown)
    as (orbits' & Hrun & Hl & Hd & Hi); [lia|exact Hfuel|intros; lia|].
  exists orbits'. repeat split; [exact Hrun|exact Hl|by eapply Hd|by eapply Hi].
Qed.

(** A chain 3 -> 2 -> 1 -> 0 that the symmetrisation has not closed. *)
Lemma orbit_loop_witness :
  InflationSDP.follow_all 5 (seq 0 4) [0; 0; 1; 2] = Some (inr [0; 0; 0; 0])
  /\ exists orbits',
       InflationSDP.follow_all 5 (seq 0 (length [0; 0; 1; 2])) [0; 0; 1; 2]
         = Some (inr orbits')
       /\ length orbits' = length [0; 0; 1; 2]
       /\ forall i v, orbits' !! i = Some v -> v <= i /\ orbits' !! v = Some v.
Proof.
  split; [reflexivity|].
  apply (orbit_loop_terminates 5 [0; 0; 1; 2]).
  - intros i v Hi.
    destruct i as [|[|[|[|i]]]]; simpl in Hi; try discriminate;
      injection Hi as <-; lia.
  - simpl. lia.
Defined.

End OrbitLoop.

(** ** The generating columns *)

Module ColumnInvariants.

Lemma product_length {A : Type} (lists : list (list A)) (l : list A) :
  In l (InflationSDP.product lists) -> length l = length lists.
Proof.
  revert l. induction lists as [|x lists IH]; intros l; simpl.
  - intros [<-|[]]. reflexivity.
  - rewrite in_flat_map. intros (a & _ & Hl).
    apply in_map_iff in Hl as (l' & <- & Hl'). simpl. f_equal. by apply IH.
Qed.

Section Columns.
Variable hypergraph : list (list bool).
Variable inflation_levels : list nat.
Variable setting_cardinalities : list nat.
Variable outcome_cardinalities : list nat.
Variable commuting : bool.
Variable to_canonical : list (list nat) -> list (list nat).
Variable mon_lexsorted : list (list nat) -> list (list nat).
Variable remove_projector_squares : list (list nat) -> list (list nat).
Variable mon_is_zero : list (list nat) -> bool.

Local Abbreviation arr := (list (list nat)).
Local Abbreviation measurements :=
  (InflationSDP.measurements hypergraph inflation_levels setting_cardinalities
     outcome_cardinalities).
Local Abbreviation add_monomial :=
  (InflationSDP.add_monomial commuting to_canonical mon_lexsorted
     remove_projector_squares mon_is_zero).
Local Abbreviation add_block :=
  (InflationSDP.add_block hypergraph inflation_levels setting_cardinalities
     outcome_cardinalities commuting to_canonical mon_lexsorted
     remove_projector_squares mon_is_zero).
Local Abbreviation _build_cols_from_specs :=
  (InflationSDP._build_cols_from_specs hypergraph inflation_levels
     setting_cardinalities outcome_cardinalities commuting to_canonical
     mon_lexsorted remove_projector_squares mon_is_zero).
Local Abbreviation build_columns :=
  (InflationSDP.build_columns hypergraph inflation_levels
     setting_cardinalities outcome_cardinalities commuting to_canonical
     mon_lexsorted remove_projector_squares mon_is_zero).
Local Abbreviation npa_col_specs :=
  (InflationSDP.npa_col_specs setting_cardinalities).

(** What one product of operators can add to the columns. *)
Lemma add_monomial_cases (mf : arr) (st : list arr * list arr) :
  add_monomial mf st = st
  \/ exists canon,
       add_monomial mf st = (fst st ++ [canon], snd st ++ [canon])
       /\ length canon = length mf /\ canon ∉ snd st.
Proof.
  unfold InflationSDP.add_monomial. destruct st as [res allvars].
  destruct (InflationSDP.canon_of _ _ _ _ _ mf) as [canon|]; [|by left].
  destruct (Nat.eqb (length canon) (length mf)) eqn:Hlen; [|by left].
  apply Nat.eqb_eq in Hlen.
  destruct (bool_decide (canon ∈ allvars)) eqn:Hin; [by left|].
  apply bool_decide_eq_false in Hin. right. exists canon. by repeat split.
Qed.

(** A property of the pair [(res, allvars)] that every product of the
    block keeps is kept by the block. *)
Lemma add_block_invariant (P : list arr * list arr -> Prop) (block : list nat)
  (st : list arr * list arr) :
  block <> [] ->
  (forall mf st, length mf = length block -> P st -> P (add_monomial mf st)) ->
  P st -> P (add_block block st).
Proof.
  intros Hne Hstep. unfold InflationSDP.add_block.
  destruct block as [|party block]; [done|].
  set (b := party :: block) in *. clearbody b.
  assert (Hlen : forall mf, In mf (InflationSDP.product (map measurements b)) ->
                            length mf = length b).
  { intros mf Hmf. apply product_length in Hmf. by rewrite length_map in Hmf. }
  revert st Hlen. generalize (InflationSDP.product (map measurements b)).
  intros l. induction l as [|mf l IH]; intros st Hlen HP; simpl; [exact HP|].
  apply IH.
  - intros mf' Hmf'. apply Hlen. by right.
  - apply Hstep; [apply Hlen; by left|exact HP].
Qed.

(** The columns and the names seen are the same list, without repetition,
    as long as the blocks have parties. *)
Lemma blocks_keep_distinct (blocks : list (list nat))
  (st : list arr * list arr) :
  Forall (fun block => block <> []) blocks ->
  fst st = snd st -> NoDup (fst st) ->
  fst (foldl (fun st block => add_block block st) st blocks) =
  snd (foldl (fun st block => add_block block st) st blocks)
  /\ NoDup (fst (foldl (fun st block => add_block block st) st blocks))
  /\ forall canon, canon ∈ fst st ->
       canon ∈ fst (foldl (fun st block => add_block block st) st blocks).
Proof.
  intros Hne. revert st. induction Hne as [|block blocks Hb Hbs IH];
    intros st Heq Hnd; simpl; [by repeat split|].
  assert (Hst : fst (add_block block st) = snd (add_block block st)
                /\ NoDup (fst (add_block block st))
                /\ forall canon, canon ∈ fst st ->
                     canon ∈ fst (add_block block st)).
  { apply (add_block_invariant
             (fun t => fst t = snd t /\ NoDup (fst t)
                       /\ forall canon, canon ∈ fst st -> canon ∈ fst t));
      [exact Hb| |by repeat split].
    intros mf t _ (Ht & Hndt & Hsub).
    destruct (add_monomial_cases mf t) as [->|(canon & -> & _ & Hnew)];
      [by repeat split|].
    simpl. split; [by rewrite Ht|]. split.
    - apply NoDup_app. split; [exact Hndt|]. split.
      + intros x Hx Hx'. apply list_elem_of_singleton in Hx' as ->.
        apply Hnew. by rewrite <- Ht.
      + apply NoDup_singleton.
    - intros c Hc. apply elem_of_app. left. by apply Hsub. }
  destruct Hst as (H1 & H2 & H3).
  destruct (IH _ H1 H2) as (I1 & I2 & I3).
  repeat split; [exact I1|exact I2|]. intros c Hc. apply I3, H3, Hc.
Qed.

(** No column is repeated when no block after the first is empty: a product
    of operators is added only if its canonical form has not been seen; the
    unit, which an empty block adds without looking, comes first if at
    all. *)
Theorem columns_are_distinct (col_specs : list (list nat)) :
  Forall (fun block => block <> []) (tail col_specs) ->
  NoDup (_build_cols_from_specs col_specs).
Proof.
  unfold InflationSDP._build_cols_from_specs.
  destruct col_specs as [|block blocks]; simpl; [intros _; apply NoDup_nil_2|].
  intros Hne.
  destruct block as [|party block].
  - apply blocks_keep_distinct; [exact Hne|reflexivity|apply NoDup_singleton].
  - apply (blocks_keep_distinct ((party :: block) :: blocks));
      [|reflexivity|apply NoDup_nil_2].
    constructor; [discriminate|exact Hne].
Qed.

(** Every column has as many operators as the block it comes from has
    parties: a product that simplifies to a shorter monomial is left to the
    shorter blocks. *)
Theorem columns_have_the_length_of_a_block (col_specs : list (list nat))
  (canon : arr) :
  canon ∈ _build_cols_from_specs col_specs ->
  exists block, block ∈ col_specs /\ length canon = length block.
Proof.
  unfold InflationSDP._build_cols_from_specs.
  assert (Hgen : forall blocks st,
            (forall c, c ∈ fst st ->
               exists block, block ∈ col_specs /\ length c = length block) ->
            (forall block, block ∈ blocks -> block ∈ col_specs) ->
            forall c,
              c ∈ fst (foldl (fun st block => add_block block st) st blocks) ->
              exists block, block ∈ col_specs /\ length c = length block).
  { induction blocks as [|block blocks IH]; intros st Hst Hsub; simpl;
      [exact Hst|].
    apply IH; [|intros b Hb; apply Hsub; by right].
    assert (Hin : block ∈ col_specs) by (apply Hsub; by left).
    destruct block as [|party block].
    - simpl. intros c Hc. apply elem_of_app in Hc as [Hc|Hc]; [by apply Hst|].
      apply list_elem_of_singleton in Hc as ->. exists []. by split.
    - apply (add_block_invariant
               (fun t => forall c, c ∈ fst t ->
                  exists b, b ∈ col_specs /\ length c = length b));
        [discriminate| |exact Hst].
      intros mf t Hlen Ht.
      destruct (add_monomial_cases mf t) as [->|(c' & -> & Hc' & _)];
        [exact Ht|].
      simpl. intros c Hc. apply elem_of_app in Hc as [Hc|Hc]; [by apply Ht|].
      apply list_elem_of_singleton in Hc as ->.
      exists (party :: block). split; [exact Hin|congruence]. }
  apply Hgen.
  - intros c Hc. by apply elem_of_nil in Hc.
  - auto.
Qed.

Lemma npa_blocks_have_parties (npa_level max_monomial_length : nat) :
  Forall (fun block => block <> [])
    (tail (npa_col_specs npa_level max_monomial_length)).
Proof.
  unfold InflationSDP.npa_col_specs. simpl.
  apply Forall_forall. intros block Hblock.
  apply list_elem_of_In, in_flat_map in Hblock as (len & Hlen & Hblock).
  apply in_seq in Hlen.
  apply list_elem_of_In, list_elem_of_filter in Hblock as [_ Hblock].
  apply list_elem_of_In, product_length in Hblock.
  rewrite length_replicate in Hblock.
  intros ->. simpl in Hblock. lia.
Qed.

Lemma unit_stays_first (bs : list (list nat)) (st : list arr * list arr) :
  fst st !! 0 = Some [] ->
  fst (foldl (fun st block => add_block block st) st bs) !! 0 = Some [].
Proof.
  revert st. induction bs as [|block bs IH]; intros st Hst; simpl;
    [exact Hst|].
  apply IH. destruct block as [|party block].
  - simpl. by rewrite lookup_app_l by (apply lookup_lt_Some in Hst; lia).
  - apply (add_block_invariant (fun t => fst t !! 0 = Some []));
      [discriminate| |exact Hst].
    intros mf t _ Ht.
    destruct (add_monomial_cases mf t) as [->|(c' & -> & _)]; [exact Ht|].
    simpl. by rewrite lookup_app_l by (apply lookup_lt_Some in Ht; lia).
Qed.

(** The generating set of an NPA level starts with the unit and repeats no
    monomial, whatever the scenario and the maximal length. *)
Theorem npa_columns_start_with_the_unit_and_are_distinct
  (npa_level max_monomial_length : nat) :
  build_columns (InflationSDP.SpecNpa npa_level) max_monomial_length !! 0
    = Some []
  /\ NoDup (build_columns (InflationSDP.SpecNpa npa_level)
              max_monomial_length).
Proof.
  unfold InflationSDP.build_columns, InflationSDP._build_cols_from_specs.
  pose proof (npa_blocks_have_parties npa_level max_monomial_length) as Hne.
  unfold InflationSDP.npa_col_specs in *. simpl in *.
  split.
  - by apply unit_stays_first.
  - by apply blocks_keep_distinct; [exact Hne| |apply NoDup_singleton].
Qed.

End Columns.

(** The column structure of the bilocal test: the unit, then the blocks of
    one and of two parties. *)
Lemma columns_are_distinct_witness :
  Forall (fun block : list nat => block <> []) (tail Bilocal.col_structure)
  /\ NoDup (InflationSDP._build_cols_from_specs Bilocal.hypergraph
              Bilocal.inflation_levels Bilocal.settings_per_party
              Bilocal.outcomes_per_party false
              (FastNpa.to_canonical 2 (FastNpa.notcomm 2))
              FastNpa.mon_lexsorted FastNpa.remove_projector_squares
              FastNpa.mon_is_zero Bilocal.col_structure).
Proof.
  assert (Hne : Forall (fun block : list nat => block <> [])
                  (tail Bilocal.col_structure))
    by (repeat constructor; discriminate).
  split; [exact Hne|].
  exact (columns_are_distinct Bilocal.hypergraph Bilocal.inflation_levels
           Bilocal.settings_per_party Bilocal.outcomes_per_party false
           (FastNpa.to_canonical 2 (FastNpa.notcomm 2))
           FastNpa.mon_lexsorted FastNpa.remove_projector_squares
           FastNpa.mon_is_zero Bilocal.col_structure Hne).
Defined.

(** The product of the two operators of the first party is a column of the
    block [[0; 0]]. *)
Lemma columns_have_the_length_of_a_block_witness :
  exists block,
    block ∈ Bilocal.col_structure
    /\ length [Bilocal.A_1; Bilocal.A_2] = length block.
Proof.
  apply (columns_have_the_length_of_a_block Bilocal.hypergraph
           Bilocal.inflation_levels Bilocal.settings_per_party
           Bilocal.outcomes_per_party false
           (FastNpa.to_canonical 2 (FastNpa.notcomm 2))
           FastNpa.mon_lexsorted FastNpa.remove_projector_squares
           FastNpa.mon_is_zero Bilocal.col_structure
           [Bilocal.A_1; Bilocal.A_2]).
  refine (bool_decide_unpack _ _). vm_compute. exact I.
Defined.

End ColumnInvariants.
